(** * Viewport intersection engine and step sequencer

    A shallow embedding of the core of [src/setupScrollama.js]: the
    rectangle geometry and threshold logic of the bundled
    IntersectionObserver registry, and the scrollama step sequencer built
    on top of it, followed by the properties the specification states
    about them.

    Conventions of the embedding.
    - JavaScript numbers that carry pixel coordinates, ratios and offsets
      are taken as exact rationals ([Q]); [Math.max], [Math.min], [+], [-],
      [*], [/] and the comparisons are the rational ones.  Numbers whose
      string form matters (the default [Array.prototype.sort]) are modelled
      separately by their decimal form, see [JsNumber].  Where the
      rounding of the arithmetic decides what the code does, the
      arithmetic is that of doubles, see [Double]: the thresholds of
      [createThreshold], the trigger line, and the numbers written into
      the margin strings of the observers.
    - A closure variable of [scrollama()] is a field of [Session.t]; a
      function that mutates closure variables is a computation in the
      monad [M], which threads the session and records a raised exception
      without discarding the mutations made before it.
    - A user callback is opaque: invoking it appends an [Event] to the
      session's [log].
    - An observer of the sequencer keeps its top and bottom margins as
      the numbers its constructor parses from the margin string.  The
      constructor raises when a number written into the string prints
      with an exponent, as [Infinity] or as [NaN] ([Scrollama.parsed]);
      the string route itself, character by character, is part of the
      registry's constructor ([IntersectionObserver.create]). *)

From Stdlib Require Import QArith Qminmax Qround Qpower ZArith String Ascii List Lqa.
From stdpp Require Import gmap list pretty.
Import ListNotations.

(* ===================================================================== *)
(** * Part I: definitions                                                 *)
(* ===================================================================== *)

(** ** Rectangles (the registry's geometry helpers) *)

Module Rect.
(** The six-field rect objects of [getBoundingClientRect],
    [getEmptyRect] and [computeRectIntersection]. *)
Record t : Type := mk {
  top : Q; bottom : Q; left : Q; right : Q; width : Q; height : Q
}.

(** Field-wise rational equality. *)
Definition equiv (r1 r2 : t) : Prop :=
  (top r1 == top r2 /\ bottom r1 == bottom r2 /\ left r1 == left r2 /\
   right r1 == right r2 /\ width r1 == width r2 /\ height r1 == height r2)%Q.
End Rect.

Module Geometry.
Local Open Scope Q_scope.

(** [getEmptyRect()] *)
Definition getEmptyRect : Rect.t := Rect.mk 0 0 0 0 0 0.

(** [computeRectIntersection(rect1, rect2)].  The source returns
    [(width >= 0 && height >= 0) && {...}]: the rect object, or the
    falsy [false] that its callers read as "no intersection"; the
    latter is [None] here. *)
Definition computeRectIntersection (rect1 rect2 : Rect.t) : option Rect.t :=
  let top := Qmax (Rect.top rect1) (Rect.top rect2) in
  let bottom := Qmin (Rect.bottom rect1) (Rect.bottom rect2) in
  let left := Qmax (Rect.left rect1) (Rect.left rect2) in
  let right := Qmin (Rect.right rect1) (Rect.right rect2) in
  let width := right - left in
  let height := bottom - top in
  if Qle_bool 0 width && Qle_bool 0 height
  then Some (Rect.mk top bottom left right width height)
  else None.

(** A root-margin component as [_parseRootMargin] produces it:
    [{value: parseFloat(parts[1]), unit: parts[2]}] with unit
    ['px'] or ['%']. *)
Inductive MarginUnit : Type := px | percent.

Record Margin : Type := mkMargin { value : Q; unit : MarginUnit }.

(** The shorthand completion at the end of [_parseRootMargin], on the
    list of components already parsed from the margin string:
    [margins[1] = margins[1] || margins[0]], [margins[2] = margins[2] ||
    margins[0]], [margins[3] = margins[3] || margins[1]].  Components
    beyond the fourth are kept, as in the source.  The margin string
    always yields at least one component. *)
Definition completeShorthand (margins : list Margin) : list Margin :=
  match margins with
  | [] => []
  | [m0] => [m0; m0; m0; m0]
  | [m0; m1] => [m0; m1; m0; m1]
  | [m0; m1; m2] => [m0; m1; m2; m1]
  | _ => margins
  end.

(** The callback of [this._rootMarginValues.map(function(margin, i) ...)]:
    a pixel margin is its value, a percentage is taken of the rect's
    width for odd [i] and of its height for even [i]. *)
Definition resolveMargin (rect : Rect.t) (i : nat) (margin : Margin) : Q :=
  match unit margin with
  | px => value margin
  | percent =>
      value margin * (if Nat.odd i then Rect.width rect else Rect.height rect)
        / 100
  end.

(** [IntersectionObserver.prototype._expandRectByRootMargin(rect)], with
    the observer's [_rootMarginValues] as first argument.  Reading
    [margins[k]] beyond the end of the array yields [undefined] in the
    source and the edges become [NaN]; that outcome is [None] here. *)
Definition _expandRectByRootMargin
    (_rootMarginValues : list Margin) (rect : Rect.t) : option Rect.t :=
  let margins := imap (resolveMargin rect) _rootMarginValues in
  match margins !! 0%nat, margins !! 1%nat, margins !! 2%nat, margins !! 3%nat with
  | Some mg0, Some mg1, Some mg2, Some mg3 =>
      let top := Rect.top rect - mg0 in
      let right := Rect.right rect + mg1 in
      let bottom := Rect.bottom rect + mg2 in
      let left := Rect.left rect - mg3 in
      Some (Rect.mk top bottom left right (right - left) (bottom - top))
  | _, _, _, _ => None
  end.
End Geometry.

(** ** JavaScript numbers by their decimal form *)

Module JsNumber.
Local Open Scope Z_scope.

(** A Number value: [NaN], an infinity, or the finite value
    [(-1)^negative * digits * 10^exponent].  Every finite double has
    such a form (its shortest round-trip decimal), which is the form
    the language's Number-to-String conversion is specified on. *)
Inductive t : Type :=
| NaN
| Infinity (negative : bool)
| Finite (negative : bool) (digits : N) (exponent : Z).

(** The rational value of a finite number. *)
Definition toQ (x : t) : option Q :=
  match x with
  | Finite negative digits exponent =>
      let m := (inject_Z (Z.of_N digits) * Qpower (10 # 1) exponent)%Q in
      Some (if negative then Qopp m else m)
  | _ => None
  end.

(** [isNaN(x)] *)
Definition isNaN (x : t) : bool :=
  match x with NaN => true | _ => false end.

(** [x < y] on Numbers: false as soon as an operand is [NaN]. *)
Definition lt (x y : t) : bool :=
  match x, y with
  | NaN, _ | _, NaN => false
  | Infinity true, Infinity true => false
  | Infinity true, _ => true
  | _, Infinity true => false
  | Infinity false, _ => false
  | _, Infinity false => true
  | Finite _ _ _, Finite _ _ _ =>
      match toQ x, toQ y with
      | Some a, Some b => negb (Qle_bool b a)
      | _, _ => false
      end
  end.

(** [x === y] on Numbers: [NaN] equals nothing, [+0 === -0]. *)
Definition strictEq (x y : t) : bool :=
  match x, y with
  | NaN, _ | _, NaN => false
  | Infinity a, Infinity b => Bool.eqb a b
  | Finite _ _ _, Finite _ _ _ =>
      match toQ x, toQ y with
      | Some a, Some b => Qeq_bool a b
      | _, _ => false
      end
  | _, _ => false
  end.

(** Removes the trailing decimal zeros of a mantissa, so that the
    digit count [k] of Number-to-String is as small as possible. *)
Fixpoint stripZeros (fuel : nat) (digits : N) (exponent : Z) : N * Z :=
  match fuel with
  | O => (digits, exponent)
  | S fuel' =>
      if (N.eqb (digits mod 10) 0 && negb (N.eqb digits 0))%bool
      then stripZeros fuel' (digits / 10)%N (exponent + 1)
      else (digits, exponent)
  end.

Definition zeros (n : Z) : string :=
  String.concat "" (repeat "0"%string (Z.to_nat n)).

(** Number-to-String in radix 10 (what [String(x)] returns and what the
    default sort compares). With [k] the number of digits of the
    stripped mantissa [s] and [n] such that the value is
    [s * 10^(n-k)]: plain digits when [k <= n <= 21], a decimal point
    inside the digits when [0 < n <= 21], a leading ["0."] when
    [-6 < n <= 0], and exponential notation otherwise. *)
Definition toString (x : t) : string :=
  match x with
  | NaN => "NaN"
  | Infinity negative => if negative then "-Infinity" else "Infinity"
  | Finite negative digits exponent =>
      if N.eqb digits 0 then "0" else
      let '(s, e) := stripZeros (N.to_nat (N.size digits)) digits exponent in
      let ds := pretty s in
      let k := Z.of_nat (String.length ds) in
      let n := e + k in
      let body :=
        if (k <=? n) && (n <=? 21) then
          (ds ++ zeros (n - k))%string
        else if (0 <? n) && (n <=? 21) then
          (substring 0 (Z.to_nat n) ds ++ "." ++
           substring (Z.to_nat n) (Z.to_nat (k - n)) ds)%string
        else if (-6 <? n) && (n <=? 0) then
          ("0." ++ zeros (- n) ++ ds)%string
        else
          let c := if 0 <=? n - 1 then "+"%string else "-"%string in
          let ex := pretty (Z.to_N (Z.abs (n - 1))) in
          if k =? 1 then (ds ++ "e" ++ c ++ ex)%string
          else (substring 0 1 ds ++ "." ++
                substring 1 (Z.to_nat (k - 1)) ds ++ "e" ++ c ++ ex)%string
      in
      if negative then ("-" ++ body)%string else body
  end.
End JsNumber.

(** ** Double-precision arithmetic

    The result of an arithmetic operation on Numbers is the exact
    result rounded to the nearest double, ties to the even significand.
    A finite double is kept as the rational it denotes. *)

Module Double.
Local Open Scope Q_scope.

Definition lt (x y : Q) : bool := negb (Qle_bool y x).

Definition magnitude (x : Q) : Q := Qmax x (- x).

Definition pow2 (k : Z) : Q := 2 ^ k.

(** The binary exponent of a positive rational: [2^e <= x < 2^(e+1)]. *)
Definition exponent (x : Q) : Z :=
  let k := (Z.log2 (Qnum x) - Z.log2 (Zpos (Qden x)))%Z in
  if Qle_bool (pow2 k) x then k else (k - 1)%Z.

(** The nearest integer, a tie going to the even one. *)
Definition nearestEven (m : Q) : Z :=
  let f := Qfloor m in
  let r := m - inject_Z f in
  if lt r (1 # 2) then f
  else if lt (1 # 2) r then (f + 1)%Z
  else if Z.even f then f else (f + 1)%Z.

(** The nearest number with a significand of 53 bits and an exponent of
    at least [-1022] (below [2^-1022] the doubles are evenly spaced,
    [2^-1074] apart).  The exponent has no upper bound here: see
    [finite] for the overflow. *)
Definition round (x : Q) : Q :=
  let a := magnitude x in
  let e := Z.max (exponent a) (-1022) in
  let ulp := pow2 (e - 52) in
  let r := inject_Z (nearestEven (a / ulp)) * ulp in
  if Qle_bool 0 x then r else - r.



(** A Number: a finite double, or [None] for [Infinity], [-Infinity]
    and [NaN].  A sum or a difference of which an operand is not finite
    is not finite. *)
Definition number : Type := option Q.

Definition num (x : Q) : number := Some x.

(** The rounded result, which is an infinity from [2^1024] on. *)
Definition finite (x : Q) : number :=
  let r := round x in
  if lt (magnitude r) (pow2 1024) then Some r else None.

(** [a + b], [a - b] and [-a] *)
Definition add (a b : number) : number :=
  match a, b with Some x, Some y => finite (x + y) | _, _ => None end.

Definition sub (a b : number) : number :=
  match a, b with Some x, Some y => finite (x - y) | _, _ => None end.

Definition neg (a : number) : number :=
  match a with Some x => Some (- x) | None => None end.

End Double.

(** ** The observation registry (IntersectionObserver) *)

Module Registry.

(** An element of a user-supplied threshold array: a Number, or any
    other value, of which only its string conversion matters (to the
    default sort); [undefined] is kept apart because the sort puts it
    last whatever its string form. *)
Inductive JsValue : Type :=
| number (x : JsNumber.t)
| other (str : string)
| undefined.

(** The [threshold] option handed to the constructor. *)
Inductive ThresholdOption : Type :=
| unset                             (* no threshold supplied *)
| scalar (x : JsNumber.t)           (* a single number *)
| array (a : list JsValue).         (* an array of values *)

(** The outcome of a call that may raise. *)
Inductive Completion (A : Type) : Type :=
| Return (a : A)
| Throw (message : string).
Arguments Return {A} a.
Arguments Throw {A} message.

(** The comparison of [Array.prototype.sort()] called without a
    comparator: [undefined] sorts last, everything else by the
    code-unit order of its string conversion. *)
Definition toStr (v : JsValue) : string :=
  match v with
  | number x => JsNumber.toString x
  | other str => str
  | undefined => "undefined"
  end.

Definition sortCompare (x y : JsValue) : comparison :=
  match x, y with
  | undefined, undefined => Eq
  | undefined, _ => Gt
  | _, undefined => Lt
  | _, _ => String.compare (toStr x) (toStr y)
  end.

(** [a.sort()]: a stable sort by [sortCompare] (insertion sort; the
    result of a stable sort does not depend on the algorithm). *)
Fixpoint insert (x : JsValue) (a : list JsValue) : list JsValue :=
  match a with
  | [] => [x]
  | y :: a' =>
      match sortCompare x y with
      | Gt => y :: insert x a'
      | _ => x :: y :: a'
      end
  end.

Definition sort (a : list JsValue) : list JsValue := foldr insert [] a.

(** [typeof t != 'number' || isNaN(t) || t < 0 || t > 1] *)
Definition invalidThreshold (t : JsValue) : bool :=
  match t with
  | number x =>
      JsNumber.isNaN x
      || JsNumber.lt x (JsNumber.Finite false 0 0)
      || JsNumber.lt (JsNumber.Finite false 1 0) x
  | _ => true
  end.

(** [t !== a[i - 1]], with [prev] the element before [t] ([None] at
    index 0, where [a[-1]] is [undefined]). *)
Definition differsFromPrevious (prev : option JsValue) (t : JsValue) : bool :=
  match prev, t with
  | Some (number p), number x => negb (JsNumber.strictEq x p)
  | Some (other p), other x => negb (String.eqb x p)
  | Some undefined, undefined => false
  | _, _ => true
  end.

(** The [filter] of [_initThresholds], visiting the sorted array from
    the left; the callback raises on the first invalid element. *)
Fixpoint filterThresholds (prev : option JsValue) (a : list JsValue)
    : Completion (list JsValue) :=
  match a with
  | [] => Return []
  | t :: a' =>
      if invalidThreshold t
      then Throw "threshold must be a number between 0 and 1 inclusively"
      else
        match filterThresholds (Some t) a' with
        | Throw message => Throw message
        | Return rest =>
            Return (if differsFromPrevious prev t then t :: rest else rest)
        end
  end.

(** [IntersectionObserver.prototype._initThresholds(opt_threshold)].
    [opt_threshold || [0]] replaces a missing threshold and the falsy
    numbers [0] and [NaN] by [[0]]; a remaining scalar is wrapped in an
    array. *)
Definition _initThresholds (opt_threshold : ThresholdOption)
    : Completion (list JsValue) :=
  let zero := number (JsNumber.Finite false 0 0) in
  let threshold :=
    match opt_threshold with
    | unset => [zero]
    | scalar x =>
        match x with
        | JsNumber.NaN => [zero]
        | JsNumber.Finite _ 0%N _ => [zero]
        | _ => [number x]
        end
    | array a => a
    end in
  filterThresholds None (sort threshold).

(** The fields of an [IntersectionObserverEntry] that the registry's
    crossing test and the sequencer read. *)
Record Entry : Type := mkEntry {
  target : nat;
  boundingClientRect : Rect.t;
  isIntersecting : bool;
  intersectionRatio : Q
}.

Local Open Scope Q_scope.

Definition Qlt_bool (x y : Q) : bool := negb (Qle_bool y x).

(** [entry && entry.isIntersecting ? entry.intersectionRatio || 0 : -1] *)
Definition effectiveRatio (entry : option Entry) : Q :=
  match entry with
  | Some e =>
      if isIntersecting e
      then (if Qeq_bool (intersectionRatio e) 0 then 0 else intersectionRatio e)
      else -1
  | None => -1
  end.

(** The [for] loop of [_hasCrossedThreshold] over [this.thresholds]. *)
Fixpoint crossesSome (thresholds : list Q) (oldRatio newRatio : Q) : bool :=
  match thresholds with
  | [] => false
  | threshold :: rest =>
      if Qeq_bool threshold oldRatio || Qeq_bool threshold newRatio
         || negb (Bool.eqb (Qlt_bool threshold oldRatio)
                           (Qlt_bool threshold newRatio))
      then true
      else crossesSome rest oldRatio newRatio
  end.

(** [IntersectionObserver.prototype._hasCrossedThreshold(oldEntry,
    newEntry)]; the result is [true] or the falsy [undefined], which
    is [false] here. *)
Definition _hasCrossedThreshold (thresholds : list Q)
    (oldEntry : option Entry) (newEntry : Entry) : bool :=
  let oldRatio := effectiveRatio oldEntry in
  let newRatio := effectiveRatio (Some newEntry) in
  if Qeq_bool oldRatio newRatio then false
  else crossesSome thresholds oldRatio newRatio.
End Registry.

(** ** The step sequencer (scrollama) *)

Module Scrollama.

(** The strings ['up'] / ['down'] and ['enter'] / ['exit']. *)
Inductive Direction : Type := up | down.
Inductive Phase : Type := enter | exit.

Definition Direction_eqb (a b : Direction) : bool :=
  match a, b with up, up | down, down => true | _, _ => false end.

(** An entry of [stepStates], and [containerState]:
    [{direction: null, state: null}] when created by [setupStates]. *)
Module StepState.
Record t : Type := mk { direction : option Direction; state : option Phase }.

Definition initial : t := mk None None.

(** [ss.state === 'enter'] and [ss.direction === d] *)
Definition entered (ss : t) : bool :=
  match state ss with Some enter => true | _ => false end.

Definition directionIs (d : Direction) (ss : t) : bool :=
  match direction ss with Some d' => Direction_eqb d' d | None => false end.
End StepState.

(** A value stored under a key of the [callback] object: a function
    (told apart by a tag), [null], or anything else. *)
Inductive JsCallback : Type := function (f : nat) | null | notFunction.

(** The [callback] object; a key that was never assigned is [None]. *)
Module Callbacks.
Record t : Type := mk {
  stepEnter : option JsCallback;
  stepExit : option JsCallback;
  stepProgress : option JsCallback;
  containerEnter : option JsCallback;
  containerExit : option JsCallback
}.

Definition empty : t := mk None None None None None.

(** [cb && typeof cb === 'function'] *)
Definition callable (slot : option JsCallback) : bool :=
  match slot with Some (function _) => true | _ => false end.

(** [Object.keys(callback).forEach(c => (callback[c] = null))] *)
Definition clearSlot (slot : option JsCallback) : option JsCallback :=
  match slot with Some _ => Some null | None => None end.

Definition clear (c : t) : t :=
  mk (clearSlot (stepEnter c)) (clearSlot (stepExit c))
     (clearSlot (stepProgress c)) (clearSlot (containerEnter c))
     (clearSlot (containerExit c)).
End Callbacks.

(** The function handed to an observer as its callback. *)
Inductive Handler : Type :=
| hStepAbove | hStepBelow | hViewportAbove | hViewportBelow
| hStepProgress | hTop | hBottom.

(** An [IntersectionObserver] as scrollama configures and drives it: the
    callback, the top and bottom components of [rootMargin] in pixels
    (left and right are always [0px]), the [threshold] option as passed,
    the watched targets and whether the registry is monitoring.  The
    margins are kept as the numbers the constructor parsed from the
    margin string. *)
Module Observer.
Record t : Type := mk {
  _callback : Handler;
  marginTop : Q;
  marginBottom : Q;
  threshold : list Q;
  _observationTargets : list nat;
  _monitoringIntersections : bool
}.

(** [new IntersectionObserver(callback, options)] *)
Definition create (cb : Handler) (mt mb : Q) (th : list Q) : t :=
  mk cb mt mb th [] false.

(** [observe(target)]: nothing if the target is already watched, an
    error if the target is not an element ([None] stands for [null]),
    otherwise the target is added and monitoring starts; the first check
    itself is throttled and happens later. *)
Definition observe (target : option nat) (o : t) : option t :=
  match target with
  | None => None
  | Some el =>
      if existsb (Nat.eqb el) (_observationTargets o) then Some o
      else Some (mk (_callback o) (marginTop o) (marginBottom o) (threshold o)
                    (_observationTargets o ++ [el]) true)
  end.

(** [unobserve(target)] *)
Definition unobserve (target : option nat) (o : t) : t :=
  let targets :=
    match target with
    | None => _observationTargets o
    | Some el => List.filter (fun x => negb (Nat.eqb x el)) (_observationTargets o)
    end in
  mk (_callback o) (marginTop o) (marginBottom o) (threshold o) targets
     (match targets with [] => false | _ => _monitoringIntersections o end).

(** [disconnect()] *)
Definition disconnect (o : t) : t :=
  mk (_callback o) (marginTop o) (marginBottom o) (threshold o) [] false.

End Observer.

(** A key of the [io] object: never assigned, set to [null] (by
    [destroy]), or holding a value. *)
Inductive Slot (A : Type) : Type := unassigned | nulled | holding (v : A).
Arguments unassigned {A}.
Arguments nulled {A}.
Arguments holding {A} v.

(** [Object.keys(io).forEach(i => (io[i] = null))], on one key *)
Definition clearSlot {A : Type} (slot : Slot A) : Slot A :=
  match slot with unassigned => unassigned | _ => nulled end.

(** [if (io.k) io.k.disconnect()] and
    [if (io.k) io.k.forEach(d => d.disconnect())] *)
Definition disconnectOne (slot : Slot Observer.t) : Slot Observer.t :=
  match slot with holding o => holding (Observer.disconnect o) | _ => slot end.

Definition disconnectEach (slot : Slot (list Observer.t)) : Slot (list Observer.t) :=
  match slot with
  | holding os => holding (List.map Observer.disconnect os)
  | _ => slot
  end.

(** The [io] object. *)
Module Observers.
Record t : Type := mk {
  top : Slot Observer.t;
  bottom : Slot Observer.t;
  stepAbove : Slot (list Observer.t);
  stepBelow : Slot (list Observer.t);
  stepProgress : Slot (list Observer.t);
  viewportAbove : Slot (list Observer.t);
  viewportBelow : Slot (list Observer.t)
}.

Definition empty : t :=
  mk unassigned unassigned unassigned unassigned unassigned unassigned unassigned.

Definition set_top v (o : t) : t :=
  mk v (bottom o) (stepAbove o) (stepBelow o) (stepProgress o) (viewportAbove o) (viewportBelow o).
Definition set_bottom v (o : t) : t :=
  mk (top o) v (stepAbove o) (stepBelow o) (stepProgress o) (viewportAbove o) (viewportBelow o).
Definition set_stepAbove v (o : t) : t :=
  mk (top o) (bottom o) v (stepBelow o) (stepProgress o) (viewportAbove o) (viewportBelow o).
Definition set_stepBelow v (o : t) : t :=
  mk (top o) (bottom o) (stepAbove o) v (stepProgress o) (viewportAbove o) (viewportBelow o).
Definition set_stepProgress v (o : t) : t :=
  mk (top o) (bottom o) (stepAbove o) (stepBelow o) v (viewportAbove o) (viewportBelow o).
Definition set_viewportAbove v (o : t) : t :=
  mk (top o) (bottom o) (stepAbove o) (stepBelow o) (stepProgress o) v (viewportBelow o).
Definition set_viewportBelow v (o : t) : t :=
  mk (top o) (bottom o) (stepAbove o) (stepBelow o) (stepProgress o) (viewportAbove o) v.

(** The body of the [else if (!enable)] branch of [handleEnable]. *)
Definition disconnectAll (o : t) : t :=
  mk (disconnectOne (top o)) (disconnectOne (bottom o))
     (disconnectEach (stepAbove o)) (disconnectEach (stepBelow o))
     (disconnectEach (stepProgress o)) (disconnectEach (viewportAbove o))
     (disconnectEach (viewportBelow o)).

Definition clear (o : t) : t :=
  mk (clearSlot (top o)) (clearSlot (bottom o)) (clearSlot (stepAbove o))
     (clearSlot (stepBelow o)) (clearSlot (stepProgress o))
     (clearSlot (viewportAbove o)) (clearSlot (viewportBelow o)).
End Observers.

(** What the outside world sees of a run: the user callbacks invoked, with
    the fields of their response object (the [element] field is the
    element the index was read from), and the console errors. *)
Inductive Event : Type :=
| CallStepEnter (index : nat) (direction : Direction)
| CallStepExit (index : nat) (direction : Direction)
| CallStepProgress (index : nat) (progress : Q)
| CallContainerEnter (direction : option Direction)
| CallContainerExit (direction : option Direction)
| ConsoleError (message : string).

(** The closure variables of [scrollama()], the [data-scrollama-index]
    attribute of the elements, and the log of events.  Elements are
    numbered DOM nodes.  The debug overlay ([id], [setupOffset],
    [notifyStep], [update]) only paints and is left out. *)
Module Session.
Record t : Type := mk {
  callback : Callbacks.t;
  io : Observers.t;
  containerEl : option nat;
  graphicEl : option nat;
  stepEl : option (list nat);
  offsetVal : Q;
  offsetMargin : Q;
  vh : Q;
  ph : Q;
  stepOffsetHeight : option (list Q);
  stepOffsetTop : option (list Q);
  bboxGraphic : option Rect.t;
  isReady : bool;
  isEnabled : bool;
  debugMode : bool;
  progressMode : bool;
  progressThreshold : Q;
  preserveOrder : bool;
  triggerOnce : bool;
  stepStates : option (list StepState.t);
  containerState : option StepState.t;
  previousYOffset : Q;
  direction : option Direction;
  exclude : gset nat;
  dataScrollamaIndex : gmap nat nat;
  log : list Event
}.

Definition set_callback (v : Callbacks.t) (s : t) : t :=
  mk v (io s) (containerEl s) (graphicEl s) (stepEl s) (offsetVal s)
    (offsetMargin s) (vh s) (ph s) (stepOffsetHeight s) (stepOffsetTop s)
    (bboxGraphic s) (isReady s) (isEnabled s) (debugMode s) (progressMode s)
    (progressThreshold s) (preserveOrder s) (triggerOnce s) (stepStates s)
    (containerState s) (previousYOffset s) (direction s) (exclude s)
    (dataScrollamaIndex s) (log s).

Definition set_io (v : Observers.t) (s : t) : t :=
  mk (callback s) v (containerEl s) (graphicEl s) (stepEl s) (offsetVal s)
    (offsetMargin s) (vh s) (ph s) (stepOffsetHeight s) (stepOffsetTop s)
    (bboxGraphic s) (isReady s) (isEnabled s) (debugMode s) (progressMode s)
    (progressThreshold s) (preserveOrder s) (triggerOnce s) (stepStates s)
    (containerState s) (previousYOffset s) (direction s) (exclude s)
    (dataScrollamaIndex s) (log s).

Definition set_containerEl (v : option nat) (s : t) : t :=
  mk (callback s) (io s) v (graphicEl s) (stepEl s) (offsetVal s)
    (offsetMargin s) (vh s) (ph s) (stepOffsetHeight s) (stepOffsetTop s)
    (bboxGraphic s) (isReady s) (isEnabled s) (debugMode s) (progressMode s)
    (progressThreshold s) (preserveOrder s) (triggerOnce s) (stepStates s)
    (containerState s) (previousYOffset s) (direction s) (exclude s)
    (dataScrollamaIndex s) (log s).

Definition set_graphicEl (v : option nat) (s : t) : t :=
  mk (callback s) (io s) (containerEl s) v (stepEl s) (offsetVal s)
    (offsetMargin s) (vh s) (ph s) (stepOffsetHeight s) (stepOffsetTop s)
    (bboxGraphic s) (isReady s) (isEnabled s) (debugMode s) (progressMode s)
    (progressThreshold s) (preserveOrder s) (triggerOnce s) (stepStates s)
    (containerState s) (previousYOffset s) (direction s) (exclude s)
    (dataScrollamaIndex s) (log s).

Definition set_stepEl (v : option (list nat)) (s : t) : t :=
  mk (callback s) (io s) (containerEl s) (graphicEl s) v (offsetVal s)
    (offsetMargin s) (vh s) (ph s) (stepOffsetHeight s) (stepOffsetTop s)
    (bboxGraphic s) (isReady s) (isEnabled s) (debugMode s) (progressMode s)
    (progressThreshold s) (preserveOrder s) (triggerOnce s) (stepStates s)
    (containerState s) (previousYOffset s) (direction s) (exclude s)
    (dataScrollamaIndex s) (log s).

Definition set_offsetVal (v : Q) (s : t) : t :=
  mk (callback s) (io s) (containerEl s) (graphicEl s) (stepEl s) v
    (offsetMargin s) (vh s) (ph s) (stepOffsetHeight s) (stepOffsetTop s)
    (bboxGraphic s) (isReady s) (isEnabled s) (debugMode s) (progressMode s)
    (progressThreshold s) (preserveOrder s) (triggerOnce s) (stepStates s)
    (containerState s) (previousYOffset s) (direction s) (exclude s)
    (dataScrollamaIndex s) (log s).

Definition set_offsetMargin (v : Q) (s : t) : t :=
  mk (callback s) (io s) (containerEl s) (graphicEl s) (stepEl s)
    (offsetVal s) v (vh s) (ph s) (stepOffsetHeight s) (stepOffsetTop s)
    (bboxGraphic s) (isReady s) (isEnabled s) (debugMode s) (progressMode s)
    (progressThreshold s) (preserveOrder s) (triggerOnce s) (stepStates s)
    (containerState s) (previousYOffset s) (direction s) (exclude s)
    (dataScrollamaIndex s) (log s).

Definition set_vh (v : Q) (s : t) : t :=
  mk (callback s) (io s) (containerEl s) (graphicEl s) (stepEl s)
    (offsetVal s) (offsetMargin s) v (ph s) (stepOffsetHeight s)
    (stepOffsetTop s) (bboxGraphic s) (isReady s) (isEnabled s) (debugMode s)
    (progressMode s) (progressThreshold s) (preserveOrder s) (triggerOnce s)
    (stepStates s) (containerState s) (previousYOffset s) (direction s)
    (exclude s) (dataScrollamaIndex s) (log s).

Definition set_ph (v : Q) (s : t) : t :=
  mk (callback s) (io s) (containerEl s) (graphicEl s) (stepEl s)
    (offsetVal s) (offsetMargin s) (vh s) v (stepOffsetHeight s)
    (stepOffsetTop s) (bboxGraphic s) (isReady s) (isEnabled s) (debugMode s)
    (progressMode s) (progressThreshold s) (preserveOrder s) (triggerOnce s)
    (stepStates s) (containerState s) (previousYOffset s) (direction s)
    (exclude s) (dataScrollamaIndex s) (log s).

Definition set_stepOffsetHeight (v : option (list Q)) (s : t) : t :=
  mk (callback s) (io s) (containerEl s) (graphicEl s) (stepEl s)
    (offsetVal s) (offsetMargin s) (vh s) (ph s) v (stepOffsetTop s)
    (bboxGraphic s) (isReady s) (isEnabled s) (debugMode s) (progressMode s)
    (progressThreshold s) (preserveOrder s) (triggerOnce s) (stepStates s)
    (containerState s) (previousYOffset s) (direction s) (exclude s)
    (dataScrollamaIndex s) (log s).

Definition set_stepOffsetTop (v : option (list Q)) (s : t) : t :=
  mk (callback s) (io s) (containerEl s) (graphicEl s) (stepEl s)
    (offsetVal s) (offsetMargin s) (vh s) (ph s) (stepOffsetHeight s) v
    (bboxGraphic s) (isReady s) (isEnabled s) (debugMode s) (progressMode s)
    (progressThreshold s) (preserveOrder s) (triggerOnce s) (stepStates s)
    (containerState s) (previousYOffset s) (direction s) (exclude s)
    (dataScrollamaIndex s) (log s).

Definition set_bboxGraphic (v : option Rect.t) (s : t) : t :=
  mk (callback s) (io s) (containerEl s) (graphicEl s) (stepEl s)
    (offsetVal s) (offsetMargin s) (vh s) (ph s) (stepOffsetHeight s)
    (stepOffsetTop s) v (isReady s) (isEnabled s) (debugMode s)
    (progressMode s) (progressThreshold s) (preserveOrder s) (triggerOnce s)
    (stepStates s) (containerState s) (previousYOffset s) (direction s)
    (exclude s) (dataScrollamaIndex s) (log s).

Definition set_isReady (v : bool) (s : t) : t :=
  mk (callback s) (io s) (containerEl s) (graphicEl s) (stepEl s)
    (offsetVal s) (offsetMargin s) (vh s) (ph s) (stepOffsetHeight s)
    (stepOffsetTop s) (bboxGraphic s) v (isEnabled s) (debugMode s)
    (progressMode s) (progressThreshold s) (preserveOrder s) (triggerOnce s)
    (stepStates s) (containerState s) (previousYOffset s) (direction s)
    (exclude s) (dataScrollamaIndex s) (log s).

Definition set_isEnabled (v : bool) (s : t) : t :=
  mk (callback s) (io s) (containerEl s) (graphicEl s) (stepEl s)
    (offsetVal s) (offsetMargin s) (vh s) (ph s) (stepOffsetHeight s)
    (stepOffsetTop s) (bboxGraphic s) (isReady s) v (debugMode s)
    (progressMode s) (progressThreshold s) (preserveOrder s) (triggerOnce s)
    (stepStates s) (containerState s) (previousYOffset s) (direction s)
    (exclude s) (dataScrollamaIndex s) (log s).

Definition set_debugMode (v : bool) (s : t) : t :=
  mk (callback s) (io s) (containerEl s) (graphicEl s) (stepEl s)
    (offsetVal s) (offsetMargin s) (vh s) (ph s) (stepOffsetHeight s)
    (stepOffsetTop s) (bboxGraphic s) (isReady s) (isEnabled s) v
    (progressMode s) (progressThreshold s) (preserveOrder s) (triggerOnce s)
    (stepStates s) (containerState s) (previousYOffset s) (direction s)
    (exclude s) (dataScrollamaIndex s) (log s).

Definition set_progressMode (v : bool) (s : t) : t :=
  mk (callback s) (io s) (containerEl s) (graphicEl s) (stepEl s)
    (offsetVal s) (offsetMargin s) (vh s) (ph s) (stepOffsetHeight s)
    (stepOffsetTop s) (bboxGraphic s) (isReady s) (isEnabled s) (debugMode s)
    v (progressThreshold s) (preserveOrder s) (triggerOnce s) (stepStates s)
    (containerState s) (previousYOffset s) (direction s) (exclude s)
    (dataScrollamaIndex s) (log s).

Definition set_progressThreshold (v : Q) (s : t) : t :=
  mk (callback s) (io s) (containerEl s) (graphicEl s) (stepEl s)
    (offsetVal s) (offsetMargin s) (vh s) (ph s) (stepOffsetHeight s)
    (stepOffsetTop s) (bboxGraphic s) (isReady s) (isEnabled s) (debugMode s)
    (progressMode s) v (preserveOrder s) (triggerOnce s) (stepStates s)
    (containerState s) (previousYOffset s) (direction s) (exclude s)
    (dataScrollamaIndex s) (log s).

Definition set_preserveOrder (v : bool) (s : t) : t :=
  mk (callback s) (io s) (containerEl s) (graphicEl s) (stepEl s)
    (offsetVal s) (offsetMargin s) (vh s) (ph s) (stepOffsetHeight s)
    (stepOffsetTop s) (bboxGraphic s) (isReady s) (isEnabled s) (debugMode s)
    (progressMode s) (progressThreshold s) v (triggerOnce s) (stepStates s)
    (containerState s) (previousYOffset s) (direction s) (exclude s)
    (dataScrollamaIndex s) (log s).

Definition set_triggerOnce (v : bool) (s : t) : t :=
  mk (callback s) (io s) (containerEl s) (graphicEl s) (stepEl s)
    (offsetVal s) (offsetMargin s) (vh s) (ph s) (stepOffsetHeight s)
    (stepOffsetTop s) (bboxGraphic s) (isReady s) (isEnabled s) (debugMode s)
    (progressMode s) (progressThreshold s) (preserveOrder s) v (stepStates s)
    (containerState s) (previousYOffset s) (direction s) (exclude s)
    (dataScrollamaIndex s) (log s).

Definition set_stepStates (v : option (list StepState.t)) (s : t) : t :=
  mk (callback s) (io s) (containerEl s) (graphicEl s) (stepEl s)
    (offsetVal s) (offsetMargin s) (vh s) (ph s) (stepOffsetHeight s)
    (stepOffsetTop s) (bboxGraphic s) (isReady s) (isEnabled s) (debugMode s)
    (progressMode s) (progressThreshold s) (preserveOrder s) (triggerOnce s) v
    (containerState s) (previousYOffset s) (direction s) (exclude s)
    (dataScrollamaIndex s) (log s).

Definition set_containerState (v : option StepState.t) (s : t) : t :=
  mk (callback s) (io s) (containerEl s) (graphicEl s) (stepEl s)
    (offsetVal s) (offsetMargin s) (vh s) (ph s) (stepOffsetHeight s)
    (stepOffsetTop s) (bboxGraphic s) (isReady s) (isEnabled s) (debugMode s)
    (progressMode s) (progressThreshold s) (preserveOrder s) (triggerOnce s)
    (stepStates s) v (previousYOffset s) (direction s) (exclude s)
    (dataScrollamaIndex s) (log s).

Definition set_previousYOffset (v : Q) (s : t) : t :=
  mk (callback s) (io s) (containerEl s) (graphicEl s) (stepEl s)
    (offsetVal s) (offsetMargin s) (vh s) (ph s) (stepOffsetHeight s)
    (stepOffsetTop s) (bboxGraphic s) (isReady s) (isEnabled s) (debugMode s)
    (progressMode s) (progressThreshold s) (preserveOrder s) (triggerOnce s)
    (stepStates s) (containerState s) v (direction s) (exclude s)
    (dataScrollamaIndex s) (log s).

Definition set_direction (v : option Direction) (s : t) : t :=
  mk (callback s) (io s) (containerEl s) (graphicEl s) (stepEl s)
    (offsetVal s) (offsetMargin s) (vh s) (ph s) (stepOffsetHeight s)
    (stepOffsetTop s) (bboxGraphic s) (isReady s) (isEnabled s) (debugMode s)
    (progressMode s) (progressThreshold s) (preserveOrder s) (triggerOnce s)
    (stepStates s) (containerState s) (previousYOffset s) v (exclude s)
    (dataScrollamaIndex s) (log s).

Definition set_exclude (v : gset nat) (s : t) : t :=
  mk (callback s) (io s) (containerEl s) (graphicEl s) (stepEl s)
    (offsetVal s) (offsetMargin s) (vh s) (ph s) (stepOffsetHeight s)
    (stepOffsetTop s) (bboxGraphic s) (isReady s) (isEnabled s) (debugMode s)
    (progressMode s) (progressThreshold s) (preserveOrder s) (triggerOnce s)
    (stepStates s) (containerState s) (previousYOffset s) (direction s) v
    (dataScrollamaIndex s) (log s).

Definition set_dataScrollamaIndex (v : gmap nat nat) (s : t) : t :=
  mk (callback s) (io s) (containerEl s) (graphicEl s) (stepEl s)
    (offsetVal s) (offsetMargin s) (vh s) (ph s) (stepOffsetHeight s)
    (stepOffsetTop s) (bboxGraphic s) (isReady s) (isEnabled s) (debugMode s)
    (progressMode s) (progressThreshold s) (preserveOrder s) (triggerOnce s)
    (stepStates s) (containerState s) (previousYOffset s) (direction s)
    (exclude s) v (log s).

Definition set_log (v : list Event) (s : t) : t :=
  mk (callback s) (io s) (containerEl s) (graphicEl s) (stepEl s)
    (offsetVal s) (offsetMargin s) (vh s) (ph s) (stepOffsetHeight s)
    (stepOffsetTop s) (bboxGraphic s) (isReady s) (isEnabled s) (debugMode s)
    (progressMode s) (progressThreshold s) (preserveOrder s) (triggerOnce s)
    (stepStates s) (containerState s) (previousYOffset s) (direction s)
    (exclude s) (dataScrollamaIndex s) v.

(** The variables as [scrollama()] initialises them. *)
Definition fresh : t :=
  mk Callbacks.empty Observers.empty None None None 0 0 0 0 None None None
    false false false false 0 false false None None (-1) None ∅ ∅ [].
End Session.
(** *** The monad of session computations

    A computation takes the session and returns the session it leaves
    behind together with its result, or [None] when it did not return:
    it raised, and the assignments and callback invocations made before
    the exception remain; or the loop of [createThreshold] does not
    end. *)

Definition M (A : Type) : Type := Session.t -> Session.t * option A.

Definition ret {A : Type} (a : A) : M A := fun s => (s, Some a).

Definition throw {A : Type} : M A := fun s => (s, None).

Definition bind {A B : Type} (m : M A) (k : A -> M B) : M B :=
  fun s =>
    match m s with
    | (s', Some a) => k a s'
    | (s', None) => (s', None)
    end.

Notation "x <- m ;; k" := (bind m (fun x => k))
  (at level 20, m at level 99, k at level 200, only parsing).
Notation "m ;; k" := (bind m (fun _ => k))
  (at level 100, k at level 200, only parsing, right associativity).

Definition gets {A : Type} (f : Session.t -> A) : M A := fun s => (s, Some (f s)).

Definition modify (f : Session.t -> Session.t) : M unit := fun s => (f s, Some tt).

Definition when (b : bool) (m : M unit) : M unit := if b then m else ret tt.

(** The value of an expression that raises when it is [undefined] or
    [null] and a property of it is read. *)
Definition defined {A : Type} (o : option A) : M A :=
  match o with Some a => ret a | None => throw end.

(** [l.forEach(f)] and the counting [for] loops, over the indices
    visited in order. *)
Fixpoint forEach {A : Type} (l : list A) (f : A -> M unit) : M unit :=
  match l with
  | [] => ret tt
  | x :: l' => f x ;; forEach l' f
  end.

(** Invoking a user callback, or [console.error]. *)
Definition emit (e : Event) : M unit :=
  modify (fun s => Session.set_log (Session.log s ++ [e]) s).

(** *** Helpers *)

(** [getIndex(element)]: [+element.getAttribute('data-scrollama-index')];
    a missing attribute reads [null], which [+] turns into [0]. *)
Definition getIndex (element : nat) : M nat :=
  gets (fun s => default 0%nat (Session.dataScrollamaIndex s !! element)).

(** [stepEl[i]] where the element is then dereferenced. *)
Definition stepElAt (i : nat) : M nat :=
  els <- gets Session.stepEl ;;
  l <- defined els ;;
  defined (l !! i).

(** [stepStates[index]] where a property of it is then read or written. *)
Definition stepStateAt (index : nat) : M StepState.t :=
  sts <- gets Session.stepStates ;;
  l <- defined sts ;;
  defined (l !! index).

(** [stepStates[index].direction = direction] *)
Definition setStepDirection (index : nat) (direction : Direction) : M unit :=
  ss <- stepStateAt index ;;
  modify (fun s =>
    Session.set_stepStates
      (fmap (M := option)
         (fun l => <[index := StepState.mk (Some direction) (StepState.state ss)]> l)
         (Session.stepStates s)) s).

(** [stepStates[index].state = state] *)
Definition setStepPhase (index : nat) (state : Phase) : M unit :=
  ss <- stepStateAt index ;;
  modify (fun s =>
    Session.set_stepStates
      (fmap (M := option)
         (fun l => <[index := StepState.mk (StepState.direction ss) (Some state)]> l)
         (Session.stepStates s)) s).

(** [updateDirection()], with the value of [window.pageYOffset]. *)
Definition updateDirection (pageYOffset : Q) : M unit :=
  previousYOffset <- gets Session.previousYOffset ;;
  (if Registry.Qlt_bool previousYOffset pageYOffset
   then modify (Session.set_direction (Some down))
   else if Registry.Qlt_bool pageYOffset previousYOffset
   then modify (Session.set_direction (Some up))
   else ret tt) ;;
  modify (Session.set_previousYOffset pageYOffset).

(** [createThreshold(height)].  [count = Math.ceil(height /
    progressThreshold)], [ratio = 1 / count], and the loop pushes
    [i * ratio] for [i = 0 .. count - 1]; the quotients and the
    products are doubles.

    The loop [for (let i = 0; i < count; i++)] does not end when
    [count] exceeds [2^53], where [i + 1] rounds back to [i], or is
    [Infinity]: the result is then [None].  With a [progressThreshold]
    of [0] (its value before [setup]) the quotient is [Infinity] for a
    positive height, and [NaN] or [-Infinity] otherwise, for which the
    loop body never runs; so it does not for a [count] of [0] or
    below, whatever [ratio] is then. *)
Fixpoint createThresholdLoop (n : nat) (i : Z) (ratio : Q) : list Q :=
  match n with
  | O => []
  | S n' => Double.round (inject_Z i * ratio) :: createThresholdLoop n' (i + 1)%Z ratio
  end.

Definition createThresholdAt (progressThreshold height : Q) : option (list Q) :=
  if Qeq_bool progressThreshold 0 then
    if Double.lt 0 height then None else Some []
  else
    let count := Qceiling (Double.round (height / progressThreshold)) in
    let ratio := Double.round (1 / inject_Z count) in
    if (count <=? 2 ^ 53)%Z
    then Some (createThresholdLoop (Z.to_nat count) 0%Z ratio)
    else None.

Definition createThreshold (height : Q) : M (list Q) :=
  progressThreshold <- gets Session.progressThreshold ;;
  defined (createThresholdAt progressThreshold height).

(** *** Notifying callbacks *)

(** [notifyStepProgress(element, progress)] *)
Definition notifyStepProgress (element : nat) (progress : Q) : M unit :=
  index <- getIndex element ;;
  cb <- gets (fun s => Callbacks.stepProgress (Session.callback s)) ;;
  when (Callbacks.callable cb) (emit (CallStepProgress index progress)).

(** [notifyStepExit(element, direction)] *)
Definition notifyStepExit (element : nat) (direction : Direction) : M unit :=
  index <- getIndex element ;;
  setStepDirection index direction ;;
  setStepPhase index exit ;;
  progressMode <- gets Session.progressMode ;;
  when progressMode
    (match direction with
     | down => notifyStepProgress element 1
     | up => notifyStepProgress element 0
     end) ;;
  cb <- gets (fun s => Callbacks.stepExit (Session.callback s)) ;;
  when (Callbacks.callable cb) (emit (CallStepExit index direction)).

(** The [location] argument of [notifyOthers]: ['above'] or ['below']. *)
Inductive Location : Type := above | below.

(** [notifyStepEnter(element, direction, check = true)], with the
    function it calls for the skipped steps as a parameter: [notifyOthers]
    and [notifyStepEnter] call each other in the source, the former
    always with [check = false], under which the latter does not call
    back. *)
Definition notifyStepEnterWith (others : nat -> Location -> M unit)
    (element : nat) (direction : Direction) (check : bool) : M unit :=
  index <- getIndex element ;;
  setStepDirection index direction ;;
  setStepPhase index enter ;;
  preserveOrder <- gets Session.preserveOrder ;;
  when (preserveOrder && check && Direction_eqb direction down)
    (others index above) ;;
  when (preserveOrder && check && Direction_eqb direction up)
    (others index below) ;;
  cb <- gets (fun s => Callbacks.stepEnter (Session.callback s)) ;;
  excluded <- gets (fun s => bool_decide (index ∈ Session.exclude s)) ;;
  when (Callbacks.callable cb && negb excluded)
    (emit (CallStepEnter index direction) ;;
     triggerOnce <- gets Session.triggerOnce ;;
     when triggerOnce
       (modify (fun s => Session.set_exclude ({[index]} ∪ Session.exclude s) s))) ;;
  progressMode <- gets Session.progressMode ;;
  when progressMode
    (match direction with
     | down => notifyStepProgress element 0
     | up => notifyStepProgress element 1
     end).

(** The body of both loops of [notifyOthers], for the step [i] and the
    direction [d] of the entry that triggered it.  [ss] is the object
    [stepStates[i]]; [notifyStepExit] writes to that object, so the
    second test reads it again. *)
Definition notifyOther (d : Direction) (i : nat) : M unit :=
  ss <- stepStateAt i ;;
  when (StepState.entered ss)
    (el <- stepElAt i ;; notifyStepExit el d) ;;
  ss' <- stepStateAt i ;;
  when (StepState.directionIs (match d with down => up | up => down end) ss')
    (el <- stepElAt i ;;
     notifyStepEnterWith (fun _ _ => ret tt) el d false ;;
     el' <- stepElAt i ;;
     notifyStepExit el' d).

(** [notifyOthers(index, location)]: ['above'] visits
    [i = 0 .. index - 1] upwards, ['below'] visits
    [i = stepStates.length - 1 .. index + 1] downwards. *)
Definition notifyOthers (index : nat) (location : Location) : M unit :=
  match location with
  | above => forEach (seq 0 index) (notifyOther down)
  | below =>
      sts <- gets Session.stepStates ;;
      l <- defined sts ;;
      forEach (rev (seq (S index) (length l - S index))) (notifyOther up)
  end.

Definition notifyStepEnter : nat -> Direction -> bool -> M unit :=
  notifyStepEnterWith notifyOthers.

(** [notifyContainerEnter()] and [notifyContainerExit()] *)
Definition notifyContainer (phase : Phase) : M unit :=
  direction <- gets Session.direction ;;
  cs <- gets Session.containerState ;;
  _ <- defined cs ;;
  modify (Session.set_containerState (Some (StepState.mk direction (Some phase)))) ;;
  match phase with
  | enter =>
      cb <- gets (fun s => Callbacks.containerEnter (Session.callback s)) ;;
      when (Callbacks.callable cb) (emit (CallContainerEnter direction))
  | exit =>
      cb <- gets (fun s => Callbacks.containerExit (Session.callback s)) ;;
      when (Callbacks.callable cb) (emit (CallContainerExit direction))
  end.

Definition notifyContainerEnter : M unit := notifyContainer enter.
Definition notifyContainerExit : M unit := notifyContainer exit.

(** *** Intersection handlers *)

Definition ZERO_MOE : Q := 1.

Definition directionIs (d : Direction) : M bool :=
  cur <- gets Session.direction ;;
  ret (match cur with Some d' => Direction_eqb d' d | None => false end).

(** [const ss = stepStates[index]]: an error if [stepStates] is [null];
    an index out of range gives [undefined], an error only once a
    property of [ss] is read. *)
Definition lookupStepState (index : nat) : M (option StepState.t) :=
  sts <- gets Session.stepStates ;;
  l <- defined sts ;;
  ret (l !! index).

(** [a && b] where evaluating [b] may raise. *)
Definition andThen (a : bool) (b : M bool) : M bool :=
  if a then b else ret false.

Definition ssEntered (ss : option StepState.t) : M bool :=
  x <- defined ss ;; ret (StepState.entered x).

Definition ssNotEntered (ss : option StepState.t) : M bool :=
  x <- defined ss ;; ret (negb (StepState.entered x)).

Definition ssDirectionIsNot (d : Direction) (ss : option StepState.t) : M bool :=
  x <- defined ss ;; ret (negb (StepState.directionIs d x)).

(** [intersectStepAbove(entries)], with [window.pageYOffset] *)
Definition intersectStepAbove (pageYOffset : Q) (entries : list Registry.Entry)
    : M unit :=
  updateDirection pageYOffset ;;
  forEach entries (fun entry =>
    let isIntersecting := Registry.isIntersecting entry in
    let target := Registry.target entry in
    let bottom := Rect.bottom (Registry.boundingClientRect entry) in
    let height := Rect.height (Registry.boundingClientRect entry) in
    offsetMargin <- gets Session.offsetMargin ;;
    let bottomAdjusted := (bottom - offsetMargin)%Q in
    index <- getIndex target ;;
    ss <- lookupStepState index ;;
    isDown <- directionIs down ;;
    isUp <- directionIs up ;;
    when (Qle_bool (- ZERO_MOE) bottomAdjusted)
      (c1 <- andThen (isIntersecting && isDown) (ssNotEntered ss) ;;
       if c1 then notifyStepEnter target down true
       else
         c2 <- andThen (negb isIntersecting && isUp) (ssEntered ss) ;;
         if c2 then notifyStepExit target up
         else
           c3 <- andThen (negb isIntersecting && Qle_bool height bottomAdjusted
                          && isDown) (ssEntered ss) ;;
           when c3 (notifyStepExit target down))).

(** [intersectStepBelow(entries)] *)
Definition intersectStepBelow (pageYOffset : Q) (entries : list Registry.Entry)
    : M unit :=
  updateDirection pageYOffset ;;
  forEach entries (fun entry =>
    let isIntersecting := Registry.isIntersecting entry in
    let target := Registry.target entry in
    let bottom := Rect.bottom (Registry.boundingClientRect entry) in
    let height := Rect.height (Registry.boundingClientRect entry) in
    offsetMargin <- gets Session.offsetMargin ;;
    let bottomAdjusted := (bottom - offsetMargin)%Q in
    index <- getIndex target ;;
    ss <- lookupStepState index ;;
    isDown <- directionIs down ;;
    isUp <- directionIs up ;;
    c1 <- andThen (Qle_bool (- ZERO_MOE) bottomAdjusted
                   && Registry.Qlt_bool bottomAdjusted height
                   && isIntersecting && isUp) (ssNotEntered ss) ;;
    if c1 then notifyStepEnter target up true
    else
      c2 <- andThen (Qle_bool bottomAdjusted ZERO_MOE && negb isIntersecting
                     && isDown) (ssEntered ss) ;;
      when c2 (notifyStepExit target down)).

(** [intersectViewportAbove(entries)] and [intersectViewportBelow(entries)]:
    the fallback for a step that a scroll jumped over. *)
Definition intersectViewport (d : Direction) (pageYOffset : Q)
    (entries : list Registry.Entry) : M unit :=
  updateDirection pageYOffset ;;
  forEach entries (fun entry =>
    let isIntersecting := Registry.isIntersecting entry in
    let target := Registry.target entry in
    index <- getIndex target ;;
    ss <- lookupStepState index ;;
    isD <- directionIs d ;;
    c1 <- andThen (isIntersecting && isD) (ssNotEntered ss) ;;
    c <- andThen c1 (ssDirectionIsNot d ss) ;;
    when c (notifyStepEnter target d true ;; notifyStepExit target d)).

Definition intersectViewportAbove := intersectViewport down.
Definition intersectViewportBelow := intersectViewport up.

(** [+x.toFixed(3)]: the closest multiple of [1/1000], the one further
    from zero on a tie. *)
Definition toFixed3 (x : Q) : Q :=
  if Registry.Qlt_bool x 0
  then (- (inject_Z (Qfloor (- x * 1000 + 1 / 2)) / 1000))%Q
  else (inject_Z (Qfloor (x * 1000 + 1 / 2)) / 1000)%Q.

(** [intersectStepProgress(entries)] *)
Definition intersectStepProgress (pageYOffset : Q) (entries : list Registry.Entry)
    : M unit :=
  updateDirection pageYOffset ;;
  forEach entries (fun entry =>
    let bottom := Rect.bottom (Registry.boundingClientRect entry) in
    offsetMargin <- gets Session.offsetMargin ;;
    let bottomAdjusted := (bottom - offsetMargin)%Q in
    when (Registry.isIntersecting entry && Qle_bool (- ZERO_MOE) bottomAdjusted)
      (notifyStepProgress (Registry.target entry)
         (toFixed3 (Registry.intersectionRatio entry)))).

(** The common part of [intersectTop] and [intersectBottom], after the
    test on the container's edge. *)
Definition containerCrossing (isIntersecting : bool) : M unit :=
  if isIntersecting then notifyContainerEnter
  else
    cs <- gets Session.containerState ;;
    x <- defined cs ;;
    when (StepState.entered x) notifyContainerExit.

(** [intersectTop(entries)]: reads [entries[0]]. *)
Definition intersectTop (pageYOffset : Q) (entries : list Registry.Entry) : M unit :=
  updateDirection pageYOffset ;;
  entry <- defined (head entries) ;;
  when (Registry.Qlt_bool (- ZERO_MOE) (Rect.bottom (Registry.boundingClientRect entry)))
    (containerCrossing (Registry.isIntersecting entry)).

(** [intersectBottom(entries)] *)
Definition intersectBottom (pageYOffset : Q) (entries : list Registry.Entry) : M unit :=
  updateDirection pageYOffset ;;
  entry <- defined (head entries) ;;
  when (Registry.Qlt_bool (Rect.top (Registry.boundingClientRect entry)) ZERO_MOE)
    (containerCrossing (Registry.isIntersecting entry)).

(** *** Creating the observers *)

Definition getIo {A : Type} (f : Observers.t -> A) : M A :=
  gets (fun s => f (Session.io s)).

Definition setIo (f : Observers.t -> Observers.t) : M unit :=
  modify (fun s => Session.set_io (f (Session.io s)) s).

(** [stepOffsetHeight[i]] and [stepOffsetTop[i]] interpolated into a
    margin string: [undefined] makes the constructor reject the string. *)
Definition stepHeightAt (i : nat) : M Q :=
  hs <- gets Session.stepOffsetHeight ;;
  l <- defined hs ;;
  defined (l !! i).

Definition stepTopAt (i : nat) : M Q :=
  ts <- gets Session.stepOffsetTop ;;
  l <- defined ts ;;
  defined (l !! i).

(** A component of a margin string as a template literal writes it:
    [`${x}px`], or [`-${x}px`] with a minus sign of the template's
    own. *)
Inductive MarginPart : Type :=
| interpolated (x : Double.number)
| minus (x : Double.number).

(** Whether Number-to-String writes a finite number without an
    exponent: the number is zero, or its magnitude is at least [1e-6]
    and below [1e21] (see [MarginText.plain] for the digits). *)
Definition printsPlain (x : Q) : bool :=
  Qeq_bool x 0
  || (Qle_bool (1 # 1000000) (Double.magnitude x)
      && Double.lt (Double.magnitude x) (inject_Z (10 ^ 21))).

(** What [_parseRootMargin] reads from a component, if the component
    matches [/^(-?\d*\.?\d+)(px|%)$/]: the number written, when it is
    written without an exponent and, after the template's minus sign,
    without a sign of its own.  [Infinity], [NaN] and [undefined] do
    not match. *)
Definition parsed (p : MarginPart) : option Q :=
  match p with
  | interpolated (Some x) => if printsPlain x then Some x else None
  | minus (Some x) => if printsPlain x && Qle_bool 0 x then Some (- x) else None
  | _ => None
  end.

(** The test of [_initThresholds] on a threshold: [t < 0 || t > 1]
    raises. *)
Definition validThreshold (t : Q) : bool := Qle_bool 0 t && Qle_bool t 1.

(** [const obs = new IntersectionObserver(cb, options); obs.observe(el);
    return obs], where [options.rootMargin] is
    [`${marginTop} 0px ${marginBottom} 0px`] for the two components
    given and [options.threshold] is [th].  The constructor raises
    'rootMargin must be specified in pixels or percent' or 'threshold
    must be a number between 0 and 1 inclusively'. *)
Definition observing (cb : Handler) (marginTop marginBottom : MarginPart) (th : list Q)
    (el : option nat) : M Observer.t :=
  match parsed marginTop, parsed marginBottom with
  | Some mt, Some mb =>
      if forallb validThreshold th
      then defined (Observer.observe el (Observer.create cb mt mb th))
      else throw
  | _, _ => throw
  end.

(** [stepEl.map((el, i) => ...)] *)
Fixpoint mapIndexed {A B : Type} (f : A -> nat -> M B) (i : nat) (l : list A)
    : M (list B) :=
  match l with
  | [] => ret []
  | x :: l' =>
      y <- f x i ;;
      ys <- mapIndexed f (S i) l' ;;
      ret (y :: ys)
  end.

Definition mapSteps (f : nat -> nat -> M Observer.t) : M (list Observer.t) :=
  els <- gets Session.stepEl ;;
  l <- defined els ;;
  mapIndexed f 0 l.

(** [updateTopIO()] *)
Definition updateTopIO : M unit :=
  containerEl <- gets Session.containerEl ;;
  old <- getIo Observers.top ;;
  match old with
  | holding o => setIo (Observers.set_top (holding (Observer.unobserve containerEl o)))
  | _ => ret tt
  end ;;
  vh <- gets Session.vh ;;
  o <- observing hTop (interpolated (Double.num vh)) (minus (Double.num vh)) [0%Q]
         containerEl ;;
  setIo (Observers.set_top (holding o)).

(** [updateBottomIO()] *)
Definition updateBottomIO : M unit :=
  containerEl <- gets Session.containerEl ;;
  old <- getIo Observers.bottom ;;
  match old with
  | holding o => setIo (Observers.set_bottom (holding (Observer.unobserve containerEl o)))
  | _ => ret tt
  end ;;
  bbox <- gets Session.bboxGraphic ;;
  b <- defined bbox ;;
  o <- observing hBottom (minus (Double.num (Rect.height b)))
         (interpolated (Double.num (Rect.height b))) [0%Q] containerEl ;;
  setIo (Observers.set_bottom (holding o)).

(** [updateStepAboveIO()] *)
Definition updateStepAboveIO : M unit :=
  setIo (fun o => Observers.set_stepAbove (disconnectEach (Observers.stepAbove o)) o) ;;
  obs <- mapSteps (fun el i =>
    marginTop <- stepHeightAt i ;;
    vh <- gets Session.vh ;;
    offsetMargin <- gets Session.offsetMargin ;;
    let marginBottom := Double.add (Double.neg (Double.num vh)) (Double.num offsetMargin) in
    observing hStepAbove (interpolated (Double.num marginTop)) (interpolated marginBottom)
      [0%Q] (Some el)) ;;
  setIo (Observers.set_stepAbove (holding obs)).

(** [updateStepBelowIO()] *)
Definition updateStepBelowIO : M unit :=
  setIo (fun o => Observers.set_stepBelow (disconnectEach (Observers.stepBelow o)) o) ;;
  obs <- mapSteps (fun el i =>
    offsetMargin <- gets Session.offsetMargin ;;
    ph <- gets Session.ph ;;
    vh <- gets Session.vh ;;
    h <- stepHeightAt i ;;
    let marginTop := Double.neg (Double.num offsetMargin) in
    let marginBottom :=
      Double.add (Double.add (Double.sub (Double.num ph) (Double.num vh)) (Double.num h))
        (Double.num offsetMargin) in
    observing hStepBelow (interpolated marginTop) (interpolated marginBottom) [0%Q]
      (Some el)) ;;
  setIo (Observers.set_stepBelow (holding obs)).

(** [updateViewportAboveIO()] *)
Definition updateViewportAboveIO : M unit :=
  setIo (fun o => Observers.set_viewportAbove (disconnectEach (Observers.viewportAbove o)) o) ;;
  obs <- mapSteps (fun el i =>
    marginTop <- stepTopAt i ;;
    vh <- gets Session.vh ;;
    offsetMargin <- gets Session.offsetMargin ;;
    h <- stepHeightAt i ;;
    let marginBottom :=
      Double.neg (Double.add (Double.sub (Double.num vh) (Double.num offsetMargin))
                    (Double.num h)) in
    observing hViewportAbove (interpolated (Double.num marginTop))
      (interpolated marginBottom) [0%Q] (Some el)) ;;
  setIo (Observers.set_viewportAbove (holding obs)).

(** [updateViewportBelowIO()] *)
Definition updateViewportBelowIO : M unit :=
  setIo (fun o => Observers.set_viewportBelow (disconnectEach (Observers.viewportBelow o)) o) ;;
  obs <- mapSteps (fun el i =>
    offsetMargin <- gets Session.offsetMargin ;;
    h <- stepHeightAt i ;;
    ph <- gets Session.ph ;;
    t <- stepTopAt i ;;
    let marginTop := Double.neg (Double.add (Double.num offsetMargin) (Double.num h)) in
    let marginBottom :=
      Double.sub (Double.sub (Double.sub (Double.num ph) (Double.num t)) (Double.num h))
        (Double.num offsetMargin) in
    observing hViewportBelow (interpolated marginTop) (interpolated marginBottom)
      [0%Q] (Some el)) ;;
  setIo (Observers.set_viewportBelow (holding obs)).

(** [updateStepProgressIO()] *)
Definition updateStepProgressIO : M unit :=
  setIo (fun o => Observers.set_stepProgress (disconnectEach (Observers.stepProgress o)) o) ;;
  obs <- mapSteps (fun el i =>
    h <- stepHeightAt i ;;
    offsetMargin <- gets Session.offsetMargin ;;
    vh <- gets Session.vh ;;
    let marginTop := Double.sub (Double.num h) (Double.num offsetMargin) in
    let marginBottom := Double.add (Double.neg (Double.num vh)) (Double.num offsetMargin) in
    threshold <- createThreshold h ;;
    observing hStepProgress (interpolated marginTop) (interpolated marginBottom) threshold
      (Some el)) ;;
  setIo (Observers.set_stepProgress (holding obs)).

(** [updateIO()] *)
Definition updateIO : M unit :=
  updateViewportAboveIO ;;
  updateViewportBelowIO ;;
  updateStepAboveIO ;;
  updateStepBelowIO ;;
  progressMode <- gets Session.progressMode ;;
  when progressMode updateStepProgressIO ;;
  containerEl <- gets Session.containerEl ;;
  graphicEl <- gets Session.graphicEl ;;
  when (bool_decide (is_Some containerEl) && bool_decide (is_Some graphicEl))
    (updateTopIO ;; updateBottomIO).

(** *** Lifecycle *)

(** What [handleResize] reads from the page: [window.innerHeight], the
    result of [getPageHeight()], each element's bounding rect and
    [offsetHeight], and for [getOffsetTop] the [offsetTop] values along
    the element's [offsetParent] chain (empty when the element has no
    [offsetParent]). *)
Record Host : Type := mkHost {
  innerHeight : Q;
  pageHeight : Q;
  boundingClientRect : nat -> Rect.t;
  offsetHeight : nat -> Q;
  offsetTops : nat -> list Q
}.

(** [getOffsetTop(el)] *)
Definition getOffsetTop (host : Host) (el : nat) : Q :=
  let distance := foldl Qplus 0%Q (offsetTops host el) in
  if Registry.Qlt_bool distance 0 then 0%Q else distance.

(** [handleEnable(enable)] *)
Definition handleEnable (enable : bool) : M unit :=
  isEnabled <- gets Session.isEnabled ;;
  if enable && negb isEnabled then
    isReady <- gets Session.isReady ;;
    when isReady updateIO ;;
    modify (Session.set_isEnabled true)
  else if negb enable then
    setIo Observers.disconnectAll ;;
    modify (Session.set_isEnabled false)
  else ret tt.

(** [handleResize()].  The trigger line [offsetVal * vh] is a double
    product, which does not overflow: [offsetVal] is [0] at first and
    [offsetTrigger] stores no number outside [0, 1]. *)
Definition handleResize (host : Host) : M unit :=
  modify (Session.set_vh (innerHeight host)) ;;
  modify (Session.set_ph (pageHeight host)) ;;
  modify (fun s =>
    Session.set_bboxGraphic (fmap (M := option) (boundingClientRect host) (Session.graphicEl s)) s) ;;
  modify (fun s =>
    Session.set_offsetMargin (Double.round (Session.offsetVal s * Session.vh s)) s) ;;
  modify (fun s =>
    Session.set_stepOffsetHeight
      (Some (match Session.stepEl s with
             | Some els => List.map (offsetHeight host) els
             | None => []
             end)) s) ;;
  modify (fun s =>
    Session.set_stepOffsetTop
      (Some (match Session.stepEl s with
             | Some els => List.map (getOffsetTop host) els
             | None => []
             end)) s) ;;
  isEnabled <- gets Session.isEnabled ;;
  isReady <- gets Session.isReady ;;
  when (isEnabled && isReady) updateIO.

(** [indexSteps()]: [el.setAttribute('data-scrollama-index', i)] for
    each step in turn. *)
Fixpoint indexFrom (i : nat) (els : list nat) (attrs : gmap nat nat) : gmap nat nat :=
  match els with
  | [] => attrs
  | el :: els' => indexFrom (S i) els' (<[el := i]> attrs)
  end.

Definition indexSteps : M unit :=
  els <- gets Session.stepEl ;;
  l <- defined els ;;
  modify (fun s =>
    Session.set_dataScrollamaIndex (indexFrom 0 l (Session.dataScrollamaIndex s)) s).

(** [setupStates()] *)
Definition setupStates : M unit :=
  els <- gets Session.stepEl ;;
  l <- defined els ;;
  modify (Session.set_stepStates (Some (List.map (fun _ => StepState.initial) l))) ;;
  modify (Session.set_containerState (Some StepState.initial)).

(** What a method of [S] returns: [S] itself, a number, or [undefined]. *)
Inductive Returned : Type := theSession | theNumber (x : Q) | nothing.

(** An argument that may be a number or [NaN]; a missing argument is
    [None] at the call. *)
Inductive JsArg : Type := aNumber (x : Q) | aNaN.

(** [S.offsetTrigger(x)]: the test is [x && !isNaN(x)]. *)
Definition offsetTrigger (x : option JsArg) : M Returned :=
  match x with
  | Some (aNumber v) =>
      if Qeq_bool v 0
      then offsetVal <- gets Session.offsetVal ;; ret (theNumber offsetVal)
      else
        modify (Session.set_offsetVal (Qmin (Qmax 0 v) 1)) ;;
        ret theSession
  | _ => offsetVal <- gets Session.offsetVal ;; ret (theNumber offsetVal)
  end.

(** The argument of [S.setup], with the selectors already resolved:
    [step] is the array [selectAll(step)] returns, [container] and
    [graphic] are the elements [select] returns ([None] when the option
    is missing or nothing matches).  An option with a default is [None]
    when the caller leaves it out. *)
Record SetupOptions : Type := mkSetupOptions {
  container : option nat;
  graphic : option nat;
  step : list nat;
  offset : option JsArg;
  progress : option bool;
  threshold : option Q;
  debug : option bool;
  order : option bool;
  once : option bool
}.

(** [S.setup({...})], with the page as [handleResize] reads it. *)
Definition setup (o : SetupOptions) (host : Host) : M Returned :=
  modify (Session.set_stepEl (Some (step o))) ;;
  modify (Session.set_containerEl (container o)) ;;
  modify (Session.set_graphicEl (graphic o)) ;;
  if Nat.eqb (length (step o)) 0 then
    emit (ConsoleError "scrollama error: no step elements") ;;
    ret theSession
  else
    modify (Session.set_debugMode (default false (debug o))) ;;
    modify (Session.set_progressMode (default false (progress o))) ;;
    modify (Session.set_preserveOrder (default true (order o))) ;;
    modify (Session.set_triggerOnce (default false (once o))) ;;
    offsetTrigger (Some (default (aNumber (1 # 2)) (offset o))) ;;
    modify (Session.set_progressThreshold (Qmax 1 (default 4%Q (threshold o)))) ;;
    modify (Session.set_isReady true) ;;
    indexSteps ;;
    setupStates ;;
    handleResize host ;;
    handleEnable true ;;
    ret theSession.

(** [S.resize()], [S.enable()], [S.disable()], [S.destroy()] *)
Definition resize (host : Host) : M Returned :=
  handleResize host ;; ret theSession.

Definition enable : M Returned := handleEnable true ;; ret theSession.

Definition disable : M Returned := handleEnable false ;; ret theSession.

Definition destroy : M Returned :=
  handleEnable false ;;
  modify (fun s => Session.set_callback (Callbacks.clear (Session.callback s)) s) ;;
  setIo Observers.clear ;;
  ret nothing.

(** [S.onStepEnter(cb)] and its four siblings *)
Definition setCallback (f : Callbacks.t -> Callbacks.t) : M Returned :=
  modify (fun s => Session.set_callback (f (Session.callback s)) s) ;;
  ret theSession.

Definition onStepEnter (cb : JsCallback) : M Returned :=
  setCallback (fun c => Callbacks.mk (Some cb) (Callbacks.stepExit c)
    (Callbacks.stepProgress c) (Callbacks.containerEnter c) (Callbacks.containerExit c)).

Definition onStepExit (cb : JsCallback) : M Returned :=
  setCallback (fun c => Callbacks.mk (Callbacks.stepEnter c) (Some cb)
    (Callbacks.stepProgress c) (Callbacks.containerEnter c) (Callbacks.containerExit c)).

Definition onStepProgress (cb : JsCallback) : M Returned :=
  setCallback (fun c => Callbacks.mk (Callbacks.stepEnter c) (Callbacks.stepExit c)
    (Some cb) (Callbacks.containerEnter c) (Callbacks.containerExit c)).

Definition onContainerEnter (cb : JsCallback) : M Returned :=
  setCallback (fun c => Callbacks.mk (Callbacks.stepEnter c) (Callbacks.stepExit c)
    (Callbacks.stepProgress c) (Some cb) (Callbacks.containerExit c)).

Definition onContainerExit (cb : JsCallback) : M Returned :=
  setCallback (fun c => Callbacks.mk (Callbacks.stepEnter c) (Callbacks.stepExit c)
    (Callbacks.stepProgress c) (Callbacks.containerEnter c) (Some cb)).

(** *** Runs of a session

    Everything that can happen to a session once [scrollama()] has
    returned: a call of one of its methods, or an observer delivering a
    batch of entries to one of the handlers. *)
Inductive Op : Type :=
| callSetup (o : SetupOptions) (host : Host)
| callResize (host : Host)
| callEnable
| callDisable
| callDestroy
| callOffsetTrigger (x : option JsArg)
| callOnStepEnter (cb : JsCallback)
| callOnStepExit (cb : JsCallback)
| callOnStepProgress (cb : JsCallback)
| callOnContainerEnter (cb : JsCallback)
| callOnContainerExit (cb : JsCallback)
| deliver (h : Handler) (pageYOffset : Q) (entries : list Registry.Entry).

Definition discard {A : Type} (m : M A) : M unit := m ;; ret tt.

Definition runOp (op : Op) : M unit :=
  match op with
  | callSetup o host => discard (setup o host)
  | callResize host => discard (resize host)
  | callEnable => discard enable
  | callDisable => discard disable
  | callDestroy => discard destroy
  | callOffsetTrigger x => discard (offsetTrigger x)
  | callOnStepEnter cb => discard (onStepEnter cb)
  | callOnStepExit cb => discard (onStepExit cb)
  | callOnStepProgress cb => discard (onStepProgress cb)
  | callOnContainerEnter cb => discard (onContainerEnter cb)
  | callOnContainerExit cb => discard (onContainerExit cb)
  | deliver hStepAbove y es => intersectStepAbove y es
  | deliver hStepBelow y es => intersectStepBelow y es
  | deliver hViewportAbove y es => intersectViewportAbove y es
  | deliver hViewportBelow y es => intersectViewportBelow y es
  | deliver hStepProgress y es => intersectStepProgress y es
  | deliver hTop y es => intersectTop y es
  | deliver hBottom y es => intersectBottom y es
  end.

(** The session after a sequence of operations; an operation that
    raises is abandoned where it raised and the next one starts from the
    session it left behind. *)
Definition runOps (ops : list Op) (s : Session.t) : Session.t :=
  foldl (fun s op => fst (runOp op s)) s ops.

End Scrollama.

(** ** Vocabulary of the properties *)

Module Vocabulary.
Import Registry Scrollama.
Local Open Scope Q_scope.

(** A point of the plane lies in a rect (edges included). *)
Definition inside (r : Rect.t) (x y : Q) : Prop :=
  Rect.left r <= x /\ x <= Rect.right r /\ Rect.top r <= y /\ y <= Rect.bottom r.

(** The effective ratio of a report, in the words of the crossing rule:
    [-1] when the report is non-intersecting, its ratio otherwise. *)
Definition effective (e : Entry) : Q :=
  if isIntersecting e then intersectionRatio e else -1.

(** The crossing rule as the specification words it: some threshold
    equals one of the two ratios, or lies below exactly one of them. *)
Definition crossingRule (thresholds : list Q) (old new : Q) : Prop :=
  exists t, In t thresholds /\
    (t == old \/ t == new \/ Qlt_bool t old <> Qlt_bool t new).

(** A computation preserves a relation between the session it starts
    from and the session it leaves, whether it returns or raises. *)
Definition preserves {A : Type} (R : Session.t -> Session.t -> Prop) (m : M A) : Prop :=
  forall s, R s (fst (m s)).

(** The session but for its observers and its enabled flag: the step
    and container state tables, the recorded scroll offset and
    direction, the configuration, the elements and their measurements,
    the callbacks, the exclusion flags and the log. *)
Definition sameLogicalState (s s' : Session.t) : Prop :=
  Session.stepStates s' = Session.stepStates s /\
  Session.containerState s' = Session.containerState s /\
  Session.previousYOffset s' = Session.previousYOffset s /\
  Session.direction s' = Session.direction s /\
  Session.offsetVal s' = Session.offsetVal s /\
  Session.debugMode s' = Session.debugMode s /\
  Session.progressMode s' = Session.progressMode s /\
  Session.progressThreshold s' = Session.progressThreshold s /\
  Session.preserveOrder s' = Session.preserveOrder s /\
  Session.triggerOnce s' = Session.triggerOnce s /\
  Session.callback s' = Session.callback s /\
  Session.exclude s' = Session.exclude s /\
  Session.log s' = Session.log s /\
  Session.isReady s' = Session.isReady s /\
  Session.stepEl s' = Session.stepEl s /\
  Session.containerEl s' = Session.containerEl s /\
  Session.graphicEl s' = Session.graphicEl s /\
  Session.dataScrollamaIndex s' = Session.dataScrollamaIndex s /\
  Session.vh s' = Session.vh s /\
  Session.ph s' = Session.ph s /\
  Session.offsetMargin s' = Session.offsetMargin s /\
  Session.stepOffsetHeight s' = Session.stepOffsetHeight s /\
  Session.stepOffsetTop s' = Session.stepOffsetTop s /\
  Session.bboxGraphic s' = Session.bboxGraphic s.










(** A computation started in [s] returns [a] and leaves [s']. *)
Definition runs {A : Type} (m : M A) (s s' : Session.t) (a : A) : Prop :=
  m s = (s', Some a).

(** The invocations of the step enter and step exit callbacks among
    the events of a log. *)
Definition isStepCall (e : Event) : bool :=
  match e with CallStepEnter _ _ | CallStepExit _ _ => true | _ => false end.

Definition stepCalls (evs : list Event) : list Event := List.filter isStepCall evs.

(** The settings and elements that the notifications read but never
    write. *)
Definition sameSettings (s s' : Session.t) : Prop :=
  Session.callback s' = Session.callback s /\
  Session.preserveOrder s' = Session.preserveOrder s /\
  Session.triggerOnce s' = Session.triggerOnce s /\
  Session.progressMode s' = Session.progressMode s /\
  Session.stepEl s' = Session.stepEl s /\
  Session.dataScrollamaIndex s' = Session.dataScrollamaIndex s.

(** The steps of a session that was set up: [stepEl] and [stepStates]
    have the same length, and each step element carries its position
    as its [data-scrollama-index], as [indexSteps] leaves it when no
    element occurs twice among the steps. *)
Definition wellIndexed (s : Session.t) (els : list nat) (sts : list StepState.t) : Prop :=
  Session.stepEl s = Some els /\
  Session.stepStates s = Some sts /\
  length els = length sts /\
  forall i el, els !! i = Some el -> Session.dataScrollamaIndex s !! el = Some i.

Definition opposite (d : Direction) : Direction :=
  match d with up => down | down => up end.

(** The enter callback for step [j] as delivered: none once the step is
    excluded. *)
Definition enterCall (s : Session.t) (j : nat) (d : Direction) : list Event :=
  if bool_decide (j ∈ Session.exclude s) then [] else [CallStepEnter j d].

(** The calls synthesized for step [j] when another step enters in
    direction [d]: an exit if the step is still entered; an enter and an
    exit if it is not entered and was last recorded in the opposite
    direction; nothing otherwise. *)
Definition synthesized (d : Direction) (s : Session.t) (sts : list StepState.t)
    (j : nat) : list Event :=
  match sts !! j with
  | Some ss =>
      if StepState.entered ss then [CallStepExit j d]
      else if StepState.directionIs (opposite d) ss
           then enterCall s j d ++ [CallStepExit j d]
           else []
  | None => []
  end.

(** The calls C1 words for step [j]: an exit if the step is still
    entered, and an enter and an exit if its last recorded direction is
    the direction [d] of the entry. *)
Definition synthesizedAsClaimed (d : Direction) (sts : list StepState.t) (j : nat)
    : list Event :=
  match sts !! j with
  | Some ss =>
      (if StepState.entered ss then [CallStepExit j d] else []) ++
      (if StepState.directionIs d ss then [CallStepEnter j d; CallStepExit j d] else [])
  | None => []
  end.
(** The steps [notifyOthers] visits when step [i] of [n] enters in
    direction [d], in the order of the visits: those before [i] upwards
    for a downward entry, those after [i] downwards for an upward one. *)
Definition skippedSteps (d : Direction) (i n : nat) : list nat :=
  match d with
  | down => seq 0 i
  | up => rev (seq (S i) (n - S i))
  end.
(** From [s] to [s'] the log only grew, by [evs]. *)
Definition logGrows (s s' : Session.t) (evs : list Event) : Prop :=
  Session.log s' = Session.log s ++ evs.

Definition noEnterOf (idx : nat) (evs : list Event) : Prop :=
  forall d, ~ In (CallStepEnter idx d) evs.

(** Once step [idx] is excluded it stays excluded and its enter
    callback is not invoked. *)
Definition suppressed (idx : nat) (s s' : Session.t) : Prop :=
  idx ∈ Session.exclude s ->
  idx ∈ Session.exclude s' /\ exists evs, logGrows s s' evs /\ noEnterOf idx evs.

(** Under [triggerOnce], every step whose enter callback was invoked
    between [s] and [s'] is excluded in [s']. *)
Definition firedExcluded (s s' : Session.t) : Prop :=
  Session.triggerOnce s' = Session.triggerOnce s /\
  Session.exclude s ⊆ Session.exclude s' /\
  exists evs, logGrows s s' evs /\
    (Session.triggerOnce s = true ->
     forall j d, In (CallStepEnter j d) evs -> j ∈ Session.exclude s').

(** No step enter callback was invoked between [s] and [s']. *)
Definition noEnterAtAll (s s' : Session.t) : Prop :=
  exists evs, logGrows s s' evs /\ forall j, noEnterOf j evs.
(** The session without its exclusion flags and its log. *)
Definition erase (s : Session.t) : Session.t :=
  Session.set_exclude ∅ (Session.set_log [] s).

(** A computation is oblivious when, started from two sessions that
    differ at most in their exclusion flags and logs, it returns the
    same result (or raises in both) and leaves two sessions that again
    differ at most there. *)
Definition oblivious {A : Type} (m : M A) : Prop :=
  forall s s', erase s = erase s' ->
    erase (fst (m s)) = erase (fst (m s')) /\ snd (m s) = snd (m s').

(** Writing both fields of [stepStates[i]]. *)
Definition withStep (i : nat) (ss : StepState.t) (sts : list StepState.t) (s : Session.t)
    : Session.t :=
  Session.set_stepStates (Some (<[i := ss]> sts)) s.

(** The events of [notifyStepExit] for step [i]. *)
Definition exitLog (s : Session.t) (i : nat) (d : Direction) : list Event :=
  (if Session.progressMode s && Callbacks.callable (Callbacks.stepProgress (Session.callback s))
   then [CallStepProgress i (match d with down => 1 | up => 0 end)] else []) ++
  (if Callbacks.callable (Callbacks.stepExit (Session.callback s))
   then [CallStepExit i d] else []).

(** The part of [notifyStepEnter] after the skipped steps were
    notified: the guarded call of the enter callback and the priming
    progress value. *)
Definition enterTail (index element : nat) (direction : Direction) : M unit :=
  cb <- gets (fun s => Callbacks.stepEnter (Session.callback s)) ;;
  excluded <- gets (fun s => bool_decide (index ∈ Session.exclude s)) ;;
  when (Callbacks.callable cb && negb excluded)
    (emit (CallStepEnter index direction) ;;
     triggerOnce <- gets Session.triggerOnce ;;
     when triggerOnce
       (modify (fun s => Session.set_exclude ({[index]} ∪ Session.exclude s) s))) ;;
  progressMode <- gets Session.progressMode ;;
  when progressMode
    (match direction with
     | down => notifyStepProgress element 0
     | up => notifyStepProgress element 1
     end).

Definition enterLogAt (s : Session.t) (i pi : nat) (d : Direction) : list Event :=
  (if Callbacks.callable (Callbacks.stepEnter (Session.callback s))
   then enterCall s i d else []) ++
  (if Session.progressMode s && Callbacks.callable (Callbacks.stepProgress (Session.callback s))
   then [CallStepProgress pi (match d with down => 0 | up => 1 end)] else []).

Definition enterLog (s : Session.t) (i : nat) (d : Direction) : list Event :=
  enterLogAt s i i d.

Definition enterExclude (s : Session.t) (i : nat) : gset nat :=
  if Callbacks.callable (Callbacks.stepEnter (Session.callback s))
     && negb (bool_decide (i ∈ Session.exclude s)) && Session.triggerOnce s
  then {[i]} ∪ Session.exclude s else Session.exclude s.

(** C4 words the exit callback as suppressed too: once step [idx] is
    excluded, no exit callback for it between [s] and [s']. *)
Definition exitSuppressedAsClaimed (idx : nat) (s s' : Session.t) : Prop :=
  idx ∈ Session.exclude s ->
  exists evs, logGrows s s' evs /\ forall d, ~ In (CallStepExit idx d) evs.

(** What measuring the page and creating the observers leave alone:
    the steps, their state table, their index attributes and the
    progress granularity. *)
Definition sameSetup (s s' : Session.t) : Prop :=
  Session.stepEl s' = Session.stepEl s /\
  Session.stepStates s' = Session.stepStates s /\
  Session.dataScrollamaIndex s' = Session.dataScrollamaIndex s /\
  Session.progressThreshold s' = Session.progressThreshold s.

(** The page was measured for the steps [els]: one height and one top
    per step, and the graphic's box if there is a graphic. *)
Definition measured (s : Session.t) (els : list nat) : Prop :=
  Session.stepEl s = Some els /\
  (exists hs, Session.stepOffsetHeight s = Some hs /\ length hs = length els) /\
  (exists ts, Session.stepOffsetTop s = Some ts /\ length ts = length els) /\
  (is_Some (Session.graphicEl s) -> is_Some (Session.bboxGraphic s)).

(** The session but for its observers. *)
Definition sameButObservers (s s' : Session.t) : Prop :=
  sameLogicalState s s' /\ Session.isEnabled s' = Session.isEnabled s.

End Vocabulary.
Import Vocabulary.

(** ** A page of two steps *)

Module Example.
Import Scrollama.
Local Open Scope Q_scope.

(** A viewport 800 pixels high on a page of two steps, each 500 pixels
    high, with the trigger line at 0.9 of the viewport. *)
Definition examplePage : Host :=
  mkHost 800 5000 (fun _ => Rect.mk 0 800 0 1000 1000 800) (fun _ => 500)
    (fun el => [inject_Z (Z.of_nat el) * 500]).

Definition exampleOptions (once : bool) : SetupOptions :=
  mkSetupOptions None None [10; 11]%nat (Some (aNumber (9 # 10))) None None None None
    (Some once).

(** A report for the step element [target] whose bottom edge is at
    [bottom]. *)
Definition exampleEntry (target : nat) (bottom : Q) (isIntersecting : bool)
    : Registry.Entry :=
  Registry.mkEntry target (Rect.mk (bottom - 500) bottom 0 1000 1000 500)
    isIntersecting (if isIntersecting then 1 else 0).

(** The session after both callbacks were registered, the session was
    set up, and the first step was entered scrolling down. *)
Definition exampleSession (once : bool) : Session.t :=
  runOps [callOnStepEnter (function 1); callOnStepExit (function 2);
          callSetup (exampleOptions once) examplePage;
          deliver hStepAbove 10 [exampleEntry 10 900 true]]
    Session.fresh.

Definition exampleStates : list StepState.t :=
  [StepState.mk (Some down) (Some enter); StepState.mk None None].

End Example.
Import Example.

(** ** The document as the registry reads it *)

Module Dom.
Local Open Scope Q_scope.

(** What [el.getBoundingClientRect()] returns: the four edges, and the
    [width] and [height] that older browsers leave out. *)
Record ClientRect : Type := mkClientRect {
  top : Q; right : Q; bottom : Q; left : Q;
  width : option Q; height : option Q
}.

(** A node: its [nodeType] (1 for an element, 9 for the document, 11
    for a document fragment or shadow root), [parentNode], [host] (of a
    shadow root), the [display] and [overflow] of its computed style,
    [clientWidth] and [clientHeight], and the result of its
    [getBoundingClientRect()], [None] when the call raises or the node
    has no such method. *)
Record Node : Type := mkNode {
  nodeType : nat;
  parentNode : option nat;
  host : option nat;
  display : string;
  overflow : string;
  clientWidth : Q;
  clientHeight : Q;
  clientRect : option ClientRect
}.

(** The page: its nodes by number, and which of them are [document],
    [document.documentElement] and [document.body]. *)
Record Document : Type := mkDocument {
  node : nat -> Node;
  document : nat;
  documentElement : nat;
  body : nat
}.

(** A number in a boolean position: [0] and a missing value are falsy. *)
Definition truthy (x : option Q) : bool :=
  match x with Some v => negb (Qeq_bool v 0) | None => false end.

(** [getBoundingClientRect(el)]: the native rect, with [width] and
    [height] computed from the edges unless both are there and not
    zero; the empty rect when there is no native rect. *)
Definition getBoundingClientRect (doc : Document) (el : nat) : Rect.t :=
  match clientRect (node doc el) with
  | None => Geometry.getEmptyRect
  | Some rect =>
      if truthy (width rect) && truthy (height rect)
      then Rect.mk (top rect) (bottom rect) (left rect) (right rect)
             (default 0 (width rect)) (default 0 (height rect))
      else Rect.mk (top rect) (bottom rect) (left rect) (right rect)
             (right rect - left rect) (bottom rect - top rect)
  end.

(** [getParentNode(node)]: the parent, or the host when the parent is a
    shadow root. *)
Definition getParentNode (doc : Document) (n : nat) : option nat :=
  match parentNode (node doc n) with
  | Some parent =>
      match host (node doc parent) with
      | Some h => if Nat.eqb (nodeType (node doc parent)) 11 then Some h else Some parent
      | None => Some parent
      end
  | None => None
  end.

(** [containsDeep(parent, child)].  The loop follows [getParentNode]
    from [child] until it meets [parent] or runs out of nodes; [fuel]
    bounds the rounds.  In a document whose nodes are numbered so that
    [getParentNode] always yields a smaller number, a walk from node [n]
    makes at most [n] steps. *)
Fixpoint containsDeepFrom (fuel : nat) (doc : Document) (parent : nat) (n : option nat)
    : bool :=
  match n with
  | None => false
  | Some x =>
      if Nat.eqb x parent then true
      else
        match fuel with
        | O => false
        | S fuel' => containsDeepFrom fuel' doc parent (getParentNode doc x)
        end
  end.

Definition containsDeep (doc : Document) (parent child : nat) : bool :=
  containsDeepFrom child doc parent (Some child).

End Dom.

(** ** The observation registry: margins, entries and checks *)

Module IntersectionObserver.
Import Registry.
Local Open Scope Q_scope.

(** *** The margin string *)

(** [\s] and [\d] on the characters of a margin string, taken to be
    code units below 256: tab to carriage return, the space and the
    no-break space are white space. *)
Definition isSpace (c : ascii) : bool :=
  let n := nat_of_ascii c in
  ((9 <=? n) && (n <=? 13) || (n =? 32) || (n =? 160))%nat.

Definition isDigit (c : ascii) : bool :=
  let n := nat_of_ascii c in ((48 <=? n) && (n <=? 57))%nat.

(** [marginString.split(/\s+/)]: the pieces between the runs of white
    space; a run at either end leaves an empty piece there.  [piece] is
    the piece being read, [inRun] tells whether the previous character
    was white space. *)
Fixpoint splitSpaces (inRun : bool) (piece : string) (s : string) : list string :=
  match s with
  | EmptyString => [piece]
  | String c s' =>
      if isSpace c
      then (if inRun then splitSpaces true piece s'
            else piece :: splitSpaces true EmptyString s')
      else splitSpaces false (piece ++ String c EmptyString) s'
  end.

Fixpoint allDigits (s : string) : bool :=
  match s with
  | EmptyString => true
  | String c s' => isDigit c && allDigits s'
  end.

(** The part of a string before its first ["."], and the part after it
    when there is one. *)
Fixpoint splitDot (s : string) : string * option string :=
  match s with
  | EmptyString => (EmptyString, None)
  | String c s' =>
      if Ascii.eqb c "." then (EmptyString, Some s')
      else let '(i, f) := splitDot s' in (String c i, f)
  end.

Definition nonEmpty (s : string) : bool :=
  match s with EmptyString => false | _ => true end.

(** The number a string of decimal digits denotes. *)
Fixpoint digitsValue (acc : N) (s : string) : N :=
  match s with
  | EmptyString => acc
  | String c s' => digitsValue (acc * 10 + (N_of_ascii c - 48))%N s'
  end.

(** The first group of [/^(-?\d*\.?\d+)(px|%)$/], matched against the
    string left of the unit: an optional sign, then digits, or digits
    (possibly none), a point and at least one digit.  On a match,
    [parseFloat] of the group: the decimal it spells. *)
Definition parseNumber (s : string) : option Q :=
  let '(negative, rest) :=
    match s with
    | String "-" r => (true, r)
    | _ => (false, s)
    end in
  let '(i, f) := splitDot rest in
  let matches :=
    match f with
    | None => nonEmpty i && allDigits i
    | Some f' => allDigits i && nonEmpty f' && allDigits f'
    end in
  if matches then
    let fraction := default EmptyString f in
    let v := (inject_Z (Z.of_N (digitsValue 0 (i ++ fraction)))
              / inject_Z (10 ^ Z.of_nat (String.length fraction)))%Q in
    Some (if negative then - v else v)
  else None.

(** A string without its last [n] characters, and its last [n]
    characters. *)
Definition dropLast (n : nat) (s : string) : string :=
  substring 0 (String.length s - n) s.

Definition takeLast (n : nat) (s : string) : string :=
  substring (String.length s - n) n s.

(** The callback of the [map] in [_parseRootMargin]:
    [/^(-?\d*\.?\d+)(px|%)$/.exec(margin)] and the object built from its
    groups, or nothing when the piece does not match. *)
Definition parseMargin (margin : string) : option Geometry.Margin :=
  if String.eqb (takeLast 2 margin) "px" then
    match parseNumber (dropLast 2 margin) with
    | Some v => Some (Geometry.mkMargin v Geometry.px)
    | None => None
    end
  else if String.eqb (takeLast 1 margin) "%" then
    match parseNumber (dropLast 1 margin) with
    | Some v => Some (Geometry.mkMargin v Geometry.percent)
    | None => None
    end
  else None.

Fixpoint parseMargins (pieces : list string) : Completion (list Geometry.Margin) :=
  match pieces with
  | [] => Return []
  | margin :: rest =>
      match parseMargin margin with
      | None => Throw "rootMargin must be specified in pixels or percent"
      | Some m =>
          match parseMargins rest with
          | Return ms => Return (m :: ms)
          | Throw message => Throw message
          end
      end
  end.

(** [IntersectionObserver.prototype._parseRootMargin(opt_rootMargin)]:
    a missing or empty string stands for ['0px']. *)
Definition _parseRootMargin (opt_rootMargin : option string)
    : Completion (list Geometry.Margin) :=
  let marginString :=
    match opt_rootMargin with
    | Some (String c s) => String c s
    | _ => "0px"%string
    end in
  match parseMargins (splitSpaces false EmptyString marginString) with
  | Return margins => Return (Geometry.completeShorthand margins)
  | Throw message => Throw message
  end.

(** *** Entries *)

(** [Number(x.toFixed(4))]: the closest multiple of [1/10000], the one
    further from zero on a tie; from [1e21] on, [toFixed] prints the
    number itself. *)
Definition toFixed4 (x : Q) : Q :=
  if Qle_bool (inject_Z (10 ^ 21)) x || Qle_bool x (- inject_Z (10 ^ 21)) then x
  else if Qlt_bool x 0
  then - (inject_Z (Qfloor (- x * 10000 + 1 / 2)) / 10000)
  else inject_Z (Qfloor (x * 10000 + 1 / 2)) / 10000.

(** [new IntersectionObserverEntry({target, boundingClientRect,
    intersectionRect, ...})], as far as the fields of [Entry] go;
    [intersectionRect] is a rect, or one of the falsy values the
    registry passes for "no intersection". *)
Definition IntersectionObserverEntry (target : nat) (boundingClientRect : Rect.t)
    (intersectionRect : option Rect.t) : Entry :=
  let rect := default Geometry.getEmptyRect intersectionRect in
  let isIntersecting := match intersectionRect with Some _ => true | None => false end in
  let targetArea := Rect.width boundingClientRect * Rect.height boundingClientRect in
  let intersectionArea := Rect.width rect * Rect.height rect in
  let intersectionRatio :=
    if Qeq_bool targetArea 0
    then (if isIntersecting then 1 else 0)
    else toFixed4 (intersectionArea / targetArea) in
  mkEntry target boundingClientRect isIntersecting intersectionRatio.

(** *** The registry *)

(** An element of [_observationTargets]: [{element, entry}], [entry]
    being [null] until the first check. *)
Record Item : Type := mkItem { element : nat; entry : option Entry }.

(** An observer: the callback (a function, told apart by a tag), the
    watched targets, the queue, the parsed margins, the thresholds, the
    root, whether it is monitoring, and the batches of entries its
    callback was invoked with so far. *)
Record t : Type := mk {
  _callback : nat;
  _observationTargets : list Item;
  _queuedEntries : list Entry;
  _rootMarginValues : list Geometry.Margin;
  thresholds : list Q;
  root : option nat;
  _monitoringIntersections : bool;
  calls : list (list Entry)
}.

Definition set_targets (v : list Item) (o : t) : t :=
  mk (_callback o) v (_queuedEntries o) (_rootMarginValues o) (thresholds o) (root o)
    (_monitoringIntersections o) (calls o).

Definition set_queue (v : list Entry) (o : t) : t :=
  mk (_callback o) (_observationTargets o) v (_rootMarginValues o) (thresholds o) (root o)
    (_monitoringIntersections o) (calls o).

Definition set_monitoring (v : bool) (o : t) : t :=
  mk (_callback o) (_observationTargets o) (_queuedEntries o) (_rootMarginValues o)
    (thresholds o) (root o) v (calls o).

Definition set_calls (v : list (list Entry)) (o : t) : t :=
  mk (_callback o) (_observationTargets o) (_queuedEntries o) (_rootMarginValues o)
    (thresholds o) (root o) (_monitoringIntersections o) v.

(** The first argument of the constructor. *)
Inductive Callback : Type := aFunction (f : nat) | notAFunction.

(** The second argument of the constructor: [root] ([None] when missing
    or [null]), [rootMargin] and [threshold]. *)
Record Options : Type := mkOptions {
  optRoot : option nat;
  optRootMargin : option string;
  optThreshold : ThresholdOption
}.

(** The rational values of the thresholds [_initThresholds] returns
    (all finite numbers). *)
Definition thresholdValues (l : list JsValue) : list Q :=
  omap (fun v => match v with number x => JsNumber.toQ x | _ => None end) l.

(** [new IntersectionObserver(callback, opt_options)] *)
Definition create (doc : Dom.Document) (callback : Callback) (options : Options)
    : Completion t :=
  match callback with
  | notAFunction => Throw "callback must be a function"
  | aFunction f =>
      let badRoot :=
        match optRoot options with
        | Some r => negb (Nat.eqb (Dom.nodeType (Dom.node doc r)) 1)
        | None => false
        end in
      if badRoot then Throw "root must be an Element"
      else
        match _parseRootMargin (optRootMargin options) with
        | Throw message => Throw message
        | Return margins =>
            match _initThresholds (optThreshold options) with
            | Throw message => Throw message
            | Return ths =>
                Return (mk f [] [] margins (thresholdValues ths) (optRoot options)
                          false [])
            end
        end
  end.

(** [observe(target)]; [target] is [None] for [null].  The first check
    is throttled and happens later, as a [_checkForIntersections]. *)
Definition observe (doc : Dom.Document) (target : option nat) (o : t) : Completion t :=
  let isTargetAlreadyObserved :=
    match target with
    | Some el => existsb (fun item => Nat.eqb (element item) el) (_observationTargets o)
    | None => false
    end in
  if isTargetAlreadyObserved then Return o
  else
    match target with
    | Some el =>
        if Nat.eqb (Dom.nodeType (Dom.node doc el)) 1
        then Return (set_monitoring true
                       (set_targets (_observationTargets o ++ [mkItem el None]) o))
        else Throw "target must be an Element"
    | None => Throw "target must be an Element"
    end.

(** [unobserve(target)] *)
Definition unobserve (target : option nat) (o : t) : t :=
  let targets :=
    match target with
    | Some el =>
        List.filter (fun item => negb (Nat.eqb (element item) el)) (_observationTargets o)
    | None => _observationTargets o
    end in
  match targets with
  | [] => set_monitoring false (set_targets [] o)
  | _ => set_targets targets o
  end.

(** [disconnect()] *)
Definition disconnect (o : t) : t := set_monitoring false (set_targets [] o).

(** [takeRecords()] *)
Definition takeRecords (o : t) : list Entry * t := (_queuedEntries o, set_queue [] o).

(** [_rootIsInDom()] and [_rootContainsTarget(target)] *)
Definition _rootIsInDom (doc : Dom.Document) (o : t) : bool :=
  match root o with
  | None => true
  | Some r => Dom.containsDeep doc (Dom.document doc) r
  end.

Definition _rootContainsTarget (doc : Dom.Document) (o : t) (target : nat) : bool :=
  Dom.containsDeep doc (default (Dom.document doc) (root o)) target.

(** [a || b] on two numbers *)
Definition orElse (a b : Q) : Q := if Qeq_bool a 0 then b else a.

(** [_getRootRect()]; nothing when an edge is not a number (see
    [_expandRectByRootMargin]). *)
Definition _getRootRect (doc : Dom.Document) (o : t) : option Rect.t :=
  let rootRect :=
    match root o with
    | Some r => Dom.getBoundingClientRect doc r
    | None =>
        let html := Dom.node doc (Dom.documentElement doc) in
        let body := Dom.node doc (Dom.body doc) in
        let w := orElse (Dom.clientWidth html) (Dom.clientWidth body) in
        let h := orElse (Dom.clientHeight html) (Dom.clientHeight body) in
        Rect.mk 0 h 0 w w h
    end in
  Geometry._expandRectByRootMargin (_rootMarginValues o) rootRect.

(** [computeRectIntersection(rootRect, rect)] where an edge of
    [rootRect] may not be a number: every comparison with it fails and
    the result is falsy. *)
Definition intersectRoot (rootRect : option Rect.t) (rect : Rect.t) : option Rect.t :=
  match rootRect with
  | Some r => Geometry.computeRectIntersection r rect
  | None => None
  end.

(** The [while (!atRoot)] loop of [_computeTargetAndRootIntersection],
    entered with [parent] and [intersectionRect].  Reading
    [parent.nodeType] raises once the walk has left the tree.  [fuel]
    bounds the rounds as in [Dom.containsDeepFrom]; it does not run out
    in a document numbered as described there. *)
Fixpoint clipToAncestors (fuel : nat) (doc : Dom.Document) (root : option nat)
    (rootRect : option Rect.t) (parent : option nat) (intersectionRect : Rect.t)
    : Completion (option Rect.t) :=
  match parent with
  | None => Throw "TypeError"
  | Some p =>
      let isElement := Nat.eqb (Dom.nodeType (Dom.node doc p)) 1 in
      if isElement && String.eqb (Dom.display (Dom.node doc p)) "none"
      then Return None
      else if match root with Some r => Nat.eqb p r | None => false end
              || Nat.eqb p (Dom.document doc)
      then Return (intersectRoot rootRect intersectionRect)
      else
        let clips :=
          negb (Nat.eqb p (Dom.body doc))
          && negb (Nat.eqb p (Dom.documentElement doc))
          && negb (isElement && String.eqb (Dom.overflow (Dom.node doc p)) "visible") in
        let clipped :=
          if clips
          then Geometry.computeRectIntersection (Dom.getBoundingClientRect doc p)
                 intersectionRect
          else Some intersectionRect in
        match clipped with
        | None => Return None
        | Some rect =>
            match fuel with
            | O => Throw "TypeError"
            | S fuel' =>
                clipToAncestors fuel' doc root rootRect (Dom.getParentNode doc p) rect
            end
        end
  end.

(** [_computeTargetAndRootIntersection(target, rootRect)] *)
Definition _computeTargetAndRootIntersection (doc : Dom.Document) (o : t)
    (target : nat) (rootRect : option Rect.t) : Completion (option Rect.t) :=
  if String.eqb (Dom.display (Dom.node doc target)) "none" then Return None
  else clipToAncestors target doc (root o) rootRect (Dom.getParentNode doc target)
         (Dom.getBoundingClientRect doc target).

(** The callback of the [forEach] in [_checkForIntersections], for one
    item: the item with its new entry and the entries to queue, or
    nothing when computing the intersection raised. *)
Definition checkItem (doc : Dom.Document) (o : t) (rootIsInDom : bool)
    (rootRect : option Rect.t) (item : Item) : option (Item * list Entry) :=
  let target := element item in
  let targetRect := Dom.getBoundingClientRect doc target in
  let rootContainsTarget := _rootContainsTarget doc o target in
  let oldEntry := entry item in
  let intersectionRect :=
    if rootIsInDom && rootContainsTarget
    then _computeTargetAndRootIntersection doc o target rootRect
    else Return None in
  match intersectionRect with
  | Throw _ => None
  | Return rect =>
      let newEntry := IntersectionObserverEntry target targetRect rect in
      let queued :=
        match oldEntry with
        | None => [newEntry]
        | Some old =>
            if rootIsInDom && rootContainsTarget
            then (if _hasCrossedThreshold (thresholds o) (Some old) newEntry
                  then [newEntry] else [])
            else (if isIntersecting old then [newEntry] else [])
        end in
      Some (mkItem target (Some newEntry), queued)
  end.

(** The [forEach] over [_observationTargets]: the items as it leaves
    them, the entries it queued, and whether it ran to its end. *)
Fixpoint checkItems (doc : Dom.Document) (o : t) (rootIsInDom : bool)
    (rootRect : option Rect.t) (items : list Item) : list Item * list Entry * bool :=
  match items with
  | [] => ([], [], true)
  | item :: rest =>
      match checkItem doc o rootIsInDom rootRect item with
      | None => (item :: rest, [], false)
      | Some (item', queued) =>
          let '(rest', queued', completed) := checkItems doc o rootIsInDom rootRect rest in
          (item' :: rest', queued ++ queued', completed)
      end
  end.

(** [_checkForIntersections()], the function behind the throttle: the
    observer it leaves, and whether it returned ([false] when it
    raised). *)
Definition _checkForIntersections (doc : Dom.Document) (o : t) : t * bool :=
  let rootIsInDom := _rootIsInDom doc o in
  let rootRect := if rootIsInDom then _getRootRect doc o else Some Geometry.getEmptyRect in
  let '(items, queued, completed) :=
    checkItems doc o rootIsInDom rootRect (_observationTargets o) in
  let o1 := set_queue (_queuedEntries o ++ queued) (set_targets items o) in
  if completed then
    match _queuedEntries o1 with
    | [] => (o1, true)
    | _ =>
        let '(records, o2) := takeRecords o1 in
        (set_calls (calls o2 ++ [records]) o2, true)
    end
  else (o1, false).

End IntersectionObserver.

(** ** The throttle in front of the checks *)

Module Throttle.

(** [throttle(fn, timeout)]: whether the closure's [timer] is set,
    whether the timeout it was set to is still to elapse, and how often
    [fn] has been invoked. *)
Record t : Type := mk { timer : bool; pending : bool; runs : nat }.

(** [var timer = null] *)
Definition initial : t := mk false false 0.

(** A call of the throttled function: [if (!timer) timer =
    setTimeout(...)]. *)
Definition call (th : t) : t :=
  if timer th then th else mk true true (runs th).

(** The timeout elapsing: the pending timeout, if any, fires and runs
    [fn(); timer = null].  [fn] returns or raises ([returned]); when it
    raises, the assignment is not reached and [timer] stays set. *)
Definition elapse (returned : bool) (th : t) : t :=
  if pending th then mk (negb returned) false (S (runs th)) else th.

Inductive Tick : Type := called | elapsed (returned : bool).

Definition step (th : t) (e : Tick) : t :=
  match e with called => call th | elapsed returned => elapse returned th end.


End Throttle.
(** ** A small document *)

Module ExampleDocument.
Import Dom.
Local Open Scope Q_scope.

Definition block (parent : nat) (overflow : string) (rect : ClientRect) : Node :=
  mkNode 1 (Some parent) None "block" overflow 1000 800 (Some rect).

(** A viewport of 1000 by 800 pixels on the document (0), its [html]
    (1) and [body] (2), a container (3) that clips its content, and in
    it two steps (4 and 5) of 500 pixels each, the second below the
    viewport.  Every other number is a detached element. *)
Definition page : Document :=
  mkDocument
    (fun n =>
       match n with
       | 0%nat => mkNode 9 None None "" "" 0 0 None
       | 1%nat => block 0 "visible" (mkClientRect 0 1000 800 0 (Some 1000) (Some 800))
       | 2%nat => block 1 "visible" (mkClientRect 0 1000 2000 0 (Some 1000) (Some 2000))
       | 3%nat => block 2 "hidden" (mkClientRect 100 1000 1900 0 (Some 1000) (Some 1800))
       | 4%nat => block 3 "visible" (mkClientRect 100 1000 600 0 (Some 1000) (Some 500))
       | 5%nat => block 3 "visible" (mkClientRect 900 1000 1400 0 (Some 1000) (Some 500))
       | _ => mkNode 1 None None "block" "visible" 0 0 None
       end)
    0 1 2.

(** An observer of the viewport with the default threshold, watching
    both steps, before its first check. *)
Definition watching : IntersectionObserver.t :=
  IntersectionObserver.mk 1%nat
    [IntersectionObserver.mkItem 4 None; IntersectionObserver.mkItem 5 None] []
    (let m := Geometry.mkMargin 0 Geometry.px in [m; m; m; m]) [0] None true [].

End ExampleDocument.

(** ** Vocabulary of the registry and session properties *)

Module Terms.
Import Registry Scrollama Vocabulary.
Local Open Scope Q_scope.

(** Two outcomes of [computeRectIntersection] agree: both are rects
    with equal fields, or both are "no intersection". *)
Definition sameRect (r1 r2 : option Rect.t) : Prop :=
  match r1, r2 with
  | Some a, Some b => Rect.equiv a b
  | None, None => True
  | _, _ => False
  end.

(** A rect whose [width] and [height] are those of its edges. *)
Definition consistent (r : Rect.t) : Prop :=
  Rect.width r == Rect.right r - Rect.left r /\
  Rect.height r == Rect.bottom r - Rect.top r.

(** The edges of [r] lie within those of [b]. *)
Definition within (r b : Rect.t) : Prop :=
  Rect.top b <= Rect.top r /\ Rect.bottom r <= Rect.bottom b /\
  Rect.left b <= Rect.left r /\ Rect.right r <= Rect.right b.

Definition area (r : Rect.t) : Q := Rect.width r * Rect.height r.

(** Nodes are numbered in document order: [getParentNode] leads to a
    smaller number. *)
Definition wellNumbered (doc : Dom.Document) : Prop :=
  forall n p, Dom.getParentNode doc n = Some p -> (p < n)%nat.

(** [m] is [n] or one of the nodes [getParentNode] leads to from [n]. *)
Inductive reaches (doc : Dom.Document) : nat -> nat -> Prop :=
| reaches_here (n : nat) : reaches doc n n
| reaches_up (n p m : nat) :
    Dom.getParentNode doc n = Some p -> reaches doc p m -> reaches doc n m.

(** An item whose first check is still to come. *)
Definition unchecked (item : IntersectionObserver.Item) : bool :=
  match IntersectionObserver.entry item with None => true | Some _ => false end.

(** A string that holds no white space. *)
Fixpoint noSpaces (s : string) : bool :=
  match s with
  | EmptyString => true
  | String c s' => negb (IntersectionObserver.isSpace c) && noSpaces s'
  end.

(** A rect as browsers report it: consistent, neither dimension
    negative. *)
Definition properRect (r : Rect.t) : Prop :=
  consistent r /\ 0 <= Rect.width r /\ 0 <= Rect.height r.

(** The elements an observer watches, in the order of registration. *)
Definition watched (o : IntersectionObserver.t) : list nat :=
  List.map IntersectionObserver.element (IntersectionObserver._observationTargets o).

(** How many of the ticks [es] are calls, and how many are timeouts. *)
Definition calls (es : list Throttle.Tick) : nat :=
  length (List.filter (fun x => match x with Throttle.called => true | _ => false end) es).



(** Invoking the callback stored under a key of [callback] if it is a
    function: [if (cb && typeof cb === 'function') cb(resp)]. *)
Definition guardedCall (slot : Callbacks.t -> option JsCallback) (e : Event) : M unit :=
  cb <- gets (fun s => slot (Session.callback s)) ;;
  when (Callbacks.callable cb) (emit e).

(** What the intersection handlers leave alone: the observers, the
    callbacks, the elements and their measurements, the configuration
    and the index attributes.  The state table keeps its length, a
    container state stays one, and without [triggerOnce] no step is
    excluded. *)
Definition sameConfiguration (s s' : Session.t) : Prop :=
  Session.io s' = Session.io s /\
  Session.callback s' = Session.callback s /\
  Session.containerEl s' = Session.containerEl s /\
  Session.graphicEl s' = Session.graphicEl s /\
  Session.stepEl s' = Session.stepEl s /\
  Session.offsetVal s' = Session.offsetVal s /\
  Session.offsetMargin s' = Session.offsetMargin s /\
  Session.vh s' = Session.vh s /\
  Session.ph s' = Session.ph s /\
  Session.stepOffsetHeight s' = Session.stepOffsetHeight s /\
  Session.stepOffsetTop s' = Session.stepOffsetTop s /\
  Session.bboxGraphic s' = Session.bboxGraphic s /\
  Session.isReady s' = Session.isReady s /\
  Session.isEnabled s' = Session.isEnabled s /\
  Session.debugMode s' = Session.debugMode s /\
  Session.progressMode s' = Session.progressMode s /\
  Session.progressThreshold s' = Session.progressThreshold s /\
  Session.preserveOrder s' = Session.preserveOrder s /\
  Session.triggerOnce s' = Session.triggerOnce s /\
  Session.dataScrollamaIndex s' = Session.dataScrollamaIndex s /\
  fmap (M := option) length (Session.stepStates s')
  = fmap (M := option) length (Session.stepStates s) /\
  (is_Some (Session.containerState s) -> is_Some (Session.containerState s')) /\
  (Session.triggerOnce s = false -> Session.exclude s' = Session.exclude s).

(** The callback an event is the invocation of is a function. *)
Definition registered (c : Callbacks.t) (e : Event) : Prop :=
  match e with
  | CallStepEnter _ _ => Callbacks.callable (Callbacks.stepEnter c) = true
  | CallStepExit _ _ => Callbacks.callable (Callbacks.stepExit c) = true
  | CallStepProgress _ _ => Callbacks.callable (Callbacks.stepProgress c) = true
  | CallContainerEnter _ => Callbacks.callable (Callbacks.containerEnter c) = true
  | CallContainerExit _ => Callbacks.callable (Callbacks.containerExit c) = true
  | ConsoleError _ => False
  end.

(** From [s] to [s'] the callbacks stayed as they were and only
    registered ones were invoked. *)
Definition gated (s s' : Session.t) : Prop :=
  Session.callback s' = Session.callback s /\
  exists evs, logGrows s s' evs /\ Forall (registered (Session.callback s)) evs.

(** No key of [callback] holds a function. *)
Definition silent (c : Callbacks.t) : Prop :=
  Callbacks.callable (Callbacks.stepEnter c) = false /\
  Callbacks.callable (Callbacks.stepExit c) = false /\
  Callbacks.callable (Callbacks.stepProgress c) = false /\
  Callbacks.callable (Callbacks.containerEnter c) = false /\
  Callbacks.callable (Callbacks.containerExit c) = false.

Definition isDelivery (op : Op) : Prop := exists h y es, op = deliver h y es.

(** What no operation undoes: an offset within [0, 1], a known scroll
    direction, readiness, the exclusion of a step, and the events
    logged. *)
Definition keeps (s s' : Session.t) : Prop :=
  (0 <= Session.offsetVal s <= 1 -> 0 <= Session.offsetVal s' <= 1) /\
  (is_Some (Session.direction s) -> is_Some (Session.direction s')) /\
  (Session.isReady s = true -> Session.isReady s' = true) /\
  Session.exclude s ⊆ Session.exclude s' /\
  exists evs, logGrows s s' evs.

(** The direction an event reports is [dir]. *)
Definition carries (dir : option Direction) (e : Event) : Prop :=
  match e with
  | CallStepEnter _ d | CallStepExit _ d => dir = Some d
  | CallContainerEnter d | CallContainerExit d => d = dir
  | _ => True
  end.

(** From [s] to [s'] the scroll direction stayed as it was and every
    event logged reports [dir]. *)
Definition inDirection (dir : option Direction) (s s' : Session.t) : Prop :=
  Session.direction s' = Session.direction s /\
  exists evs, logGrows s s' evs /\ Forall (carries dir) evs.

(** The same, for the direction of [s] itself. *)
Definition inOwnDirection (s s' : Session.t) : Prop :=
  inDirection (Session.direction s) s s'.

(** The observer [observing] returns for an element: it watches that
    element alone and is monitoring. *)
Definition observerOf (cb : Handler) (mt mb : Q) (th : list Q) (el : nat) : Observer.t :=
  Observer.mk cb mt mb th [el] true.

(** [stepOffsetHeight[i]] and [stepOffsetTop[i]] of a measured session. *)
Definition heightAt (s : Session.t) (i : nat) : Q :=
  match Session.stepOffsetHeight s with Some hs => default 0 (hs !! i) | None => 0 end.

Definition topAt (s : Session.t) (i : nat) : Q :=
  match Session.stepOffsetTop s with Some ts => default 0 (ts !! i) | None => 0 end.

(** The observer [observing] returns for an element, if the
    constructor accepts the margins and the thresholds (and the loop
    that builds the thresholds ends). *)
Definition observerFor (cb : Handler) (marginTop marginBottom : MarginPart)
    (th : option (list Q)) (el : nat) : option Observer.t :=
  match parsed marginTop, parsed marginBottom, th with
  | Some mt, Some mb, Some l =>
      if forallb validThreshold l then Some (observerOf cb mt mb l el) else None
  | _, _, _ => None
  end.

(** The observers of the step [el], the [i]-th: the margins each
    [update...IO] function writes for it. *)
Definition viewportAboveFor (s : Session.t) (el i : nat) : option Observer.t :=
  observerFor hViewportAbove
    (interpolated (Double.num (topAt s i)))
    (interpolated
       (Double.neg (Double.add (Double.sub (Double.num (Session.vh s))
                                  (Double.num (Session.offsetMargin s)))
                      (Double.num (heightAt s i)))))
    (Some [0]) el.

Definition viewportBelowFor (s : Session.t) (el i : nat) : option Observer.t :=
  observerFor hViewportBelow
    (interpolated
       (Double.neg (Double.add (Double.num (Session.offsetMargin s))
                      (Double.num (heightAt s i)))))
    (interpolated
       (Double.sub (Double.sub (Double.sub (Double.num (Session.ph s))
                                  (Double.num (topAt s i)))
                      (Double.num (heightAt s i)))
          (Double.num (Session.offsetMargin s))))
    (Some [0]) el.

Definition stepAboveFor (s : Session.t) (el i : nat) : option Observer.t :=
  observerFor hStepAbove
    (interpolated (Double.num (heightAt s i)))
    (interpolated
       (Double.add (Double.neg (Double.num (Session.vh s)))
          (Double.num (Session.offsetMargin s))))
    (Some [0]) el.

Definition stepBelowFor (s : Session.t) (el i : nat) : option Observer.t :=
  observerFor hStepBelow
    (interpolated (Double.neg (Double.num (Session.offsetMargin s))))
    (interpolated
       (Double.add (Double.add (Double.sub (Double.num (Session.ph s))
                                  (Double.num (Session.vh s)))
                      (Double.num (heightAt s i)))
          (Double.num (Session.offsetMargin s))))
    (Some [0]) el.

Definition stepProgressFor (s : Session.t) (el i : nat) : option Observer.t :=
  observerFor hStepProgress
    (interpolated
       (Double.sub (Double.num (heightAt s i)) (Double.num (Session.offsetMargin s))))
    (interpolated
       (Double.add (Double.neg (Double.num (Session.vh s)))
          (Double.num (Session.offsetMargin s))))
    (createThresholdAt (Session.progressThreshold s) (heightAt s i)) el.

(** The two observers of the container [c]. *)
Definition topFor (s : Session.t) (c : nat) : option Observer.t :=
  observerFor hTop (interpolated (Double.num (Session.vh s)))
    (minus (Double.num (Session.vh s))) (Some [0]) c.

Definition bottomFor (b : Rect.t) (c : nat) : option Observer.t :=
  observerFor hBottom (minus (Double.num (Rect.height b)))
    (interpolated (Double.num (Rect.height b))) (Some [0]) c.

(** One observer per step, in the order of the steps, if the
    constructor accepts each of them. *)
Fixpoint eachStep (f : nat -> nat -> option Observer.t) (i : nat) (els : list nat)
    : option (list Observer.t) :=
  match els with
  | [] => Some []
  | el :: els' =>
      match f el i, eachStep f (S i) els' with
      | Some o, Some os => Some (o :: os)
      | _, _ => None
      end
  end.

Definition perStep (s : Session.t) (f : nat -> nat -> option Observer.t)
    : option (Slot (list Observer.t)) :=
  fmap (M := option) holding (eachStep f 0 (default [] (Session.stepEl s))).

(** The observers [updateIO] leaves on a measured session whose [io]
    was [old], if the constructor accepts every one of them: the four
    per-step lists always, the progress list in progress mode, the two
    container observers when there are a container and a graphic;
    every other key as it was. *)
Definition observersOf (s : Session.t) (old : Observers.t) : option Observers.t :=
  match perStep s (viewportAboveFor s), perStep s (viewportBelowFor s),
        perStep s (stepAboveFor s), perStep s (stepBelowFor s),
        (if Session.progressMode s then perStep s (stepProgressFor s)
         else Some (Observers.stepProgress old)),
        (match Session.containerEl s, Session.graphicEl s with
         | Some c, Some _ =>
             match topFor s c, Session.bboxGraphic s with
             | Some t, Some box =>
                 fmap (M := option) (fun b => (holding t, holding b)) (bottomFor box c)
             | _, _ => None
             end
         | _, _ => Some (Observers.top old, Observers.bottom old)
         end)
  with
  | Some va, Some vb, Some sa, Some sb, Some sp, Some (t, b) =>
      Some (Observers.mk t b sa sb sp va vb)
  | _, _, _, _, _, _ => None
  end.

(** The constructor accepts every observer [updateIO] creates from the
    measurements of the session. *)
Definition accepted (s : Session.t) : Prop := is_Some (observersOf s (Session.io s)).

(** The session with the page measured, as the assignments at the head
    of [handleResize] leave it. *)
Definition measure (host : Host) (s : Session.t) : Session.t :=
  let s1 := Session.set_vh (innerHeight host) s in
  let s2 := Session.set_ph (pageHeight host) s1 in
  let s3 := Session.set_bboxGraphic
              (fmap (M := option) (boundingClientRect host) (Session.graphicEl s2)) s2 in
  let s4 := Session.set_offsetMargin
              (Double.round (Session.offsetVal s3 * Session.vh s3)) s3 in
  let s5 := Session.set_stepOffsetHeight
              (Some (match Session.stepEl s4 with
                     | Some els => List.map (offsetHeight host) els
                     | None => []
                     end)) s4 in
  Session.set_stepOffsetTop
    (Some (match Session.stepEl s5 with
           | Some els => List.map (getOffsetTop host) els
           | None => []
           end)) s5.

(** The session but for its measurements and its observers: what
    [resize()] leaves alone. *)
Definition sameButMeasured (s s' : Session.t) : Prop :=
  Session.callback s' = Session.callback s /\
  Session.containerEl s' = Session.containerEl s /\
  Session.graphicEl s' = Session.graphicEl s /\
  Session.stepEl s' = Session.stepEl s /\
  Session.offsetVal s' = Session.offsetVal s /\
  Session.isReady s' = Session.isReady s /\
  Session.isEnabled s' = Session.isEnabled s /\
  Session.debugMode s' = Session.debugMode s /\
  Session.progressMode s' = Session.progressMode s /\
  Session.progressThreshold s' = Session.progressThreshold s /\
  Session.preserveOrder s' = Session.preserveOrder s /\
  Session.triggerOnce s' = Session.triggerOnce s /\
  Session.stepStates s' = Session.stepStates s /\
  Session.containerState s' = Session.containerState s /\
  Session.previousYOffset s' = Session.previousYOffset s /\
  Session.direction s' = Session.direction s /\
  Session.exclude s' = Session.exclude s /\
  Session.dataScrollamaIndex s' = Session.dataScrollamaIndex s /\
  Session.log s' = Session.log s.

(** What [setup] does not touch: the callbacks, the exclusion flags,
    the log, the recorded scroll offset and direction. *)
Definition sameButSetup (s s' : Session.t) : Prop :=
  Session.callback s' = Session.callback s /\
  Session.exclude s' = Session.exclude s /\
  Session.log s' = Session.log s /\
  Session.direction s' = Session.direction s /\
  Session.previousYOffset s' = Session.previousYOffset s.

(** The options as [setup] stores them, with their defaults; an
    [offset] of [0] or [NaN] leaves the offset [v] as it is. *)
Definition configured (o : SetupOptions) (v : Q) (s' : Session.t) : Prop :=
  Session.stepEl s' = Some (step o) /\
  Session.containerEl s' = container o /\
  Session.graphicEl s' = graphic o /\
  Session.debugMode s' = default false (debug o) /\
  Session.progressMode s' = default false (progress o) /\
  Session.preserveOrder s' = default true (order o) /\
  Session.triggerOnce s' = default false (once o) /\
  Session.progressThreshold s' = Qmax 1 (default 4 (threshold o)) /\
  Session.offsetVal s'
  = match default (aNumber (1 # 2)) (offset o) with
    | aNumber x => if Qeq_bool x 0 then v else Qmin (Qmax 0 x) 1
    | aNaN => v
    end.

(** A session whose tables fit [n] steps: [n > 0] entries in the state
    table, at least as many step elements, a container state, and no
    index attribute beyond the table. *)
Definition fitted (n : nat) (s : Session.t) : Prop :=
  (0 < n)%nat /\
  (exists els, Session.stepEl s = Some els /\ (n <= length els)%nat) /\
  (exists sts, Session.stepStates s = Some sts /\ length sts = n) /\
  is_Some (Session.containerState s) /\
  map_Forall (fun _ i => (i < n)%nat) (Session.dataScrollamaIndex s).

(** The postcondition that asks nothing of the result. *)
Definition anything {A : Type} (_ : A) : Prop := True.

(** Started in a session that satisfies [I], a computation returns a
    result that satisfies [Q] and leaves a session that satisfies [I]:
    it does not raise. *)
Definition returns {A : Type} (I : Session.t -> Prop) (Q : A -> Prop) (m : M A) : Prop :=
  forall s, I s -> exists s' a, runs m s s' a /\ I s' /\ Q a.

(** The batch an observer delivers is never empty; the container
    handlers read its first entry. *)
Definition readable (op : Op) : Prop :=
  match op with
  | deliver hTop _ es | deliver hBottom _ es => es <> []
  | _ => True
  end.

End Terms.

(** ** The page that uses the sequencer *)

Module Caller.
Import Scrollama.
Local Open Scope Q_scope.


(** The argument of [setup]: the elements the selectors [".scroll"],
    [".scroll__graphic"] and [".scroll__text .step"] resolve to,
    [debug: false] and [offset: 0.9]. *)
Definition options (container graphic : option nat) (step : list nat) : SetupOptions :=
  mkSetupOptions container graphic step (Some (aNumber (Double.round (9 # 10)))) None None
    (Some false) None None.


End Caller.

(** ** Numbers in margin strings *)

Module MarginText.
Local Open Scope string_scope.

(** The characters a margin string can hold and still be accepted:
    white space between the pieces and, in a piece, digits, a sign, a
    point and the letters of the two units. *)
Definition marginChar (c : ascii) : bool :=
  IntersectionObserver.isSpace c || IntersectionObserver.isDigit c
  || Ascii.eqb c "-" || Ascii.eqb c "." || Ascii.eqb c "p" || Ascii.eqb c "x"
  || Ascii.eqb c "%".

(** [`${x}px`], the way scrollama writes every component of a margin. *)
Definition pixels (x : JsNumber.t) : string := JsNumber.toString x ++ "px".

(** [`${marginTop}px 0px ${marginBottom}px 0px`], the margin string
    scrollama builds for an observer of a step. *)
Definition rootMargin (marginTop marginBottom : JsNumber.t) : string :=
  pixels marginTop ++ " 0px " ++ pixels marginBottom ++ " 0px".

(** A component as a template literal writes it: [`${x}px`], or
    [`-${x}px`] with a minus sign of the template's own. *)
Definition written (negated : bool) (x : JsNumber.t) : string :=
  if negated then "-" ++ pixels x else pixels x.

(** The same component as the sequencer hands it to the constructor. *)
Definition part (negated : bool) (x : JsNumber.t) : Scrollama.MarginPart :=
  if negated then Scrollama.minus (JsNumber.toQ x)
  else Scrollama.interpolated (JsNumber.toQ x).

(** [`${top} 0px ${bottom} 0px`], the margin string of every observer
    scrollama creates, for the two components written. *)
Definition template (top bottom : string) : string :=
  top ++ " 0px " ++ bottom ++ " 0px".

(** The numbers Number-to-String prints without an exponent: zero, and
    the finite numbers of a magnitude from [1e-6] up to but excluding
    [1e21]. *)
Definition plain (x : JsNumber.t) : bool :=
  match x with
  | JsNumber.Finite _ digits exponent =>
      let m := (inject_Z (Z.of_N digits) * Qpower (10 # 1) exponent)%Q in
      Qeq_bool m 0
      || (Qle_bool (1 # 1000000) m && negb (Qle_bool (inject_Z (10 ^ 21)) m))
  | _ => false
  end.
End MarginText.

(** ** Enter and exit calls in turn *)

Module Turns.
Import Scrollama Vocabulary.

(** [getIndex(element)], read off a session. *)
Definition indexOf (s : Session.t) (element : nat) : nat :=
  default 0%nat (Session.dataScrollamaIndex s !! element).

(** [stepStates[i].state === 'enter'] *)
Definition enteredAt (s : Session.t) (i : nat) : bool :=
  match Session.stepStates s with
  | Some sts =>
      match sts !! i with Some ss => StepState.entered ss | None => false end
  | None => false
  end.

(** Replaying the enter and exit calls made for step [i] among the
    events [evs], from a step that is entered or not: an enter call
    must find the step not entered and an exit call must find it
    entered.  The result tells whether the step is entered at the end;
    there is none when a call came out of turn. *)
Fixpoint alternates (i : nat) (entered : bool) (evs : list Event) : option bool :=
  match evs with
  | [] => Some entered
  | CallStepEnter j _ :: evs' =>
      if Nat.eqb j i
      then (if entered then None else alternates i true evs')
      else alternates i entered evs'
  | CallStepExit j _ :: evs' =>
      if Nat.eqb j i
      then (if entered then alternates i false evs' else None)
      else alternates i entered evs'
  | _ :: evs' => alternates i entered evs'
  end.

(** From [s] to [s'] the log grew by calls that came in turn for every
    step, and the state table of [s'] tells which steps they left
    entered. *)
Definition inTurn (s s' : Session.t) : Prop :=
  exists evs,
    Session.log s' = Session.log s ++ evs /\
    forall i, alternates i (enteredAt s i) evs = Some (enteredAt s' i).

(** A session that was set up for [n > 0] distinct steps, each carrying
    its position as its index and no element an index beyond the
    table, with the enter and the exit callback registered, without
    [triggerOnce] and with no step excluded. *)
Definition steady (n : nat) (s : Session.t) : Prop :=
  (0 < n)%nat /\
  (exists els sts, wellIndexed s els sts /\ length sts = n) /\
  map_Forall (fun _ i => (i < n)%nat) (Session.dataScrollamaIndex s) /\
  Callbacks.callable (Callbacks.stepEnter (Session.callback s)) = true /\
  Callbacks.callable (Callbacks.stepExit (Session.callback s)) = true /\
  Session.triggerOnce s = false /\
  Session.exclude s = ∅.

Definition takesTurns (n : nat) (s s' : Session.t) : Prop :=
  steady n s -> steady n s' /\ inTurn s s'.

End Turns.

(* ===================================================================== *)
(** * Part II: properties                                                 *)
(* ===================================================================== *)

(** ** Geometry *)

Section GeometryFacts.
Import Geometry.
Local Open Scope Q_scope.

Lemma Qle_bool_false (x y : Q) : Qle_bool x y = false <-> y < x.
Proof.
  split; intros H.
  - apply Qnot_le_lt. intros Hle. apply Qle_bool_iff in Hle. congruence.
  - destruct (Qle_bool x y) eqn:E; [|reflexivity].
    apply Qle_bool_iff in E. exfalso. exact (Qlt_not_le _ _ H E).
Qed.

Lemma Qmax_le_iff (a b c : Q) : Qmax a b <= c <-> a <= c /\ b <= c.
Proof. apply Q.max_lub_iff. Qed.

Lemma Qmin_ge_iff (a b c : Q) : c <= Qmin a b <-> c <= a /\ c <= b.
Proof. apply Q.min_glb_iff. Qed.

(** The rect that [computeRectIntersection] returns holds exactly the
    points common to both arguments. *)
Lemma computeRectIntersection_exact (a b r : Rect.t) (x y : Q) :
  computeRectIntersection a b = Some r ->
  inside r x y <-> inside a x y /\ inside b x y.
Proof.
  unfold computeRectIntersection.
  destruct (andb _ _); [|discriminate].
  intros Hr. injection Hr as <-. unfold inside; simpl.
  rewrite !Qmax_le_iff, !Qmin_ge_iff. tauto.
Qed.

(** When it returns nothing, the arguments share no point. *)
Lemma computeRectIntersection_none (a b : Rect.t) (x y : Q) :
  computeRectIntersection a b = None -> ~ (inside a x y /\ inside b x y).
Proof.
  unfold computeRectIntersection.
  destruct (Qle_bool 0 _) eqn:Ew; simpl.
  - destruct (Qle_bool 0 (Qmin (Rect.bottom a) _ - _)) eqn:Eh; [discriminate|].
    intros _ [(_ & _ & Ha1 & Ha2) (_ & _ & Hb1 & Hb2)].
    apply Qle_bool_false in Eh.
    assert (Hle : Qmax (Rect.top a) (Rect.top b) <= Qmin (Rect.bottom a) (Rect.bottom b)).
    { apply Qle_trans with y; [apply Qmax_le_iff | apply Qmin_ge_iff]; tauto. }
    apply (Qlt_not_le _ _ Eh). unfold Qminus. rewrite <- Qle_minus_iff. exact Hle.
  - intros _ [(Ha1 & Ha2 & _) (Hb1 & Hb2 & _)].
    apply Qle_bool_false in Ew.
    assert (Hle : Qmax (Rect.left a) (Rect.left b) <= Qmin (Rect.right a) (Rect.right b)).
    { apply Qle_trans with x; [apply Qmax_le_iff | apply Qmin_ge_iff]; tauto. }
    apply (Qlt_not_le _ _ Ew). unfold Qminus. rewrite <- Qle_minus_iff. exact Hle.
Qed.

(** C3. For every pair of rects the intersection has [top] and [left]
    the larger, [bottom] and [right] the smaller of the two arguments'
    edges, [width = right - left] and [height = bottom - top]; it is
    returned whenever width and height are both non-negative, and
    nothing is returned when either is negative.  A pair that only
    touches (width or height zero, neither negative) yields a rect whose
    corresponding dimension and whose area are zero. *)
Theorem computeRectIntersection_spec (a b : Rect.t) :
  let top := Qmax (Rect.top a) (Rect.top b) in
  let bottom := Qmin (Rect.bottom a) (Rect.bottom b) in
  let left := Qmax (Rect.left a) (Rect.left b) in
  let right := Qmin (Rect.right a) (Rect.right b) in
  let width := right - left in
  let height := bottom - top in
  (0 <= width /\ 0 <= height ->
   computeRectIntersection a b = Some (Rect.mk top bottom left right width height)) /\
  (width < 0 \/ height < 0 -> computeRectIntersection a b = None) /\
  (0 <= width /\ 0 <= height /\ (width == 0 \/ height == 0) ->
   exists r, computeRectIntersection a b = Some r /\
             (Rect.width r == 0 \/ Rect.height r == 0) /\
             Rect.width r * Rect.height r == 0).
Proof.
  intros top bottom left right width height.
  assert (Hsome : 0 <= width /\ 0 <= height ->
    computeRectIntersection a b = Some (Rect.mk top bottom left right width height)).
  { intros [Hw Hh]. unfold computeRectIntersection.
    fold top bottom left right. fold width height.
    apply Qle_bool_iff in Hw, Hh. rewrite Hw, Hh. reflexivity. }
  split; [exact Hsome|]. split.
  - intros H. unfold computeRectIntersection.
    fold top bottom left right. fold width height.
    destruct H as [H|H]; apply Qle_bool_false in H; rewrite H;
      [reflexivity | rewrite andb_false_r; reflexivity].
  - intros (Hw & Hh & Hz). eexists. split; [apply Hsome; split; assumption|].
    simpl. split; [exact Hz|].
    destruct Hz as [Hz|Hz]; rewrite Hz; ring.
Qed.

(** Two rects that share only the edge [x = 10], and two disjoint ones. *)
Lemma computeRectIntersection_spec_witness :
  computeRectIntersection (Rect.mk 0 10 0 10 10 10) (Rect.mk 0 10 10 20 10 10)
  = Some (Rect.mk (Qmax 0 0) (Qmin 10 10) (Qmax 0 10) (Qmin 10 20)
            (Qmin 10 20 - Qmax 0 10) (Qmin 10 10 - Qmax 0 0)) /\
  computeRectIntersection (Rect.mk 0 10 0 10 10 10) (Rect.mk 0 10 11 20 9 10)
  = None /\
  exists r,
    computeRectIntersection (Rect.mk 0 10 0 10 10 10) (Rect.mk 0 10 10 20 10 10)
    = Some r /\
    (Rect.width r == 0 \/ Rect.height r == 0) /\ Rect.width r * Rect.height r == 0.
Proof.
  split; [|split].
  - apply (proj1 (computeRectIntersection_spec
                    (Rect.mk 0 10 0 10 10 10) (Rect.mk 0 10 10 20 10 10))).
    simpl. split; vm_compute; discriminate.
  - apply (proj1 (proj2 (computeRectIntersection_spec
                    (Rect.mk 0 10 0 10 10 10) (Rect.mk 0 10 11 20 9 10)))).
    left. vm_compute. reflexivity.
  - apply (proj2 (proj2 (computeRectIntersection_spec
                    (Rect.mk 0 10 0 10 10 10) (Rect.mk 0 10 10 20 10 10)))).
    simpl. split; [|split]; [vm_compute; discriminate .. | left; vm_compute; reflexivity].
Defined.

(** C6. Expanding a rect by the four margins [top right bottom left]
    moves the top edge up and the left edge left by their margins, the
    right edge right and the bottom edge down by theirs, and recomputes
    width and height from the new edges; a pixel margin counts as its
    value, a percentage as [value * width / 100] for left and right and
    [value * height / 100] for top and bottom. *)
Theorem expandRectByRootMargin_spec (rect : Rect.t)
    (mTop mRight mBottom mLeft : Margin) :
  let amount (m : Margin) (dimension : Q) :=
    match unit m with px => value m | percent => value m * dimension / 100 end in
  let top := Rect.top rect - amount mTop (Rect.height rect) in
  let right := Rect.right rect + amount mRight (Rect.width rect) in
  let bottom := Rect.bottom rect + amount mBottom (Rect.height rect) in
  let left := Rect.left rect - amount mLeft (Rect.width rect) in
  _expandRectByRootMargin [mTop; mRight; mBottom; mLeft] rect
  = Some (Rect.mk top bottom left right (right - left) (bottom - top)).
Proof.
  unfold _expandRectByRootMargin, resolveMargin. simpl.
  destruct (unit mTop), (unit mRight), (unit mBottom), (unit mLeft); reflexivity.
Qed.

(** Every margin string that parses gives [_expandRectByRootMargin] its
    four components. *)
Lemma expandRectByRootMargin_completeShorthand (rect : Rect.t) (ms : list Margin) :
  ms <> [] -> exists r, _expandRectByRootMargin (completeShorthand ms) rect = Some r.
Proof.
  intros Hne. destruct ms as [|m0 [|m1 [|m2 [|m3 rest]]]]; [congruence| | | |];
    unfold _expandRectByRootMargin; simpl; eexists; reflexivity.
Qed.

End GeometryFacts.

(** ** The observation registry *)

Section RegistryFacts.
Import Registry.
Local Open Scope Q_scope.

Lemma Qlt_bool_iff (x y : Q) : Qlt_bool x y = true <-> x < y.
Proof.
  unfold Qlt_bool. rewrite negb_true_iff. apply Qle_bool_false.
Qed.

Lemma effectiveRatio_effective (e : Entry) :
  effectiveRatio (Some e) == effective e.
Proof.
  unfold effectiveRatio, effective. destruct (isIntersecting e); [|reflexivity].
  destruct (Qeq_bool (intersectionRatio e) 0) eqn:E; [|reflexivity].
  apply Qeq_bool_iff in E. symmetry. exact E.
Qed.

Lemma crossesSome_iff (thresholds : list Q) (old new : Q) :
  crossesSome thresholds old new = true <-> crossingRule thresholds old new.
Proof.
  unfold crossingRule. induction thresholds as [|t ts IH]; simpl.
  - split; [discriminate | intros (t & [] & _)].
  - destruct (Qeq_bool t old) eqn:Eo; simpl.
    { split; [|reflexivity]. intros _. exists t. split; [now left|].
      left. now apply Qeq_bool_iff. }
    destruct (Qeq_bool t new) eqn:En; simpl.
    { split; [|reflexivity]. intros _. exists t. split; [now left|].
      right; left. now apply Qeq_bool_iff. }
    destruct (Bool.eqb (Qlt_bool t old) (Qlt_bool t new)) eqn:Eb; simpl.
    + rewrite IH. apply Bool.eqb_prop in Eb.
      split; intros (t' & Hin & Ht').
      * exists t'. split; [now right | exact Ht'].
      * destruct Hin as [<- | Hin]; [|exists t'; now split].
        exfalso. destruct Ht' as [H | [H | H]].
        -- apply Qeq_bool_iff in H. congruence.
        -- apply Qeq_bool_iff in H. congruence.
        -- now apply H.
    + split; [|reflexivity]. intros _. exists t. split; [now left|].
      right; right. intros Heq. rewrite Heq, Bool.eqb_reflx in Eb. discriminate.
Qed.

Lemma Qlt_bool_comp (t a b : Q) : a == b -> Qlt_bool t a = Qlt_bool t b.
Proof.
  intros H. unfold Qlt_bool. f_equal.
  destruct (Qle_bool b t) eqn:E.
  - apply Qle_bool_iff. apply Qle_bool_iff in E. now rewrite H.
  - apply Qle_bool_false. apply Qle_bool_false in E. now rewrite H.
Qed.

Lemma crossingRule_comp (ths : list Q) (o o' n n' : Q) :
  o == o' -> n == n' -> crossingRule ths o n -> crossingRule ths o' n'.
Proof.
  intros Ho Hn (t & Hin & H). exists t. split; [exact Hin|].
  rewrite <- (Qlt_bool_comp t o o' Ho), <- (Qlt_bool_comp t n n' Hn).
  destruct H as [H | [H | H]].
  - left. now rewrite H.
  - right; left. now rewrite H.
  - right; right. exact H.
Qed.

(** C2, as the code has it.  For a previous and a new report of a
    target, the registry reports a change exactly when the two
    effective ratios differ and the crossing rule holds of them: some
    threshold equals one of the two ratios or lies below exactly one of
    them.  In particular a move of the ratio from 0.2 to 0.4 or back
    across a threshold 0.3 is reported, and a move from 0.2 to 0.25 with
    no threshold from 0.2 to 0.25 is not. *)
Theorem hasCrossedThreshold_iff (thresholds : list Q) :
  (forall oldEntry newEntry : Entry,
     _hasCrossedThreshold thresholds (Some oldEntry) newEntry = true <->
     ~ effective oldEntry == effective newEntry /\
     crossingRule thresholds (effective oldEntry) (effective newEntry)) /\
  (forall a b : Entry,
     isIntersecting a = true -> intersectionRatio a == 2 # 10 ->
     isIntersecting b = true -> intersectionRatio b == 4 # 10 ->
     In (3 # 10) thresholds ->
     _hasCrossedThreshold thresholds (Some a) b = true /\
     _hasCrossedThreshold thresholds (Some b) a = true) /\
  (forall a b : Entry,
     isIntersecting a = true -> intersectionRatio a == 2 # 10 ->
     isIntersecting b = true -> intersectionRatio b == 25 # 100 ->
     (forall t, In t thresholds -> t < 2 # 10 \/ 25 # 100 < t) ->
     _hasCrossedThreshold thresholds (Some a) b = false).
Proof.
  assert (Hiff : forall oldEntry newEntry : Entry,
     _hasCrossedThreshold thresholds (Some oldEntry) newEntry = true <->
     ~ effective oldEntry == effective newEntry /\
     crossingRule thresholds (effective oldEntry) (effective newEntry)).
  { intros o n. unfold _hasCrossedThreshold.
    pose proof (effectiveRatio_effective o) as Ho.
    pose proof (effectiveRatio_effective n) as Hn.
    destruct (Qeq_bool (effectiveRatio (Some o)) (effectiveRatio (Some n))) eqn:E.
    - apply Qeq_bool_iff in E. split; [discriminate|].
      intros [Hne _]. exfalso. apply Hne. now rewrite <- Ho, <- Hn.
    - apply Qeq_bool_neq in E. rewrite crossesSome_iff. split.
      + intros H. split.
        * intros Heq. apply E. now rewrite Ho, Hn.
        * now apply (crossingRule_comp thresholds _ _ _ _ Ho Hn).
      + intros [_ H].
        apply (crossingRule_comp thresholds (effective o) _ (effective n)); try easy;
          now symmetry. }
  split; [exact Hiff|]. split.
  - intros a b Ia Ra Ib Rb Hin.
    assert (Ea : effective a == 2 # 10) by (unfold effective; now rewrite Ia).
    assert (Eb : effective b == 4 # 10) by (unfold effective; now rewrite Ib).
    assert (Hrule : crossingRule thresholds (2 # 10) (4 # 10)).
    { exists (3 # 10). split; [exact Hin|]. right; right. vm_compute. discriminate. }
    split; apply Hiff; split.
    + rewrite Ea, Eb. vm_compute. discriminate.
    + apply (crossingRule_comp thresholds (2 # 10) _ (4 # 10)); try easy; now symmetry.
    + rewrite Ea, Eb. vm_compute. discriminate.
    + destruct Hrule as (t & Hin' & Ht). 
      apply (crossingRule_comp thresholds (4 # 10) _ (2 # 10)); try (now symmetry).
      exists t. split; [exact Hin'|].
      destruct Ht as [H | [H | H]]; [right; now left | now left | right; right; congruence].
  - intros a b Ia Ra Ib Rb Hnone.
    destruct (_hasCrossedThreshold thresholds (Some a) b) eqn:E; [|reflexivity].
    apply Hiff in E. destruct E as [_ (t & Hin & Ht)]. exfalso.
    assert (Ea : effective a == 2 # 10) by (unfold effective; now rewrite Ia).
    assert (Eb : effective b == 25 # 100) by (unfold effective; now rewrite Ib).
    rewrite (Qlt_bool_comp t _ _ Ea), (Qlt_bool_comp t _ _ Eb) in Ht.
    destruct (Hnone t Hin) as [Hlt | Hgt].
    + destruct Ht as [H | [H | H]].
      * rewrite H, Ea in Hlt. exact (Qlt_irrefl _ Hlt).
      * rewrite H, Eb in Hlt. revert Hlt. vm_compute. discriminate.
      * apply H.
        assert (H1 : Qlt_bool t (2 # 10) = true) by now apply Qlt_bool_iff.
        assert (H2 : Qlt_bool t (25 # 100) = true).
        { apply Qlt_bool_iff. apply Qlt_trans with (2 # 10); [exact Hlt | reflexivity]. }
        congruence.
    + destruct Ht as [H | [H | H]].
      * rewrite H, Ea in Hgt. revert Hgt. vm_compute. discriminate.
      * rewrite H, Eb in Hgt. exact (Qlt_irrefl _ Hgt).
      * apply H.
        assert (H1 : Qlt_bool t (25 # 100) = false).
        { unfold Qlt_bool. rewrite negb_false_iff. apply Qle_bool_iff.
          now apply Qlt_le_weak. }
        assert (H2 : Qlt_bool t (2 # 10) = false).
        { unfold Qlt_bool. rewrite negb_false_iff. apply Qle_bool_iff.
          apply Qlt_le_weak. apply Qlt_trans with (25 # 100); [reflexivity | exact Hgt]. }
        congruence.
Qed.

(** A target whose ratio moves from 0.2 to 0.4 under the thresholds
    [0, 0.3, 1]. *)
Lemma hasCrossedThreshold_iff_witness :
  let a := mkEntry 0 (Rect.mk 0 10 0 10 10 10) true (2 # 10) in
  let b := mkEntry 0 (Rect.mk 0 10 0 10 10 10) true (4 # 10) in
  _hasCrossedThreshold [0; 3 # 10; 1] (Some a) b = true /\
  _hasCrossedThreshold [0; 3 # 10; 1] (Some b) a = true.
Proof.
  intros a b.
  apply (proj1 (proj2 (hasCrossedThreshold_iff [0; 3 # 10; 1])) a b);
    [reflexivity | reflexivity | reflexivity | reflexivity |].
  simpl. right. left. reflexivity.
Defined.

(** C2 as stated fails where the ratio does not change: a target
    resting at ratio 0.3 under the threshold 0.3 satisfies the crossing
    rule (the threshold equals both ratios), yet nothing is reported. *)
Lemma hasCrossedThreshold_unchanged_counterexample :
  let e := mkEntry 0 (Rect.mk 0 10 0 10 10 10) true (3 # 10) in
  ~ (_hasCrossedThreshold [3 # 10] (Some e) e = true <->
     crossingRule [3 # 10] (effective e) (effective e)).
Proof.
  intros e [_ H].
  assert (Hrule : crossingRule [3 # 10] (effective e) (effective e)).
  { exists (3 # 10). split; [now left|]. left. reflexivity. }
  specialize (H Hrule). revert H. vm_compute. discriminate.
Qed.

(** *** Threshold initialisation *)

Lemma In_insert (x y : JsValue) (a : list JsValue) :
  In x (insert y a) <-> x = y \/ In x a.
Proof.
  induction a as [|z a IH]; simpl.
  - intuition.
  - destruct (sortCompare y z); simpl; rewrite ?IH; intuition.
Qed.

Lemma In_sort (x : JsValue) (a : list JsValue) : In x (sort a) <-> In x a.
Proof.
  unfold sort. induction a as [|y a IH]; simpl.
  - reflexivity.
  - rewrite In_insert, IH. intuition.
Qed.

Lemma filterThresholds_rejects (prev : option JsValue) (a : list JsValue) :
  (exists t, In t a /\ invalidThreshold t = true) ->
  exists message, filterThresholds prev a = Throw message.
Proof.
  revert prev. induction a as [|t a IH]; intros prev (t' & Hin & Hbad).
  - destruct Hin.
  - simpl. destruct (invalidThreshold t) eqn:E; [eauto|].
    destruct Hin as [-> | Hin]; [congruence|].
    destruct (IH (Some t)) as [m Hm]; [eauto|]. rewrite Hm. eauto.
Qed.

Lemma filterThresholds_accepts (prev : option JsValue) (a : list JsValue) :
  (forall t, In t a -> invalidThreshold t = false) ->
  exists l, filterThresholds prev a = Return l /\ (forall t, In t l -> In t a).
Proof.
  revert prev. induction a as [|t a IH]; intros prev Hok; simpl.
  - eauto.
  - rewrite (Hok t) by now left.
    destruct (IH (Some t)) as (l & -> & Hl); [intros; apply Hok; now right|].
    eexists. split; [reflexivity|].
    intros x. destruct (differsFromPrevious prev t); simpl; intuition.
Qed.

(** X27. An array holding a value that is not a number, is [NaN], or lies
    outside [0, 1] is rejected with an error; an array of valid values
    is accepted, and so is a missing threshold, which defaults to [0]. *)
Lemma initThresholds_validation (a : list JsValue) :
  ((exists t, In t a /\ invalidThreshold t = true) ->
   exists message, _initThresholds (array a) = Throw message) /\
  ((forall t, In t a -> invalidThreshold t = false) ->
   exists l, _initThresholds (array a) = Return l /\ (forall t, In t l -> In t a)) /\
  _initThresholds unset = Return [number (JsNumber.Finite false 0 0)].
Proof.
  split; [|split].
  - intros (t & Hin & Hbad). apply filterThresholds_rejects.
    exists t. now rewrite In_sort.
  - intros Hok. destruct (filterThresholds_accepts None (sort a)) as (l & Hl & Hin).
    + intros t Ht. apply Hok. now apply In_sort.
    + exists l. split; [exact Hl|]. intros t Ht. apply In_sort. now apply Hin.
  - reflexivity.
Qed.

(** C7, where the code departs from it.  The array [[0.5, 1e-7]] holds
    two valid thresholds; the sort without a comparator orders them by
    their strings ["0.5"] and ["1e-7"], so the array is returned as it
    is, the larger value first. *)
Theorem initThresholds_sorts_by_string :
  let half := JsNumber.Finite false 5 (-1) in
  let tiny := JsNumber.Finite false 1 (-7) in
  _initThresholds (array [number half; number tiny])
    = Return [number half; number tiny] /\
  JsNumber.lt tiny half = true /\
  JsNumber.toString half = "0.5"%string /\
  JsNumber.toString tiny = "1e-7"%string.
Proof. vm_compute. repeat split. Qed.

End RegistryFacts.

(** ** Double-precision arithmetic: the rounding error *)

Section DoubleFacts.
Import Double.
Local Open Scope Q_scope.











End DoubleFacts.

(** ** The sequencer: thresholds of the progress registry *)

Section ThresholdFacts.
Import Scrollama.
Local Open Scope Q_scope.





Section ThresholdBounds.
Variables (pt height : Q).
Hypothesis Hlow : Double.pow2 (-1022) <= height / pt.
Hypothesis Hhigh : height / pt <= Double.pow2 48.







End ThresholdBounds.




End ThresholdFacts.

(** ** The sequencer: computations and what they preserve *)

Section MonadFacts.
Import Scrollama.

Context (R : Session.t -> Session.t -> Prop) `{!PreOrder R}.

Lemma preserves_ret {A : Type} (a : A) : preserves R (ret a).
Proof. intros s. simpl. reflexivity. Qed.

Lemma preserves_throw {A : Type} : preserves R (@throw A).
Proof. intros s. simpl. reflexivity. Qed.

Lemma preserves_gets {A : Type} (f : Session.t -> A) : preserves R (gets f).
Proof. intros s. simpl. reflexivity. Qed.

Lemma preserves_defined {A : Type} (o : option A) : preserves R (defined o).
Proof. destruct o; [apply preserves_ret | apply preserves_throw]. Qed.

Lemma preserves_modify (f : Session.t -> Session.t) :
  (forall s, R s (f s)) -> preserves R (modify f).
Proof. intros H s. simpl. apply H. Qed.

Lemma preserves_bind {A B : Type} (m : M A) (k : A -> M B) :
  preserves R m -> (forall a, preserves R (k a)) -> preserves R (bind m k).
Proof.
  intros Hm Hk s. unfold bind. specialize (Hm s).
  destruct (m s) as [s' [a|]]; simpl in *; [|exact Hm].
  transitivity s'; [exact Hm | apply Hk].
Qed.

Lemma preserves_when (b : bool) (m : M unit) :
  preserves R m -> preserves R (when b m).
Proof. intros H. destruct b; [exact H | apply preserves_ret]. Qed.

Lemma preserves_forEach {A : Type} (l : list A) (f : A -> M unit) :
  (forall x, preserves R (f x)) -> preserves R (forEach l f).
Proof.
  intros H. induction l as [|x l IH]; simpl; [apply preserves_ret|].
  apply preserves_bind; [apply H | intros _; exact IH].
Qed.

Lemma preserves_mapIndexed {A B : Type} (f : A -> nat -> M B) (i : nat) (l : list A) :
  (forall x j, preserves R (f x j)) -> preserves R (mapIndexed f i l).
Proof.
  intros H. revert i. induction l as [|x l IH]; intros i; simpl; [apply preserves_ret|].
  apply preserves_bind; [apply H|]. intros y.
  apply preserves_bind; [apply IH|]. intros ys. apply preserves_ret.
Qed.

Lemma preserves_andThen (a : bool) (b : M bool) :
  preserves R b -> preserves R (andThen a b).
Proof. intros H. destruct a; [exact H | apply preserves_ret]. Qed.

Lemma preserves_discard {A : Type} (m : M A) :
  preserves R m -> preserves R (discard m).
Proof. intros H. apply preserves_bind; [exact H | intros _; apply preserves_ret]. Qed.

End MonadFacts.

(** Decomposes a goal [preserves R m] along the structure of [m], down
    to the [modify] steps and the calls it does not know. *)
Ltac preserve_step :=
  match goal with
  | |- preserves _ (Scrollama.bind _ _) =>
      apply preserves_bind; [typeclasses eauto | | intros ?]
  | |- preserves _ (Scrollama.ret _) => apply preserves_ret; typeclasses eauto
  | |- preserves _ Scrollama.throw => apply preserves_throw; typeclasses eauto
  | |- preserves _ (Scrollama.gets _) => apply preserves_gets; typeclasses eauto
  | |- preserves _ (Scrollama.defined _) =>
      apply preserves_defined; typeclasses eauto
  | |- preserves _ (Scrollama.when _ _) =>
      apply preserves_when; [typeclasses eauto |]
  | |- preserves _ (Scrollama.andThen _ _) =>
      apply preserves_andThen; [typeclasses eauto |]
  | |- preserves _ (Scrollama.discard _) =>
      apply preserves_discard; [typeclasses eauto |]
  | |- preserves _ (Scrollama.forEach _ _) =>
      apply preserves_forEach; [typeclasses eauto | intros ?]
  | |- preserves _ (Scrollama.mapIndexed _ _ _) =>
      apply preserves_mapIndexed; [typeclasses eauto | intros ? ?]
  | |- preserves _ (Scrollama.modify _) => apply preserves_modify; intros ?
  | |- preserves _ (if ?b then _ else _) => destruct b
  | |- preserves _ (match ?x with _ => _ end) => destruct x
  end.

Ltac preserve := repeat preserve_step.

(** ** The sequencer: lifecycle *)

Section LifecycleFacts.
Import Scrollama.
Local Open Scope Q_scope.

#[global] Instance sameLogicalState_preorder : PreOrder sameLogicalState.
Proof.
  split.
  - intros s. unfold sameLogicalState. repeat split.
  - intros a b c Hab Hbc. unfold sameLogicalState in *.
    decompose [and] Hab. decompose [and] Hbc. repeat split; congruence.
Qed.






(** [offsetTrigger(x)] with a number other than zero stores [x] clamped
    into [0, 1] and returns the session object; without an argument it
    returns the current offset. *)
Lemma offsetTrigger_nonzero (s : Session.t) (x : Q) :
  ~ x == 0 ->
  offsetTrigger (Some (aNumber x)) s
  = (Session.set_offsetVal (Qmin (Qmax 0 x) 1) s, Some theSession) /\
  0 <= Qmin (Qmax 0 x) 1 <= 1 /\
  (0 <= x <= 1 -> Qmin (Qmax 0 x) 1 == x) /\
  offsetTrigger None s = (s, Some (theNumber (Session.offsetVal s))).
Proof.
  intros Hx. split; [|split; [|split]].
  - unfold offsetTrigger. destruct (Qeq_bool x 0) eqn:E; [|reflexivity].
    apply Qeq_bool_iff in E. contradiction.
  - split.
    + apply Q.min_glb; [apply Q.le_max_l | discriminate].
    + apply Q.le_min_r.
  - intros [H0 H1]. rewrite Q.max_r by exact H0. now rewrite Q.min_l.
  - reflexivity.
Qed.

(** C5, where the code departs from it.  [offsetTrigger(0)] takes the
    branch meant for a missing argument: it returns the current offset
    instead of the session object and stores nothing, so a session whose
    offset is 0.5 keeps 0.5, and [setup] with [offset: 0] likewise keeps
    whatever offset the session had.  A negative argument does set the
    offset to 0. *)
Theorem offsetTrigger_zero_reads (s : Session.t) :
  offsetTrigger (Some (aNumber 0)) s = (s, Some (theNumber (Session.offsetVal s))) /\
  offsetTrigger (Some (aNumber 0)) (Session.set_offsetVal (1 # 2) Session.fresh)
  = (Session.set_offsetVal (1 # 2) Session.fresh, Some (theNumber (1 # 2))) /\
  Session.offsetVal
    (fst (offsetTrigger (Some (aNumber (-1))) (Session.set_offsetVal (1 # 2) Session.fresh)))
  == 0 /\
  (forall (o : SetupOptions) (host : Host),
     offset o = Some (aNumber 0) -> step o <> [] ->
     Session.offsetVal (fst (setup o host s)) = Session.offsetVal s).
Proof.
  split; [reflexivity|]. split; [reflexivity|]. split; [reflexivity|].
  intros o host Hoff Hstep.
  assert (Hpres : forall (m : M unit) (x : Session.t),
            preserves (fun a b => Session.offsetVal b = Session.offsetVal a) m ->
            Session.offsetVal (fst (m x)) = Session.offsetVal x).
  { intros m x H. apply H. }
  assert (HPO : PreOrder (fun a b : Session.t => Session.offsetVal b = Session.offsetVal a)).
  { split; [intros a; reflexivity | intros a b c Hab Hbc; congruence]. }
  assert (Hio : preserves (fun a b => Session.offsetVal b = Session.offsetVal a) updateIO).
  { unfold updateIO, updateTopIO, updateBottomIO, updateStepAboveIO, updateStepBelowIO,
      updateViewportAboveIO, updateViewportBelowIO, updateStepProgressIO,
      mapSteps, observing, stepHeightAt, stepTopAt, createThreshold, setIo, getIo.
    preserve; reflexivity. }
  assert (Hrest : preserves (fun a b => Session.offsetVal b = Session.offsetVal a)
            (indexSteps ;; setupStates ;; handleResize host ;; handleEnable true ;;
             ret theSession)).
  { unfold indexSteps, setupStates, handleResize, handleEnable, setIo.
    preserve; try apply Hio; reflexivity. }
  unfold setup. rewrite Hoff.
  destruct (step o) as [|el els] eqn:Esteps; [congruence|].
  unfold bind at 1 2 3 4 5 6 7 8 9 10 11. simpl.
  match goal with |- Session.offsetVal (fst (?m ?x)) = _ =>
    transitivity (Session.offsetVal x); [apply (Hrest x) | reflexivity] end.
Qed.

(** A setup with [offset: 0] of a session whose offset is 0.9. *)
Lemma offsetTrigger_zero_reads_witness :
  let host := mkHost 800 5000 (fun _ => Rect.mk 0 800 0 1000 1000 800)
                (fun _ => 500) (fun el => [inject_Z (Z.of_nat el) * 500]) in
  let o := mkSetupOptions None None [10; 11]%nat (Some (aNumber 0)) None None None
             None None in
  Session.offsetVal (fst (setup o host (Session.set_offsetVal (9 # 10) Session.fresh)))
  = 9 # 10.
Proof.
  intros host o.
  apply (proj2 (proj2 (proj2 (offsetTrigger_zero_reads
           (Session.set_offsetVal (9 # 10) Session.fresh)))) o host);
    [reflexivity | discriminate].
Defined.

(** C8. When the step selector resolves to no element, [setup] logs
    the error and returns the session object without raising.  Only
    the three element variables are assigned: the steps are not
    indexed, no state table is created, no observer is created or
    touched, nothing is measured, the options are not stored, and the
    ready and enabled flags are as before, so a session that was not
    ready is still not ready. *)
Theorem setup_without_steps (s : Session.t) (o : SetupOptions) (host : Host) :
  step o = [] ->
  exists s',
    setup o host s = (s', Some theSession) /\
    Session.log s' = Session.log s ++ [ConsoleError "scrollama error: no step elements"] /\
    Session.isReady s' = Session.isReady s /\
    Session.isEnabled s' = Session.isEnabled s /\
    Session.dataScrollamaIndex s' = Session.dataScrollamaIndex s /\
    Session.stepStates s' = Session.stepStates s /\
    Session.containerState s' = Session.containerState s /\
    Session.io s' = Session.io s /\
    (Session.vh s' = Session.vh s /\ Session.ph s' = Session.ph s /\
     Session.offsetMargin s' = Session.offsetMargin s /\
     Session.stepOffsetHeight s' = Session.stepOffsetHeight s /\
     Session.stepOffsetTop s' = Session.stepOffsetTop s /\
     Session.bboxGraphic s' = Session.bboxGraphic s) /\
    (Session.offsetVal s' = Session.offsetVal s /\
     Session.debugMode s' = Session.debugMode s /\
     Session.progressMode s' = Session.progressMode s /\
     Session.progressThreshold s' = Session.progressThreshold s /\
     Session.preserveOrder s' = Session.preserveOrder s /\
     Session.triggerOnce s' = Session.triggerOnce s) /\
    Session.callback s' = Session.callback s /\
    Session.stepEl s' = Some [] /\
    Session.containerEl s' = container o /\
    Session.graphicEl s' = graphic o /\
    (Session.isReady s = false -> Session.isReady s' = false).
Proof.
  intros Hsteps. unfold setup. rewrite Hsteps. simpl.
  eexists. split; [reflexivity|]. simpl. repeat split. intros H; exact H.
Qed.

(** A first [setup] whose selector matches nothing. *)
Lemma setup_without_steps_witness :
  let host := mkHost 800 5000 (fun _ => Rect.mk 0 800 0 1000 1000 800)
                (fun _ => 500) (fun _ => []) in
  let o := mkSetupOptions (Some 100%nat) None [] None None None None None None in
  exists s',
    setup o host Session.fresh = (s', Some theSession) /\
    Session.isReady s' = false /\
    Session.io s' = Observers.empty /\
    Session.stepStates s' = None.
Proof.
  intros host o.
  destruct (setup_without_steps Session.fresh o host)
    as (s' & Hrun & _ & Hready & _ & _ & Hstates & _ & Hio & _); [reflexivity|].
  exists s'. split; [exact Hrun|]. split; [exact Hready|].
  split; [exact Hio | exact Hstates].
Defined.

End LifecycleFacts.

(** ** The sequencer: running the notifications *)


Section RunFacts.
Import Scrollama.

Lemma runs_bind {A B : Type} (m : M A) (k : A -> M B) (s s1 s2 : Session.t) (a : A) (b : B) :
  runs m s s1 a -> runs (k a) s1 s2 b -> runs (bind m k) s s2 b.
Proof. unfold runs, bind. intros -> H. exact H. Qed.

Lemma runs_ret {A : Type} (a : A) (s : Session.t) : runs (ret a) s s a.
Proof. reflexivity. Qed.

Lemma runs_gets {A : Type} (f : Session.t -> A) (s : Session.t) : runs (gets f) s s (f s).
Proof. reflexivity. Qed.

Lemma runs_modify (f : Session.t -> Session.t) (s : Session.t) :
  runs (modify f) s (f s) tt.
Proof. reflexivity. Qed.

Lemma runs_defined {A : Type} (o : option A) (a : A) (s : Session.t) :
  o = Some a -> runs (defined o) s s a.
Proof. intros ->. reflexivity. Qed.

Lemma runs_when_true (m : M unit) (s s' : Session.t) :
  runs m s s' tt -> runs (when true m) s s' tt.
Proof. intros H. exact H. Qed.

Lemma runs_when_false (m : M unit) (s : Session.t) : runs (when false m) s s tt.
Proof. reflexivity. Qed.

Lemma runs_stepStateAt (s : Session.t) (sts : list StepState.t) (i : nat) (ss : StepState.t) :
  Session.stepStates s = Some sts -> sts !! i = Some ss ->
  runs (stepStateAt i) s s ss.
Proof.
  intros Hs Hi. unfold stepStateAt.
  eapply runs_bind; [apply runs_gets|].
  eapply runs_bind; [apply runs_defined; exact Hs|].
  apply runs_defined; exact Hi.
Qed.

Lemma runs_stepElAt (s : Session.t) (els : list nat) (i el : nat) :
  Session.stepEl s = Some els -> els !! i = Some el ->
  runs (stepElAt i) s s el.
Proof.
  intros Hs Hi. unfold stepElAt.
  eapply runs_bind; [apply runs_gets|].
  eapply runs_bind; [apply runs_defined; exact Hs|].
  apply runs_defined; exact Hi.
Qed.

Lemma runs_getIndex (s : Session.t) (el i : nat) :
  Session.dataScrollamaIndex s !! el = Some i -> runs (getIndex el) s s i.
Proof. intros H. unfold getIndex, runs, gets. now rewrite H. Qed.

Lemma runs_setStep (s : Session.t) (sts : list StepState.t) (i : nat) (ss : StepState.t)
    (d : Direction) (p : Phase) :
  Session.stepStates s = Some sts -> sts !! i = Some ss ->
  runs (setStepDirection i d ;; setStepPhase i p) s
    (withStep i (StepState.mk (Some d) (Some p)) sts s) tt.
Proof.
  intros Hs Hi.
  assert (Hlt : i < length sts) by (eapply lookup_lt_Some; eauto).
  eapply runs_bind.
  - unfold setStepDirection.
    eapply runs_bind; [eapply runs_stepStateAt; eauto|]. apply runs_modify.
  - unfold setStepPhase. rewrite Hs. simpl.
    eapply runs_bind.
    + eapply runs_stepStateAt; [reflexivity|]. apply list_lookup_insert_eq. exact Hlt.
    + unfold runs, modify, withStep. simpl. rewrite list_insert_insert_eq. reflexivity.
Qed.

Lemma runs_setStep_then {A : Type} (k : M A) (s s' : Session.t)
    (sts : list StepState.t) (i : nat) (ss : StepState.t) (d : Direction) (p : Phase)
    (a : A) :
  Session.stepStates s = Some sts -> sts !! i = Some ss ->
  runs k (withStep i (StepState.mk (Some d) (Some p)) sts s) s' a ->
  runs (setStepDirection i d ;; setStepPhase i p ;; k) s s' a.
Proof.
  intros Hs Hi Hk.
  pose proof (runs_setStep s sts i ss d p Hs Hi) as H.
  unfold runs, bind in *.
  destruct (setStepDirection i d s) as [s1 [[]|]]; [|discriminate].
  rewrite H. exact Hk.
Qed.

Lemma runs_notifyStepExit (s : Session.t) (sts : list StepState.t) (el i : nat)
    (ss : StepState.t) (d : Direction) :
  Session.dataScrollamaIndex s !! el = Some i ->
  Session.stepStates s = Some sts -> sts !! i = Some ss ->
  runs (notifyStepExit el d) s
    (Session.set_log (Session.log s ++ exitLog s i d)
       (withStep i (StepState.mk (Some d) (Some exit)) sts s)) tt.
Proof.
  intros Hidx Hs Hi. unfold notifyStepExit.
  eapply runs_bind; [apply runs_getIndex; exact Hidx|].
  eapply runs_setStep_then; [exact Hs | exact Hi|].
  unfold exitLog, withStep, notifyStepProgress, getIndex, emit.
  destruct (Session.progressMode s) eqn:Em, d,
    (Callbacks.callable (Callbacks.stepProgress (Session.callback s))) eqn:Ep,
    (Callbacks.callable (Callbacks.stepExit (Session.callback s))) eqn:Ee;
    unfold runs, bind, gets, when, modify, ret;
    repeat (progress (simpl; rewrite ?Em, ?Ep, ?Ee, ?Hidx));
    rewrite <- ?app_assoc, ?app_nil_r; reflexivity.
Qed.

Lemma enterTail_effect (s : Session.t) (el i : nat) (d : Direction) :
  enterTail i el d s
  = (Session.set_log
       (Session.log s
        ++ enterLogAt s i (default 0%nat (Session.dataScrollamaIndex s !! el)) d)
       (Session.set_exclude (enterExclude s i) s), Some tt).
Proof.
  unfold enterTail, enterLogAt, enterExclude, enterCall, notifyStepProgress, getIndex, emit.
  destruct (Session.progressMode s) eqn:Em, d,
    (Callbacks.callable (Callbacks.stepProgress (Session.callback s))) eqn:Ep,
    (Callbacks.callable (Callbacks.stepEnter (Session.callback s))) eqn:Ee,
    (bool_decide (i ∈ Session.exclude s)) eqn:Ex,
    (Session.triggerOnce s) eqn:Et;
    unfold runs, bind, gets, when, modify, ret;
    repeat (progress (simpl; rewrite ?Em, ?Ep, ?Ee, ?Ex, ?Et));
    rewrite <- ?app_assoc, ?app_nil_r; try reflexivity.
  all: destruct s; reflexivity.
Qed.

Lemma runs_enterTail (s : Session.t) (el i : nat) (d : Direction) :
  Session.dataScrollamaIndex s !! el = Some i ->
  runs (enterTail i el d) s
    (Session.set_log (Session.log s ++ enterLog s i d)
       (Session.set_exclude (enterExclude s i) s)) tt.
Proof.
  intros Hidx. unfold runs. rewrite enterTail_effect, Hidx. reflexivity.
Qed.

Lemma notifyStepEnterWith_unfold (others : nat -> Location -> M unit)
    (el : nat) (d : Direction) (check : bool) :
  notifyStepEnterWith others el d check =
  (index <- getIndex el ;;
   setStepDirection index d ;;
   setStepPhase index enter ;;
   preserveOrder <- gets Session.preserveOrder ;;
   when (preserveOrder && check && Direction_eqb d down) (others index above) ;;
   when (preserveOrder && check && Direction_eqb d up) (others index below) ;;
   enterTail index el d).
Proof. reflexivity. Qed.

(** [notifyStepEnter] with [check = false], as [notifyOthers] calls it. *)
Lemma runs_notifyStepEnter_unchecked (others : nat -> Location -> M unit)
    (s : Session.t) (sts : list StepState.t) (el i : nat) (ss : StepState.t)
    (d : Direction) :
  Session.dataScrollamaIndex s !! el = Some i ->
  Session.stepStates s = Some sts -> sts !! i = Some ss ->
  runs (notifyStepEnterWith others el d false) s
    (Session.set_log (Session.log s ++ enterLog s i d)
       (Session.set_exclude (enterExclude s i)
          (withStep i (StepState.mk (Some d) (Some enter)) sts s))) tt.
Proof.
  intros Hidx Hs Hi. rewrite notifyStepEnterWith_unfold.
  eapply runs_bind; [apply runs_getIndex; exact Hidx|].
  eapply runs_setStep_then; [exact Hs | exact Hi|].
  eapply runs_bind; [apply runs_gets|].
  rewrite andb_false_r. simpl.
  eapply runs_bind; [reflexivity|].
  eapply runs_bind; [reflexivity|].
  apply (runs_enterTail (withStep i _ sts s) el i d). exact Hidx.
Qed.

Lemma stepCalls_app (a b : list Event) : stepCalls (a ++ b) = stepCalls a ++ stepCalls b.
Proof. apply List.filter_app. Qed.

Lemma stepCalls_exitLog (s : Session.t) (i : nat) (d : Direction) :
  Callbacks.callable (Callbacks.stepExit (Session.callback s)) = true ->
  stepCalls (exitLog s i d) = [CallStepExit i d].
Proof.
  intros H. unfold exitLog. rewrite H, stepCalls_app.
  destruct (_ && _); reflexivity.
Qed.

Lemma stepCalls_enterLog (s : Session.t) (i : nat) (d : Direction) :
  Callbacks.callable (Callbacks.stepEnter (Session.callback s)) = true ->
  stepCalls (enterLog s i d) = enterCall s i d.
Proof.
  intros H. unfold enterLog, enterLogAt, enterCall. rewrite H, stepCalls_app.
  destruct (bool_decide _); destruct (_ && _); reflexivity.
Qed.

Lemma directionIs_opposite (d : Direction) (p : option Phase) :
  StepState.directionIs (opposite d) (StepState.mk (Some d) p) = false.
Proof. destruct d; reflexivity. Qed.

Lemma elem_of_enterExclude (s : Session.t) (i k : nat) :
  k <> i -> k ∈ enterExclude s i <-> k ∈ Session.exclude s.
Proof.
  intros Hne. unfold enterExclude. destruct (_ && _ && _); [|reflexivity].
  rewrite elem_of_union, elem_of_singleton. tauto.
Qed.

(** What one round of the loops of [notifyOthers] does for step [j]: it
    runs to its end, leaves every other step and every other exclusion
    flag alone, and invokes the callbacks listed by [synthesized]. *)
Lemma notifyOther_effect (s : Session.t) (els : list nat) (sts : list StepState.t)
    (j : nat) (d : Direction) :
  wellIndexed s els sts -> j < length sts ->
  exists s' sts',
    runs (notifyOther d j) s s' tt /\
    wellIndexed s' els sts' /\
    sameSettings s s' /\
    (forall k, k <> j -> sts' !! k = sts !! k) /\
    (forall k, k <> j -> k ∈ Session.exclude s' <-> k ∈ Session.exclude s) /\
    exists evs,
      Session.log s' = Session.log s ++ evs /\
      (Callbacks.callable (Callbacks.stepEnter (Session.callback s)) = true ->
       Callbacks.callable (Callbacks.stepExit (Session.callback s)) = true ->
       stepCalls evs = synthesized d s sts j).
Proof.
  intros (Hels & Hsts & Hlen & Hattr) Hj.
  destruct (lookup_lt_is_Some_2 sts j Hj) as [ss Hss].
  destruct (lookup_lt_is_Some_2 els j) as [el Hel]; [lia|].
  pose proof (Hattr j el Hel) as Hidx.
  unfold notifyOther. fold (opposite d).
  unfold synthesized. rewrite Hss.
  destruct (StepState.entered ss) eqn:Eent.
  - (* still entered: a single exit *)
    eexists _, _. split.
    { eapply runs_bind; [eapply runs_stepStateAt; eauto|]. rewrite Eent.
      eapply runs_bind.
      { apply runs_when_true.
        eapply runs_bind; [eapply runs_stepElAt; eauto|].
        eapply runs_notifyStepExit; eauto. }
      eapply runs_bind.
      { eapply runs_stepStateAt; [reflexivity|]. apply list_lookup_insert_eq. exact Hj. }
      rewrite directionIs_opposite. apply runs_when_false. }
    split; [|split; [|split; [|split]]].
    + repeat split; simpl; auto. now rewrite length_insert.
    + repeat split.
    + intros k Hk. now apply list_lookup_insert_ne.
    + intros k Hk. reflexivity.
    + eexists. split; [reflexivity|]. intros _ Hexit. now apply stepCalls_exitLog.
  - destruct (StepState.directionIs (opposite d) ss) eqn:Edir.
    + (* skipped: an enter and an exit *)
      eexists _, _. split.
      { eapply runs_bind; [eapply runs_stepStateAt; eauto|]. rewrite Eent.
        eapply runs_bind; [apply runs_when_false|].
        eapply runs_bind; [eapply runs_stepStateAt; eauto|]. rewrite Edir.
        apply runs_when_true.
        eapply runs_bind; [eapply runs_stepElAt; eauto|].
        eapply runs_bind; [eapply runs_notifyStepEnter_unchecked; eauto|].
        eapply runs_bind; [eapply runs_stepElAt; [exact Hels | exact Hel]|].
        eapply runs_notifyStepExit; [exact Hidx | reflexivity |].
        apply list_lookup_insert_eq. exact Hj. }
      split; [|split; [|split; [|split]]].
      * repeat split; simpl; auto. now rewrite !length_insert.
      * repeat split.
      * intros k Hk. simpl. rewrite list_insert_insert_eq.
        now apply list_lookup_insert_ne.
      * intros k Hk. simpl. now apply elem_of_enterExclude.
      * eexists. split; [simpl; rewrite <- app_assoc; reflexivity|].
        intros Henter Hexit. rewrite stepCalls_app.
        rewrite stepCalls_enterLog by exact Henter.
        rewrite stepCalls_exitLog by exact Hexit. reflexivity.
    + (* neither *)
      exists s, sts. split.
      { eapply runs_bind; [eapply runs_stepStateAt; eauto|]. rewrite Eent.
        eapply runs_bind; [apply runs_when_false|].
        eapply runs_bind; [eapply runs_stepStateAt; eauto|]. rewrite Edir.
        apply runs_when_false. }
      split; [repeat split; auto|]. split; [repeat split|].
      split; [reflexivity|]. split; [reflexivity|].
      exists []. split; [now rewrite app_nil_r | reflexivity].
Qed.

Lemma synthesized_ext (d : Direction) (s s' : Session.t) (sts sts' : list StepState.t)
    (j : nat) :
  sts' !! j = sts !! j ->
  (j ∈ Session.exclude s' <-> j ∈ Session.exclude s) ->
  synthesized d s' sts' j = synthesized d s sts j.
Proof.
  intros Hst Hex. unfold synthesized, enterCall. rewrite Hst.
  rewrite (bool_decide_ext _ _ Hex). reflexivity.
Qed.

Lemma flat_map_synthesized_ext (d : Direction) (s s' : Session.t)
    (sts sts' : list StepState.t) (js : list nat) :
  (forall j, In j js -> sts' !! j = sts !! j) ->
  (forall j, In j js -> j ∈ Session.exclude s' <-> j ∈ Session.exclude s) ->
  flat_map (synthesized d s' sts') js = flat_map (synthesized d s sts) js.
Proof.
  intros Hst Hex. induction js as [|j js IH]; simpl; [reflexivity|].
  rewrite (synthesized_ext d s s' sts sts' j) by (auto using in_eq).
  rewrite IH; [reflexivity | |]; intros; [apply Hst | apply Hex]; now right.
Qed.

#[global] Instance sameSettings_preorder : PreOrder sameSettings.
Proof.
  split.
  - intros s. repeat split.
  - intros a b c Hab Hbc. unfold sameSettings in *.
    decompose [and] Hab. decompose [and] Hbc. repeat split; congruence.
Qed.

(** The loops of [notifyOthers]: the rounds do not disturb one another,
    so the calls are those of each visited step as it stood when the
    loop began, in the order of the visits. *)
Lemma forEach_notifyOther_effect (d : Direction) (js : list nat) :
  forall (s : Session.t) (els : list nat) (sts : list StepState.t),
    wellIndexed s els sts -> List.NoDup js -> (forall j, In j js -> j < length sts) ->
    exists s' sts',
      runs (forEach js (notifyOther d)) s s' tt /\
      wellIndexed s' els sts' /\
      sameSettings s s' /\
      (forall k, ~ In k js -> sts' !! k = sts !! k) /\
      (forall k, ~ In k js -> k ∈ Session.exclude s' <-> k ∈ Session.exclude s) /\
      exists evs,
        Session.log s' = Session.log s ++ evs /\
        (Callbacks.callable (Callbacks.stepEnter (Session.callback s)) = true ->
         Callbacks.callable (Callbacks.stepExit (Session.callback s)) = true ->
         stepCalls evs = flat_map (synthesized d s sts) js).
Proof.
  induction js as [|j js IH]; intros s els sts Hwf Hnd Hlt.
  - exists s, sts. split; [reflexivity|]. split; [exact Hwf|].
    split; [reflexivity|]. split; [reflexivity|]. split; [reflexivity|].
    exists []. split; [now rewrite app_nil_r | reflexivity].
  - apply List.NoDup_cons_iff in Hnd. destruct Hnd as [Hnotin Hnd].
    destruct (notifyOther_effect s els sts j d Hwf) as
      (s1 & sts1 & Hrun1 & Hwf1 & Hsame1 & Hst1 & Hex1 & evs1 & Hlog1 & Hcalls1);
      [apply Hlt; now left|].
    assert (Hlen1 : length sts1 = length sts).
    { destruct Hwf as (_ & _ & Hl & _), Hwf1 as (_ & _ & Hl1 & _). congruence. }
    destruct (IH s1 els sts1 Hwf1 Hnd) as
      (s2 & sts2 & Hrun2 & Hwf2 & Hsame2 & Hst2 & Hex2 & evs2 & Hlog2 & Hcalls2).
    { intros k Hk. rewrite Hlen1. apply Hlt. now right. }
    exists s2, sts2. split.
    { simpl. eapply runs_bind; [exact Hrun1 | exact Hrun2]. }
    split; [exact Hwf2|]. split; [now transitivity s1|].
    split; [|split].
    + intros k Hk. simpl in Hk. rewrite Hst2 by tauto. apply Hst1. intros ->. tauto.
    + intros k Hk. simpl in Hk. rewrite Hex2 by tauto. apply Hex1. intros ->. tauto.
    + exists (evs1 ++ evs2). split; [now rewrite Hlog2, Hlog1, app_assoc|].
      intros Henter Hexit. rewrite stepCalls_app. simpl.
      rewrite Hcalls1 by assumption. f_equal.
      destruct Hsame1 as (Hcb & _).
      rewrite Hcalls2 by (rewrite Hcb; assumption).
      apply flat_map_synthesized_ext.
      * intros k Hk. apply Hst1. intros ->. contradiction.
      * intros k Hk. apply Hex1. intros ->. contradiction.
Qed.

Lemma skippedSteps_spec (d : Direction) (i n : nat) :
  List.NoDup (skippedSteps d i n) /\
  (forall j, In j (skippedSteps d i n) ->
     match d with down => j < i | up => i < j /\ j < n end) /\
  ~ In i (skippedSteps d i n).
Proof.
  destruct d; simpl.
  - split; [|split].
    + apply List.NoDup_rev, List.seq_NoDup.
    + intros j Hj. apply in_rev, in_seq in Hj. lia.
    + intros Hj. apply in_rev, in_seq in Hj. lia.
  - split; [|split].
    + apply List.seq_NoDup.
    + intros j Hj. apply in_seq in Hj. lia.
    + intros Hj. apply in_seq in Hj. lia.
Qed.

Lemma runs_notifyOthers (s s' : Session.t) (sts : list StepState.t) (d : Direction)
    (i : nat) :
  Session.stepStates s = Some sts ->
  runs (forEach (skippedSteps d i (length sts)) (notifyOther d)) s s' tt ->
  runs (notifyOthers i (match d with down => above | up => below end)) s s' tt.
Proof.
  intros Hs Hrun. destruct d; simpl in *; [|exact Hrun].
  eapply runs_bind; [apply runs_gets|].
  eapply runs_bind; [apply runs_defined; exact Hs|]. exact Hrun.
Qed.

(** C1, as the code has it.  With [preserveOrder] on, both callbacks
    registered and the steps indexed, a genuine enter of step [i] in
    direction [d] runs to its end and invokes, in this order: for each
    step before [i] in increasing order when [d] is down (after [i] in
    decreasing order when [d] is up), an exit if that step is still
    entered, or an enter followed by an exit if it is not entered and
    its last recorded direction is the opposite of [d]; then the enter
    of step [i] itself.  An enter is left out for a step that
    [triggerOnce] has excluded. *)
Theorem preserveOrder_spec (s : Session.t) (els : list nat) (sts : list StepState.t)
    (i el : nat) (d : Direction) :
  wellIndexed s els sts ->
  els !! i = Some el ->
  Session.preserveOrder s = true ->
  Callbacks.callable (Callbacks.stepEnter (Session.callback s)) = true ->
  Callbacks.callable (Callbacks.stepExit (Session.callback s)) = true ->
  exists s' evs,
    runs (notifyStepEnter el d true) s s' tt /\
    Session.log s' = Session.log s ++ evs /\
    stepCalls evs
    = flat_map (synthesized d s sts) (skippedSteps d i (length sts)) ++ enterCall s i d.
Proof.
  intros Hwf Hel Hpo Henter Hexit.
  pose proof Hwf as (Hels & Hsts & Hlen & Hattr).
  pose proof (Hattr i el Hel) as Hidx.
  assert (Hi : i < length sts) by (rewrite <- Hlen; eapply lookup_lt_Some; eauto).
  destruct (lookup_lt_is_Some_2 sts i Hi) as [ss Hss].
  set (st := StepState.mk (Some d) (Some enter)).
  set (s1 := withStep i st sts s).
  assert (Hwf1 : wellIndexed s1 els (<[i := st]> sts)).
  { repeat split; simpl; auto. now rewrite length_insert. }
  destruct (skippedSteps_spec d i (length sts)) as (Hnd & Hrange & Hnotin).
  destruct (forEach_notifyOther_effect d (skippedSteps d i (length sts)) s1 els
              (<[i := st]> sts) Hwf1 Hnd) as
    (s2 & sts2 & Hrun2 & Hwf2 & Hsame2 & Hst2 & Hex2 & evs & Hlog2 & Hcalls2).
  { intros j Hj. rewrite length_insert. specialize (Hrange j Hj). destruct d; lia. }
  assert (Hidx2 : Session.dataScrollamaIndex s2 !! el = Some i).
  { destruct Hsame2 as (_ & _ & _ & _ & _ & ->). exact Hidx. }
  assert (Hothers : runs (notifyOthers i (match d with down => above | up => below end))
                      s1 s2 tt).
  { apply (runs_notifyOthers s1 s2 (<[i := st]> sts)); [reflexivity|].
    now rewrite length_insert. }
  eexists _, _. split; [|split].
  - unfold notifyStepEnter. rewrite notifyStepEnterWith_unfold.
    eapply runs_bind; [apply runs_getIndex; exact Hidx|].
    eapply runs_setStep_then; [exact Hsts | exact Hss|]. fold st. fold s1.
    eapply runs_bind; [apply runs_gets|].
    replace (Session.preserveOrder s1) with true by (symmetry; exact Hpo).
    destruct d; simpl.
    + eapply runs_bind; [apply runs_ret|].
      eapply runs_bind; [exact Hothers|].
      apply runs_enterTail. exact Hidx2.
    + eapply runs_bind; [exact Hothers|].
      eapply runs_bind; [apply runs_ret|].
      apply runs_enterTail. exact Hidx2.
  - simpl. rewrite Hlog2. rewrite <- app_assoc. reflexivity.
  - rewrite stepCalls_app. f_equal.
    + rewrite Hcalls2 by assumption.
      apply flat_map_synthesized_ext.
      * intros j Hj. apply list_lookup_insert_ne. intros ->. contradiction.
      * intros j Hj. reflexivity.
    + rewrite stepCalls_enterLog.
      * unfold enterCall.
        rewrite (bool_decide_ext _ _ (Hex2 i Hnotin)). reflexivity.
      * destruct Hsame2 as (-> & _). exact Henter.
Qed.

End RunFacts.

(** ** What every notification and every handler preserves *)

Section HandlerInvariants.
Import Scrollama.

Context (R : Session.t -> Session.t -> Prop) `{!PreOrder R}.

(** The relation holds across an assignment to any variable other
    than [exclude], [log] and [triggerOnce], across the invocation of a
    callback other than the step enter callback, and across the guarded
    invocation of the latter. *)
Hypothesis R_silent : forall s s',
  Session.exclude s' = Session.exclude s -> Session.log s' = Session.log s ->
  Session.triggerOnce s' = Session.triggerOnce s -> R s s'.
Hypothesis R_emit : forall s e,
  (forall j d, e <> CallStepEnter j d) -> R s (Session.set_log (Session.log s ++ [e]) s).
Hypothesis R_enterTail : forall i el d, preserves R (enterTail i el d).

Ltac handler_step :=
  first
    [ solve [auto]
    | match goal with
      | |- preserves _ (emit _) =>
          apply preserves_modify; intros ?; apply R_emit; discriminate
      | |- R ?s _ => apply R_silent; reflexivity
      end
    | preserve_step ].

Ltac handlers := repeat handler_step.

Lemma notifyStepProgress_preserves (el : nat) (p : Q) :
  preserves R (notifyStepProgress el p).
Proof. unfold notifyStepProgress, getIndex. handlers. Qed.

Lemma setStepDirection_preserves (i : nat) (d : Direction) :
  preserves R (setStepDirection i d).
Proof. unfold setStepDirection, stepStateAt. handlers. Qed.

Lemma setStepPhase_preserves (i : nat) (p : Phase) : preserves R (setStepPhase i p).
Proof. unfold setStepPhase, stepStateAt. handlers. Qed.

Lemma notifyStepExit_preserves (el : nat) (d : Direction) :
  preserves R (notifyStepExit el d).
Proof.
  pose proof notifyStepProgress_preserves.
  pose proof setStepDirection_preserves.
  pose proof setStepPhase_preserves.
  unfold notifyStepExit, getIndex. handlers.
Qed.

Lemma notifyStepEnterWith_preserves (others : nat -> Location -> M unit)
    (el : nat) (d : Direction) (check : bool) :
  (forall i l, preserves R (others i l)) ->
  preserves R (notifyStepEnterWith others el d check).
Proof.
  intros Hothers.
  pose proof setStepDirection_preserves.
  pose proof setStepPhase_preserves.
  rewrite notifyStepEnterWith_unfold. unfold getIndex. handlers.
Qed.

Lemma notifyOthers_preserves (i : nat) (l : Location) : preserves R (notifyOthers i l).
Proof.
  pose proof notifyStepExit_preserves.
  assert (Henter : forall el d, preserves R (notifyStepEnterWith (fun _ _ => ret tt) el d false)).
  { intros el d. apply notifyStepEnterWith_preserves. intros _ _. handlers. }
  unfold notifyOthers, notifyOther, stepStateAt, stepElAt. handlers.
Qed.

Lemma notifyStepEnter_preserves (el : nat) (d : Direction) (check : bool) :
  preserves R (notifyStepEnter el d check).
Proof. apply notifyStepEnterWith_preserves, notifyOthers_preserves. Qed.

Lemma notifyContainer_preserves (p : Phase) : preserves R (notifyContainer p).
Proof. unfold notifyContainer. handlers. Qed.

Lemma updateDirection_preserves (y : Q) : preserves R (updateDirection y).
Proof. unfold updateDirection. handlers. Qed.

(** Every handler an observer may call preserves the relation. *)
Lemma deliver_preserves (h : Handler) (y : Q) (entries : list Registry.Entry) :
  preserves R (runOp (deliver h y entries)).
Proof.
  pose proof notifyStepExit_preserves.
  pose proof notifyStepEnter_preserves.
  pose proof notifyStepProgress_preserves.
  pose proof notifyContainer_preserves.
  pose proof updateDirection_preserves.
  destruct h; simpl;
    unfold intersectStepAbove, intersectStepBelow, intersectViewportAbove,
      intersectViewportBelow, intersectViewport, intersectStepProgress, intersectTop,
      intersectBottom, containerCrossing, notifyContainerEnter, notifyContainerExit,
      lookupStepState, directionIs, ssEntered, ssNotEntered, ssDirectionIsNot, getIndex;
    handlers.
Qed.

End HandlerInvariants.

Section LifecycleInvariants.
Import Scrollama.

Context (R : Session.t -> Session.t -> Prop) `{!PreOrder R}.

(** The relation holds across an assignment to any variable other
    than [exclude] and [log], and across a console error. *)
Hypothesis R_silent : forall s s',
  Session.exclude s' = Session.exclude s -> Session.log s' = Session.log s -> R s s'.
Hypothesis R_error : forall s m,
  R s (Session.set_log (Session.log s ++ [ConsoleError m]) s).

Ltac lifecycle_step :=
  first
    [ solve [auto]
    | match goal with
      | |- preserves _ (emit (ConsoleError _)) =>
          apply preserves_modify; intros ?; apply R_error
      | |- R ?s _ => apply R_silent; reflexivity
      end
    | preserve_step ].

Ltac lifecycle := repeat lifecycle_step.

Lemma updateIO_preserves : preserves R updateIO.
Proof.
  unfold updateIO, updateTopIO, updateBottomIO, updateStepAboveIO, updateStepBelowIO,
    updateViewportAboveIO, updateViewportBelowIO, updateStepProgressIO,
    mapSteps, observing, stepHeightAt, stepTopAt, createThreshold, setIo, getIo.
  lifecycle.
Qed.

Lemma handleEnable_preserves (b : bool) : preserves R (handleEnable b).
Proof. pose proof updateIO_preserves. unfold handleEnable, setIo. lifecycle. Qed.

Lemma handleResize_preserves (host : Host) : preserves R (handleResize host).
Proof. pose proof updateIO_preserves. unfold handleResize. lifecycle. Qed.

Lemma offsetTrigger_preserves (x : option JsArg) : preserves R (offsetTrigger x).
Proof. unfold offsetTrigger. lifecycle. Qed.

Lemma setup_preserves (o : SetupOptions) (host : Host) : preserves R (setup o host).
Proof.
  pose proof handleEnable_preserves. pose proof handleResize_preserves.
  pose proof offsetTrigger_preserves.
  unfold setup, indexSteps, setupStates. lifecycle.
Qed.

(** Every method of the session object preserves the relation. *)
Lemma call_preserves (op : Op) :
  (forall h y es, op <> deliver h y es) -> preserves R (runOp op).
Proof.
  intros Hcall.
  pose proof handleEnable_preserves. pose proof handleResize_preserves.
  pose proof offsetTrigger_preserves. pose proof setup_preserves.
  destruct op; simpl;
    try (unfold resize, enable, disable, destroy, onStepEnter, onStepExit,
           onStepProgress, onContainerEnter, onContainerExit, setCallback, setIo;
         solve [lifecycle]).
  exfalso. eapply Hcall. reflexivity.
Qed.

End LifecycleInvariants.

Section TriggerOnceFacts.
Import Scrollama.

#[global] Instance suppressed_preorder (idx : nat) : PreOrder (suppressed idx).
Proof.
  split.
  - intros s H. split; [exact H|]. exists []. split; [symmetry; apply app_nil_r|].
    intros d [].
  - intros a b c Hab Hbc H.
    destruct (Hab H) as (Hb & e1 & Hl1 & Hn1).
    destruct (Hbc Hb) as (Hc & e2 & Hl2 & Hn2).
    split; [exact Hc|]. exists (e1 ++ e2). split.
    + unfold logGrows in *. now rewrite Hl2, Hl1, app_assoc.
    + intros d Hin. apply in_app_or in Hin. destruct Hin; [eapply Hn1 | eapply Hn2]; eauto.
Qed.

Lemma suppressed_silent (idx : nat) (s s' : Session.t) :
  Session.exclude s' = Session.exclude s -> Session.log s' = Session.log s ->
  suppressed idx s s'.
Proof.
  intros He Hl H. split; [now rewrite He|]. exists []. split.
  - unfold logGrows. now rewrite Hl, app_nil_r.
  - intros d [].
Qed.

Lemma suppressed_emit (idx : nat) (s : Session.t) (e : Event) :
  (forall j d, e <> CallStepEnter j d) ->
  suppressed idx s (Session.set_log (Session.log s ++ [e]) s).
Proof.
  intros Hne H. split; [exact H|]. exists [e]. split; [reflexivity|].
  intros d [Hin | []]. exact (Hne idx d Hin).
Qed.

Lemma In_enterLogAt (s : Session.t) (i pi j : nat) (d d' : Direction) :
  In (CallStepEnter j d') (enterLogAt s i pi d) ->
  j = i /\ d' = d /\
  Callbacks.callable (Callbacks.stepEnter (Session.callback s)) = true /\
  bool_decide (i ∈ Session.exclude s) = false.
Proof.
  unfold enterLogAt, enterCall. intros Hin. apply in_app_or in Hin.
  destruct Hin as [Hin | Hin].
  - destruct (Callbacks.callable _); [|destruct Hin].
    destruct (bool_decide _); [destruct Hin|].
    destruct Hin as [Heq | []]. injection Heq as -> ->. auto.
  - destruct (_ && _); [|destruct Hin]. destruct Hin as [Heq | []]. discriminate.
Qed.

Lemma subseteq_enterExclude (s : Session.t) (i : nat) :
  Session.exclude s ⊆ enterExclude s i.
Proof. unfold enterExclude. destruct (_ && _ && _); set_solver. Qed.

Lemma suppressed_enterTail (idx i el : nat) (d : Direction) :
  preserves (suppressed idx) (enterTail i el d).
Proof.
  intros s H. rewrite enterTail_effect. simpl. split.
  - now apply subseteq_enterExclude.
  - eexists. split; [reflexivity|]. intros d' Hin.
    apply In_enterLogAt in Hin. destruct Hin as (-> & _ & _ & Hex).
    apply bool_decide_eq_false in Hex. contradiction.
Qed.

(** Every operation leaves an excluded step excluded and does not
    invoke its enter callback. *)
Lemma runOp_suppressed (idx : nat) (op : Op) : preserves (suppressed idx) (runOp op).
Proof.
  destruct op;
    try (apply call_preserves;
         [typeclasses eauto | apply suppressed_silent
         | intros; apply suppressed_emit; discriminate | discriminate]).
  apply deliver_preserves; [typeclasses eauto | | apply suppressed_emit
                           | apply suppressed_enterTail].
  intros s s' He Hl _. now apply suppressed_silent.
Qed.

Lemma runOps_suppressed (idx : nat) (ops : list Op) (s : Session.t) :
  suppressed idx s (runOps ops s).
Proof.
  revert s. induction ops as [|op ops IH]; intros s; simpl; [reflexivity|].
  transitivity (fst (runOp op s)); [apply runOp_suppressed | apply IH].
Qed.

#[global] Instance firedExcluded_preorder : PreOrder firedExcluded.
Proof.
  split.
  - intros s. split; [reflexivity|]. split; [reflexivity|].
    exists []. split; [symmetry; apply app_nil_r|]. intros _ j d [].
  - intros a b c (Ht1 & Hs1 & e1 & Hl1 & Hf1) (Ht2 & Hs2 & e2 & Hl2 & Hf2).
    split; [congruence|]. split; [set_solver|].
    exists (e1 ++ e2). split.
    + unfold logGrows in *. now rewrite Hl2, Hl1, app_assoc.
    + intros Ht j d Hin. apply in_app_or in Hin. destruct Hin as [Hin | Hin].
      * apply Hs2. eapply Hf1; eauto.
      * eapply Hf2; [congruence | eauto].
Qed.

Lemma firedExcluded_silent (s s' : Session.t) :
  Session.exclude s' = Session.exclude s -> Session.log s' = Session.log s ->
  Session.triggerOnce s' = Session.triggerOnce s -> firedExcluded s s'.
Proof.
  intros He Hl Ht. split; [exact Ht|]. split; [now rewrite He|].
  exists []. split; [unfold logGrows; now rewrite Hl, app_nil_r|]. intros _ j d [].
Qed.

Lemma firedExcluded_emit (s : Session.t) (e : Event) :
  (forall j d, e <> CallStepEnter j d) ->
  firedExcluded s (Session.set_log (Session.log s ++ [e]) s).
Proof.
  intros Hne. split; [reflexivity|]. split; [reflexivity|].
  exists [e]. split; [reflexivity|]. intros _ j d [Hin | []]. destruct (Hne j d Hin).
Qed.

Lemma firedExcluded_enterTail (i el : nat) (d : Direction) :
  preserves firedExcluded (enterTail i el d).
Proof.
  intros s. rewrite enterTail_effect. simpl.
  split; [reflexivity|]. split; [apply subseteq_enterExclude|].
  eexists. split; [reflexivity|]. intros Ht j d' Hin.
  apply In_enterLogAt in Hin. destruct Hin as (-> & _ & Hcb & Hex).
  unfold enterExclude. rewrite Hcb, Hex, Ht. simpl. set_solver.
Qed.

#[global] Instance noEnterAtAll_preorder : PreOrder noEnterAtAll.
Proof.
  split.
  - intros s. exists []. split; [symmetry; apply app_nil_r|]. intros j d [].
  - intros a b c (e1 & Hl1 & Hn1) (e2 & Hl2 & Hn2). exists (e1 ++ e2). split.
    + unfold logGrows in *. now rewrite Hl2, Hl1, app_assoc.
    + intros j d Hin. apply in_app_or in Hin.
      destruct Hin; [eapply Hn1 | eapply Hn2]; eauto.
Qed.

Lemma call_noEnterAtAll (op : Op) :
  (forall h y es, op <> deliver h y es) -> preserves noEnterAtAll (runOp op).
Proof.
  intros Hcall. apply call_preserves; [typeclasses eauto | | | exact Hcall].
  - intros s s' _ Hl. exists []. split; [unfold logGrows; now rewrite Hl, app_nil_r|].
    intros j d [].
  - intros s m. eexists. split; [reflexivity|]. intros j d [Hin | []]. discriminate.
Qed.

(** Under [triggerOnce], a step whose enter callback was invoked during
    an operation is excluded when the operation ends. *)
Lemma runOp_fired_excluded (s : Session.t) (op : Op) (evs : list Event) (idx : nat)
    (d : Direction) :
  Session.triggerOnce s = true ->
  logGrows s (fst (runOp op s)) evs ->
  In (CallStepEnter idx d) evs ->
  idx ∈ Session.exclude (fst (runOp op s)).
Proof.
  intros Ht Hlog Hin.
  assert (Hcases : (exists h y es, op = deliver h y es) \/
                   (forall h y es, op <> deliver h y es)).
  { destruct op; try (right; discriminate). left. eauto. }
  destruct Hcases as [(h & y & es & ->) | Hcall].
  - destruct (deliver_preserves firedExcluded firedExcluded_silent firedExcluded_emit
                firedExcluded_enterTail h y es s) as (_ & _ & evs' & Hlog' & Hfired).
    unfold logGrows in *. rewrite Hlog in Hlog'. apply app_inv_head in Hlog'. subst evs'.
    eapply Hfired; eauto.
  - destruct (call_noEnterAtAll op Hcall s) as (evs' & Hlog' & Hnone).
    unfold logGrows in *. rewrite Hlog in Hlog'. apply app_inv_head in Hlog'. subst evs'.
    destruct (Hnone idx d Hin).
Qed.

End TriggerOnceFacts.

(** ** The exclusion flags do not steer the sequencer *)

Section Oblivious.
Import Scrollama.

Lemma oblivious_ret {A : Type} (a : A) : oblivious (ret a).
Proof. intros s s' H. split; [exact H | reflexivity]. Qed.

Lemma oblivious_throw {A : Type} : oblivious (@throw A).
Proof. intros s s' H. split; [exact H | reflexivity]. Qed.

Lemma oblivious_gets {A : Type} (f : Session.t -> A) :
  (forall s, f s = f (erase s)) -> oblivious (gets f).
Proof.
  intros Hf s s' H. split; [exact H|]. simpl. f_equal.
  rewrite (Hf s), (Hf s'). now rewrite H.
Qed.

Lemma oblivious_defined {A : Type} (o : option A) : oblivious (defined o).
Proof. destruct o; [apply oblivious_ret | apply oblivious_throw]. Qed.

Lemma oblivious_modify (g : Session.t -> Session.t) :
  (forall s, erase (g s) = erase (g (erase s))) -> oblivious (modify g).
Proof.
  intros Hg s s' H. split; [|reflexivity]. simpl.
  rewrite (Hg s), (Hg s'). now rewrite H.
Qed.

Lemma oblivious_bind {A B : Type} (m : M A) (k : A -> M B) :
  oblivious m -> (forall a, oblivious (k a)) -> oblivious (bind m k).
Proof.
  intros Hm Hk s s' H. unfold bind.
  destruct (Hm s s' H) as [He Hr].
  destruct (m s) as [s1 r1], (m s') as [s1' r1']. simpl in *. subst r1'.
  destruct r1 as [a|]; [apply Hk; exact He | split; [exact He | reflexivity]].
Qed.

Lemma oblivious_when (b : bool) (m : M unit) : oblivious m -> oblivious (when b m).
Proof. intros H. destruct b; [exact H | apply oblivious_ret]. Qed.

Lemma oblivious_andThen (a : bool) (b : M bool) : oblivious b -> oblivious (andThen a b).
Proof. intros H. destruct a; [exact H | apply oblivious_ret]. Qed.

Lemma oblivious_discard {A : Type} (m : M A) : oblivious m -> oblivious (discard m).
Proof. intros H. apply oblivious_bind; [exact H | intros _; apply oblivious_ret]. Qed.

Lemma oblivious_forEach {A : Type} (l : list A) (f : A -> M unit) :
  (forall x, oblivious (f x)) -> oblivious (forEach l f).
Proof.
  intros H. induction l as [|x l IH]; simpl; [apply oblivious_ret|].
  apply oblivious_bind; [apply H | intros _; exact IH].
Qed.

Lemma oblivious_mapIndexed {A B : Type} (f : A -> nat -> M B) (i : nat) (l : list A) :
  (forall x j, oblivious (f x j)) -> oblivious (mapIndexed f i l).
Proof.
  intros H. revert i. induction l as [|x l IH]; intros i; simpl; [apply oblivious_ret|].
  apply oblivious_bind; [apply H|]. intros y.
  apply oblivious_bind; [apply IH|]. intros ys. apply oblivious_ret.
Qed.

(** The guarded invocation of the enter callback touches the
    exclusion flags and the log only. *)
Lemma oblivious_enterTail (i el : nat) (d : Direction) : oblivious (enterTail i el d).
Proof.
  intros s s' H. rewrite !enterTail_effect. simpl. split; [exact H | reflexivity].
Qed.

End Oblivious.

Ltac oblivious_step :=
  first
    [ solve [auto]
    | match goal with
      | |- oblivious (Scrollama.bind _ _) => apply oblivious_bind; [|intros ?]
      | |- oblivious (Scrollama.ret _) => apply oblivious_ret
      | |- oblivious Scrollama.throw => apply oblivious_throw
      | |- oblivious (Scrollama.gets _) => apply oblivious_gets; intros ?; reflexivity
      | |- oblivious (Scrollama.defined _) => apply oblivious_defined
      | |- oblivious (Scrollama.when _ _) => apply oblivious_when
      | |- oblivious (Scrollama.andThen _ _) => apply oblivious_andThen
      | |- oblivious (Scrollama.discard _) => apply oblivious_discard
      | |- oblivious (Scrollama.forEach _ _) => apply oblivious_forEach; intros ?
      | |- oblivious (Scrollama.mapIndexed _ _ _) =>
          apply oblivious_mapIndexed; intros ? ?
      | |- oblivious (Scrollama.modify _) =>
          apply oblivious_modify; intros ?; reflexivity
      | |- oblivious (Scrollama.emit _) =>
          apply oblivious_modify; intros ?; reflexivity
      | |- oblivious (if ?b then _ else _) => destruct b
      | |- oblivious (match ?x with _ => _ end) => destruct x
      end ].

Ltac obliviously := repeat oblivious_step.

Section ObliviousOps.
Import Scrollama.

Lemma notifyStepProgress_oblivious (el : nat) (p : Q) : oblivious (notifyStepProgress el p).
Proof. unfold notifyStepProgress, getIndex. obliviously. Qed.

Lemma setStepDirection_oblivious (i : nat) (d : Direction) :
  oblivious (setStepDirection i d).
Proof. unfold setStepDirection, stepStateAt. obliviously. Qed.

Lemma setStepPhase_oblivious (i : nat) (p : Phase) : oblivious (setStepPhase i p).
Proof. unfold setStepPhase, stepStateAt. obliviously. Qed.

Lemma notifyStepExit_oblivious (el : nat) (d : Direction) : oblivious (notifyStepExit el d).
Proof.
  pose proof notifyStepProgress_oblivious. pose proof setStepDirection_oblivious.
  pose proof setStepPhase_oblivious.
  unfold notifyStepExit, getIndex. obliviously.
Qed.

Lemma notifyStepEnterWith_oblivious (others : nat -> Location -> M unit)
    (el : nat) (d : Direction) (check : bool) :
  (forall i l, oblivious (others i l)) ->
  oblivious (notifyStepEnterWith others el d check).
Proof.
  intros Hothers.
  pose proof setStepDirection_oblivious. pose proof setStepPhase_oblivious.
  pose proof oblivious_enterTail.
  rewrite notifyStepEnterWith_unfold. unfold getIndex. obliviously.
Qed.

Lemma notifyOthers_oblivious (i : nat) (l : Location) : oblivious (notifyOthers i l).
Proof.
  pose proof notifyStepExit_oblivious.
  assert (Henter : forall el d, oblivious (notifyStepEnterWith (fun _ _ => ret tt) el d false)).
  { intros el d. apply notifyStepEnterWith_oblivious. intros _ _. obliviously. }
  unfold notifyOthers, notifyOther, stepStateAt, stepElAt. obliviously.
Qed.

Lemma notifyStepEnter_oblivious (el : nat) (d : Direction) (check : bool) :
  oblivious (notifyStepEnter el d check).
Proof. apply notifyStepEnterWith_oblivious, notifyOthers_oblivious. Qed.

Lemma updateIO_oblivious : oblivious updateIO.
Proof.
  unfold updateIO, updateTopIO, updateBottomIO, updateStepAboveIO, updateStepBelowIO,
    updateViewportAboveIO, updateViewportBelowIO, updateStepProgressIO,
    mapSteps, observing, stepHeightAt, stepTopAt, createThreshold, setIo, getIo.
  obliviously.
Qed.

Lemma handleEnable_oblivious (b : bool) : oblivious (handleEnable b).
Proof. pose proof updateIO_oblivious. unfold handleEnable, setIo. obliviously. Qed.

Lemma handleResize_oblivious (host : Host) : oblivious (handleResize host).
Proof. pose proof updateIO_oblivious. unfold handleResize. obliviously. Qed.

Lemma setup_oblivious (o : SetupOptions) (host : Host) : oblivious (setup o host).
Proof.
  pose proof handleEnable_oblivious. pose proof handleResize_oblivious.
  unfold setup, indexSteps, setupStates, offsetTrigger. obliviously.
Qed.

(** Every operation is oblivious. *)
Lemma runOp_oblivious (op : Op) : oblivious (runOp op).
Proof.
  pose proof notifyStepExit_oblivious. pose proof notifyStepEnter_oblivious.
  pose proof notifyStepProgress_oblivious.
  pose proof handleEnable_oblivious. pose proof handleResize_oblivious.
  pose proof setup_oblivious.
  destruct op as [| | | | | | | | | | |h y es]; [..|destruct h]; simpl;
    unfold resize, enable, disable, destroy, offsetTrigger, onStepEnter, onStepExit,
      onStepProgress, onContainerEnter, onContainerExit, setCallback, setIo,
      intersectStepAbove, intersectStepBelow, intersectViewportAbove,
      intersectViewportBelow, intersectViewport, intersectStepProgress, intersectTop,
      intersectBottom, containerCrossing, notifyContainerEnter, notifyContainerExit,
      notifyContainer, updateDirection,
      lookupStepState, directionIs, ssEntered, ssNotEntered, ssDirectionIsNot, getIndex;
    obliviously.
Qed.

Lemma runOps_oblivious (ops : list Op) (s s' : Session.t) :
  erase s = erase s' -> erase (runOps ops s) = erase (runOps ops s').
Proof.
  revert s s'. induction ops as [|op ops IH]; intros s s' H; simpl; [exact H|].
  apply IH. apply runOp_oblivious. exact H.
Qed.

End ObliviousOps.

(** ** The sequencer on a page of two steps *)

Section Examples.
Import Scrollama.
Local Open Scope Q_scope.

Lemma exampleSession_wellIndexed (once : bool) :
  wellIndexed (exampleSession once) [10; 11]%nat exampleStates.
Proof.
  destruct once; (split; [reflexivity|]; split; [reflexivity|]; split; [reflexivity|]);
    intros [|[|i]] el Hel; simpl in Hel; try discriminate;
    injection Hel as <-; vm_compute; reflexivity.
Qed.

(** The second step enters scrolling down while the first is still
    entered: the first gets its exit, then the second its enter. *)
Lemma preserveOrder_spec_witness :
  exists s' evs,
    runs (notifyStepEnter 11 down true) (exampleSession false) s' tt /\
    Session.log s' = Session.log (exampleSession false) ++ evs /\
    stepCalls evs = [CallStepExit 0 down; CallStepEnter 1 down].
Proof.
  destruct (preserveOrder_spec (exampleSession false) [10; 11]%nat exampleStates
              1 11 down) as (s' & evs & Hrun & Hlog & Hcalls).
  - apply exampleSession_wellIndexed.
  - reflexivity.
  - reflexivity.
  - reflexivity.
  - reflexivity.
  - exists s', evs. split; [exact Hrun|]. split; [exact Hlog|].
    rewrite Hcalls. vm_compute. reflexivity.
Defined.

(** C1 as stated fails on the same run: the first step is still entered
    and its last recorded direction is down, as the claim words it, so
    the claim has it receive an exit, an enter and another exit before
    the second step's enter; the code delivers the single exit. *)
Lemma preserveOrder_claimed_counterexample :
  ~ exists s' evs,
      runs (notifyStepEnter 11 down true) (exampleSession false) s' tt /\
      Session.log s' = Session.log (exampleSession false) ++ evs /\
      stepCalls evs
      = flat_map (synthesizedAsClaimed down exampleStates) (skippedSteps down 1 2)
        ++ [CallStepEnter 1 down].
Proof.
  intros (s' & evs & Hrun & Hlog & Hcalls).
  unfold runs in Hrun.
  assert (Hs' : s' = fst (notifyStepEnter 11 down true (exampleSession false)))
    by (rewrite Hrun; reflexivity).
  assert (Hlog' : Session.log s'
                  = Session.log (exampleSession false)
                    ++ [CallStepExit 0 down; CallStepEnter 1 down])
    by (rewrite Hs'; vm_compute; reflexivity).
  rewrite Hlog in Hlog'. apply app_inv_head in Hlog'. subst evs.
  revert Hcalls. vm_compute. discriminate.
Qed.

End Examples.

(** ** [triggerOnce] *)

Section TriggerOnce.
Import Scrollama.

Lemma erase_set_exclude (E : gset nat) (s : Session.t) :
  erase (Session.set_exclude E s) = erase s.
Proof. reflexivity. Qed.

(** C4, as the code has it.  With [triggerOnce] on, once the enter
    callback of step [idx] has been invoked during an operation, no
    later operation invokes it again, whatever the operations are.  The
    table of step states meanwhile evolves exactly as it would in a
    session without any exclusion flag, and an exit notification for
    the step still writes its state and still invokes the exit
    callback. *)
Theorem triggerOnce_spec (s : Session.t) (op : Op) (evs : list Event) (idx : nat)
    (d : Direction) :
  Session.triggerOnce s = true ->
  logGrows s (fst (runOp op s)) evs ->
  In (CallStepEnter idx d) evs ->
  forall ops : list Op,
    let s1 := fst (runOp op s) in
    let s2 := runOps ops s1 in
    (exists evs', logGrows s1 s2 evs' /\ noEnterOf idx evs') /\
    Session.stepStates s2
    = Session.stepStates (runOps ops (Session.set_exclude ∅ s1)) /\
    (forall (el : nat) (sts : list StepState.t) (ss : StepState.t) (d' : Direction),
       Session.dataScrollamaIndex s2 !! el = Some idx ->
       Session.stepStates s2 = Some sts -> sts !! idx = Some ss ->
       Callbacks.callable (Callbacks.stepExit (Session.callback s2)) = true ->
       exists s3 evs'',
         runs (notifyStepExit el d') s2 s3 tt /\
         Session.stepStates s3
         = Some (<[idx := StepState.mk (Some d') (Some exit)]> sts) /\
         logGrows s2 s3 evs'' /\ In (CallStepExit idx d') evs'').
Proof.
  intros Ht Hlog Hin ops s1 s2.
  assert (Hex : idx ∈ Session.exclude s1) by (eapply runOp_fired_excluded; eauto).
  split; [|split].
  - destruct (runOps_suppressed idx ops s1 Hex) as (_ & evs' & Hl & Hn). eauto.
  - change (Session.stepStates (erase s2)
            = Session.stepStates (erase (runOps ops (Session.set_exclude ∅ s1)))).
    f_equal. apply runOps_oblivious. reflexivity.
  - intros el sts ss d' Hidx Hsts Hss Hcb.
    eexists _, _. split; [eapply runs_notifyStepExit; eauto|].
    split; [reflexivity|]. split; [reflexivity|].
    unfold exitLog. rewrite Hcb. apply in_or_app. right. now left.
Qed.

(** With [once: true], the first step is entered scrolling down, left
    downwards, re-entered scrolling up and left upwards. *)
Lemma triggerOnce_spec_witness :
  let s := runOps [callOnStepEnter (function 1); callOnStepExit (function 2);
                   callSetup (exampleOptions true) examplePage] Session.fresh in
  let op := deliver hStepAbove 10 [exampleEntry 10 900 true] in
  let ops := [deliver hStepBelow 20 [exampleEntry 10 720 false];
              deliver hStepBelow 10 [exampleEntry 10 900 true];
              deliver hStepAbove 5 [exampleEntry 10 1300 false]] in
  exists evs',
    logGrows (fst (runOp op s)) (runOps ops (fst (runOp op s))) evs' /\
    noEnterOf 0 evs'.
Proof.
  intros s op ops.
  apply (proj1 (triggerOnce_spec s op [CallStepEnter 0 down] 0 down
                  ltac:(reflexivity) ltac:(reflexivity) ltac:(left; reflexivity) ops)).
Defined.

(** C4 as stated fails for the exit callback: in that run the step is
    excluded after its first enter, and its exit callback is invoked
    all the same when the step is left. *)
Lemma triggerOnce_exit_counterexample :
  ~ exitSuppressedAsClaimed 0 (exampleSession true)
      (runOps [deliver hStepBelow 20 [exampleEntry 10 720 false]] (exampleSession true)).
Proof.
  intros H. destruct H as (evs & Hlog & Hnone).
  - vm_compute. reflexivity.
  - assert (Hlog' : logGrows (exampleSession true)
             (runOps [deliver hStepBelow 20 [exampleEntry 10 720 false]]
                (exampleSession true)) [CallStepExit 0 down])
      by (vm_compute; reflexivity).
    unfold logGrows in *. rewrite Hlog in Hlog'. apply app_inv_head in Hlog'. subst evs.
    apply (Hnone down). now left.
Qed.

End TriggerOnce.

(** ** What a successful [setup] establishes *)

Section SetupFacts.
Import Scrollama.
Local Open Scope Q_scope.

#[global] Instance sameSetup_preorder : PreOrder sameSetup.
Proof.
  split.
  - intros s. repeat split.
  - intros a b c Hab Hbc. unfold sameSetup in *.
    decompose [and] Hab. decompose [and] Hbc. repeat split; congruence.
Qed.



#[global] Instance sameButObservers_preorder : PreOrder sameButObservers.
Proof.
  split.
  - intros s. split; [repeat split | reflexivity].
  - intros a b c [Hab Eab] [Hbc Ebc]. split; [|congruence].
    unfold sameLogicalState in *.
    decompose [and] Hab. decompose [and] Hbc. repeat split; congruence.
Qed.

Lemma measured_sameLogicalState (s s' : Session.t) (els : list nat) :
  sameLogicalState s s' -> measured s els -> measured s' els.
Proof.
  intros Hsame (Hels & (hs & Hhs & Hlh) & (ts & Hts & Hlt) & Hbox).
  unfold sameLogicalState in Hsame. decompose [and] Hsame.
  split; [congruence|]. split; [exists hs; split; congruence|].
  split; [exists ts; split; congruence|].
  repeat match goal with
         | H : Session.graphicEl s' = _ |- _ => rewrite H; clear H
         | H : Session.bboxGraphic s' = _ |- _ => rewrite H; clear H
         end.
  exact Hbox.
Qed.

(** Stepping through the assignments at the head of a computation. *)
Lemma peel_modify {A : Type} (P : Session.t * option A -> Prop)
    (f : Session.t -> Session.t) (k : unit -> M A) (s : Session.t) :
  (forall s1, s1 = f s -> P (k tt s1)) -> P (bind (modify f) k s).
Proof. intros H. apply (H (f s) eq_refl). Qed.

Lemma peel_offsetTrigger {A : Type} (P : Session.t * option A -> Prop)
    (x : option JsArg) (k : Returned -> M A) (s : Session.t) :
  (forall s1 r, (exists v, s1 = Session.set_offsetVal v s) \/ s1 = s -> P (k r s1)) ->
  P (bind (offsetTrigger x) k s).
Proof.
  intros H. unfold offsetTrigger.
  destruct x as [[v|]|]; [destruct (Qeq_bool v 0)| |];
    first [apply (H s _ (or_intror eq_refl))
          | apply (H _ _ (or_introl (ex_intro _ _ eq_refl)))].
Qed.

Lemma peel_indexSteps {A : Type} (P : Session.t * option A -> Prop) (k : unit -> M A)
    (s : Session.t) (els : list nat) :
  Session.stepEl s = Some els ->
  (forall s1,
     s1 = Session.set_dataScrollamaIndex (indexFrom 0 els (Session.dataScrollamaIndex s)) s ->
     P (k tt s1)) ->
  P (bind indexSteps k s).
Proof.
  intros He H. unfold indexSteps, bind, gets, defined. rewrite He. apply (H _ eq_refl).
Qed.

Lemma peel_setupStates {A : Type} (P : Session.t * option A -> Prop) (k : unit -> M A)
    (s : Session.t) (els : list nat) :
  Session.stepEl s = Some els ->
  (forall s1,
     s1 = Session.set_containerState (Some StepState.initial)
            (Session.set_stepStates (Some (List.map (fun _ => StepState.initial) els)) s) ->
     P (k tt s1)) ->
  P (bind setupStates k s).
Proof.
  intros He H. unfold setupStates, bind, gets, defined. rewrite He. apply (H _ eq_refl).
Qed.

End SetupFacts.

(* ===================================================================== *)
(** * Part III: further properties                                        *)
(* ===================================================================== *)

Import Terms.

(** ** Geometry: the algebra of intersections and expansions *)

Section GeometryAlgebra.
Import Geometry.
Local Open Scope Q_scope.

(** X1. The rect [computeRectIntersection] returns holds exactly the
    points that lie in both arguments, and when it returns nothing the
    arguments have no point in common. *)
Theorem computeRectIntersection_points (a b : Rect.t) (x y : Q) :
  match computeRectIntersection a b with
  | Some r => inside r x y <-> inside a x y /\ inside b x y
  | None => ~ (inside a x y /\ inside b x y)
  end.
Proof.
  destruct (computeRectIntersection a b) as [r|] eqn:E.
  - now apply computeRectIntersection_exact.
  - now apply computeRectIntersection_none.
Qed.

(** When [computeRectIntersection] returns a rect. *)
Lemma computeRectIntersection_Some (a b : Rect.t) :
  0 <= Qmin (Rect.right a) (Rect.right b) - Qmax (Rect.left a) (Rect.left b) ->
  0 <= Qmin (Rect.bottom a) (Rect.bottom b) - Qmax (Rect.top a) (Rect.top b) ->
  computeRectIntersection a b
  = Some (Rect.mk (Qmax (Rect.top a) (Rect.top b)) (Qmin (Rect.bottom a) (Rect.bottom b))
            (Qmax (Rect.left a) (Rect.left b)) (Qmin (Rect.right a) (Rect.right b))
            (Qmin (Rect.right a) (Rect.right b) - Qmax (Rect.left a) (Rect.left b))
            (Qmin (Rect.bottom a) (Rect.bottom b) - Qmax (Rect.top a) (Rect.top b))).
Proof.
  intros Hw Hh. unfold computeRectIntersection.
  apply Qle_bool_iff in Hw, Hh. now rewrite Hw, Hh.
Qed.

Lemma computeRectIntersection_None (a b : Rect.t) :
  Qmin (Rect.right a) (Rect.right b) - Qmax (Rect.left a) (Rect.left b) < 0 \/
  Qmin (Rect.bottom a) (Rect.bottom b) - Qmax (Rect.top a) (Rect.top b) < 0 ->
  computeRectIntersection a b = None.
Proof.
  intros H. unfold computeRectIntersection.
  destruct H as [H | H]; apply Qle_bool_false in H; rewrite H;
    [reflexivity | now rewrite andb_false_r].
Qed.

Lemma computeRectIntersection_cases (a b : Rect.t) :
  (0 <= Qmin (Rect.right a) (Rect.right b) - Qmax (Rect.left a) (Rect.left b) /\
   0 <= Qmin (Rect.bottom a) (Rect.bottom b) - Qmax (Rect.top a) (Rect.top b)) \/
  (Qmin (Rect.right a) (Rect.right b) - Qmax (Rect.left a) (Rect.left b) < 0 \/
   Qmin (Rect.bottom a) (Rect.bottom b) - Qmax (Rect.top a) (Rect.top b) < 0).
Proof.
  destruct (Qlt_le_dec (Qmin (Rect.right a) (Rect.right b)
                        - Qmax (Rect.left a) (Rect.left b)) 0); [right; now left|].
  destruct (Qlt_le_dec (Qmin (Rect.bottom a) (Rect.bottom b)
                        - Qmax (Rect.top a) (Rect.top b)) 0); [right; now right|].
  now left.
Qed.

Lemma Qminus_le_mono (a b c d : Q) : a <= c -> d <= b -> a - b <= c - d.
Proof. intros H1 H2. unfold Qminus. apply Qplus_le_compat; [exact H1|]. now apply Qopp_le_compat. Qed.

Lemma Qminus_comp (a b c d : Q) : a == c -> b == d -> a - b == c - d.
Proof. intros -> ->. reflexivity. Qed.

(** X2. Intersecting is commutative and associative up to the
    equality of the rationals: which of two rects comes first, and in
    which order three rects are clipped against one another, makes no
    difference to the rect returned or to whether one is returned. *)
Theorem computeRectIntersection_comm_assoc (a b c : Rect.t) :
  sameRect (computeRectIntersection a b) (computeRectIntersection b a) /\
  sameRect
    (match computeRectIntersection a b with
     | Some ab => computeRectIntersection ab c
     | None => None
     end)
    (match computeRectIntersection b c with
     | Some bc => computeRectIntersection a bc
     | None => None
     end).
Proof.
  split.
  - destruct (computeRectIntersection_cases a b) as [[Hw Hh] | Hno].
    + rewrite (computeRectIntersection_Some a b Hw Hh).
      rewrite (computeRectIntersection_Some b a).
      * unfold sameRect, Rect.equiv; simpl.
        repeat split; try apply Q.max_comm; try apply Q.min_comm;
          apply Qminus_comp; try apply Q.max_comm; apply Q.min_comm.
      * now rewrite Q.min_comm, (Q.max_comm (Rect.left b)).
      * now rewrite Q.min_comm, (Q.max_comm (Rect.top b)).
    + rewrite (computeRectIntersection_None a b Hno).
      rewrite (computeRectIntersection_None b a); [exact I|].
      now rewrite (Q.min_comm (Rect.right b)), (Q.max_comm (Rect.left b)),
        (Q.min_comm (Rect.bottom b)), (Q.max_comm (Rect.top b)).
  - set (W := Qmin (Qmin (Rect.right a) (Rect.right b)) (Rect.right c)
              - Qmax (Qmax (Rect.left a) (Rect.left b)) (Rect.left c)).
    set (H := Qmin (Qmin (Rect.bottom a) (Rect.bottom b)) (Rect.bottom c)
              - Qmax (Qmax (Rect.top a) (Rect.top b)) (Rect.top c)).
    assert (HWab : W <= Qmin (Rect.right a) (Rect.right b)
                        - Qmax (Rect.left a) (Rect.left b))
      by (apply Qminus_le_mono; [apply Q.le_min_l | apply Q.le_max_l]).
    assert (HHab : H <= Qmin (Rect.bottom a) (Rect.bottom b)
                        - Qmax (Rect.top a) (Rect.top b))
      by (apply Qminus_le_mono; [apply Q.le_min_l | apply Q.le_max_l]).
    assert (HWbc : W <= Qmin (Rect.right b) (Rect.right c)
                        - Qmax (Rect.left b) (Rect.left c)).
    { apply Qminus_le_mono.
      - apply Q.min_glb; [|apply Q.le_min_r].
        eapply Qle_trans; [apply Q.le_min_l | apply Q.le_min_r].
      - apply Q.max_lub; [|apply Q.le_max_r].
        eapply Qle_trans; [apply Q.le_max_r | apply Q.le_max_l]. }
    assert (HHbc : H <= Qmin (Rect.bottom b) (Rect.bottom c)
                        - Qmax (Rect.top b) (Rect.top c)).
    { apply Qminus_le_mono.
      - apply Q.min_glb; [|apply Q.le_min_r].
        eapply Qle_trans; [apply Q.le_min_l | apply Q.le_min_r].
      - apply Q.max_lub; [|apply Q.le_max_r].
        eapply Qle_trans; [apply Q.le_max_r | apply Q.le_max_l]. }
    assert (HW' : Qmin (Rect.right a) (Qmin (Rect.right b) (Rect.right c))
                  - Qmax (Rect.left a) (Qmax (Rect.left b) (Rect.left c)) == W)
      by (unfold W; apply Qminus_comp; [apply Q.min_assoc | apply Q.max_assoc]).
    assert (HH' : Qmin (Rect.bottom a) (Qmin (Rect.bottom b) (Rect.bottom c))
                  - Qmax (Rect.top a) (Qmax (Rect.top b) (Rect.top c)) == H)
      by (unfold H; apply Qminus_comp; [apply Q.min_assoc | apply Q.max_assoc]).
    destruct (Qlt_le_dec W 0) as [HW | HW].
    { (* too narrow: nothing on either side *)
      assert (L : match computeRectIntersection a b with
                  | Some ab => computeRectIntersection ab c
                  | None => None
                  end = None).
      { destruct (computeRectIntersection_cases a b) as [[Hw Hh] | Hno].
        - rewrite (computeRectIntersection_Some a b Hw Hh).
          apply computeRectIntersection_None. left. exact HW.
        - now rewrite (computeRectIntersection_None a b Hno). }
      assert (R : match computeRectIntersection b c with
                  | Some bc => computeRectIntersection a bc
                  | None => None
                  end = None).
      { destruct (computeRectIntersection_cases b c) as [[Hw Hh] | Hno].
        - rewrite (computeRectIntersection_Some b c Hw Hh).
          apply computeRectIntersection_None. left.
          cbn [Rect.top Rect.bottom Rect.left Rect.right]. now rewrite HW'.
        - now rewrite (computeRectIntersection_None b c Hno). }
      rewrite L, R. exact I. }
    destruct (Qlt_le_dec H 0) as [HH | HH].
    { assert (L : match computeRectIntersection a b with
                  | Some ab => computeRectIntersection ab c
                  | None => None
                  end = None).
      { destruct (computeRectIntersection_cases a b) as [[Hw Hh] | Hno].
        - rewrite (computeRectIntersection_Some a b Hw Hh).
          apply computeRectIntersection_None. right. exact HH.
        - now rewrite (computeRectIntersection_None a b Hno). }
      assert (R : match computeRectIntersection b c with
                  | Some bc => computeRectIntersection a bc
                  | None => None
                  end = None).
      { destruct (computeRectIntersection_cases b c) as [[Hw Hh] | Hno].
        - rewrite (computeRectIntersection_Some b c Hw Hh).
          apply computeRectIntersection_None. right.
          cbn [Rect.top Rect.bottom Rect.left Rect.right]. now rewrite HH'.
        - now rewrite (computeRectIntersection_None b c Hno). }
      rewrite L, R. exact I. }
    rewrite (computeRectIntersection_Some a b)
      by first [exact (Qle_trans _ _ _ HW HWab) | exact (Qle_trans _ _ _ HH HHab)].
    rewrite (computeRectIntersection_Some b c)
      by first [exact (Qle_trans _ _ _ HW HWbc) | exact (Qle_trans _ _ _ HH HHbc)].
    rewrite computeRectIntersection_Some
      by (cbn [Rect.top Rect.bottom Rect.left Rect.right]; assumption).
    rewrite computeRectIntersection_Some
      by (cbn [Rect.top Rect.bottom Rect.left Rect.right]; rewrite ?HW', ?HH'; assumption).
    unfold sameRect, Rect.equiv;
      cbn [Rect.top Rect.bottom Rect.left Rect.right Rect.width Rect.height].
    repeat split; try (symmetry; apply Q.max_assoc); try (symmetry; apply Q.min_assoc);
      symmetry; assumption.
Qed.

End GeometryAlgebra.

(** ** The registry: entries *)

Section EntryFacts.
Import Registry IntersectionObserver.
Local Open Scope Q_scope.

Lemma toFixed4_small (x : Q) :
  0 <= x <= 1 -> toFixed4 x = inject_Z (Qfloor (x * 10000 + 1 / 2)) / 10000.
Proof.
  intros [H0 H1]. unfold toFixed4.
  assert (E1 : Qle_bool (inject_Z (10 ^ 21)) x = false).
  { apply Qle_bool_false. eapply Qle_lt_trans; [exact H1|]. reflexivity. }
  assert (E2 : Qle_bool x (- inject_Z (10 ^ 21)) = false).
  { apply Qle_bool_false. eapply Qlt_le_trans; [|exact H0]. reflexivity. }
  assert (E3 : Qlt_bool x 0 = false).
  { unfold Qlt_bool. apply negb_false_iff. now apply Qle_bool_iff. }
  now rewrite E1, E2, E3.
Qed.

Lemma toFixed4_unit (x : Q) :
  0 <= x <= 1 ->
  0 <= toFixed4 x <= 1 /\ - (1 # 20000) <= toFixed4 x - x <= 1 # 20000.
Proof.
  intros Hx. rewrite (toFixed4_small x Hx). destruct Hx as [H0 H1].
  set (y := x * 10000 + 1 / 2).
  pose proof (Qfloor_le y) as Hle.
  pose proof (Qlt_floor y) as Hlt. rewrite inject_Z_plus in Hlt.
  assert (Hf0 : (0 <= Qfloor y)%Z).
  { change 0%Z with (Qfloor 0). apply Qfloor_resp_le. unfold y, Qdiv.
    change (/ 2) with (1 # 2). lra. }
  assert (Hf1 : (Qfloor y <= 10000)%Z).
  { assert (H : (Qfloor y < 10001)%Z).
    { rewrite Zlt_Qlt. eapply Qle_lt_trans; [exact Hle|]. unfold y, Qdiv.
      change (/ 2) with (1 # 2). change (inject_Z 10001) with (10001 # 1). lra. }
    lia. }
  rewrite Zle_Qle in Hf0, Hf1.
  change (inject_Z 0) with 0 in Hf0. change (inject_Z 10000) with 10000 in Hf1.
  change (inject_Z 1) with 1 in Hlt.
  unfold y, Qdiv in *. change (/ 2) with (1 # 2) in *.
  change (/ 10000) with (1 # 10000).
  generalize dependent (inject_Z (Qfloor (x * 10000 + 1 * (1 # 2)))). intros f ? ? ? ?.
  lra.
Qed.

Lemma toFixed4_zero (x : Q) : x == 0 -> toFixed4 x == 0.
Proof.
  intros Hx. rewrite toFixed4_small by (rewrite Hx; split; discriminate).
  rewrite (Qfloor_comp _ (1 / 2)); [reflexivity|]. rewrite Hx. reflexivity.
Qed.


End EntryFacts.

(** ** The registry: the margin string *)

Section MarginFacts.
Import Registry Geometry IntersectionObserver.
Local Open Scope Q_scope.

Lemma splitSpaces_nonempty (s : string) :
  forall inRun piece, splitSpaces inRun piece s <> [].
Proof.
  induction s as [|c s IH]; intros inRun piece; simpl; [discriminate|].
  destruct (isSpace c); [destruct inRun|]; [apply IH | discriminate | apply IH].
Qed.

Lemma parseMargins_length (pieces : list string) (ms : list Margin) :
  parseMargins pieces = Return ms -> length ms = length pieces.
Proof.
  revert ms. induction pieces as [|p pieces IH]; intros ms; simpl.
  - intros H. injection H as <-. reflexivity.
  - destruct (parseMargin p); [|discriminate].
    destruct (parseMargins pieces); [|discriminate].
    intros H. injection H as <-. simpl. f_equal. now apply IH.
Qed.

Lemma parseMargins_all (pieces : list string) (ms : list Margin) (p : string) :
  parseMargins pieces = Return ms -> In p pieces -> exists m, parseMargin p = Some m.
Proof.
  revert ms. induction pieces as [|q pieces IH]; intros ms; simpl; [intros _ []|].
  destruct (parseMargin q) eqn:Eq; [|discriminate].
  destruct (parseMargins pieces); [|discriminate].
  intros _ [-> | Hin]; [eauto|]. eapply IH; eauto.
Qed.

Lemma completeShorthand_length (ms : list Margin) :
  ms <> [] -> (4 <= length (completeShorthand ms))%nat.
Proof.
  destruct ms as [|m0 [|m1 [|m2 [|m3 rest]]]]; simpl; intros H; try lia. congruence.
Qed.

Lemma parseRootMargin_four (opt_rootMargin : option string) (margins : list Margin) :
  _parseRootMargin opt_rootMargin = Return margins ->
  (4 <= length margins)%nat /\ margins <> [].
Proof.
  unfold _parseRootMargin. intros H.
  destruct (parseMargins _) as [ms|] eqn:E; [|discriminate].
  injection H as <-.
  assert (Hne : ms <> []).
  { intros ->. apply parseMargins_length in E. simpl in E.
    symmetry in E. apply length_zero_iff_nil in E.
    now apply splitSpaces_nonempty in E. }
  pose proof (completeShorthand_length ms Hne) as H4.
  split; [exact H4|]. intros Heq. rewrite Heq in H4. simpl in H4. lia.
Qed.

(** X5. A margin string that [_parseRootMargin] accepts always yields
    at least four components, the shorthand filled in, so that
    [_expandRectByRootMargin] has the four it reads for every rect. *)
Theorem parseRootMargin_expands (opt_rootMargin : option string) (margins : list Margin)
    (rect : Rect.t) :
  _parseRootMargin opt_rootMargin = Return margins ->
  (4 <= length margins)%nat /\
  exists r, _expandRectByRootMargin margins rect = Some r.
Proof.
  unfold _parseRootMargin. intros H.
  destruct (parseMargins _) as [ms|] eqn:E; [|discriminate].
  injection H as <-.
  assert (Hne : ms <> []).
  { intros ->. apply parseMargins_length in E. simpl in E.
    symmetry in E. apply length_zero_iff_nil in E.
    now apply splitSpaces_nonempty in E. }
  split; [now apply completeShorthand_length|].
  now apply expandRectByRootMargin_completeShorthand.
Qed.

Lemma parseRootMargin_expands_witness :
  exists margins,
    _parseRootMargin (Some "10px -5% 0.5px"%string) = Return margins /\
    (4 <= length margins)%nat /\
    exists r, _expandRectByRootMargin margins (Rect.mk 0 600 0 800 800 600) = Some r.
Proof.
  destruct (_parseRootMargin (Some "10px -5% 0.5px"%string)) as [ms|] eqn:E;
    [|vm_compute in E; discriminate].
  exists ms. split; [reflexivity|].
  exact (parseRootMargin_expands _ _ _ E).
Defined.

Lemma In_splitSpaces_trailing (c : ascii) (s : string) :
  isSpace c = true ->
  forall inRun piece, (inRun = true -> piece = EmptyString) ->
    In EmptyString (splitSpaces inRun piece (s ++ String c EmptyString)%string).
Proof.
  intros Hc. induction s as [|a s IH]; intros inRun piece Hp; simpl.
  - rewrite Hc. destruct inRun; simpl; [left; now apply Hp | right; now left].
  - destruct (isSpace a).
    + destruct inRun; [now apply IH|]. right. now apply IH.
    + apply IH. discriminate.
Qed.

Lemma parseMargins_rejects (pieces : list string) :
  (exists p, In p pieces /\ parseMargin p = None) ->
  parseMargins pieces = Throw "rootMargin must be specified in pixels or percent".
Proof.
  induction pieces as [|p0 rest IH]; intros (p & Hin & Hp); [destruct Hin|].
  cbn [parseMargins]. destruct (parseMargin p0) as [m0|] eqn:E0; [|reflexivity].
  destruct Hin as [-> | Hin]; [congruence|].
  rewrite IH by (exists p; auto). reflexivity.
Qed.

(** X6. White space at either end of the margin string leaves an
    empty piece there, which is no margin: the string is rejected with
    the error 'rootMargin must be specified in pixels or percent'. *)
Theorem parseRootMargin_rejects_outer_space (c : ascii) (s : string) :
  isSpace c = true ->
  _parseRootMargin (Some (String c s))
  = Throw "rootMargin must be specified in pixels or percent" /\
  _parseRootMargin (Some (s ++ String c EmptyString)%string)
  = Throw "rootMargin must be specified in pixels or percent".
Proof.
  intros Hc. split.
  - unfold _parseRootMargin. simpl. rewrite Hc. simpl. reflexivity.
  - unfold _parseRootMargin.
    assert (Hs : exists a r, (s ++ String c EmptyString)%string = String a r).
    { destruct s; simpl; eauto. }
    destruct Hs as (a & r & Hs). rewrite Hs. rewrite parseMargins_rejects; [reflexivity|].
    exists EmptyString. split; [|reflexivity].
    rewrite <- Hs. apply In_splitSpaces_trailing; [exact Hc | discriminate].
Qed.

Lemma parseRootMargin_rejects_outer_space_witness :
  _parseRootMargin (Some " 10px"%string)
  = Throw "rootMargin must be specified in pixels or percent" /\
  _parseRootMargin (Some "10px "%string)
  = Throw "rootMargin must be specified in pixels or percent".
Proof. apply (parseRootMargin_rejects_outer_space " "%char "10px"%string). reflexivity. Defined.

End MarginFacts.

(** ** The registry: margins written as whole pixels *)

Section PixelMargins.
Import Registry Geometry IntersectionObserver.
Local Open Scope Q_scope.

Lemma append_nil_l (s : string) : ("" ++ s = s)%string.
Proof. reflexivity. Qed.

Lemma append_cons (c : ascii) (a b : string) :
  (String c a ++ b = String c (a ++ b))%string.
Proof. reflexivity. Qed.

Lemma string_app_assoc (a b c : string) : ((a ++ b) ++ c = a ++ (b ++ c))%string.
Proof.
  induction a as [|x a IH]; [reflexivity|]. rewrite !append_cons. now rewrite IH.
Qed.

Lemma string_app_nil_r (a : string) : (a ++ "" = a)%string.
Proof. induction a as [|x a IH]; [reflexivity|]. rewrite append_cons. now rewrite IH. Qed.

Lemma string_length_app (a b : string) :
  String.length (a ++ b) = (String.length a + String.length b)%nat.
Proof.
  induction a as [|x a IH]; [reflexivity|]. rewrite append_cons. simpl. now rewrite IH.
Qed.

Lemma substring_all (t : string) : substring 0 (String.length t) t = t.
Proof. induction t as [|x t IH]; simpl; [reflexivity|]. now rewrite IH. Qed.

Lemma substring_app_r (y t : string) :
  substring (String.length y) (String.length t) (y ++ t) = t.
Proof.
  induction y as [|x y IH]; [apply substring_all|]. rewrite append_cons. exact IH.
Qed.

Lemma substring_app_l (y t : string) : substring 0 (String.length y) (y ++ t) = y.
Proof.
  induction y as [|x y IH]; [now destruct t|].
  rewrite append_cons. simpl. now rewrite IH.
Qed.

Lemma takeLast_app (y t : string) : takeLast (String.length t) (y ++ t) = t.
Proof.
  unfold takeLast. rewrite string_length_app.
  replace (String.length y + String.length t - String.length t)%nat
    with (String.length y) by lia.
  apply substring_app_r.
Qed.

Lemma dropLast_app (y t : string) : dropLast (String.length t) (y ++ t) = y.
Proof.
  unfold dropLast. rewrite string_length_app.
  replace (String.length y + String.length t - String.length t)%nat
    with (String.length y) by lia.
  apply substring_app_l.
Qed.

(** Splitting at white space leaves a piece without white space whole. *)
Lemma splitSpaces_piece (x : string) :
  noSpaces x = true -> x <> EmptyString ->
  forall inRun piece s,
    splitSpaces inRun piece (x ++ s) = splitSpaces false (piece ++ x) s.
Proof.
  induction x as [|c x IH]; intros Hx Hne inRun piece s; [congruence|].
  simpl in Hx. apply andb_true_iff in Hx. destruct Hx as [Hc Hx].
  apply negb_true_iff in Hc. rewrite append_cons. cbn [splitSpaces]. rewrite Hc.
  destruct x as [|c' x'].
  - reflexivity.
  - rewrite IH by (assumption || discriminate).
    now rewrite string_app_assoc.
Qed.

Lemma allDigits_app (a b : string) :
  allDigits (a ++ b) = allDigits a && allDigits b.
Proof.
  induction a as [|x a IH]; [reflexivity|].
  rewrite append_cons. simpl. now rewrite IH, andb_assoc.
Qed.

Lemma digitsValue_acc (s : string) (acc : N) :
  digitsValue acc s
  = (acc * 10 ^ N.of_nat (String.length s) + digitsValue 0 s)%N.
Proof.
  revert acc. induction s as [|c s IH]; intros acc; simpl String.length.
  - simpl. lia.
  - cbn [digitsValue]. rewrite (IH (acc * 10 + _)%N), (IH (0 * 10 + _)%N).
    rewrite Nat2N.inj_succ, N.pow_succ_r'. lia.
Qed.

Lemma pretty_N_char_digit (d : N) :
  (d < 10)%N ->
  isDigit (pretty_N_char d) = true /\ (N_of_ascii (pretty_N_char d) - 48)%N = d.
Proof.
  intros Hd. destruct d as [|p]; [split; reflexivity|].
  do 4 (try destruct p as [p|p|]); try (split; reflexivity); lia.
Qed.

Lemma pretty_N_go_digits (n : N) :
  forall s, allDigits s = true ->
    allDigits (pretty_N_go n s) = true /\
    digitsValue 0 (pretty_N_go n s)
    = (n * 10 ^ N.of_nat (String.length s) + digitsValue 0 s)%N /\
    (pretty_N_go n s = EmptyString -> s = EmptyString /\ n = 0%N).
Proof.
  induction (N.lt_wf_0 n) as [n _ IH]. intros s Hs.
  destruct (N.eq_dec n 0%N) as [-> | Hn].
  - rewrite pretty_N_go_0. split; [exact Hs|]. split; [lia | auto].
  - rewrite pretty_N_go_step by lia.
    destruct (pretty_N_char_digit (n mod 10)%N) as [Hd Hv]; [apply N.mod_lt; lia|].
    destruct (IH (n / 10)%N) with (s := String (pretty_N_char (n mod 10)%N) s)
      as (Ha & Hval & Hne).
    + apply N.div_lt; lia.
    + simpl. now rewrite Hd, Hs.
    + split; [exact Ha|]. split.
      * rewrite Hval. cbn [digitsValue String.length].
        rewrite (digitsValue_acc s), Hv, Nat2N.inj_succ, N.pow_succ_r'.
        pose proof (N.div_mod n 10%N). lia.
      * intros H. destruct (Hne H) as [Habs _]. discriminate.
Qed.

(** The decimal numeral of a natural number is a non-empty string of
    digits that spells the number. *)
Lemma pretty_N_digits (n : N) :
  allDigits (pretty n) = true /\ pretty n <> EmptyString /\
  digitsValue 0 (pretty n) = n.
Proof.
  unfold pretty, pretty_N. destruct (decide (n = 0%N)) as [-> | Hn].
  - repeat split. discriminate.
  - destruct (pretty_N_go_digits n EmptyString eq_refl) as (Ha & Hv & Hne).
    split; [exact Ha|]. split.
    + intros H. destruct (Hne H) as [_ H0]. contradiction.
    + rewrite Hv. simpl. lia.
Qed.

Lemma allDigits_noSpaces (s : string) : allDigits s = true -> noSpaces s = true.
Proof.
  induction s as [|c s IH]; simpl; [reflexivity|].
  intros H. apply andb_true_iff in H. destruct H as [Hc Hs].
  rewrite (IH Hs), andb_true_r. apply negb_true_iff.
  unfold isDigit, isSpace in *. cbv zeta in *.
  apply andb_true_iff in Hc. destruct Hc as [H1 H2]. apply Nat.leb_le in H1, H2.
  assert (E1 : (nat_of_ascii c <=? 13)%nat = false) by (apply Nat.leb_gt; lia).
  assert (E2 : (nat_of_ascii c =? 32)%nat = false) by (apply Nat.eqb_neq; lia).
  assert (E3 : (nat_of_ascii c =? 160)%nat = false) by (apply Nat.eqb_neq; lia).
  now rewrite E1, E2, E3, andb_false_r.
Qed.

Lemma allDigits_splitDot (s : string) : allDigits s = true -> splitDot s = (s, None).
Proof.
  induction s as [|c s IH]; simpl; [reflexivity|].
  intros H. apply andb_true_iff in H. destruct H as [Hc Hs].
  destruct (Ascii.eqb c ".") eqn:E.
  - apply Ascii.eqb_eq in E. subst c. discriminate.
  - now rewrite (IH Hs).
Qed.

Lemma allDigits_no_sign (s : string) :
  allDigits s = true ->
  match s with String "-" r => (true, r) | _ => (false, s) end = (false, s).
Proof.
  destruct s as [|c s]; [reflexivity|]. simpl.
  intros H. apply andb_true_iff in H. destruct H as [Hc _].
  destruct c as [[] [] [] [] [] [] [] []]; try reflexivity. discriminate.
Qed.

Lemma parseNumber_digits (s : string) :
  allDigits s = true -> s <> EmptyString ->
  parseNumber s
  = Some (inject_Z (Z.of_N (digitsValue 0 (s ++ ""))) / inject_Z (10 ^ Z.of_nat 0)).
Proof.
  intros Hs Hne. unfold parseNumber.
  rewrite (allDigits_no_sign s Hs), (allDigits_splitDot s Hs).
  rewrite Hs, andb_true_r.
  destruct s; [congruence | reflexivity].
Qed.

Lemma parseNumber_signed (s : string) :
  allDigits s = true -> s <> EmptyString ->
  parseNumber (String "-" s)
  = Some (- (inject_Z (Z.of_N (digitsValue 0 (s ++ ""))) / inject_Z (10 ^ Z.of_nat 0))).
Proof.
  intros Hs Hne. unfold parseNumber.
  rewrite (allDigits_splitDot s Hs).
  rewrite Hs, andb_true_r.
  destruct s; [congruence | reflexivity].
Qed.

(** A whole number of pixels, written as JavaScript prints it, is read
    back as that number. *)
Lemma parseMargin_pixels (z : Z) :
  exists m, parseMargin (pretty z ++ "px") = Some m /\
            value m == inject_Z z /\ unit m = px.
Proof.
  unfold parseMargin.
  rewrite (takeLast_app (pretty z) "px"), (dropLast_app (pretty z) "px").
  simpl String.eqb. cbv iota.
  assert (Hdiv : forall q : Q, q / inject_Z (10 ^ Z.of_nat 0) == q).
  { intros q. change (inject_Z (10 ^ Z.of_nat 0)) with 1. unfold Qdiv.
    change (/ 1) with 1. apply Qmult_1_r. }
  destruct z as [|p|p].
  - eexists. split; [reflexivity|]. split; reflexivity.
  - destruct (pretty_N_digits (N.pos p)) as (Ha & Hne & Hv).
    change (pretty (Z.pos p)) with (pretty (N.pos p)).
    rewrite (parseNumber_digits _ Ha Hne).
    eexists. split; [reflexivity|]. split; [|reflexivity]. cbn [value].
    rewrite string_app_nil_r, Hv, Hdiv. reflexivity.
  - destruct (pretty_N_digits (N.pos p)) as (Ha & Hne & Hv).
    change (pretty (Z.neg p)) with (String "-" (pretty (N.pos p))).
    rewrite (parseNumber_signed _ Ha Hne).
    eexists. split; [reflexivity|]. split; [|reflexivity]. cbn [value].
    rewrite string_app_nil_r, Hv, Hdiv. reflexivity.
Qed.

Lemma noSpaces_app (a b : string) :
  noSpaces (a ++ b) = noSpaces a && noSpaces b.
Proof.
  induction a as [|x a IH]; [reflexivity|].
  rewrite append_cons. simpl. now rewrite IH, andb_assoc.
Qed.

Lemma pixels_piece (z : Z) :
  noSpaces (pretty z ++ "px") = true /\ (pretty z ++ "px")%string <> EmptyString.
Proof.
  split.
  - rewrite noSpaces_app, andb_true_r. destruct z as [|p|p].
    + reflexivity.
    + destruct (pretty_N_digits (N.pos p)) as (Ha & _ & _).
      change (pretty (Z.pos p)) with (pretty (N.pos p)). now apply allDigits_noSpaces.
    + destruct (pretty_N_digits (N.pos p)) as (Ha & _ & _).
      change (pretty (Z.neg p)) with (String "-" (pretty (N.pos p))).
      cbn [noSpaces]. rewrite (allDigits_noSpaces _ Ha). reflexivity.
  - destruct (pretty z); discriminate.
Qed.

(** X7. The margin string scrollama builds from four whole numbers of
    pixels, each printed in decimal, is accepted and read back as those
    four numbers, in pixels. *)
Theorem parseRootMargin_pixels (top right bottom left : Z) :
  exists mt mr mb ml,
    _parseRootMargin
      (Some (pretty top ++ "px " ++ pretty right ++ "px " ++ pretty bottom ++ "px "
             ++ pretty left ++ "px")%string)
    = Return [mt; mr; mb; ml] /\
    (value mt == inject_Z top /\ unit mt = px) /\
    (value mr == inject_Z right /\ unit mr = px) /\
    (value mb == inject_Z bottom /\ unit mb = px) /\
    (value ml == inject_Z left /\ unit ml = px).
Proof.
  destruct (parseMargin_pixels top) as (mt & Ht & Hvt).
  destruct (parseMargin_pixels right) as (mr & Hr & Hvr).
  destruct (parseMargin_pixels bottom) as (mb & Hb & Hvb).
  destruct (parseMargin_pixels left) as (ml & Hl & Hvl).
  exists mt, mr, mb, ml. split; [|auto].
  destruct (pixels_piece top) as [Hst Hnt], (pixels_piece right) as [Hsr Hnr],
    (pixels_piece bottom) as [Hsb Hnb], (pixels_piece left) as [Hsl Hnl].
  assert (Hsplit :
    splitSpaces false EmptyString
      (pretty top ++ "px " ++ pretty right ++ "px " ++ pretty bottom ++ "px "
       ++ pretty left ++ "px")%string
    = [(pretty top ++ "px")%string; (pretty right ++ "px")%string;
       (pretty bottom ++ "px")%string; (pretty left ++ "px")%string]).
  { replace (pretty top ++ "px " ++ pretty right ++ "px " ++ pretty bottom ++ "px "
             ++ pretty left ++ "px")%string
      with ((pretty top ++ "px") ++ String " "
              ((pretty right ++ "px") ++ String " "
                 ((pretty bottom ++ "px") ++ String " "
                    ((pretty left ++ "px") ++ ""))))%string
      by (rewrite !string_app_assoc; reflexivity).
    rewrite (splitSpaces_piece _ Hst Hnt). cbn [splitSpaces isSpace]. simpl isSpace.
    cbv iota. f_equal.
    rewrite (splitSpaces_piece _ Hsr Hnr). cbn [splitSpaces]. simpl isSpace.
    cbv iota. f_equal.
    rewrite (splitSpaces_piece _ Hsb Hnb). cbn [splitSpaces]. simpl isSpace.
    cbv iota. f_equal.
    rewrite (splitSpaces_piece _ Hsl Hnl). reflexivity. }
  unfold _parseRootMargin.
  assert (Hs : exists a r,
    (pretty top ++ "px " ++ pretty right ++ "px " ++ pretty bottom ++ "px "
     ++ pretty left ++ "px")%string = String a r).
  { destruct (pretty top); simpl; eauto. }
  destruct Hs as (a & r & Hs). rewrite Hs, <- Hs, Hsplit.
  cbn [parseMargins]. now rewrite Ht, Hr, Hb, Hl.
Qed.

End PixelMargins.

(** ** The registry: walking the document *)

Section DocumentFacts.
Import Registry Geometry Dom IntersectionObserver.
Local Open Scope Q_scope.

Lemma reaches_trans (doc : Document) (a b c : nat) :
  reaches doc a b -> reaches doc b c -> reaches doc a c.
Proof.
  intros Hab Hbc. induction Hab as [n | n p m Hp _ IH]; [exact Hbc|].
  eapply reaches_up; eauto.
Qed.

Lemma containsDeepFrom_reaches (doc : Document) (parent : nat) :
  wellNumbered doc ->
  forall fuel x, (x <= fuel)%nat ->
    containsDeepFrom fuel doc parent (Some x) = true <-> reaches doc x parent.
Proof.
  intros Hwn. induction fuel as [|fuel IH]; intros x Hx; cbn [containsDeepFrom].
  - destruct (Nat.eqb_spec x parent) as [-> | Hne].
    + split; [constructor | reflexivity].
    + split; [discriminate|]. intros H. exfalso.
      inversion H as [|n p m Hp _]; subst; [congruence|].
      specialize (Hwn x p Hp). lia.
  - destruct (Nat.eqb_spec x parent) as [-> | Hne].
    + split; [constructor | reflexivity].
    + destruct (getParentNode doc x) as [p|] eqn:Ep.
      * rewrite IH by (specialize (Hwn x p Ep); lia). split.
        -- intros H. eapply reaches_up; eauto.
        -- intros H. inversion H as [|n q m Hq Hr]; subst; [congruence|].
           rewrite Ep in Hq. now injection Hq as <-.
      * split; [destruct fuel; discriminate|]. intros H.
        inversion H as [|n q m Hq _]; subst; [congruence|]. congruence.
Qed.

Lemma containsDeep_iff (doc : Document) (parent child : nat) :
  wellNumbered doc -> containsDeep doc parent child = true <-> reaches doc child parent.
Proof. intros Hwn. unfold containsDeep. now apply containsDeepFrom_reaches. Qed.

(** X8. In a document numbered in document order, [containsDeep]
    answers whether the walk along [getParentNode] from the child (the
    child included, shadow roots crossed to their hosts) meets the
    parent; so every node contains itself, and containment is
    transitive. *)
Theorem containsDeep_reaches (doc : Document) (a b c : nat) :
  wellNumbered doc ->
  (containsDeep doc a b = true <-> reaches doc b a) /\
  containsDeep doc a a = true /\
  (containsDeep doc a b = true -> containsDeep doc b c = true ->
   containsDeep doc a c = true).
Proof.
  intros Hwn.
  assert (H : forall x y, containsDeep doc x y = true <-> reaches doc y x)
    by (intros x y; now apply containsDeep_iff).
  split; [apply H|]. split.
  - apply H. constructor.
  - rewrite !H. intros Hab Hbc. eapply reaches_trans; eauto.
Qed.

Lemma within_trans (a b c : Rect.t) : within a b -> within b c -> within a c.
Proof.
  unfold within. intros (H1 & H2 & H3 & H4) (K1 & K2 & K3 & K4).
  repeat split; eapply Qle_trans; eauto.
Qed.

(** What [computeRectIntersection] returns lies within both arguments,
    has the width and height of its edges, and neither is negative. *)
Lemma computeRectIntersection_within (a b r : Rect.t) :
  computeRectIntersection a b = Some r ->
  within r a /\ within r b /\ consistent r /\ 0 <= Rect.width r /\ 0 <= Rect.height r.
Proof.
  unfold computeRectIntersection.
  destruct (Qle_bool 0 _) eqn:Ew; [|discriminate].
  destruct (Qle_bool 0 (Qmin (Rect.bottom a) _ - _)) eqn:Eh; [|discriminate].
  cbn [andb]. intros H. injection H as <-.
  apply Qle_bool_iff in Ew, Eh.
  unfold within, consistent; cbn [Rect.top Rect.bottom Rect.left Rect.right
                                    Rect.width Rect.height].
  repeat split; auto using Q.le_max_l, Q.le_max_r, Q.le_min_l, Q.le_min_r;
    reflexivity.
Qed.

(** The walk of [_computeTargetAndRootIntersection] ends without an
    error when it starts at a node from which the root, or the
    document, is reached, and what it returns lies within the rect it
    started with and within the root rect. *)
Lemma clipToAncestors_safe (doc : Document) (root : option nat) (rootRect : option Rect.t) :
  wellNumbered doc ->
  forall fuel p rect,
    (p < fuel)%nat ->
    (reaches doc p (Dom.document doc) \/ exists r, root = Some r /\ reaches doc p r) ->
    exists res,
      clipToAncestors fuel doc root rootRect (Some p) rect = Return res /\
      forall r, res = Some r ->
        within r rect /\ consistent r /\ 0 <= Rect.width r /\ 0 <= Rect.height r /\
        exists rr, rootRect = Some rr /\ within r rr.
Proof.
  intros Hwn. induction fuel as [|fuel IH]; intros p rect Hp Hreach; [lia|].
  cbn [clipToAncestors].
  destruct (Nat.eqb (nodeType (node doc p)) 1 && String.eqb (display (node doc p)) "none");
    [eexists; split; [reflexivity | discriminate]|].
  destruct (match root with Some r => Nat.eqb p r | None => false end
            || Nat.eqb p (Dom.document doc)) eqn:Eroot.
  { eexists. split; [reflexivity|]. intros r Hr.
    unfold intersectRoot in Hr. destruct rootRect as [rr|]; [|discriminate].
    destruct (computeRectIntersection_within rr rect r Hr) as (H1 & H2 & H3 & H4 & H5).
    eauto 10. }
  assert (Hup : exists p', getParentNode doc p = Some p' /\
            (reaches doc p' (Dom.document doc) \/
             exists r, root = Some r /\ reaches doc p' r)).
  { apply orb_false_iff in Eroot. destruct Eroot as [Er Ed].
    apply Nat.eqb_neq in Ed.
    destruct Hreach as [H | (r & -> & H)].
    - inversion H as [|n q m Hq Hr]; subst; [congruence|]. eauto.
    - apply Nat.eqb_neq in Er.
      inversion H as [|n q m Hq Hr]; subst; [congruence|]. eauto 6. }
  destruct Hup as (p' & Hp' & Hreach'). rewrite Hp'.
  pose proof (Hwn p p' Hp') as Hlt.
  set (clips := negb (Nat.eqb p (body doc)) && _ && _).
  destruct clips.
  - destruct (computeRectIntersection (getBoundingClientRect doc p) rect) as [rect'|] eqn:Ec;
      [|eexists; split; [reflexivity | discriminate]].
    destruct fuel as [|fuel']; [lia|].
    destruct (IH p' rect') as (res & Hres & Hin); [lia | exact Hreach'|].
    exists res. split; [exact Hres|]. intros r Hr.
    destruct (Hin r Hr) as (H1 & H2 & H3 & H4 & H5).
    split; [|auto].
    eapply within_trans; [exact H1|].
    now destruct (computeRectIntersection_within _ _ _ Ec) as (_ & ? & _).
  - destruct fuel as [|fuel']; [lia|].
    destruct (IH p' rect) as (res & Hres & Hin); [lia | exact Hreach'|].
    exists res. split; [exact Hres | exact Hin].
Qed.

(** The walk starts at a node from which the root or the document is
    reached. *)
Lemma walk_starts (doc : Document) (o : IntersectionObserver.t) (target : nat) :
  wellNumbered doc ->
  target <> Dom.document doc ->
  _rootIsInDom doc o = true ->
  _rootContainsTarget doc o target = true ->
  exists p, getParentNode doc target = Some p /\ (p < target)%nat /\
    (reaches doc p (Dom.document doc) \/ exists r, root o = Some r /\ reaches doc p r).
Proof.
  intros Hwn Hdoc Hdom Hcontains. unfold _rootIsInDom, _rootContainsTarget in *.
  assert (Hreach : exists p, getParentNode doc target = Some p /\
            (reaches doc p (Dom.document doc) \/
             exists r, root o = Some r /\ reaches doc p r)).
  { destruct (root o) as [r|] eqn:Er; cbn [default] in Hcontains.
    - apply (containsDeep_iff doc r target Hwn) in Hcontains.
      apply (containsDeep_iff doc (Dom.document doc) r Hwn) in Hdom.
      inversion Hcontains as [|n q m Hq Hr]; subst.
      + inversion Hdom as [|n q m Hq Hr]; subst; [congruence|]. eauto.
      + eauto 6.
    - apply (containsDeep_iff doc (Dom.document doc) target Hwn) in Hcontains.
      inversion Hcontains as [|n q m Hq Hr]; subst; [congruence|]. eauto. }
  destruct Hreach as (p & Hp & Hreach). exists p.
  split; [exact Hp|]. split; [exact (Hwn target p Hp) | exact Hreach].
Qed.

(** X9. In a document numbered in document order, for a target that
    is not the document node, whose root is in the document and
    contains it, [_computeTargetAndRootIntersection] returns without an
    error; the rect it returns, if any, lies within the target's rect
    and within the root rect, has the width and height of its edges,
    and neither is negative. *)
Theorem computeTargetAndRootIntersection_safe (doc : Document) (o : IntersectionObserver.t)
    (target : nat) (rootRect : option Rect.t) :
  wellNumbered doc ->
  target <> Dom.document doc ->
  _rootIsInDom doc o = true ->
  _rootContainsTarget doc o target = true ->
  exists res,
    _computeTargetAndRootIntersection doc o target rootRect = Return res /\
    forall r, res = Some r ->
      within r (getBoundingClientRect doc target) /\
      consistent r /\ 0 <= Rect.width r /\ 0 <= Rect.height r /\
      exists rr, rootRect = Some rr /\ within r rr.
Proof.
  intros Hwn Hdoc Hdom Hcontains. unfold _computeTargetAndRootIntersection.
  destruct (String.eqb (display (node doc target)) "none");
    [eexists; split; [reflexivity | discriminate]|].
  destruct (walk_starts doc o target Hwn Hdoc Hdom Hcontains) as (p & Hp & Hlt & Hreach).
  rewrite Hp. now apply clipToAncestors_safe.
Qed.

Lemma page_wellNumbered : wellNumbered ExampleDocument.page.
Proof.
  intros n p. unfold getParentNode.
  do 6 (destruct n as [|n]; [cbn; intros H; try discriminate; injection H as <-; lia|]).
  discriminate.
Qed.

Lemma containsDeep_reaches_witness :
  (containsDeep ExampleDocument.page 3 5 = true <-> reaches ExampleDocument.page 5 3) /\
  containsDeep ExampleDocument.page 3 3 = true /\
  (containsDeep ExampleDocument.page 3 5 = true ->
   containsDeep ExampleDocument.page 5 4 = true ->
   containsDeep ExampleDocument.page 3 4 = true).
Proof. apply containsDeep_reaches, page_wellNumbered. Defined.

Lemma computeTargetAndRootIntersection_safe_witness :
  exists res,
    _computeTargetAndRootIntersection ExampleDocument.page ExampleDocument.watching 4
      (Some (Rect.mk 0 800 0 1000 1000 800)) = Return res /\
    forall r, res = Some r ->
      within r (getBoundingClientRect ExampleDocument.page 4) /\
      consistent r /\ 0 <= Rect.width r /\ 0 <= Rect.height r /\
      exists rr, Some (Rect.mk 0 800 0 1000 1000 800) = Some rr /\ within r rr.
Proof.
  apply computeTargetAndRootIntersection_safe;
    [apply page_wellNumbered | discriminate | reflexivity | reflexivity].
Defined.

End DocumentFacts.

(** ** The registry: checks *)

Section CheckFacts.
Import Registry Geometry Dom IntersectionObserver.
Local Open Scope Q_scope.

Lemma hasCrossedThreshold_same (ths : list Q) (e : Entry) :
  _hasCrossedThreshold ths (Some e) e = false.
Proof. unfold _hasCrossedThreshold. now rewrite Qeq_bool_refl. Qed.

(** The entry a check computes for a target depends on the observer
    only through its root. *)
Lemma checkItem_root (doc : Document) (o o' : IntersectionObserver.t) (inDom : bool)
    (rootRect : option Rect.t) (item : Item) :
  root o' = root o -> thresholds o' = thresholds o ->
  checkItem doc o' inDom rootRect item = checkItem doc o inDom rootRect item.
Proof.
  intros Hr Ht. unfold checkItem, _rootContainsTarget, _computeTargetAndRootIntersection.
  now rewrite Hr, Ht.
Qed.

Lemma checkItem_again (doc : Document) (o : IntersectionObserver.t) (inDom : bool)
    (rootRect : option Rect.t) (item item' : Item) (queued : list Entry) :
  checkItem doc o inDom rootRect item = Some (item', queued) ->
  checkItem doc o inDom rootRect item' = Some (item', []).
Proof.
  unfold checkItem.
  destruct (inDom && _rootContainsTarget doc o (element item)) eqn:Ein.
  - destruct (_computeTargetAndRootIntersection doc o (element item) rootRect)
      as [rect|] eqn:Ec; [|discriminate].
    intros H. injection H as <- _. cbn [element entry].
    rewrite Ein, Ec, hasCrossedThreshold_same. reflexivity.
  - intros H. injection H as <- _. cbn [element entry]. rewrite Ein. reflexivity.
Qed.

Lemma checkItems_again (doc : Document) (o : IntersectionObserver.t) (inDom : bool)
    (rootRect : option Rect.t) (items : list Item) :
  forall items' queued,
    checkItems doc o inDom rootRect items = (items', queued, true) ->
    checkItems doc o inDom rootRect items' = (items', [], true).
Proof.
  induction items as [|item items IH]; intros items' queued; cbn [checkItems].
  - intros H. injection H as <- _. reflexivity.
  - destruct (checkItem doc o inDom rootRect item) as [[item1 q1]|] eqn:E1;
      [|discriminate].
    destruct (checkItems doc o inDom rootRect items) as [[rest q2] c] eqn:E2.
    intros H. injection H as <- _ ->.
    cbn [checkItems]. rewrite (checkItem_again _ _ _ _ _ _ _ E1).
    now rewrite (IH rest q2 eq_refl).
Qed.

Lemma checkItems_root (doc : Document) (o o' : IntersectionObserver.t) (inDom : bool)
    (rootRect : option Rect.t) (items : list Item) :
  root o' = root o -> thresholds o' = thresholds o ->
  checkItems doc o' inDom rootRect items = checkItems doc o inDom rootRect items.
Proof.
  intros Hr Ht. induction items as [|item items IH]; cbn [checkItems]; [reflexivity|].
  now rewrite (checkItem_root doc o o' inDom rootRect item Hr Ht), IH.
Qed.

Lemma checkItem_completes (doc : Document) (o : IntersectionObserver.t)
    (rootRect : option Rect.t) (item : Item) :
  wellNumbered doc -> element item <> Dom.document doc ->
  exists r, checkItem doc o (_rootIsInDom doc o) rootRect item = Some r.
Proof.
  intros Hwn Hdoc. unfold checkItem.
  destruct (_rootIsInDom doc o && _rootContainsTarget doc o (element item)) eqn:Ein;
    [|eauto].
  apply andb_true_iff in Ein. destruct Ein as [Hdom Hcontains].
  unfold _computeTargetAndRootIntersection.
  destruct (String.eqb (display (node doc (element item))) "none"); [eauto|].
  destruct (walk_starts doc o _ Hwn Hdoc Hdom Hcontains) as (p & Hp & Hlt & Hreach).
  rewrite Hp.
  destruct (clipToAncestors_safe doc (root o) rootRect Hwn (element item) p
              (getBoundingClientRect doc (element item)) Hlt Hreach) as (res & -> & _).
  eauto.
Qed.

Lemma checkItems_completes (doc : Document) (o : IntersectionObserver.t)
    (rootRect : option Rect.t) (items : list Item) :
  wellNumbered doc ->
  (forall item, In item items -> element item <> Dom.document doc) ->
  exists items' queued,
    checkItems doc o (_rootIsInDom doc o) rootRect items = (items', queued, true).
Proof.
  intros Hwn. induction items as [|item items IH]; intros Hok; cbn [checkItems]; [eauto|].
  destruct (checkItem_completes doc o rootRect item Hwn (Hok item (or_introl eq_refl)))
    as [[item' q] ->].
  destruct IH as (items' & q' & ->); [intros; apply Hok; now right|]. eauto.
Qed.

Lemma checkForIntersections_completes (doc : Document) (o : IntersectionObserver.t) :
  wellNumbered doc ->
  (forall item, In item (_observationTargets o) -> element item <> Dom.document doc) ->
  exists o1, _checkForIntersections doc o = (o1, true).
Proof.
  intros Hwn Hok. unfold _checkForIntersections.
  destruct (checkItems_completes doc o
              (if _rootIsInDom doc o then _getRootRect doc o else Some getEmptyRect)
              (_observationTargets o) Hwn Hok) as (items & queued & ->).
  cbn [_queuedEntries set_queue]. destruct (_queuedEntries o ++ queued); eauto.
Qed.

Lemma checkForIntersections_again (doc : Document) (o o1 : IntersectionObserver.t) :
  _checkForIntersections doc o = (o1, true) ->
  _queuedEntries o1 = [] /\ _checkForIntersections doc o1 = (o1, true).
Proof.
  unfold _checkForIntersections.
  set (inDom := _rootIsInDom doc o).
  set (rootRect := if inDom then _getRootRect doc o else Some getEmptyRect).
  destruct (checkItems doc o inDom rootRect (_observationTargets o))
    as [[items queued] completed] eqn:Ei.
  destruct completed; [|discriminate].
  assert (Hagain : forall o',
            root o' = root o -> thresholds o' = thresholds o ->
            _rootMarginValues o' = _rootMarginValues o ->
            _observationTargets o' = items -> _queuedEntries o' = [] ->
            (let inDom' := _rootIsInDom doc o' in
             let rootRect' :=
               if inDom' then _getRootRect doc o' else Some getEmptyRect in
             let '(items', queued', completed') :=
               checkItems doc o' inDom' rootRect' (_observationTargets o') in
             let o2 := set_queue (_queuedEntries o' ++ queued') (set_targets items' o') in
             if completed' then
               match _queuedEntries o2 with
               | [] => (o2, true)
               | _ => let '(records, o3) := takeRecords o2 in
                      (set_calls (calls o3 ++ [records]) o3, true)
               end
             else (o2, false)) = (o', true)).
  { intros o' Hr Ht Hm Hi Hq. cbv zeta.
    assert (HinDom : _rootIsInDom doc o' = inDom)
      by (unfold inDom, _rootIsInDom; now rewrite Hr).
    assert (Hrect : _getRootRect doc o' = _getRootRect doc o)
      by (unfold _getRootRect; now rewrite Hr, Hm).
    rewrite HinDom, Hrect. fold rootRect.
    rewrite (checkItems_root doc o o' inDom rootRect _ Hr Ht), Hi.
    rewrite (checkItems_again doc o inDom rootRect _ items queued Ei).
    rewrite Hq. cbn [app]. unfold set_queue, set_targets. cbn.
    destruct o'; cbn in *. subst. reflexivity. }
  cbn [_queuedEntries set_queue].
  destruct (_queuedEntries o ++ queued) as [|e q] eqn:Eq.
  - intros H. injection H as <-. split; [reflexivity|].
    apply Hagain; reflexivity.
  - unfold takeRecords. cbn [_queuedEntries set_queue].
    intros H. injection H as <-. split; [reflexivity|].
    apply Hagain; reflexivity.
Qed.

(** X10. In a document numbered in document order, a check of targets
    none of which is the document node returns and leaves the queue
    empty; and a second check of the same document right after it
    changes nothing: no entry is queued and the callback is not invoked
    again. *)
Theorem checkForIntersections_settles (doc : Document) (o : IntersectionObserver.t) :
  wellNumbered doc ->
  (forall item, In item (_observationTargets o) -> element item <> Dom.document doc) ->
  exists o1,
    _checkForIntersections doc o = (o1, true) /\
    _queuedEntries o1 = [] /\ _checkForIntersections doc o1 = (o1, true).
Proof.
  intros Hwn Hok. destruct (checkForIntersections_completes doc o Hwn Hok) as [o1 H1].
  exists o1. split; [exact H1|]. exact (checkForIntersections_again doc o o1 H1).
Qed.

Lemma checkItems_reports (doc : Document) (o : IntersectionObserver.t) (inDom : bool)
    (rootRect : option Rect.t) (items : list Item) :
  forall items' queued,
    checkItems doc o inDom rootRect items = (items', queued, true) ->
    List.map element items' = List.map element items /\
    (forall item, In item items' -> exists e, entry item = Some e /\ target e = element item) /\
    (forall e, In e queued -> exists item, In item items' /\ entry item = Some e) /\
    (forall item, In item items -> unchecked item = true ->
       exists e, In e queued /\ target e = element item).
Proof.
  induction items as [|item items IH]; intros items' queued; cbn [checkItems].
  - intros H. injection H as <- <-. repeat split; intros ? []; contradiction.
  - destruct (checkItem doc o inDom rootRect item) as [[item1 q1]|] eqn:E1;
      [|discriminate].
    destruct (checkItems doc o inDom rootRect items) as [[rest q2] c] eqn:E2.
    intros H. injection H as <- <- ->.
    destruct (IH rest q2 eq_refl) as (Hel & Hent & Hq & Hnew).
    unfold checkItem in E1.
    destruct (if inDom && _rootContainsTarget doc o (element item)
              then _computeTargetAndRootIntersection doc o (element item) rootRect
              else Return None) as [rect|]; [|discriminate].
    injection E1 as <- <-.
    set (e1 := IntersectionObserverEntry (element item)
                 (getBoundingClientRect doc (element item)) rect) in *.
    split; [cbn; now rewrite Hel|]. split; [|split].
    + intros it [<- | Hin]; [exists e1; split; reflexivity | now apply Hent].
    + intros e Hin. apply in_app_or in Hin. destruct Hin as [Hin | Hin].
      * exists (mkItem (element item) (Some e1)). split; [now left|].
        destruct (entry item) as [old|];
          [destruct (inDom && _);
           [destruct (_hasCrossedThreshold _ _ _) | destruct (isIntersecting old)]|];
          cbn in Hin; try contradiction; destruct Hin as [<- | []]; reflexivity.
      * destruct (Hq e Hin) as (it & Hit & He). exists it. split; [now right | exact He].
    + intros it [<- | Hin] Hun.
      * unfold unchecked in Hun. destruct (entry item); [discriminate|].
        exists e1. split; [now left | reflexivity].
      * destruct (Hnew it Hin Hun) as (e & He & Ht).
        exists e. split; [apply in_or_app; now right | exact Ht].
Qed.

Lemma checkForIntersections_reported (doc : Document) (o o1 : IntersectionObserver.t) :
  _queuedEntries o = [] ->
  _checkForIntersections doc o = (o1, true) ->
  List.map element (_observationTargets o1) = List.map element (_observationTargets o) /\
  (forall item, In item (_observationTargets o1) ->
     exists e, entry item = Some e /\ target e = element item) /\
  (calls o1 = calls o \/
   exists batch, batch <> [] /\ calls o1 = calls o ++ [batch] /\
     forall e, In e batch ->
       exists item, In item (_observationTargets o1) /\ entry item = Some e) /\
  (forall item, In item (_observationTargets o) -> unchecked item = true ->
     exists batch e, calls o1 = calls o ++ [batch] /\ In e batch /\
                     target e = element item).
Proof.
  intros Hq0. unfold _checkForIntersections.
  destruct (checkItems doc o _ _ (_observationTargets o))
    as [[items queued] completed] eqn:Ei.
  destruct completed; [|discriminate].
  destruct (checkItems_reports _ _ _ _ _ _ _ Ei) as (Hel & Hent & Hq & Hnew).
  rewrite Hq0. cbn [app _queuedEntries set_queue].
  destruct queued as [|e q].
  - intros H. injection H as <-. cbn.
    split; [exact Hel|]. split; [exact Hent|]. split; [now left|].
    intros item Hin Hun. destruct (Hnew item Hin Hun) as (e & [] & _).
  - unfold takeRecords. cbn [_queuedEntries set_queue].
    intros H. injection H as <-. cbn.
    split; [exact Hel|]. split; [exact Hent|]. split.
    + right. exists (e :: q). split; [discriminate|]. split; [reflexivity | exact Hq].
    + intros item Hin Hun. destruct (Hnew item Hin Hun) as (e' & He' & Ht).
      exists (e :: q), e'. auto.
Qed.

(** X11. In a document numbered in document order, a check of targets
    none of which is the document node, started with an empty queue,
    returns and leaves the registry watching the same targets, each
    with an entry of its own.  If anything was queued it invoked the
    callback exactly once, with a batch that is not empty, each entry
    of which is the one now stored with its target; and every target
    watched since the previous check is in the batch: the first check
    of a target always reports it. *)
Theorem checkForIntersections_reports (doc : Document) (o : IntersectionObserver.t) :
  wellNumbered doc ->
  (forall item, In item (_observationTargets o) -> element item <> Dom.document doc) ->
  _queuedEntries o = [] ->
  exists o1,
    _checkForIntersections doc o = (o1, true) /\
    List.map element (_observationTargets o1) = List.map element (_observationTargets o) /\
    (forall item, In item (_observationTargets o1) ->
       exists e, entry item = Some e /\ target e = element item) /\
    (calls o1 = calls o \/
     exists batch, batch <> [] /\ calls o1 = calls o ++ [batch] /\
       forall e, In e batch ->
         exists item, In item (_observationTargets o1) /\ entry item = Some e) /\
    (forall item, In item (_observationTargets o) -> unchecked item = true ->
       exists batch e, calls o1 = calls o ++ [batch] /\ In e batch /\
                       target e = element item).
Proof.
  intros Hwn Hok Hq. destruct (checkForIntersections_completes doc o Hwn Hok) as [o1 H1].
  exists o1. split; [exact H1|]. exact (checkForIntersections_reported doc o o1 Hq H1).
Qed.

Lemma watching_targets (item : Item) :
  In item (_observationTargets ExampleDocument.watching) ->
  element item <> Dom.document ExampleDocument.page.
Proof. intros [<- | [<- | []]]; discriminate. Qed.

Lemma checkForIntersections_settles_witness :
  exists o1,
    _checkForIntersections ExampleDocument.page ExampleDocument.watching = (o1, true) /\
    _queuedEntries o1 = [] /\
    _checkForIntersections ExampleDocument.page o1 = (o1, true).
Proof.
  apply checkForIntersections_settles; [apply page_wellNumbered | apply watching_targets].
Defined.

Lemma checkForIntersections_reports_witness :
  exists o1,
    _checkForIntersections ExampleDocument.page ExampleDocument.watching = (o1, true) /\
    List.map element (_observationTargets o1)
    = List.map element (_observationTargets ExampleDocument.watching) /\
    (forall item, In item (_observationTargets o1) ->
       exists e, entry item = Some e /\ target e = element item) /\
    (calls o1 = calls ExampleDocument.watching \/
     exists batch, batch <> [] /\ calls o1 = calls ExampleDocument.watching ++ [batch] /\
       forall e, In e batch ->
         exists item, In item (_observationTargets o1) /\ entry item = Some e) /\
    (forall item, In item (_observationTargets ExampleDocument.watching) ->
       unchecked item = true ->
       exists batch e, calls o1 = calls ExampleDocument.watching ++ [batch] /\
                       In e batch /\ target e = element item).
Proof.
  apply checkForIntersections_reports;
    [apply page_wellNumbered | apply watching_targets | reflexivity].
Defined.

End CheckFacts.

(** ** The registry: a check returns, with ratios in range *)

Section CheckReturns.
Import Registry Geometry Dom IntersectionObserver.
Local Open Scope Q_scope.

Lemma area_within (r t : Rect.t) :
  within r t -> properRect r -> properRect t -> 0 <= area r <= area t.
Proof.
  unfold within, properRect, consistent, area.
  intros (H1 & H2 & H3 & H4) ((Hw & Hh) & Hw0 & Hh0) ((Tw & Th) & Tw0 & Th0).
  assert (Hww : Rect.width r <= Rect.width t) by (rewrite Hw, Tw; lra).
  assert (Hhh : Rect.height r <= Rect.height t) by (rewrite Hh, Th; lra).
  split; [now apply Qmult_le_0_compat|].
  apply Qle_trans with (Rect.width t * Rect.height r).
  - apply Qmult_le_compat_r; assumption.
  - rewrite (Qmult_comm (Rect.width t)), (Qmult_comm (Rect.width t)).
    apply Qmult_le_compat_r; assumption.
Qed.

Lemma entry_ratio_range (target : nat) (t : Rect.t) (rect : option Rect.t) :
  properRect t ->
  (forall r, rect = Some r -> within r t /\ properRect r) ->
  let e := IntersectionObserverEntry target t rect in
  0 <= intersectionRatio e <= 1 /\ (isIntersecting e = false -> intersectionRatio e == 0).
Proof.
  intros Ht Hr. unfold IntersectionObserverEntry. cbn [intersectionRatio isIntersecting].
  destruct (Qeq_bool (Rect.width t * Rect.height t) 0) eqn:E0.
  - destruct rect; split; try (split; discriminate); try discriminate.
  - assert (Hpos : 0 < Rect.width t * Rect.height t).
    { destruct Ht as (_ & Hw & Hh).
      apply Qle_lteq in Hw, Hh.
      destruct Hw as [Hw | Hw]; [destruct Hh as [Hh | Hh]|].
      - rewrite <- (Qmult_0_l (Rect.height t)). now apply Qmult_lt_compat_r.
      - exfalso. apply Qeq_bool_neq in E0. apply E0. rewrite <- Hh. ring.
      - exfalso. apply Qeq_bool_neq in E0. apply E0. rewrite <- Hw. ring. }
    destruct rect as [r|]; cbn [default].
    + destruct (Hr r eq_refl) as [Hin Hp].
      destruct (area_within r t Hin Hp Ht) as [Ha0 Ha1]. unfold area in *.
      split; [|discriminate].
      apply toFixed4_unit. split.
      * apply Qle_shift_div_l; [exact Hpos|]. now rewrite Qmult_0_l.
      * apply Qle_shift_div_r; [exact Hpos|]. now rewrite Qmult_1_l.
    + assert (Hz : toFixed4 (Rect.width getEmptyRect * Rect.height getEmptyRect
                             / (Rect.width t * Rect.height t)) == 0).
      { apply toFixed4_zero. unfold getEmptyRect, Qdiv. cbn [Rect.width Rect.height].
        now rewrite !Qmult_0_l. }
      split; [|intros _; exact Hz]. rewrite Hz. split; discriminate.
Qed.

Lemma checkItem_returns (doc : Document) (o : IntersectionObserver.t)
    (rootRect : option Rect.t) (item : Item) :
  wellNumbered doc ->
  element item <> Dom.document doc ->
  properRect (getBoundingClientRect doc (element item)) ->
  exists e queued,
    checkItem doc o (_rootIsInDom doc o) rootRect item
    = Some (mkItem (element item) (Some e), queued) /\
    0 <= intersectionRatio e <= 1 /\
    (isIntersecting e = false -> intersectionRatio e == 0).
Proof.
  intros Hwn Hdoc Hrect. unfold checkItem.
  destruct (_rootIsInDom doc o && _rootContainsTarget doc o (element item)) eqn:Ein.
  - apply andb_true_iff in Ein. destruct Ein as [Hdom Hcontains].
    unfold _computeTargetAndRootIntersection.
    destruct (String.eqb (display (node doc (element item))) "none").
    + eexists _, _. split; [reflexivity|].
      apply entry_ratio_range; [exact Hrect | discriminate].
    + destruct (walk_starts doc o _ Hwn Hdoc Hdom Hcontains) as (p & Hp & Hlt & Hreach).
      rewrite Hp.
      destruct (clipToAncestors_safe doc (root o) rootRect Hwn (element item) p
                  (getBoundingClientRect doc (element item)) Hlt Hreach)
        as (res & -> & Hres).
      eexists _, _. split; [reflexivity|].
      apply entry_ratio_range; [exact Hrect|].
      intros r ->. destruct (Hres r eq_refl) as (H1 & H2 & H3 & H4 & _).
      split; [exact H1|]. split; auto.
  - eexists _, _. split; [reflexivity|].
    apply entry_ratio_range; [exact Hrect | discriminate].
Qed.

Lemma checkItems_returns (doc : Document) (o : IntersectionObserver.t)
    (rootRect : option Rect.t) (items : list Item) :
  wellNumbered doc ->
  (forall item, In item items ->
     element item <> Dom.document doc /\
     properRect (getBoundingClientRect doc (element item))) ->
  exists items' queued,
    checkItems doc o (_rootIsInDom doc o) rootRect items = (items', queued, true) /\
    forall item e, In item items' -> entry item = Some e ->
      0 <= intersectionRatio e <= 1 /\
      (isIntersecting e = false -> intersectionRatio e == 0).
Proof.
  intros Hwn. induction items as [|item items IH]; intros Hok; cbn [checkItems].
  - eexists _, _. split; [reflexivity|]. intros ? ? [].
  - destruct (Hok item (or_introl eq_refl)) as [Hdoc Hrect].
    destruct (checkItem_returns doc o rootRect item Hwn Hdoc Hrect)
      as (e & q & -> & Hratio).
    destruct IH as (items' & q' & -> & Hall); [intros; apply Hok; now right|].
    eexists _, _. split; [reflexivity|].
    intros it e' [<- | Hin] He; [|eapply Hall; eauto].
    cbn in He. injection He as <-. exact Hratio.
Qed.

(** X12. In a document numbered in document order, a check of targets
    none of which is the document node, and whose rects have the width
    and height of their edges, neither negative, returns without an
    error; and the entry it leaves with each target has a ratio in
    [0, 1], which is [0] when the target does not intersect. *)
Theorem checkForIntersections_returns (doc : Document) (o : IntersectionObserver.t) :
  wellNumbered doc ->
  (forall item, In item (_observationTargets o) ->
     element item <> Dom.document doc /\
     properRect (getBoundingClientRect doc (element item))) ->
  exists o1,
    _checkForIntersections doc o = (o1, true) /\
    forall item e, In item (_observationTargets o1) -> entry item = Some e ->
      0 <= intersectionRatio e <= 1 /\
      (isIntersecting e = false -> intersectionRatio e == 0).
Proof.
  intros Hwn Hok. unfold _checkForIntersections.
  destruct (checkItems_returns doc o
              (if _rootIsInDom doc o then _getRootRect doc o else Some getEmptyRect)
              (_observationTargets o) Hwn Hok) as (items & queued & -> & Hall).
  cbn [_queuedEntries set_queue].
  destruct (_queuedEntries o ++ queued); eexists; (split; [reflexivity | exact Hall]).
Qed.

Lemma checkForIntersections_returns_witness :
  exists o1,
    _checkForIntersections ExampleDocument.page ExampleDocument.watching = (o1, true) /\
    forall item e, In item (_observationTargets o1) -> entry item = Some e ->
      0 <= intersectionRatio e <= 1 /\
      (isIntersecting e = false -> intersectionRatio e == 0).
Proof.
  apply checkForIntersections_returns; [apply page_wellNumbered|].
  intros item [<- | [<- | []]]; (split; [discriminate|]);
    unfold properRect, consistent; vm_compute; repeat split; discriminate.
Defined.

End CheckReturns.

(** ** The registry: its targets and its construction *)

Section RegistryTargets.
Import Registry Geometry Dom IntersectionObserver.
Local Open Scope Q_scope.

Lemma existsb_watched (o : IntersectionObserver.t) (el : nat) :
  existsb (fun item => Nat.eqb (element item) el) (_observationTargets o) = true
  <-> In el (watched o).
Proof.
  unfold watched. rewrite existsb_exists, in_map_iff. split.
  - intros (item & Hin & He). apply Nat.eqb_eq in He. eauto.
  - intros (item & He & Hin). exists item. split; [exact Hin | now apply Nat.eqb_eq].
Qed.

Lemma watched_filter (items : list Item) (el x : nat) :
  In x (List.map element
          (List.filter (fun item => negb (Nat.eqb (element item) el)) items))
  <-> In x (List.map element items) /\ x <> el.
Proof.
  rewrite !in_map_iff. split.
  - intros (item & <- & Hin). apply filter_In in Hin. destruct Hin as [Hin Hne].
    apply negb_true_iff, Nat.eqb_neq in Hne. eauto.
  - intros ((item & <- & Hin) & Hne). exists item. split; [reflexivity|].
    apply filter_In. split; [exact Hin|]. now apply negb_true_iff, Nat.eqb_neq.
Qed.

Lemma NoDup_map_filter (items : list Item) (f : Item -> bool) :
  List.NoDup (List.map element items) ->
  List.NoDup (List.map element (List.filter f items)).
Proof.
  induction items as [|item items IH]; cbn; [auto|].
  intros H. apply List.NoDup_cons_iff in H. destruct H as [Hnot Hnd].
  destruct (f item); cbn; [|auto].
  apply List.NoDup_cons; [|auto].
  intros Hin. apply Hnot. apply in_map_iff in Hin. destruct Hin as (it & He & Hin).
  apply filter_In in Hin. apply in_map_iff. exists it. tauto.
Qed.

Lemma watched_unobserve (el : nat) (o : IntersectionObserver.t) :
  watched (unobserve (Some el) o)
  = List.map element
      (List.filter (fun item => negb (Nat.eqb (element item) el)) (_observationTargets o)).
Proof. unfold unobserve, watched. destruct (List.filter _ _) eqn:E; reflexivity. Qed.

(** X13. On a registry that watches no element twice, [observe] of an
    element returns a registry that watches it, still none twice, and
    is monitoring if the element is new; observing it once more changes
    nothing.  [unobserve] then removes that element and no other.
    After [disconnect] nothing is watched, monitoring has stopped, and
    a check invokes no callback. *)
Theorem observe_unobserve (doc : Document) (o : IntersectionObserver.t) (el : nat) :
  nodeType (node doc el) = 1%nat ->
  List.NoDup (watched o) ->
  _queuedEntries o = [] ->
  exists o1,
    observe doc (Some el) o = Return o1 /\
    List.NoDup (watched o1) /\
    (forall x, In x (watched o1) <-> x = el \/ In x (watched o)) /\
    (~ In el (watched o) -> _monitoringIntersections o1 = true) /\
    observe doc (Some el) o1 = Return o1 /\
    List.NoDup (watched (unobserve (Some el) o1)) /\
    (forall x, In x (watched (unobserve (Some el) o1)) <-> In x (watched o) /\ x <> el) /\
    watched (disconnect o1) = [] /\
    _monitoringIntersections (disconnect o1) = false /\
    _checkForIntersections doc (disconnect o1) = (disconnect o1, true) /\
    calls (disconnect o1) = calls o.
Proof.
  intros Hel Hnd Hq. unfold observe.
  destruct (existsb _ (_observationTargets o)) eqn:Eex.
  - (* already watched *)
    pose proof (proj1 (existsb_watched o el) Eex) as Hin.
    exists o. split; [reflexivity|]. split; [exact Hnd|]. split.
    { intros x. split; [auto|]. intros [-> | H]; assumption. }
    split; [contradiction|]. split; [now rewrite Eex|].
    split; [rewrite watched_unobserve; now apply NoDup_map_filter|].
    split; [intros x; rewrite watched_unobserve; apply watched_filter|]. split; [reflexivity|]. split; [reflexivity|]. split; [|reflexivity].
    unfold _checkForIntersections, disconnect. cbn. rewrite Hq.
    destruct o; cbn in Hq; subst; reflexivity.
  - assert (Hnot : ~ In el (watched o)).
    { intros H. apply existsb_watched in H. congruence. }
    rewrite Hel. cbn [Nat.eqb].
    eexists. split; [reflexivity|].
    assert (Hw : watched (set_monitoring true
                   (set_targets (_observationTargets o ++ [mkItem el None]) o))
                 = watched o ++ [el]).
    { unfold watched. cbn. now rewrite map_app. }
    split.
    { rewrite Hw. apply NoDup_ListNoDup, (proj2 (NoDup_app (watched o) [el])).
      split; [now apply NoDup_ListNoDup|]. split.
      - intros x Hx Hx'. apply list_elem_of_In in Hx, Hx'.
        destruct Hx' as [<- | []]. contradiction.
      - apply NoDup_singleton. }
    split.
    { intros x. rewrite Hw, in_app_iff. cbn. intuition. }
    split; [reflexivity|].
    split.
    { cbn [_observationTargets set_targets set_monitoring].
      rewrite existsb_app. cbn. rewrite Nat.eqb_refl, orb_true_r. reflexivity. }
    assert (Hf : List.filter (fun item => negb (Nat.eqb (element item) el))
                   (_observationTargets o ++ [mkItem el None])
                 = List.filter (fun item => negb (Nat.eqb (element item) el))
                     (_observationTargets o)).
    { rewrite List.filter_app. cbn. rewrite Nat.eqb_refl. cbn. apply app_nil_r. }
    split.
    { rewrite watched_unobserve. cbn [_observationTargets set_targets set_monitoring].
      rewrite Hf. now apply NoDup_map_filter. }
    split.
    { intros x. rewrite watched_unobserve.
      cbn [_observationTargets set_targets set_monitoring]. rewrite Hf.
      apply watched_filter. }
    split; [reflexivity|]. split; [reflexivity|]. split; [|reflexivity].
    unfold _checkForIntersections, disconnect. cbn. rewrite Hq.
    destruct o; cbn in Hq; subst; reflexivity.
Qed.

Lemma observe_unobserve_witness :
  exists o1,
    observe ExampleDocument.page (Some 3%nat) ExampleDocument.watching = Return o1 /\
    List.NoDup (watched o1) /\
    (forall x, In x (watched o1) <-> x = 3%nat \/ In x (watched ExampleDocument.watching)) /\
    (~ In 3%nat (watched ExampleDocument.watching) -> _monitoringIntersections o1 = true) /\
    observe ExampleDocument.page (Some 3%nat) o1 = Return o1 /\
    List.NoDup (watched (unobserve (Some 3%nat) o1)) /\
    (forall x, In x (watched (unobserve (Some 3%nat) o1))
               <-> In x (watched ExampleDocument.watching) /\ x <> 3%nat) /\
    watched (disconnect o1) = [] /\
    _monitoringIntersections (disconnect o1) = false /\
    _checkForIntersections ExampleDocument.page (disconnect o1) = (disconnect o1, true) /\
    calls (disconnect o1) = calls ExampleDocument.watching.
Proof.
  apply observe_unobserve; [reflexivity | | reflexivity].
  cbn. repeat constructor; cbn; intuition discriminate.
Defined.

Lemma filterThresholds_valid (a : list JsValue) :
  forall prev l, filterThresholds prev a = Return l ->
    forall t, In t l -> invalidThreshold t = false.
Proof.
  induction a as [|x a IH]; intros prev l; cbn [filterThresholds].
  - intros H. injection H as <-. intros t [].
  - destruct (invalidThreshold x) eqn:Ex; [discriminate|].
    destruct (filterThresholds (Some x) a) as [rest|] eqn:Er; [|discriminate].
    intros H. injection H as <-. intros t Hin.
    destruct (differsFromPrevious prev x); [destruct Hin as [<- | Hin]|]; eauto.
Qed.

Lemma valid_threshold_range (v : JsValue) (q : Q) :
  invalidThreshold v = false ->
  match v with number x => JsNumber.toQ x | _ => None end = Some q ->
  0 <= q <= 1.
Proof.
  destruct v as [x| |]; [|discriminate..]. cbn [invalidThreshold].
  intros H Hq. apply orb_false_iff in H. destruct H as [H H1].
  apply orb_false_iff in H. destruct H as [_ H0].
  destruct x as [|neg|neg digits exponent]; [discriminate..|].
  unfold JsNumber.lt in H0, H1. rewrite Hq in H0, H1. cbn in H0, H1.
  apply negb_false_iff, Qle_bool_iff in H0, H1.
  split; [exact H0 | exact H1].
Qed.

(** X14. The constructor returns an observer exactly when the callback
    is a function, the root (if any) is an element, the margin string
    parses and the thresholds are valid; the observer then holds at
    least four margins, thresholds that all lie in [0, 1], no target
    and no queued entry, and is not monitoring.  Otherwise it raises,
    checking in that order. *)
Theorem create_validates (doc : Document) (callback : Callback) (options : Options) :
  match create doc callback options with
  | Return o =>
      (exists f, callback = aFunction f /\ _callback o = f) /\
      (forall r, optRoot options = Some r -> nodeType (node doc r) = 1%nat) /\
      root o = optRoot options /\
      _parseRootMargin (optRootMargin options) = Return (_rootMarginValues o) /\
      (4 <= length (_rootMarginValues o))%nat /\
      (forall t, In t (thresholds o) -> 0 <= t <= 1) /\
      _observationTargets o = [] /\ _queuedEntries o = [] /\
      _monitoringIntersections o = false /\ calls o = []
  | Throw message =>
      callback = notAFunction \/
      (exists f, callback = aFunction f) /\
      ((exists r, optRoot options = Some r /\ nodeType (node doc r) <> 1%nat) \/
       (forall r, optRoot options = Some r -> nodeType (node doc r) = 1%nat) /\
       (_parseRootMargin (optRootMargin options) = Throw message \/
        (exists ms, _parseRootMargin (optRootMargin options) = Return ms) /\
        _initThresholds (optThreshold options) = Throw message))
  end.
Proof.
  unfold create. destruct callback as [f|]; [|now left].
  destruct (optRoot options) as [r|] eqn:Er.
  - destruct (Nat.eqb_spec (nodeType (node doc r)) 1) as [Hr | Hr]; cbn [negb].
    + destruct (_parseRootMargin (optRootMargin options)) as [ms|m] eqn:Em.
      * destruct (_initThresholds (optThreshold options)) as [ths|m] eqn:Et.
        -- cbn. split; [eauto|]. split; [intros ? [= <-]; exact Hr|].
           split; [reflexivity|]. split; [reflexivity|].
           split; [exact (proj1 (parseRootMargin_four _ _ Em))|].
           split; [|auto].
           intros t Ht. unfold thresholdValues in Ht.
           apply list_elem_of_In, list_elem_of_omap in Ht.
           destruct Ht as (v & Hv & Hq). apply list_elem_of_In in Hv.
           eapply valid_threshold_range; [|exact Hq].
           unfold _initThresholds in Et. eapply filterThresholds_valid; eauto.
        -- right. split; [eauto|]. right. split; [intros ? [= <-]; exact Hr|].
           right. split; [eauto | reflexivity].
      * right. split; [eauto|]. right. split; [intros ? [= <-]; exact Hr|]. now left.
    + right. split; [eauto|]. left. eauto.
  - destruct (_parseRootMargin (optRootMargin options)) as [ms|m] eqn:Em.
    + destruct (_initThresholds (optThreshold options)) as [ths|m] eqn:Et.
      * cbn. split; [eauto|]. split; [discriminate|].
        split; [reflexivity|]. split; [reflexivity|].
        split; [exact (proj1 (parseRootMargin_four _ _ Em))|].
        split; [|auto].
        intros t Ht. unfold thresholdValues in Ht.
        apply list_elem_of_In, list_elem_of_omap in Ht.
        destruct Ht as (v & Hv & Hq). apply list_elem_of_In in Hv.
        eapply valid_threshold_range; [|exact Hq].
        unfold _initThresholds in Et. eapply filterThresholds_valid; eauto.
      * right. split; [eauto|]. right. split; [discriminate|].
        right. split; [eauto | reflexivity].
    + right. split; [eauto|]. right. split; [discriminate|]. now left.
Qed.

End RegistryTargets.

(** ** The throttle *)

Section ThrottleFacts.
Import Throttle.






End ThrottleFacts.

(** ** The sequencer: what the notifications are made of *)

Section Notifications.
Import Scrollama.

Lemma notifyStepProgress_unfold (el : nat) (p : Q) :
  notifyStepProgress el p
  = (index <- getIndex el ;; guardedCall Callbacks.stepProgress (CallStepProgress index p)).
Proof. reflexivity. Qed.

Lemma notifyStepExit_unfold (el : nat) (d : Direction) :
  notifyStepExit el d
  = (index <- getIndex el ;;
     setStepDirection index d ;;
     setStepPhase index exit ;;
     progressMode <- gets Session.progressMode ;;
     when progressMode
       (match d with
        | down => notifyStepProgress el 1
        | up => notifyStepProgress el 0
        end) ;;
     guardedCall Callbacks.stepExit (CallStepExit index d)).
Proof. reflexivity. Qed.

Lemma notifyContainer_unfold (phase : Phase) :
  notifyContainer phase
  = (direction <- gets Session.direction ;;
     cs <- gets Session.containerState ;;
     _ <- defined cs ;;
     modify (Session.set_containerState (Some (StepState.mk direction (Some phase)))) ;;
     match phase with
     | enter => guardedCall Callbacks.containerEnter (CallContainerEnter direction)
     | exit => guardedCall Callbacks.containerExit (CallContainerExit direction)
     end).
Proof. reflexivity. Qed.

Lemma Direction_eqb_eq (d d' : Direction) : Direction_eqb d d' = true -> d = d'.
Proof. destruct d, d'; (reflexivity || discriminate). Qed.

Lemma preserves_when_true (R : Session.t -> Session.t -> Prop) `{!PreOrder R}
    (b : bool) (m : M unit) :
  (b = true -> preserves R m) -> preserves R (when b m).
Proof. intros H. destruct b; [now apply H | now apply preserves_ret]. Qed.

Context (R : Session.t -> Session.t -> Prop) `{!PreOrder R}.

(** The relation holds across a write to an entry of the state table
    and across the guarded invocation of the progress callback. *)
Hypothesis R_step : forall i x s,
  R s (Session.set_stepStates
         (fmap (M := option) (fun l => <[i := x]> l) (Session.stepStates s)) s).
Hypothesis R_progress : forall i p,
  preserves R (guardedCall Callbacks.stepProgress (CallStepProgress i p)).

Ltac notify_step := first [ solve [auto] | preserve_step ].
Ltac notify := repeat notify_step.

Lemma notifyStepProgress_keeps (el : nat) (p : Q) : preserves R (notifyStepProgress el p).
Proof. rewrite notifyStepProgress_unfold. unfold getIndex. notify. Qed.

Lemma setStepDirection_keeps (i : nat) (d : Direction) : preserves R (setStepDirection i d).
Proof. unfold setStepDirection, stepStateAt. notify. Qed.

Lemma setStepPhase_keeps (i : nat) (p : Phase) : preserves R (setStepPhase i p).
Proof. unfold setStepPhase, stepStateAt. notify. Qed.

(** The notifications made in direction [d], given that the relation
    holds across the guarded invocations of the exit and enter callbacks
    with that direction. *)
Lemma notifyStepExit_keeps (d : Direction) (el : nat) :
  (forall i, preserves R (guardedCall Callbacks.stepExit (CallStepExit i d))) ->
  preserves R (notifyStepExit el d).
Proof.
  intros Hexit.
  pose proof notifyStepProgress_keeps.
  pose proof setStepDirection_keeps.
  pose proof setStepPhase_keeps.
  rewrite notifyStepExit_unfold. unfold getIndex. notify.
Qed.

Lemma notifyStepEnterWith_keeps (d : Direction) (others : nat -> Location -> M unit)
    (el : nat) (check : bool) :
  (forall i el', preserves R (enterTail i el' d)) ->
  (forall i, d = down -> preserves R (others i above)) ->
  (forall i, d = up -> preserves R (others i below)) ->
  preserves R (notifyStepEnterWith others el d check).
Proof.
  intros Htail Habove Hbelow.
  pose proof setStepDirection_keeps.
  pose proof setStepPhase_keeps.
  rewrite notifyStepEnterWith_unfold. unfold getIndex.
  do 4 (apply preserves_bind; [typeclasses eauto | notify | intros ?]).
  apply preserves_bind; [typeclasses eauto | | intros ?].
  { apply preserves_when_true; [typeclasses eauto|]. intros Hb.
    apply andb_true_iff in Hb. destruct Hb as [_ Hb].
    apply Habove. now apply Direction_eqb_eq. }
  apply preserves_bind; [typeclasses eauto | | intros ?].
  { apply preserves_when_true; [typeclasses eauto|]. intros Hb.
    apply andb_true_iff in Hb. destruct Hb as [_ Hb].
    apply Hbelow. now apply Direction_eqb_eq. }
  apply Htail.
Qed.

Lemma notifyOther_keeps (d : Direction) (i : nat) :
  (forall i, preserves R (guardedCall Callbacks.stepExit (CallStepExit i d))) ->
  (forall i el', preserves R (enterTail i el' d)) ->
  preserves R (notifyOther d i).
Proof.
  intros Hexit Htail.
  pose proof (fun el => notifyStepExit_keeps d el Hexit) as Hx.
  assert (Henter : forall el, preserves R (notifyStepEnterWith (fun _ _ => ret tt) el d false)).
  { intros el. apply notifyStepEnterWith_keeps; [exact Htail | |];
      intros; apply preserves_ret; typeclasses eauto. }
  unfold notifyOther, stepStateAt, stepElAt. notify.
Qed.

Lemma notifyStepEnter_keeps (d : Direction) (el : nat) (check : bool) :
  (forall i, preserves R (guardedCall Callbacks.stepExit (CallStepExit i d))) ->
  (forall i el', preserves R (enterTail i el' d)) ->
  preserves R (notifyStepEnter el d check).
Proof.
  intros Hexit Htail. apply notifyStepEnterWith_keeps; [exact Htail | |].
  - intros i ->. unfold notifyOthers. apply preserves_forEach; [typeclasses eauto|].
    intros j. now apply notifyOther_keeps.
  - intros i ->. unfold notifyOthers.
    pose proof (fun j => notifyOther_keeps up j Hexit Htail). notify.
Qed.

(** The handlers: the relation moreover holds across the writes to the
    container state, the recorded offset and the direction, and across
    the guarded invocations of the container callbacks. *)
Hypothesis R_container : forall v s, R s (Session.set_containerState (Some v) s).
Hypothesis R_offset : forall y s, R s (Session.set_previousYOffset y s).
Hypothesis R_direction : forall d s, R s (Session.set_direction (Some d) s).
Hypothesis R_exit : forall i d,
  preserves R (guardedCall Callbacks.stepExit (CallStepExit i d)).
Hypothesis R_enter : forall i el d, preserves R (enterTail i el d).
Hypothesis R_containerEnter : forall dir,
  preserves R (guardedCall Callbacks.containerEnter (CallContainerEnter dir)).
Hypothesis R_containerExit : forall dir,
  preserves R (guardedCall Callbacks.containerExit (CallContainerExit dir)).

Lemma notifyContainer_keeps (p : Phase) : preserves R (notifyContainer p).
Proof. rewrite notifyContainer_unfold. notify. Qed.

Lemma updateDirection_keeps (y : Q) : preserves R (updateDirection y).
Proof. unfold updateDirection. notify. Qed.

Lemma deliver_keeps (h : Handler) (y : Q) (entries : list Registry.Entry) :
  preserves R (runOp (deliver h y entries)).
Proof.
  pose proof (fun el d => notifyStepExit_keeps d el (fun i => R_exit i d)).
  pose proof (fun el d c =>
                notifyStepEnter_keeps d el c (fun i => R_exit i d)
                  (fun i el' => R_enter i el' d)).
  pose proof notifyStepProgress_keeps.
  pose proof notifyContainer_keeps.
  pose proof updateDirection_keeps.
  destruct h; simpl;
    unfold intersectStepAbove, intersectStepBelow, intersectViewportAbove,
      intersectViewportBelow, intersectViewport, intersectStepProgress, intersectTop,
      intersectBottom, containerCrossing, notifyContainerEnter, notifyContainerExit,
      lookupStepState, directionIs, ssEntered, ssNotEntered, ssDirectionIsNot, getIndex;
    notify.
Qed.

End Notifications.
(** ** The sequencer: what a delivery leaves alone *)

Section DeliveryFrame.
Import Scrollama.
Local Open Scope Q_scope.

Lemma guardedCall_effect (slot : Callbacks.t -> option JsCallback) (e : Event)
    (s : Session.t) :
  guardedCall slot e s
  = (if Callbacks.callable (slot (Session.callback s))
     then Session.set_log (Session.log s ++ [e]) s else s, Some tt).
Proof.
  unfold guardedCall, bind, gets, when, emit, modify, ret.
  destruct (Callbacks.callable _); reflexivity.
Qed.

Lemma runOps_cons (op : Op) (ops : list Op) (s : Session.t) :
  runOps (op :: ops) s = runOps ops (fst (runOp op s)).
Proof. reflexivity. Qed.

Lemma deliveries_preserve (R : Session.t -> Session.t -> Prop) `{!PreOrder R} :
  (forall h y es, preserves R (runOp (deliver h y es))) ->
  forall ops s, Forall isDelivery ops -> R s (runOps ops s).
Proof.
  intros Hd ops. induction ops as [|op ops IH]; intros s Hall; [reflexivity|].
  apply Forall_cons_iff in Hall. destruct Hall as [(h & y & es & ->) Hall].
  rewrite runOps_cons. transitivity (fst (runOp (deliver h y es) s)); [apply Hd | now apply IH].
Qed.

#[global] Instance sameConfiguration_preorder : PreOrder sameConfiguration.
Proof.
  split.
  - intros s. unfold sameConfiguration. repeat split; auto.
  - intros a b c Hab Hbc. unfold sameConfiguration in *.
    assert (Hcs : is_Some (Session.containerState a) -> is_Some (Session.containerState c))
      by tauto.
    assert (Hex : Session.triggerOnce a = false -> Session.exclude c = Session.exclude a).
    { intros Ht.
      assert (Hb : Session.triggerOnce b = false) by (rewrite <- Ht; tauto).
      transitivity (Session.exclude b); tauto. }
    repeat match goal with H : _ /\ _ |- _ => destruct H end.
    repeat split; try assumption; congruence.
Qed.

Lemma deliver_sameConfiguration (h : Handler) (y : Q) (es : list Registry.Entry) :
  preserves sameConfiguration (runOp (deliver h y es)).
Proof.
  apply deliver_keeps; try typeclasses eauto.
  - intros i x s. unfold sameConfiguration. cbn. repeat split; auto.
    destruct (Session.stepStates s); cbn; [|reflexivity].
    now rewrite length_insert.
  - intros i p s. rewrite guardedCall_effect. cbn.
    destruct (Callbacks.callable _); [|reflexivity].
    unfold sameConfiguration. cbn. repeat split; auto.
  - intros v s. unfold sameConfiguration. cbn. repeat split; auto.
  - intros v s. unfold sameConfiguration. cbn. repeat split; auto.
  - intros v s. unfold sameConfiguration. cbn. repeat split; auto.
  - intros i d s. rewrite guardedCall_effect. cbn.
    destruct (Callbacks.callable _); [|reflexivity].
    unfold sameConfiguration. cbn. repeat split; auto.
  - intros i el d s. rewrite enterTail_effect. cbn.
    unfold sameConfiguration. cbn. repeat split; auto.
    intros Ht. unfold enterExclude. rewrite Ht, andb_false_r. reflexivity.
  - intros dir s. rewrite guardedCall_effect. cbn.
    destruct (Callbacks.callable _); [|reflexivity].
    unfold sameConfiguration. cbn. repeat split; auto.
  - intros dir s. rewrite guardedCall_effect. cbn.
    destruct (Callbacks.callable _); [|reflexivity].
    unfold sameConfiguration. cbn. repeat split; auto.
Qed.

(** X16. Whatever the observers deliver, and in whatever order, the
    handlers leave the observers, the callbacks, the elements and their
    measurements, the configuration and the index attributes as they
    were; the state table keeps its length, a container state is never
    removed, and without [triggerOnce] no step is ever excluded. *)
Theorem deliveries_sameConfiguration (ops : list Op) (s : Session.t) :
  Forall isDelivery ops -> sameConfiguration s (runOps ops s).
Proof.
  apply deliveries_preserve; [typeclasses eauto|]. apply deliver_sameConfiguration.
Qed.

Lemma deliveries_sameConfiguration_witness :
  sameConfiguration (exampleSession true)
    (runOps [deliver hStepAbove 20 [exampleEntry 11 900 true];
             deliver hStepBelow 5 [exampleEntry 11 300 true]]
       (exampleSession true)).
Proof.
  apply deliveries_sameConfiguration.
  repeat constructor; unfold isDelivery; eauto.
Defined.

#[global] Instance gated_preorder : PreOrder gated.
Proof.
  split.
  - intros s. split; [reflexivity|]. exists []. split; [symmetry; apply app_nil_r|].
    constructor.
  - intros a b c (Hc1 & e1 & Hl1 & Hf1) (Hc2 & e2 & Hl2 & Hf2).
    split; [congruence|]. exists (e1 ++ e2). split.
    + unfold logGrows in *. now rewrite Hl2, Hl1, app_assoc.
    + apply Forall_app. split; [exact Hf1|]. now rewrite <- Hc1.
Qed.

Lemma gated_quiet (s s' : Session.t) :
  Session.callback s' = Session.callback s -> Session.log s' = Session.log s ->
  gated s s'.
Proof.
  intros Hc Hl. split; [exact Hc|]. exists [].
  split; [unfold logGrows; now rewrite Hl, app_nil_r | constructor].
Qed.

Lemma gated_call (slot : Callbacks.t -> option JsCallback) (e : Event) :
  (forall c, Callbacks.callable (slot c) = true -> registered c e) ->
  preserves gated (guardedCall slot e).
Proof.
  intros Hreg s. rewrite guardedCall_effect. cbn.
  destruct (Callbacks.callable _) eqn:E; [|reflexivity].
  split; [reflexivity|]. exists [e]. split; [reflexivity|].
  constructor; [now apply Hreg | constructor].
Qed.

Lemma registered_enterLogAt (s : Session.t) (i pi : nat) (d : Direction) :
  Forall (registered (Session.callback s)) (enterLogAt s i pi d).
Proof.
  unfold enterLogAt, enterCall. apply Forall_app. split.
  - destruct (Callbacks.callable _) eqn:E; [|constructor].
    destruct (bool_decide _); repeat constructor. exact E.
  - destruct (Session.progressMode s); cbn; [|constructor].
    destruct (Callbacks.callable _) eqn:E; repeat constructor. exact E.
Qed.

Lemma deliver_gated (h : Handler) (y : Q) (es : list Registry.Entry) :
  preserves gated (runOp (deliver h y es)).
Proof.
  apply deliver_keeps; try typeclasses eauto;
    try (intros; apply gated_quiet; reflexivity);
    try (intros; apply gated_call; intros c Hc; exact Hc).
  intros i el d s. rewrite enterTail_effect. cbn.
  split; [reflexivity|]. eexists. split; [reflexivity|]. apply registered_enterLogAt.
Qed.

Lemma silent_clear (c : Callbacks.t) : silent (Callbacks.clear c).
Proof.
  unfold silent, Callbacks.clear. cbn.
  destruct (Callbacks.stepEnter c), (Callbacks.stepExit c), (Callbacks.stepProgress c),
    (Callbacks.containerEnter c), (Callbacks.containerExit c); repeat split.
Qed.

Lemma silent_registered (c : Callbacks.t) (e : Event) : silent c -> ~ registered c e.
Proof.
  intros (H1 & H2 & H3 & H4 & H5). destruct e; cbn; congruence || tauto.
Qed.

(** X17. Whatever the observers deliver, the handlers leave the
    callbacks as registered, log no console error and invoke a callback
    only where a function is registered for it; so a session none of
    whose callbacks is a function logs nothing, and [destroy()] leaves
    such a session: after it no delivery invokes anything. *)
Theorem deliveries_gated (ops : list Op) (s : Session.t) :
  Forall isDelivery ops ->
  gated s (runOps ops s) /\
  (silent (Session.callback s) -> Session.log (runOps ops s) = Session.log s) /\
  Session.log (runOps ops (fst (destroy s))) = Session.log s.
Proof.
  intros Hall.
  assert (Hg : forall s0, gated s0 (runOps ops s0)).
  { intros s0. apply deliveries_preserve; [typeclasses eauto | | exact Hall].
    apply deliver_gated. }
  assert (Hs : forall s0, silent (Session.callback s0) ->
                          Session.log (runOps ops s0) = Session.log s0).
  { intros s0 Hsil. destruct (Hg s0) as (_ & evs & Hlog & Hreg).
    destruct evs as [|e evs]; [unfold logGrows in Hlog; now rewrite Hlog, app_nil_r|].
    apply Forall_cons_iff in Hreg. destruct Hreg as [He _].
    now apply silent_registered in He. }
  split; [apply Hg|]. split; [apply Hs|].
  rewrite Hs; [reflexivity|]. cbn. apply silent_clear.
Qed.

Lemma deliveries_gated_witness :
  let ops := [deliver hStepAbove 20 [exampleEntry 11 900 true];
              deliver hStepBelow 5 [exampleEntry 11 300 true]] in
  gated (exampleSession true) (runOps ops (exampleSession true)) /\
  (silent (Session.callback (exampleSession true)) ->
   Session.log (runOps ops (exampleSession true)) = Session.log (exampleSession true)) /\
  Session.log (runOps ops (fst (destroy (exampleSession true))))
  = Session.log (exampleSession true).
Proof.
  apply deliveries_gated. repeat constructor; unfold isDelivery; eauto.
Defined.

End DeliveryFrame.

(** ** The sequencer: what no operation undoes *)

Section Keeps.
Import Scrollama.
Local Open Scope Q_scope.

#[global] Instance keeps_preorder : PreOrder keeps.
Proof.
  split.
  - intros s. unfold keeps. split; [tauto|]. split; [tauto|]. split; [tauto|].
    split; [reflexivity|]. exists []. symmetry. apply app_nil_r.
  - intros a b c (H1 & H2 & H3 & H4 & e1 & H5) (K1 & K2 & K3 & K4 & e2 & K5).
    unfold keeps. split; [tauto|]. split; [tauto|]. split; [tauto|].
    split; [now transitivity (Session.exclude b)|].
    exists (e1 ++ e2). unfold logGrows in *. now rewrite K5, H5, app_assoc.
Qed.

Lemma keeps_fields (s s' : Session.t) :
  (0 <= Session.offsetVal s <= 1 -> 0 <= Session.offsetVal s' <= 1) ->
  (is_Some (Session.direction s) -> is_Some (Session.direction s')) ->
  (Session.isReady s = true -> Session.isReady s' = true) ->
  Session.exclude s ⊆ Session.exclude s' ->
  (exists evs, Session.log s' = Session.log s ++ evs) ->
  keeps s s'.
Proof. unfold keeps, logGrows. tauto. Qed.

Ltac keeps_assign :=
  apply keeps_fields; cbn;
  [ try tauto | try tauto; eauto | try tauto | try reflexivity
  | first [ exists []; symmetry; apply app_nil_r | eexists; reflexivity ] ].

Lemma keeps_call (slot : Callbacks.t -> option JsCallback) (e : Event) :
  preserves keeps (guardedCall slot e).
Proof.
  intros s. rewrite guardedCall_effect. cbn.
  destruct (Callbacks.callable _); [keeps_assign | reflexivity].
Qed.

Lemma deliver_keeps_all (h : Handler) (y : Q) (es : list Registry.Entry) :
  preserves keeps (runOp (deliver h y es)).
Proof.
  apply deliver_keeps; try typeclasses eauto;
    try (intros; apply keeps_call); try (intros; keeps_assign).
  intros i el d s. rewrite enterTail_effect. keeps_assign.
  apply subseteq_enterExclude.
Qed.

Lemma clamp_unit (v : Q) : 0 <= Qmin (Qmax 0 v) 1 <= 1.
Proof.
  split; [apply Q.min_glb; [apply Q.le_max_l | discriminate] | apply Q.le_min_r].
Qed.

Lemma call_keeps (op : Op) :
  (forall h y es, op <> deliver h y es) -> preserves keeps (runOp op).
Proof.
  intros Hcall.
  assert (Hio : preserves keeps updateIO).
  { unfold updateIO, updateTopIO, updateBottomIO, updateStepAboveIO, updateStepBelowIO,
      updateViewportAboveIO, updateViewportBelowIO, updateStepProgressIO,
      mapSteps, observing, stepHeightAt, stepTopAt, createThreshold, setIo, getIo.
    preserve; keeps_assign. }
  assert (Hen : forall b, preserves keeps (handleEnable b)).
  { intros b. unfold handleEnable, setIo.
    repeat first [ exact Hio | preserve_step ]; keeps_assign. }
  assert (Hre : forall host, preserves keeps (handleResize host)).
  { intros host. unfold handleResize.
    repeat first [ exact Hio | preserve_step ]; keeps_assign. }
  assert (Hot : forall x, preserves keeps (offsetTrigger x)).
  { intros x. unfold offsetTrigger. preserve; try keeps_assign.
    intros _. apply clamp_unit. }
  destruct op; simpl;
    try (unfold setup, indexSteps, setupStates, resize, enable, disable, destroy,
           onStepEnter, onStepExit, onStepProgress, onContainerEnter, onContainerExit,
           setCallback, setIo, emit;
         solve [repeat first [ solve [auto] | preserve_step ]; keeps_assign]).
  exfalso. eapply Hcall. reflexivity.
Qed.

(** X18. Over any sequence of method calls and deliveries an offset
    within [0, 1] stays within [0, 1]; a scroll direction, once known,
    is never forgotten; a session that is ready stays ready, also
    across [disable()] and [destroy()]; a step once excluded stays
    excluded, also across a second [setup]; and the log only grows. *)
Theorem runOps_keeps (ops : list Op) (s : Session.t) : keeps s (runOps ops s).
Proof.
  revert s. induction ops as [|op ops IH]; intros s; [reflexivity|].
  rewrite runOps_cons. transitivity (fst (runOp op s)); [|apply IH].
  assert (Hcases : (exists h y es, op = deliver h y es) \/
                   (forall h y es, op <> deliver h y es)).
  { destruct op; try (right; discriminate). left. eauto. }
  destruct Hcases as [(h & y & es & ->) | Hcall];
    [apply deliver_keeps_all | now apply call_keeps].
Qed.

End Keeps.

(** ** The sequencer: the direction of the events *)

Section EventDirection.
Import Scrollama.
Local Open Scope Q_scope.

#[global] Instance inDirection_preorder (dir : option Direction) : PreOrder (inDirection dir).
Proof.
  split.
  - intros s. split; [reflexivity|]. exists []. split; [symmetry; apply app_nil_r|].
    constructor.
  - intros a b c (Hd1 & e1 & Hl1 & Hf1) (Hd2 & e2 & Hl2 & Hf2).
    split; [congruence|]. exists (e1 ++ e2). split.
    + unfold logGrows in *. now rewrite Hl2, Hl1, app_assoc.
    + apply Forall_app. now split.
Qed.

#[global] Instance inOwnDirection_preorder : PreOrder inOwnDirection.
Proof.
  split.
  - intros s. unfold inOwnDirection. reflexivity.
  - intros a b c Hab Hbc. unfold inOwnDirection in *.
    transitivity b; [exact Hab|]. destruct Hab as [Hd _]. now rewrite <- Hd.
Qed.

Lemma inDirection_quiet (dir : option Direction) (s s' : Session.t) :
  Session.direction s' = Session.direction s -> Session.log s' = Session.log s ->
  inDirection dir s s'.
Proof.
  intros Hd Hl. split; [exact Hd|]. exists [].
  split; [unfold logGrows; now rewrite Hl, app_nil_r | constructor].
Qed.

Lemma inDirection_call (dir : option Direction)
    (slot : Callbacks.t -> option JsCallback) (e : Event) :
  carries dir e -> preserves (inDirection dir) (guardedCall slot e).
Proof.
  intros He s. rewrite guardedCall_effect. cbn.
  destruct (Callbacks.callable _); [|reflexivity].
  split; [reflexivity|]. exists [e]. split; [reflexivity|]. repeat constructor. exact He.
Qed.

Lemma carries_enterLogAt (s : Session.t) (i pi : nat) (d : Direction) :
  Forall (carries (Some d)) (enterLogAt s i pi d).
Proof.
  unfold enterLogAt, enterCall. apply Forall_app. split.
  - destruct (Callbacks.callable _); [|constructor].
    destruct (bool_decide _); repeat constructor.
  - destruct (_ && _); repeat constructor.
Qed.

Lemma inDirection_enterTail (d : Direction) (i el : nat) :
  preserves (inDirection (Some d)) (enterTail i el d).
Proof.
  intros s. rewrite enterTail_effect. cbn.
  split; [reflexivity|]. eexists. split; [reflexivity|]. apply carries_enterLogAt.
Qed.

Lemma inDirection_step (dir : option Direction) (i : nat) (x : StepState.t)
    (s : Session.t) :
  inDirection dir s
    (Session.set_stepStates
       (fmap (M := option) (fun l => <[i := x]> l) (Session.stepStates s)) s).
Proof. now apply inDirection_quiet. Qed.

Lemma notifyStepExit_direction (d : Direction) (el : nat) :
  preserves (inDirection (Some d)) (notifyStepExit el d).
Proof.
  apply notifyStepExit_keeps; try typeclasses eauto.
  - apply inDirection_step.
  - intros i p. now apply inDirection_call.
  - intros i. now apply inDirection_call.
Qed.

Lemma notifyStepEnter_direction (d : Direction) (el : nat) (check : bool) :
  preserves (inDirection (Some d)) (notifyStepEnter el d check).
Proof.
  apply notifyStepEnter_keeps; try typeclasses eauto.
  - apply inDirection_step.
  - intros i p. now apply inDirection_call.
  - intros i. now apply inDirection_call.
  - intros i el'. apply inDirection_enterTail.
Qed.

Lemma notifyStepProgress_direction (dir : option Direction) (el : nat) (p : Q) :
  preserves (inDirection dir) (notifyStepProgress el p).
Proof.
  rewrite notifyStepProgress_unfold. unfold getIndex.
  apply preserves_bind; [typeclasses eauto | apply preserves_gets; typeclasses eauto|].
  intros i. now apply inDirection_call.
Qed.

Lemma notifyContainer_direction (p : Phase) : preserves inOwnDirection (notifyContainer p).
Proof.
  intros s. rewrite notifyContainer_unfold.
  unfold bind, gets, defined, modify, ret, throw.
  destruct (Session.containerState s) as [cs|]; cbn; [|reflexivity].
  destruct p; rewrite guardedCall_effect; cbn;
    (destruct (Callbacks.callable _); cbn;
     [ split; [reflexivity|]; eexists; split; [reflexivity|]; repeat constructor
     | now apply inDirection_quiet ]).
Qed.

(** Turning the guarded calls of a handler body into abstract
    computations that keep the direction they are called with. *)
Ltac abstract_calls :=
  repeat match goal with
         | |- context [notifyStepEnter ?t ?d ?c] =>
             let m := fresh "m" in
             let H := fresh "Hm" in
             pose proof (notifyStepEnter_direction d t c) as H;
             set (m := notifyStepEnter t d c) in *; clearbody m
         | |- context [notifyStepExit ?t ?d] =>
             let m := fresh "m" in
             let H := fresh "Hm" in
             pose proof (notifyStepExit_direction d t) as H;
             set (m := notifyStepExit t d) in *; clearbody m
         end.

Ltac crunch s :=
  repeat first
    [ reflexivity
    | match goal with
      | |- context [match ?x with _ => _ end] =>
          lazymatch x with
          | context [match _ with _ => _ end] => fail
          | _ => destruct x eqn:?; cbn
          end
      end ];
  repeat match goal with
         | H : _ && _ = true |- _ => apply andb_true_iff in H; destruct H
         | H : Direction_eqb _ _ = true |- _ => apply Direction_eqb_eq in H; subst
         end;
  try discriminate;
  try match goal with
      | H : preserves (inDirection (Some ?d)) ?m, Hd : Session.direction s = Some ?d
        |- inOwnDirection s (fst (?m s)) =>
          unfold inOwnDirection; rewrite Hd; apply H
      end.

Lemma stepAbove_direction (y : Q) (es : list Registry.Entry) :
  preserves inOwnDirection
    (forEach es (fun entry =>
       let isIntersecting := Registry.isIntersecting entry in
       let target := Registry.target entry in
       let bottom := Rect.bottom (Registry.boundingClientRect entry) in
       let height := Rect.height (Registry.boundingClientRect entry) in
       offsetMargin <- gets Session.offsetMargin ;;
       let bottomAdjusted := (bottom - offsetMargin)%Q in
       index <- getIndex target ;;
       ss <- lookupStepState index ;;
       isDown <- directionIs down ;;
       isUp <- directionIs up ;;
       when (Qle_bool (- ZERO_MOE) bottomAdjusted)
         (c1 <- andThen (isIntersecting && isDown) (ssNotEntered ss) ;;
          if c1 then notifyStepEnter target down true
          else
            c2 <- andThen (negb isIntersecting && isUp) (ssEntered ss) ;;
            if c2 then notifyStepExit target up
            else
              c3 <- andThen (negb isIntersecting && Qle_bool height bottomAdjusted
                             && isDown) (ssEntered ss) ;;
              when c3 (notifyStepExit target down)))).
Proof.
  apply preserves_forEach; [typeclasses eauto|]. intros entry s. cbv zeta.
  abstract_calls.
  unfold getIndex, lookupStepState, directionIs, andThen, ssNotEntered, ssEntered,
    bind, gets, defined, when, ret, throw. cbn.
  crunch s.
Qed.

Lemma stepBelow_direction (y : Q) (es : list Registry.Entry) :
  preserves inOwnDirection
    (forEach es (fun entry =>
       let isIntersecting := Registry.isIntersecting entry in
       let target := Registry.target entry in
       let bottom := Rect.bottom (Registry.boundingClientRect entry) in
       let height := Rect.height (Registry.boundingClientRect entry) in
       offsetMargin <- gets Session.offsetMargin ;;
       let bottomAdjusted := (bottom - offsetMargin)%Q in
       index <- getIndex target ;;
       ss <- lookupStepState index ;;
       isDown <- directionIs down ;;
       isUp <- directionIs up ;;
       c1 <- andThen (Qle_bool (- ZERO_MOE) bottomAdjusted
                      && Registry.Qlt_bool bottomAdjusted height
                      && isIntersecting && isUp) (ssNotEntered ss) ;;
       if c1 then notifyStepEnter target up true
       else
         c2 <- andThen (Qle_bool bottomAdjusted ZERO_MOE && negb isIntersecting
                        && isDown) (ssEntered ss) ;;
         when c2 (notifyStepExit target down))).
Proof.
  apply preserves_forEach; [typeclasses eauto|]. intros entry s. cbv zeta.
  abstract_calls.
  unfold getIndex, lookupStepState, directionIs, andThen, ssNotEntered, ssEntered,
    bind, gets, defined, when, ret, throw. cbn.
  crunch s.
Qed.

Lemma viewport_direction (d : Direction) (es : list Registry.Entry) :
  preserves inOwnDirection
    (forEach es (fun entry =>
       let isIntersecting := Registry.isIntersecting entry in
       let target := Registry.target entry in
       index <- getIndex target ;;
       ss <- lookupStepState index ;;
       isD <- directionIs d ;;
       c1 <- andThen (isIntersecting && isD) (ssNotEntered ss) ;;
       c <- andThen c1 (ssDirectionIsNot d ss) ;;
       when c (notifyStepEnter target d true ;; notifyStepExit target d))).
Proof.
  apply preserves_forEach; [typeclasses eauto|]. intros entry s. cbv zeta.
  assert (Hm : preserves (inDirection (Some d))
                 (notifyStepEnter (Registry.target entry) d true ;;
                  notifyStepExit (Registry.target entry) d)).
  { apply preserves_bind; [typeclasses eauto | apply notifyStepEnter_direction|].
    intros _. apply notifyStepExit_direction. }
  set (m := (notifyStepEnter (Registry.target entry) d true ;;
             notifyStepExit (Registry.target entry) d)) in *.
  clearbody m.
  unfold getIndex, lookupStepState, directionIs, andThen, ssNotEntered, ssDirectionIsNot,
    bind at 1 2 3 4 5 6 7, gets, defined, when, ret, throw. cbn.
  crunch s.
Qed.

Lemma progress_direction (es : list Registry.Entry) :
  preserves inOwnDirection
    (forEach es (fun entry =>
       let bottom := Rect.bottom (Registry.boundingClientRect entry) in
       offsetMargin <- gets Session.offsetMargin ;;
       let bottomAdjusted := (bottom - offsetMargin)%Q in
       when (Registry.isIntersecting entry && Qle_bool (- ZERO_MOE) bottomAdjusted)
         (notifyStepProgress (Registry.target entry)
            (toFixed3 (Registry.intersectionRatio entry))))).
Proof.
  apply preserves_forEach; [typeclasses eauto|]. intros entry s. cbv zeta.
  unfold bind, gets. cbn.
  destruct (_ && _); cbn; [|reflexivity].
  apply notifyStepProgress_direction.
Qed.

Lemma containerCrossing_direction (b : bool) : preserves inOwnDirection (containerCrossing b).
Proof.
  pose proof notifyContainer_direction.
  unfold containerCrossing, notifyContainerEnter, notifyContainerExit.
  repeat first [ solve [auto] | preserve_step ].
Qed.

Lemma updateDirection_effect (y : Q) (s : Session.t) :
  updateDirection y s
  = (Session.set_previousYOffset y
       (if Registry.Qlt_bool (Session.previousYOffset s) y
        then Session.set_direction (Some down) s
        else if Registry.Qlt_bool y (Session.previousYOffset s)
             then Session.set_direction (Some up) s
             else s), Some tt).
Proof.
  unfold updateDirection, bind, gets, modify, ret.
  destruct (Registry.Qlt_bool (Session.previousYOffset s) y); [reflexivity|].
  destruct (Registry.Qlt_bool y (Session.previousYOffset s)); reflexivity.
Qed.

Lemma handler_direction (h : Handler) (y : Q) (es : list Registry.Entry) (s : Session.t) :
  inOwnDirection (fst (updateDirection y s)) (fst (runOp (deliver h y es) s)).
Proof.
  pose proof containerCrossing_direction as Hc.
  destruct h; cbn [runOp];
    unfold intersectStepAbove, intersectStepBelow, intersectViewportAbove,
      intersectViewportBelow, intersectViewport, intersectStepProgress, intersectTop,
      intersectBottom;
    unfold bind at 1; rewrite updateDirection_effect; cbn [fst];
    match goal with |- inOwnDirection ?x _ => generalize x end.
  - apply (stepAbove_direction y).
  - apply (stepBelow_direction y).
  - apply viewport_direction.
  - apply viewport_direction.
  - apply progress_direction.
  - change (preserves inOwnDirection
              (entry <- defined (head es) ;;
               when (Registry.Qlt_bool (- ZERO_MOE)
                       (Rect.bottom (Registry.boundingClientRect entry)))
                 (containerCrossing (Registry.isIntersecting entry)))).
    repeat first [ solve [auto] | preserve_step ].
  - change (preserves inOwnDirection
              (entry <- defined (head es) ;;
               when (Registry.Qlt_bool (Rect.top (Registry.boundingClientRect entry))
                       ZERO_MOE)
                 (containerCrossing (Registry.isIntersecting entry)))).
    repeat first [ solve [auto] | preserve_step ].
Qed.

(** X19. Every handler first brings the scroll direction up to date:
    down when the page offset grew since the previous delivery, up when
    it shrank, unchanged when it is the same.  It then leaves that
    direction alone, and every step or container event it logs reports
    exactly that direction, also the events synthesized for skipped
    steps. *)
Theorem deliver_direction (h : Handler) (y : Q) (es : list Registry.Entry)
    (s : Session.t) :
  let s' := fst (runOp (deliver h y es) s) in
  Session.direction s'
  = (if Registry.Qlt_bool (Session.previousYOffset s) y then Some down
     else if Registry.Qlt_bool y (Session.previousYOffset s) then Some up
          else Session.direction s) /\
  exists evs, Session.log s' = Session.log s ++ evs /\
              Forall (carries (Session.direction s')) evs.
Proof.
  cbv zeta. destruct (handler_direction h y es s) as (Hd & evs & Hlog & Hall).
  rewrite updateDirection_effect in Hd, Hlog, Hall. cbn [fst] in Hd, Hlog, Hall.
  assert (Hd0 : Session.direction (fst (runOp (deliver h y es) s))
                = (if Registry.Qlt_bool (Session.previousYOffset s) y then Some down
                   else if Registry.Qlt_bool y (Session.previousYOffset s) then Some up
                        else Session.direction s)).
  { rewrite Hd. cbn. destruct (Registry.Qlt_bool (Session.previousYOffset s) y);
      [reflexivity|]. destruct (Registry.Qlt_bool y (Session.previousYOffset s)); reflexivity. }
  split; [exact Hd0|]. exists evs. split.
  - unfold logGrows in Hlog. rewrite Hlog. f_equal. cbn.
    destruct (Registry.Qlt_bool (Session.previousYOffset s) y); [reflexivity|].
    destruct (Registry.Qlt_bool y (Session.previousYOffset s)); reflexivity.
  - rewrite Hd. exact Hall.
Qed.

End EventDirection.

(** ** The sequencer: deliveries that do not raise *)

Section Returns.
Import Scrollama.

Context (I : Session.t -> Prop).

Lemma returns_ret {A : Type} (Q : A -> Prop) (a : A) : Q a -> returns I Q (ret a).
Proof. intros HQ s Hs. exists s, a. repeat split; assumption. Qed.

Lemma returns_gets {A : Type} (Q : A -> Prop) (f : Session.t -> A) :
  (forall s, I s -> Q (f s)) -> returns I Q (gets f).
Proof. intros HQ s Hs. exists s, (f s). repeat split; auto. Qed.

Lemma returns_modify (f : Session.t -> Session.t) :
  (forall s, I s -> I (f s)) -> returns I anything (modify f).
Proof. intros Hf s Hs. exists (f s), tt. repeat split; auto. Qed.

Lemma returns_defined {A : Type} (Q : A -> Prop) (o : option A) :
  (exists a, o = Some a /\ Q a) -> returns I Q (defined o).
Proof. intros (a & -> & HQ) s Hs. exists s, a. repeat split; auto. Qed.

Lemma returns_bind {A B : Type} (P : A -> Prop) (Q : B -> Prop) (m : M A) (k : A -> M B) :
  returns I P m -> (forall a, P a -> returns I Q (k a)) -> returns I Q (bind m k).
Proof.
  intros Hm Hk s Hs. destruct (Hm s Hs) as (s1 & a & Hr & Hs1 & Ha).
  destruct (Hk a Ha s1 Hs1) as (s2 & b & Hr2 & Hs2 & Hb).
  exists s2, b. split; [eapply runs_bind; eauto | auto].
Qed.

Lemma returns_when (b : bool) (m : M unit) :
  returns I anything m -> returns I anything (when b m).
Proof. intros Hm. destruct b; [exact Hm | now apply returns_ret]. Qed.

Lemma returns_andThen (a : bool) (b : M bool) :
  returns I anything b -> returns I anything (andThen a b).
Proof. intros Hb. destruct a; [exact Hb | now apply returns_ret]. Qed.

Lemma returns_forEach {A : Type} (l : list A) (f : A -> M unit) :
  (forall x, In x l -> returns I anything (f x)) -> returns I anything (forEach l f).
Proof.
  induction l as [|x l IH]; intros Hf; cbn [forEach]; [now apply returns_ret|].
  eapply returns_bind; [apply Hf; now left|]. intros _ _.
  apply IH. intros y Hy. apply Hf. now right.
Qed.

End Returns.

Section FittedSessions.
Import Scrollama.
Local Open Scope nat_scope.

Variable n : nat.

Lemma fitted_quiet (s s' : Session.t) :
  Session.stepEl s' = Session.stepEl s ->
  fmap (M := option) length (Session.stepStates s')
  = fmap (M := option) length (Session.stepStates s) ->
  (is_Some (Session.containerState s) -> is_Some (Session.containerState s')) ->
  Session.dataScrollamaIndex s' = Session.dataScrollamaIndex s ->
  fitted n s -> fitted n s'.
Proof.
  intros Hel Hst Hcs Hat (Hn & (els & Hels & Hle) & (sts & Hsts & Hlen) & Hc & Hall).
  split; [exact Hn|]. split; [exists els; split; congruence|]. split.
  - rewrite Hsts in Hst. destruct (Session.stepStates s') as [sts'|]; [|discriminate].
    cbn in Hst. injection Hst as Hst. exists sts'. split; [reflexivity | congruence].
  - split; [auto | now rewrite Hat].
Qed.

Lemma fits_getIndex (el : nat) : returns (fitted n) (fun i => i < n) (getIndex el).
Proof.
  apply returns_gets. intros s (Hn & _ & _ & _ & Hall).
  destruct (Session.dataScrollamaIndex s !! el) as [i|] eqn:E; cbn; [|exact Hn].
  exact (Hall el i E).
Qed.

Lemma fits_stepStateAt (i : nat) : i < n -> returns (fitted n) anything (stepStateAt i).
Proof.
  intros Hi s Hs. pose proof Hs as (_ & _ & (sts & Hsts & Hlen) & _).
  destruct (lookup_lt_is_Some_2 sts i) as [ss Hss]; [now rewrite Hlen|].
  exists s, ss. split; [|split; [exact Hs | exact Logic.I]].
  now apply (runs_stepStateAt s sts).
Qed.

Lemma fits_stepElAt (i : nat) : i < n -> returns (fitted n) anything (stepElAt i).
Proof.
  intros Hi s Hs. pose proof Hs as (_ & (els & Hels & Hle) & _).
  destruct (lookup_lt_is_Some_2 els i) as [el Hel]; [lia|].
  exists s, el. split; [|split; [exact Hs | exact Logic.I]].
  now apply (runs_stepElAt s els).
Qed.

Lemma fitted_step (i : nat) (x : StepState.t) (s : Session.t) :
  fitted n s ->
  fitted n (Session.set_stepStates
              (fmap (M := option) (fun l => <[i := x]> l) (Session.stepStates s)) s).
Proof.
  apply fitted_quiet; cbn; auto.
  destruct (Session.stepStates s); cbn; [|reflexivity]. now rewrite length_insert.
Qed.

Lemma fits_setStepDirection (i : nat) (d : Direction) :
  i < n -> returns (fitted n) anything (setStepDirection i d).
Proof.
  intros Hi. unfold setStepDirection.
  eapply returns_bind; [now apply fits_stepStateAt|]. intros ss _.
  apply returns_modify. intros s. apply fitted_step.
Qed.

Lemma fits_setStepPhase (i : nat) (p : Phase) : i < n -> returns (fitted n) anything (setStepPhase i p).
Proof.
  intros Hi. unfold setStepPhase.
  eapply returns_bind; [now apply fits_stepStateAt|]. intros ss _.
  apply returns_modify. intros s. apply fitted_step.
Qed.

Lemma fits_guardedCall (slot : Callbacks.t -> option JsCallback) (e : Event) :
  returns (fitted n) anything (guardedCall slot e).
Proof.
  intros s Hs. unfold runs. rewrite guardedCall_effect.
  eexists _, tt. split; [reflexivity|]. split; [|exact Logic.I].
  destruct (Callbacks.callable _); [|exact Hs].
  revert Hs. apply fitted_quiet; cbn; auto.
Qed.

Lemma fits_notifyStepProgress (el : nat) (p : Q) : returns (fitted n) anything (notifyStepProgress el p).
Proof.
  rewrite notifyStepProgress_unfold.
  eapply returns_bind; [apply fits_getIndex|]. intros i _. apply fits_guardedCall.
Qed.

Lemma fits_notifyStepExit (el : nat) (d : Direction) : returns (fitted n) anything (notifyStepExit el d).
Proof.
  rewrite notifyStepExit_unfold.
  eapply returns_bind; [apply fits_getIndex|]. intros i Hi.
  eapply returns_bind; [now apply fits_setStepDirection|]. intros _ _.
  eapply returns_bind; [now apply fits_setStepPhase|]. intros _ _.
  eapply returns_bind; [apply returns_gets with (Q := anything); now intros|].
  intros pm _.
  eapply returns_bind.
  { apply returns_when. destruct d; apply fits_notifyStepProgress. }
  intros _ _. apply fits_guardedCall.
Qed.

Lemma fits_enterTail (i el : nat) (d : Direction) : returns (fitted n) anything (enterTail i el d).
Proof.
  intros s Hs. unfold runs. rewrite enterTail_effect.
  eexists _, tt. split; [reflexivity|]. split; [|exact Logic.I].
  revert Hs. apply fitted_quiet; cbn; auto.
Qed.

Lemma fits_notifyStepEnterWith (others : nat -> Location -> M unit) (el : nat)
    (d : Direction) (check : bool) :
  (forall i l, i < n -> returns (fitted n) anything (others i l)) ->
  returns (fitted n) anything (notifyStepEnterWith others el d check).
Proof.
  intros Hothers. rewrite notifyStepEnterWith_unfold.
  eapply returns_bind; [apply fits_getIndex|]. intros i Hi.
  eapply returns_bind; [now apply fits_setStepDirection|]. intros _ _.
  eapply returns_bind; [now apply fits_setStepPhase|]. intros _ _.
  eapply returns_bind; [apply returns_gets with (Q := anything); now intros|].
  intros po _.
  eapply returns_bind; [apply returns_when; now apply Hothers|]. intros _ _.
  eapply returns_bind; [apply returns_when; now apply Hothers|]. intros _ _.
  apply fits_enterTail.
Qed.

Lemma fits_notifyOther (d : Direction) (i : nat) : i < n -> returns (fitted n) anything (notifyOther d i).
Proof.
  intros Hi. unfold notifyOther.
  eapply returns_bind; [now apply fits_stepStateAt|]. intros ss _.
  eapply returns_bind.
  { apply returns_when. eapply returns_bind; [now apply fits_stepElAt|].
    intros el _. apply fits_notifyStepExit. }
  intros _ _.
  eapply returns_bind; [now apply fits_stepStateAt|]. intros ss' _.
  apply returns_when.
  eapply returns_bind; [now apply fits_stepElAt|]. intros el _.
  eapply returns_bind.
  { apply fits_notifyStepEnterWith. intros j l _. now apply returns_ret. }
  intros _ _.
  eapply returns_bind; [now apply fits_stepElAt|]. intros el' _.
  apply fits_notifyStepExit.
Qed.

Lemma fits_notifyOthers (index : nat) (location : Location) :
  index < n -> returns (fitted n) anything (notifyOthers index location).
Proof.
  intros Hi. destruct location; cbn [notifyOthers].
  - apply returns_forEach. intros j Hj. apply fits_notifyOther.
    apply in_seq in Hj. lia.
  - eapply returns_bind.
    { apply returns_gets with (Q := fun sts => exists l, sts = Some l /\ length l = n).
      intros s (_ & _ & Hsts & _). exact Hsts. }
    intros sts (l & -> & Hlen).
    eapply returns_bind; [apply returns_defined with (Q := fun l' => l' = l); eauto|].
    intros l' ->.
    apply returns_forEach. intros j Hj. apply fits_notifyOther.
    apply in_rev, in_seq in Hj. lia.
Qed.

Lemma fits_notifyStepEnter (el : nat) (d : Direction) (check : bool) :
  returns (fitted n) anything (notifyStepEnter el d check).
Proof. apply fits_notifyStepEnterWith. intros i l Hi. now apply fits_notifyOthers. Qed.

Lemma fits_notifyContainer (p : Phase) : returns (fitted n) anything (notifyContainer p).
Proof.
  rewrite notifyContainer_unfold.
  eapply returns_bind; [apply returns_gets with (Q := anything); now intros|].
  intros dir _.
  eapply returns_bind.
  { apply returns_gets with (Q := fun cs => is_Some cs). intros s (_ & _ & _ & Hc & _).
    exact Hc. }
  intros cs [c ->].
  eapply returns_bind; [apply returns_defined with (Q := anything); eexists; split; [reflexivity | exact Logic.I]|].
  intros _ _.
  eapply returns_bind.
  { apply returns_modify. intros s. apply fitted_quiet; cbn; eauto. }
  intros _ _. destruct p; apply fits_guardedCall.
Qed.

Lemma fits_updateDirection (y : Q) : returns (fitted n) anything (updateDirection y).
Proof.
  unfold updateDirection.
  eapply returns_bind; [apply returns_gets with (Q := anything); now intros|].
  intros prev _.
  eapply returns_bind.
  { destruct (Registry.Qlt_bool prev y);
      [|destruct (Registry.Qlt_bool y prev)];
      first [ apply returns_modify; intros s; apply fitted_quiet; cbn; auto
            | now apply returns_ret ]. }
  intros _ _. apply returns_modify. intros s. apply fitted_quiet; cbn; auto.
Qed.

Lemma fits_lookupStepState (i : nat) :
  i < n -> returns (fitted n) (fun ss : option StepState.t => is_Some ss) (lookupStepState i).
Proof.
  intros Hi. unfold lookupStepState.
  eapply returns_bind.
  { apply returns_gets with (Q := fun sts => exists l, sts = Some l /\ length l = n).
    intros s (_ & _ & Hsts & _). exact Hsts. }
  intros sts (l & -> & Hlen).
  eapply returns_bind; [apply returns_defined with (Q := fun l' => l' = l); eauto|].
  intros l' ->. apply returns_ret. apply lookup_lt_is_Some_2. lia.
Qed.

Lemma fits_directionIs (d : Direction) : returns (fitted n) anything (directionIs d).
Proof.
  unfold directionIs.
  eapply returns_bind; [apply returns_gets with (Q := anything); now intros|].
  intros cur _. now apply returns_ret.
Qed.

Lemma fits_test (f : StepState.t -> bool) (ss : option StepState.t) :
  is_Some ss -> returns (fitted n) anything (x <- defined ss ;; ret (f x)).
Proof.
  intros [x ->].
  eapply returns_bind; [apply returns_defined with (Q := anything); eexists; split; [reflexivity | exact Logic.I]|].
  intros y _. now apply returns_ret.
Qed.

Ltac fits_call :=
  lazymatch goal with
  | |- returns _ _ (notifyStepEnter _ _ _) => apply fits_notifyStepEnter
  | |- returns _ _ (notifyStepExit _ _) => apply fits_notifyStepExit
  | |- returns _ _ (notifyStepProgress _ _) => apply fits_notifyStepProgress
  | |- returns _ _ (notifyContainer _) => apply fits_notifyContainer
  | |- returns _ _ (getIndex _) => apply fits_getIndex
  | |- returns _ _ (directionIs _) => apply fits_directionIs
  | |- returns _ _ (lookupStepState _) => apply fits_lookupStepState; assumption
  | |- returns _ _ (gets _) => apply returns_gets with (Q := anything); now intros
  | |- returns _ _ (bind (defined _) (fun x => ret _)) => apply fits_test; assumption
  | |- returns _ _ (ret _) => now apply returns_ret
  end.

Ltac fits_step :=
  lazymatch goal with
  | |- returns _ _ (when _ _) => apply returns_when
  | |- returns _ _ (andThen _ _) => apply returns_andThen
  | |- returns _ _ (if ?b then _ else _) => destruct b
  | |- returns _ _ (bind (defined _) (fun x => ret _)) => fits_call
  | |- returns _ _ (bind _ _) => eapply returns_bind; [ | intros ? ? ]
  | |- _ => fits_call
  end.

Lemma fits_deliver (h : Handler) (y : Q) (es : list Registry.Entry) :
  readable (deliver h y es) -> returns (fitted n) anything (runOp (deliver h y es)).
Proof.
  intros Hes.
  destruct h; cbn [runOp];
    unfold intersectStepAbove, intersectStepBelow, intersectViewportAbove,
      intersectViewportBelow, intersectViewport, intersectStepProgress, intersectTop,
      intersectBottom, containerCrossing, notifyContainerEnter, notifyContainerExit,
      ssEntered, ssNotEntered, ssDirectionIsNot;
    (eapply returns_bind; [apply fits_updateDirection | intros _ _]);
    try (apply returns_forEach; intros entry _; cbv zeta; repeat fits_step).
  - cbn in Hes. destruct es as [|entry es]; [congruence|]. cbn [head].
    eapply returns_bind; [apply returns_defined with (Q := anything); eexists; split; [reflexivity | exact Logic.I]|].
    intros e _. apply returns_when. destruct (Registry.isIntersecting e); [fits_step|].
    eapply returns_bind.
    { apply returns_gets with (Q := fun cs => is_Some cs). intros s (_ & _ & _ & Hc & _).
      exact Hc. }
    intros cs [c ->].
    eapply returns_bind; [apply returns_defined with (Q := anything); eexists; split; [reflexivity | exact Logic.I]|].
    intros x _. repeat fits_step.
  - cbn in Hes. destruct es as [|entry es]; [congruence|]. cbn [head].
    eapply returns_bind; [apply returns_defined with (Q := anything); eexists; split; [reflexivity | exact Logic.I]|].
    intros e _. apply returns_when. destruct (Registry.isIntersecting e); [fits_step|].
    eapply returns_bind.
    { apply returns_gets with (Q := fun cs => is_Some cs). intros s (_ & _ & _ & Hc & _).
      exact Hc. }
    intros cs [c ->].
    eapply returns_bind; [apply returns_defined with (Q := anything); eexists; split; [reflexivity | exact Logic.I]|].
    intros x _. repeat fits_step.
Qed.

End FittedSessions.

Section DeliveriesReturn.
Import Scrollama.
Local Open Scope nat_scope.

(** X20. On a session whose tables fit its steps, as [setup] leaves
    it, no delivery raises: whatever entries a handler is given, for
    whatever targets, it returns, and it leaves the tables fitting, so
    the next delivery returns as well.  The container handlers read the
    first entry of the batch, which an observer never delivers empty. *)
Theorem deliver_returns (n : nat) (h : Handler) (y : Q) (es : list Registry.Entry)
    (s : Session.t) :
  fitted n s -> readable (deliver h y es) ->
  exists s', runOp (deliver h y es) s = (s', Some tt) /\ fitted n s'.
Proof.
  intros Hs Hes. destruct (fits_deliver n h y es Hes s Hs) as (s' & [] & Hr & Hs' & _).
  exists s'. split; [exact Hr | exact Hs'].
Qed.

Lemma exampleSession_fitted : fitted 2 (exampleSession true).
Proof.
  split; [lia|].
  split; [exists [10; 11]; split; [vm_compute; reflexivity | cbn; lia]|].
  split; [exists exampleStates; split; [vm_compute; reflexivity | reflexivity]|].
  split; [exists StepState.initial; vm_compute; reflexivity|].
  apply (bool_decide_unpack _). vm_compute. exact Logic.I.
Qed.

Lemma deliver_returns_witness :
  exists s',
    runOp (deliver hStepAbove 20 [exampleEntry 11 900 true]) (exampleSession true)
    = (s', Some tt) /\ fitted 2 s'.
Proof. apply deliver_returns; [apply exampleSession_fitted | exact Logic.I]. Defined.

End DeliveriesReturn.

(** ** The sequencer: the observers it creates *)

Section ObserverFacts.
Import Scrollama.
Local Open Scope Q_scope.

Lemma mapIndexed_values (f : nat -> nat -> M Observer.t)
    (g : nat -> nat -> option Observer.t) (s : Session.t) (l : list nat) :
  forall i,
    (forall j x, l !! j = Some x -> f x (i + j)%nat s = (s, g x (i + j)%nat)) ->
    mapIndexed f i l s = (s, eachStep g i l).
Proof.
  induction l as [|x l IH]; intros i Hf; cbn [mapIndexed eachStep]; [reflexivity|].
  unfold bind at 1. pose proof (Hf 0%nat x eq_refl) as H0. rewrite Nat.add_0_r in H0.
  rewrite H0. destruct (g x i) as [o|]; [|reflexivity].
  unfold bind at 1. rewrite (IH (S i)).
  - destruct (eachStep g (S i) l); reflexivity.
  - intros j y Hy. replace (S i + j)%nat with (i + S j)%nat by lia. now apply Hf.
Qed.


Lemma eachStep_ext (f g : nat -> nat -> option Observer.t) (els : list nat) :
  forall i,
    (forall k el, els !! k = Some el -> f el (i + k)%nat = g el (i + k)%nat) ->
    eachStep f i els = eachStep g i els.
Proof.
  induction els as [|x els IH]; intros i H; cbn [eachStep]; [reflexivity|].
  pose proof (H 0%nat x eq_refl) as H0. rewrite Nat.add_0_r in H0. rewrite H0.
  rewrite (IH (S i)); [reflexivity|].
  intros k el Hk. replace (S i + k)%nat with (i + S k)%nat by lia. now apply H.
Qed.

Lemma updateSteps_effect (s : Session.t) (els : list nat)
    (before : Observers.t -> Observers.t)
    (store : list Observer.t -> Observers.t -> Observers.t)
    (f : nat -> nat -> M Observer.t) (g : nat -> nat -> option Observer.t) :
  Session.stepEl s = Some els ->
  (forall X i el, els !! i = Some el ->
     f el i (Session.set_io X s) = (Session.set_io X s, g el i)) ->
  (setIo before ;; obs <- mapSteps f ;; setIo (store obs)) s
  = match eachStep g 0 els with
    | Some os => (Session.set_io (store os (before (Session.io s))) s, Some tt)
    | None => (Session.set_io (before (Session.io s)) s, None)
    end.
Proof.
  intros Hels Hf. unfold setIo at 1. unfold bind at 1, modify at 1.
  unfold bind at 1. unfold mapSteps, bind at 1, gets at 1. cbn [Session.stepEl Session.set_io].
  rewrite Hels. unfold bind at 1, defined at 1, ret at 1.
  rewrite (mapIndexed_values f g _ els 0).
  - destruct (eachStep g 0 els); reflexivity.
  - intros j x Hx. now apply Hf.
Qed.

Lemma stepHeightAt_value (s : Session.t) (els : list nat) (i el : nat) :
  measured s els -> els !! i = Some el -> stepHeightAt i s = (s, Some (heightAt s i)).
Proof.
  intros (_ & (hs & Hhs & Hlen) & _) Hel.
  destruct (lookup_lt_is_Some_2 hs i) as [h Hh].
  { rewrite Hlen. eapply lookup_lt_Some; eauto. }
  unfold stepHeightAt, heightAt, bind, gets, defined, ret. rewrite Hhs, Hh. reflexivity.
Qed.

Lemma stepTopAt_value (s : Session.t) (els : list nat) (i el : nat) :
  measured s els -> els !! i = Some el -> stepTopAt i s = (s, Some (topAt s i)).
Proof.
  intros (_ & _ & (ts & Hts & Hlen) & _) Hel.
  destruct (lookup_lt_is_Some_2 ts i) as [t Ht].
  { rewrite Hlen. eapply lookup_lt_Some; eauto. }
  unfold stepTopAt, topAt, bind, gets, defined, ret. rewrite Hts, Ht. reflexivity.
Qed.

Lemma observing_value (cb : Handler) (mt mb : MarginPart) (th : list Q) (el : nat)
    (s : Session.t) :
  observing cb mt mb th (Some el) s = (s, observerFor cb mt mb (Some th) el).
Proof.
  unfold observing, observerFor. destruct (parsed mt), (parsed mb); try reflexivity.
  destruct (forallb validThreshold th); reflexivity.
Qed.

Lemma observerFor_unbuilt (cb : Handler) (mt mb : MarginPart) (el : nat) :
  observerFor cb mt mb None el = None.
Proof. unfold observerFor. destruct (parsed mt), (parsed mb); reflexivity. Qed.

(** Evaluates the body of one of the per-step observer constructors. *)
Ltac observer_body Hm :=
  let X := fresh "X" in let i := fresh "i" in let el := fresh "el" in
  let Hel := fresh "Hel" in
  intros X i el Hel;
  pose proof (stepHeightAt_value (Session.set_io X _) _ i el Hm Hel) as Hh;
  pose proof (stepTopAt_value (Session.set_io X _) _ i el Hm Hel) as Ht;
  unfold bind, gets;
  repeat (first [rewrite Hh | rewrite Ht]; cbv beta iota);
  cbv zeta; apply observing_value.

Lemma updateViewportAboveIO_effect (s : Session.t) (els : list nat) :
  measured s els ->
  updateViewportAboveIO s
  = match eachStep (viewportAboveFor s) 0 els with
    | Some os =>
        (Session.set_io (Observers.set_viewportAbove (holding os) (Session.io s)) s, Some tt)
    | None =>
        (Session.set_io
           (Observers.set_viewportAbove
              (disconnectEach (Observers.viewportAbove (Session.io s))) (Session.io s)) s,
         None)
    end.
Proof.
  intros Hm. unfold updateViewportAboveIO.
  rewrite (updateSteps_effect s els _ _ _ (viewportAboveFor s) (proj1 Hm));
    [reflexivity|].
  observer_body Hm.
Qed.

Lemma updateViewportBelowIO_effect (s : Session.t) (els : list nat) :
  measured s els ->
  updateViewportBelowIO s
  = match eachStep (viewportBelowFor s) 0 els with
    | Some os =>
        (Session.set_io (Observers.set_viewportBelow (holding os) (Session.io s)) s, Some tt)
    | None =>
        (Session.set_io
           (Observers.set_viewportBelow
              (disconnectEach (Observers.viewportBelow (Session.io s))) (Session.io s)) s,
         None)
    end.
Proof.
  intros Hm. unfold updateViewportBelowIO.
  rewrite (updateSteps_effect s els _ _ _ (viewportBelowFor s) (proj1 Hm));
    [reflexivity|].
  observer_body Hm.
Qed.

Lemma updateStepAboveIO_effect (s : Session.t) (els : list nat) :
  measured s els ->
  updateStepAboveIO s
  = match eachStep (stepAboveFor s) 0 els with
    | Some os =>
        (Session.set_io (Observers.set_stepAbove (holding os) (Session.io s)) s, Some tt)
    | None =>
        (Session.set_io
           (Observers.set_stepAbove
              (disconnectEach (Observers.stepAbove (Session.io s))) (Session.io s)) s,
         None)
    end.
Proof.
  intros Hm. unfold updateStepAboveIO.
  rewrite (updateSteps_effect s els _ _ _ (stepAboveFor s) (proj1 Hm));
    [reflexivity|].
  observer_body Hm.
Qed.

Lemma updateStepBelowIO_effect (s : Session.t) (els : list nat) :
  measured s els ->
  updateStepBelowIO s
  = match eachStep (stepBelowFor s) 0 els with
    | Some os =>
        (Session.set_io (Observers.set_stepBelow (holding os) (Session.io s)) s, Some tt)
    | None =>
        (Session.set_io
           (Observers.set_stepBelow
              (disconnectEach (Observers.stepBelow (Session.io s))) (Session.io s)) s,
         None)
    end.
Proof.
  intros Hm. unfold updateStepBelowIO.
  rewrite (updateSteps_effect s els _ _ _ (stepBelowFor s) (proj1 Hm));
    [reflexivity|].
  observer_body Hm.
Qed.

Lemma updateStepProgressIO_effect (s : Session.t) (els : list nat) :
  measured s els ->
  updateStepProgressIO s
  = match eachStep (stepProgressFor s) 0 els with
    | Some os =>
        (Session.set_io (Observers.set_stepProgress (holding os) (Session.io s)) s, Some tt)
    | None =>
        (Session.set_io
           (Observers.set_stepProgress
              (disconnectEach (Observers.stepProgress (Session.io s))) (Session.io s)) s,
         None)
    end.
Proof.
  intros Hm. unfold updateStepProgressIO.
  rewrite (updateSteps_effect s els _ _ _ (stepProgressFor s) (proj1 Hm));
    [reflexivity|].
  intros X i el Hel.
  pose proof (stepHeightAt_value (Session.set_io X s) els i el Hm Hel) as Hh.
  unfold bind at 1. rewrite Hh. unfold bind at 1, gets at 1. unfold bind at 1, gets at 1.
  cbv zeta. unfold bind at 1, createThreshold, bind at 1, gets at 1.
  unfold stepProgressFor.
  change (heightAt (Session.set_io X s) i) with (heightAt s i).
  cbn [Session.progressThreshold Session.offsetMargin Session.vh Session.set_io].
  destruct (createThresholdAt (Session.progressThreshold s) (heightAt s i)) as [th|];
    unfold defined.
  - unfold ret at 1. apply observing_value.
  - unfold throw. now rewrite observerFor_unbuilt.
Qed.

Lemma set_io_same (s : Session.t) : Session.set_io (Session.io s) s = s.
Proof. destruct s. reflexivity. Qed.

Lemma updateContainerIO_effect (s : Session.t) (c g : nat) (b : Rect.t) :
  Session.containerEl s = Some c -> Session.graphicEl s = Some g ->
  Session.bboxGraphic s = Some b ->
  exists X,
    (updateTopIO ;; updateBottomIO) s
    = (Session.set_io X s,
       match topFor s c, bottomFor b c with Some _, Some _ => Some tt | _, _ => None end) /\
    forall t bo, topFor s c = Some t -> bottomFor b c = Some bo ->
      X = Observers.set_bottom (holding bo) (Observers.set_top (holding t) (Session.io s)).
Proof.
  intros Hc Hg Hb. unfold topFor, bottomFor.
  unfold bind at 1. unfold updateTopIO, bind at 1, gets at 1. rewrite Hc.
  unfold bind at 1, getIo at 1, gets at 1.
  assert (H1 : exists X1,
             (match Observers.top (Session.io s) with
              | holding o => setIo (Observers.set_top (holding (Observer.unobserve (Some c) o)))
              | _ => ret tt
              end) s = (Session.set_io X1 s, Some tt) /\
             forall v, Observers.set_top v X1 = Observers.set_top v (Session.io s)).
  { destruct (Observers.top (Session.io s));
      [exists (Session.io s); now rewrite set_io_same ..|eexists; split; reflexivity]. }
  destruct H1 as (X1 & H1 & HX1). unfold bind at 1. rewrite H1. clear H1.
  unfold bind at 1, gets at 1. cbn [Session.vh Session.set_io].
  unfold bind at 1. rewrite observing_value.
  destruct (observerFor hTop _ _ _ c) as [t|].
  2:{ eexists. split; [reflexivity|]. intros ? ? [=]. }
  unfold setIo at 1, modify at 1. cbn [Session.io Session.set_io].
  change (Session.set_io ?X (Session.set_io X1 s)) with (Session.set_io X s).
  match goal with |- context [updateBottomIO (Session.set_io ?X s)] => set (X2 := X) end.
  unfold updateBottomIO, bind at 1, gets at 1.
  cbn [Session.containerEl Session.set_io]. rewrite Hc.
  unfold bind at 1, getIo at 1, gets at 1.
  assert (H3 : exists X3,
             (match Observers.bottom (Session.io (Session.set_io X2 s)) with
              | holding o =>
                  setIo (Observers.set_bottom (holding (Observer.unobserve (Some c) o)))
              | _ => ret tt
              end) (Session.set_io X2 s) = (Session.set_io X3 s, Some tt) /\
             forall v, Observers.set_bottom v X3 = Observers.set_bottom v X2).
  { cbn [Session.io Session.set_io].
    destruct (Observers.bottom X2); eexists; split; reflexivity. }
  destruct H3 as (X3 & H3 & HX3). unfold bind at 1. rewrite H3. clear H3.
  unfold bind at 1, gets at 1. cbn [Session.bboxGraphic Session.set_io]. rewrite Hb.
  unfold bind at 1, defined at 1, ret at 1.
  unfold bind at 1. rewrite observing_value.
  destruct (observerFor hBottom _ _ _ c) as [bo|].
  2:{ eexists. split; [reflexivity|]. intros ? ? _ [=]. }
  unfold setIo, modify. cbn [Session.io Session.set_io].
  eexists. split; [reflexivity|].
  intros t' bo' [= <-] [= <-]. rewrite HX3. subst X2. now rewrite HX1.
Qed.

Lemma updateIO_effect (s : Session.t) (els : list nat) :
  measured s els ->
  exists X,
    updateIO s
    = (Session.set_io X s,
       match observersOf s (Session.io s) with Some _ => Some tt | None => None end) /\
    forall io', observersOf s (Session.io s) = Some io' -> X = io'.
Proof.
  intros Hm. unfold updateIO, observersOf, perStep. rewrite (proj1 Hm).
  change (default [] (Some els)) with els.
  unfold bind at 1. rewrite (updateViewportAboveIO_effect s els Hm).
  destruct (eachStep (viewportAboveFor s) 0 els) as [va|]; cbn [fmap option_fmap option_map].
  2:{ eexists. split; [reflexivity|]. intros ? [=]. }
  match goal with |- context [Session.set_io ?X s] => set (X1 := X) end.
  unfold bind at 1.
  rewrite (updateViewportBelowIO_effect (Session.set_io X1 s) els Hm).
  change (viewportBelowFor (Session.set_io X1 s)) with (viewportBelowFor s).
  destruct (eachStep (viewportBelowFor s) 0 els) as [vb|]; cbn [fmap option_fmap option_map].
  2:{ eexists. split; [reflexivity|]. intros ? [=]. }
  cbn [Session.io Session.set_io].
  change (Session.set_io ?X (Session.set_io X1 s)) with (Session.set_io X s).
  match goal with |- context [Session.set_io ?X s] => set (X2 := X) end.
  unfold bind at 1.
  rewrite (updateStepAboveIO_effect (Session.set_io X2 s) els Hm).
  change (stepAboveFor (Session.set_io X2 s)) with (stepAboveFor s).
  destruct (eachStep (stepAboveFor s) 0 els) as [sa|]; cbn [fmap option_fmap option_map].
  2:{ eexists. split; [reflexivity|]. intros ? [=]. }
  cbn [Session.io Session.set_io].
  change (Session.set_io ?X (Session.set_io X2 s)) with (Session.set_io X s).
  match goal with |- context [Session.set_io ?X s] => set (X3 := X) end.
  unfold bind at 1.
  rewrite (updateStepBelowIO_effect (Session.set_io X3 s) els Hm).
  change (stepBelowFor (Session.set_io X3 s)) with (stepBelowFor s).
  destruct (eachStep (stepBelowFor s) 0 els) as [sb|]; cbn [fmap option_fmap option_map].
  2:{ eexists. split; [reflexivity|]. intros ? [=]. }
  cbn [Session.io Session.set_io].
  change (Session.set_io ?X (Session.set_io X3 s)) with (Session.set_io X s).
  match goal with |- context [Session.set_io ?X s] => set (X4 := X) end.
  unfold bind at 1, gets at 1. cbn [Session.progressMode Session.set_io].
  assert (H5 : exists X5,
             when (Session.progressMode s) updateStepProgressIO (Session.set_io X4 s)
             = (Session.set_io X5 s,
                if Session.progressMode s
                then match eachStep (stepProgressFor s) 0 els with
                     | Some _ => Some tt
                     | None => None
                     end
                else Some tt) /\
             forall sp,
               (if Session.progressMode s
                then fmap (M := option) holding (eachStep (stepProgressFor s) 0 els)
                else Some (Observers.stepProgress (Session.io s))) = Some sp ->
               X5 = Observers.set_stepProgress sp X4).
  { destruct (Session.progressMode s); cbn [when].
    - rewrite (updateStepProgressIO_effect (Session.set_io X4 s) els Hm).
      change (stepProgressFor (Session.set_io X4 s)) with (stepProgressFor s).
      destruct (eachStep (stepProgressFor s) 0 els) as [sp|];
        cbn [fmap option_fmap option_map].
      + eexists. split; [reflexivity|]. intros ? [= <-]. reflexivity.
      + eexists. split; [reflexivity|]. intros ? [=].
    - exists X4. split; [reflexivity|]. intros ? [= <-]. reflexivity. }
  destruct H5 as (X5 & H5 & HX5). unfold bind at 1. rewrite H5. clear H5.
  set (P := if Session.progressMode s
            then fmap (M := option) holding (eachStep (stepProgressFor s) 0 els)
            else Some (Observers.stepProgress (Session.io s))) in *.
  assert (HP : (if Session.progressMode s
                then match eachStep (stepProgressFor s) 0 els with
                     | Some _ => Some tt
                     | None => None
                     end
                else Some tt) = match P with Some _ => Some tt | None => None end).
  { subst P. destruct (Session.progressMode s); [|reflexivity].
    destruct (eachStep (stepProgressFor s) 0 els); reflexivity. }
  rewrite HP. clear HP. clearbody P.
  destruct P as [sp|].
  2:{ eexists. split; [reflexivity|]. intros ? [=]. }
  specialize (HX5 sp eq_refl). subst X5.
  match goal with |- context [Session.set_io ?X s] => set (X5 := X) end.
  unfold bind at 1, gets at 1. unfold bind at 1, gets at 1.
  cbn [Session.containerEl Session.graphicEl Session.set_io].
  destruct Hm as (Hels & _ & _ & Hbox).
  destruct (Session.containerEl s) as [c|] eqn:Ec;
    destruct (Session.graphicEl s) as [g|] eqn:Eg; cbn [when bool_decide andb].
  - destruct Hbox as [b Hb]; [eauto|].
    rewrite !bool_decide_eq_true_2 by eauto. cbn [andb when].
    destruct (updateContainerIO_effect (Session.set_io X5 s) c g b Ec Eg Hb)
      as (X6 & H6 & HX6).
    rewrite H6. clear H6.
    change (Session.set_io X6 (Session.set_io X5 s)) with (Session.set_io X6 s).
    change (topFor (Session.set_io X5 s) c) with (topFor s c) in *.
    rewrite Hb.
    destruct (topFor s c) as [t|]; [|eexists; split; [reflexivity|]; intros ? [=]].
    destruct (bottomFor b c) as [bo|]; cbn [fmap option_fmap option_map];
      [|eexists; split; [reflexivity|]; intros ? [=]].
    eexists. split; [reflexivity|]. intros ? [= <-].
    rewrite (HX6 t bo eq_refl eq_refl). reflexivity.
  - rewrite bool_decide_eq_true_2 by eauto.
    rewrite bool_decide_eq_false_2 by (intros [? ?]; discriminate). cbn [andb when ret].
    eexists. split; [reflexivity|]. intros ? [= <-]. reflexivity.
  - rewrite (bool_decide_eq_false_2 (is_Some None)) by (intros [? ?]; discriminate).
    cbn [andb when ret].
    eexists. split; [reflexivity|]. intros ? [= <-]. reflexivity.
  - rewrite (bool_decide_eq_false_2 (is_Some None)) by (intros [? ?]; discriminate).
    cbn [andb when ret].
    eexists. split; [reflexivity|]. intros ? [= <-]. reflexivity.
Qed.

Lemma measure_fields (host : Host) (s : Session.t) :
  Session.vh (measure host s) = innerHeight host /\
  Session.ph (measure host s) = pageHeight host /\
  Session.offsetMargin (measure host s)
  = Double.round (Session.offsetVal s * innerHeight host) /\
  Session.stepOffsetHeight (measure host s)
  = Some (match Session.stepEl s with
          | Some els => List.map (offsetHeight host) els
          | None => []
          end) /\
  Session.stepOffsetTop (measure host s)
  = Some (match Session.stepEl s with
          | Some els => List.map (getOffsetTop host) els
          | None => []
          end) /\
  Session.bboxGraphic (measure host s)
  = fmap (M := option) (boundingClientRect host) (Session.graphicEl s) /\
  Session.graphicEl (measure host s) = Session.graphicEl s /\
  Session.io (measure host s) = Session.io s /\
  Session.isEnabled (measure host s) = Session.isEnabled s /\
  Session.isReady (measure host s) = Session.isReady s /\
  Session.offsetVal (measure host s) = Session.offsetVal s /\
  Session.containerState (measure host s) = Session.containerState s /\
  sameButMeasured s (measure host s).
Proof. repeat split. Qed.

Lemma measured_measure (host : Host) (s : Session.t) (els : list nat) :
  Session.stepEl s = Some els -> measured (measure host s) els.
Proof.
  intros Hels.
  destruct (measure_fields host s)
    as (_ & _ & _ & Hh & Ht & Hb & Hg & _ & _ & _ & _ & _ & (_ & _ & _ & He & _)).
  rewrite Hels in Hh, Ht.
  split; [now rewrite He|].
  split; [eexists; split; [exact Hh | apply length_map]|].
  split; [eexists; split; [exact Ht | apply length_map]|].
  rewrite Hb, Hg. intros [g ->]. cbn. eauto.
Qed.

Lemma handleResize_measure (host : Host) (s : Session.t) :
  handleResize host s
  = (isEnabled <- gets Session.isEnabled ;;
     isReady <- gets Session.isReady ;;
     when (isEnabled && isReady) updateIO) (measure host s).
Proof.
  unfold handleResize, bind at 1 2 3 4 5 6, modify, measure. cbv beta iota zeta.
  reflexivity.
Qed.

Lemma handleResize_effect (host : Host) (s : Session.t) (els : list nat) :
  Session.stepEl s = Some els ->
  exists X,
    handleResize host s
    = (Session.set_io X (measure host s),
       if Session.isEnabled s && Session.isReady s
       then match observersOf (measure host s) (Session.io s) with
            | Some _ => Some tt
            | None => None
            end
       else Some tt) /\
    if Session.isEnabled s && Session.isReady s
    then forall io', observersOf (measure host s) (Session.io s) = Some io' -> X = io'
    else X = Session.io s.
Proof.
  intros Hels. rewrite handleResize_measure.
  pose proof (measured_measure host s els Hels) as Hm.
  destruct (measure_fields host s) as (_ & _ & _ & _ & _ & _ & _ & Hio & Hen & Hrd & _).
  revert Hm Hen Hrd Hio. generalize (measure host s). intros m Hm Hen Hrd Hio.
  unfold bind, gets. rewrite Hen, Hrd.
  destruct (Session.isEnabled s && Session.isReady s); cbn [when].
  - destruct (updateIO_effect m els Hm) as (X & HX & HX'). rewrite Hio in HX, HX'.
    exists X. split; [exact HX | exact HX'].
  - exists (Session.io s). rewrite <- Hio, set_io_same. split; reflexivity.
Qed.

Lemma handleEnable_true_effect (s : Session.t) (els : list nat) :
  measured s els -> Session.isReady s = true ->
  exists X,
    handleEnable true s
    = if Session.isEnabled s then (s, Some tt)
      else match observersOf s (Session.io s) with
           | Some io' => (Session.set_isEnabled true (Session.set_io io' s), Some tt)
           | None => (Session.set_io X s, None)
           end.
Proof.
  intros Hm Hr. unfold handleEnable, bind at 1, gets at 1.
  destruct (Session.isEnabled s); cbn [andb negb]; [exists (Session.io s); reflexivity|].
  unfold bind at 1, gets at 1. rewrite Hr. cbn [when].
  destruct (updateIO_effect s els Hm) as (X & HX & HX'). exists X.
  unfold bind at 1. rewrite HX.
  destruct (observersOf s (Session.io s)) as [io'|]; [|reflexivity].
  now rewrite (HX' io' eq_refl).
Qed.





Lemma indexFrom_range (n : nat) (els : list nat) :
  forall i attrs,
    (i + length els <= n)%nat ->
    map_Forall (fun _ j => (j < n)%nat) attrs ->
    map_Forall (fun _ j => (j < n)%nat) (indexFrom i els attrs).
Proof.
  induction els as [|el els IH]; intros i attrs Hlen Hall; cbn [indexFrom]; [exact Hall|].
  cbn in Hlen. apply IH; [lia|]. apply map_Forall_insert_2; [lia | exact Hall].
Qed.

Lemma peel_offsetTrigger_value {A : Type} (P : Session.t * option A -> Prop)
    (x : JsArg) (k : Returned -> M A) (s : Session.t) :
  (forall s1 r,
     s1 = match x with
          | aNumber v => if Qeq_bool v 0 then s
                         else Session.set_offsetVal (Qmin (Qmax 0 v) 1) s
          | aNaN => s
          end -> P (k r s1)) ->
  P (bind (offsetTrigger (Some x)) k s).
Proof.
  intros H. unfold offsetTrigger.
  destruct x as [v|]; [destruct (Qeq_bool v 0) eqn:E|];
    unfold bind at 1; apply (H _ _); rewrite ?E; reflexivity.
Qed.

(** What [setup] leaves when it finds steps. *)
Lemma setup_effect (s : Session.t) (o : SetupOptions) (host : Host) :
  step o <> [] ->
  exists s' r,
    setup o host s = (s', r) /\
    Session.isReady s' = true /\
    measured s' (step o) /\
    Session.stepStates s' = Some (List.map (fun _ => StepState.initial) (step o)) /\
    Session.containerState s' = Some StepState.initial /\
    Session.dataScrollamaIndex s' = indexFrom 0 (step o) (Session.dataScrollamaIndex s) /\
    configured o (Session.offsetVal s) s' /\
    sameButSetup s s' /\
    Session.vh s' = innerHeight host /\
    Session.offsetMargin s' = Double.round (Session.offsetVal s' * innerHeight host) /\
    match observersOf s' (Session.io s) with
    | Some io' => r = Some theSession /\ Session.isEnabled s' = true /\ Session.io s' = io'
    | None => r = None /\ Session.isEnabled s' = Session.isEnabled s
    end.
Proof.
  intros Hne.
  set (F := fun s1 : Session.t =>
              sameButSetup s s1 /\
              Session.io s1 = Session.io s /\
              Session.stepEl s1 = Some (step o) /\
              Session.containerEl s1 = container o /\
              Session.graphicEl s1 = graphic o /\
              Session.isEnabled s1 = Session.isEnabled s).
  set (A := fun s1 : Session.t =>
              Session.dataScrollamaIndex s1 = Session.dataScrollamaIndex s /\
              Session.offsetVal s1 = Session.offsetVal s).
  set (C := fun s1 : Session.t =>
              Session.debugMode s1 = default false (debug o) /\
              Session.progressMode s1 = default false (progress o) /\
              Session.preserveOrder s1 = default true (order o) /\
              Session.triggerOnce s1 = default false (once o)).
  set (V := fun s1 : Session.t =>
              Session.offsetVal s1
              = match default (aNumber (1 # 2)) (offset o) with
                | aNumber x => if Qeq_bool x 0 then Session.offsetVal s
                               else Qmin (Qmax 0 x) 1
                | aNaN => Session.offsetVal s
                end).
  set (T := fun s1 : Session.t =>
              Session.progressThreshold s1 = Qmax 1 (default 4 (threshold o))).
  unfold setup.
  apply peel_modify. intros sa Hsa. apply peel_modify. intros sb Hsb.
  apply peel_modify. intros s1 Hs1.
  assert (HF : F s1) by (rewrite Hs1, Hsb, Hsa; repeat split).
  assert (HA : A s1) by (rewrite Hs1, Hsb, Hsa; repeat split).
  clear Hs1 Hsb Hsa sa sb.
  destruct (length (step o) =? 0)%nat eqn:Elen.
  { apply Nat.eqb_eq in Elen. destruct (step o); [congruence | discriminate]. }
  apply peel_modify. intros sa Hsa. apply peel_modify. intros sb Hsb.
  apply peel_modify. intros sc Hsc. apply peel_modify. intros s2 Hs2.
  assert (HF2 : F s2) by (rewrite Hs2, Hsc, Hsb, Hsa; exact HF).
  assert (HA2 : A s2) by (rewrite Hs2, Hsc, Hsb, Hsa; exact HA).
  assert (HC2 : C s2) by (rewrite Hs2, Hsc, Hsb, Hsa; repeat split).
  clear Hs2 Hsc Hsb Hsa sa sb sc HF HA s1.
  apply peel_offsetTrigger_value. intros s3 _ Hs3.
  assert (HF3 : F s3)
    by (rewrite Hs3; destruct (default (aNumber (1 # 2)) (offset o)) as [v|];
        [destruct (Qeq_bool v 0)|]; exact HF2).
  assert (HC3 : C s3)
    by (rewrite Hs3; destruct (default (aNumber (1 # 2)) (offset o)) as [v|];
        [destruct (Qeq_bool v 0)|]; exact HC2).
  assert (HD3 : Session.dataScrollamaIndex s3 = Session.dataScrollamaIndex s)
    by (rewrite Hs3; destruct (default (aNumber (1 # 2)) (offset o)) as [v|];
        [destruct (Qeq_bool v 0)|]; exact (proj1 HA2)).
  assert (HV3 : V s3)
    by (unfold V; rewrite Hs3; destruct (default (aNumber (1 # 2)) (offset o)) as [v|];
        [destruct (Qeq_bool v 0)|]; first [exact (proj2 HA2) | reflexivity]).
  clear Hs3 HF2 HA2 HC2 s2.
  apply peel_modify. intros sa Hsa. apply peel_modify. intros s4 Hs4.
  assert (HF4 : F s4) by (rewrite Hs4, Hsa; exact HF3).
  assert (HC4 : C s4) by (rewrite Hs4, Hsa; exact HC3).
  assert (HD4 : Session.dataScrollamaIndex s4 = Session.dataScrollamaIndex s)
    by (rewrite Hs4, Hsa; exact HD3).
  assert (HV4 : V s4) by (rewrite Hs4, Hsa; exact HV3).
  assert (HT4 : T s4) by (rewrite Hs4, Hsa; reflexivity).
  assert (Hrd4 : Session.isReady s4 = true) by (rewrite Hs4; reflexivity).
  clear Hs4 Hsa sa HF3 HC3 HD3 HV3 s3.
  apply peel_indexSteps with (els := step o); [exact (proj1 (proj2 (proj2 HF4)))|].
  intros s5 Hs5.
  apply peel_setupStates with (els := step o);
    [rewrite Hs5; exact (proj1 (proj2 (proj2 HF4)))|].
  intros s6 Hs6.
  assert (HF6 : F s6) by (rewrite Hs6, Hs5; exact HF4).
  assert (HC6 : C s6) by (rewrite Hs6, Hs5; exact HC4).
  assert (HV6 : V s6) by (rewrite Hs6, Hs5; exact HV4).
  assert (HT6 : T s6) by (rewrite Hs6, Hs5; exact HT4).
  assert (Hrd6 : Session.isReady s6 = true) by (rewrite Hs6, Hs5; exact Hrd4).
  assert (Hat6 : Session.dataScrollamaIndex s6
                 = indexFrom 0 (step o) (Session.dataScrollamaIndex s))
    by (rewrite Hs6, Hs5; cbn; now rewrite HD4).
  assert (Hst6 : Session.stepStates s6
                 = Some (List.map (fun _ => StepState.initial) (step o)))
    by (rewrite Hs6; reflexivity).
  assert (Hcs6 : Session.containerState s6 = Some StepState.initial)
    by (rewrite Hs6; reflexivity).
  clear Hs6 Hs5 s5 HF4 HC4 HD4 HV4 HT4 Hrd4 s4.
  destruct HF6 as (Hsame6 & Hio6 & Hels6 & Hce6 & Hge6 & Hen6).
  unfold bind at 1.
  destruct (handleResize_effect host s6 (step o) Hels6) as (X & HR & HX). rewrite HR. clear HR.
  pose proof (measured_measure host s6 (step o) Hels6) as Hm.
  destruct (measure_fields host s6)
    as (Hvh & _ & Hom & _ & _ & _ & _ & Hio & Hen & Hrd & Hov & _ & Hmsame).
  assert (Hfacts :
            Session.stepStates (measure host s6)
            = Some (List.map (fun _ => StepState.initial) (step o)) /\
            Session.containerState (measure host s6) = Some StepState.initial /\
            Session.dataScrollamaIndex (measure host s6)
            = indexFrom 0 (step o) (Session.dataScrollamaIndex s) /\
            configured o (Session.offsetVal s) (measure host s6) /\
            sameButSetup s (measure host s6)).
  { unfold sameButMeasured in Hmsame.
    destruct Hmsame as (M1 & M2 & M3 & M4 & M5 & M6 & M7 & M8 & M9 & M10 & M11 & M12
                        & M13 & M14 & M15 & M16 & M17 & M18 & M19).
    destruct HC6 as (C1 & C2 & C3 & C4). destruct Hsame6 as (S1 & S2 & S3 & S4 & S5).
    unfold configured, sameButSetup, V, T in *.
    repeat split; congruence. }
  rewrite Hio6 in Hio, HX. rewrite Hrd6 in Hrd, HX. rewrite <- Hov in Hom.
  rewrite Hen6 in Hen, HX. rewrite andb_true_r in HX.
  rewrite Hrd6, andb_true_r, Hio6, Hen6.
  revert X HX Hm Hvh Hom Hio Hen Hrd Hfacts. generalize (measure host s6).
  intros m X HX Hm Hvh Hom Hio Hen Hrd (Hst & Hcs & Hat & Hcfg & Hsame).
  clear Hels6 Hat6 Hio6 Hrd6 Hst6 Hcs6 HC6 HV6 HT6 Hsame6 Hce6 Hge6 Hen6 Hov F A C V T.
  assert (Hall : forall Y e,
            Session.isReady (Session.set_isEnabled e (Session.set_io Y m)) = true /\
            measured (Session.set_isEnabled e (Session.set_io Y m)) (step o) /\
            Session.stepStates (Session.set_isEnabled e (Session.set_io Y m))
            = Some (List.map (fun _ => StepState.initial) (step o)) /\
            Session.containerState (Session.set_isEnabled e (Session.set_io Y m))
            = Some StepState.initial /\
            Session.dataScrollamaIndex (Session.set_isEnabled e (Session.set_io Y m))
            = indexFrom 0 (step o) (Session.dataScrollamaIndex s) /\
            configured o (Session.offsetVal s) (Session.set_isEnabled e (Session.set_io Y m)) /\
            sameButSetup s (Session.set_isEnabled e (Session.set_io Y m)) /\
            Session.vh (Session.set_isEnabled e (Session.set_io Y m)) = innerHeight host /\
            Session.offsetMargin (Session.set_isEnabled e (Session.set_io Y m))
            = Double.round (Session.offsetVal (Session.set_isEnabled e (Session.set_io Y m))
                            * innerHeight host)).
  { intros Y e. repeat (split; [first [assumption | exact Hm | reflexivity]|]). exact Hom. }
  assert (Hsame_m : forall Y, Session.set_isEnabled (Session.isEnabled m) (Session.set_io Y m)
                              = Session.set_io Y m)
    by (intros Y; destruct m; reflexivity).
  destruct (Session.isEnabled s) eqn:E.
  - destruct (observersOf m (Session.io s)) as [io'|] eqn:Eo.
    + rewrite (HX io' eq_refl). unfold bind at 1.
      destruct (handleEnable_true_effect (Session.set_io io' m) (step o) Hm Hrd) as [X' HE].
      rewrite HE. cbn [Session.isEnabled Session.set_io]. rewrite Hen. unfold ret.
      exists (Session.set_io io' m), (Some theSession). split; [reflexivity|].
      rewrite <- (Hsame_m io'). rewrite Hen.
      destruct (Hall io' true) as (A1 & A2 & A3 & A4 & A5 & A6 & A7 & A8 & A9).
      repeat (split; [assumption|]).
      change (observersOf (Session.set_isEnabled true (Session.set_io io' m)) (Session.io s))
        with (observersOf m (Session.io s)).
      rewrite Eo. repeat split.
    + exists (Session.set_io X m), None. split; [reflexivity|].
      rewrite <- (Hsame_m X). rewrite Hen.
      destruct (Hall X true) as (A1 & A2 & A3 & A4 & A5 & A6 & A7 & A8 & A9).
      repeat (split; [assumption|]).
      change (observersOf (Session.set_isEnabled true (Session.set_io X m)) (Session.io s))
        with (observersOf m (Session.io s)).
      rewrite Eo. split; reflexivity.
  - subst X. rewrite <- Hio, set_io_same. unfold bind at 1.
    destruct (handleEnable_true_effect m (step o) Hm Hrd) as [X' HE].
    rewrite HE, Hen. rewrite Hio.
    destruct (observersOf m (Session.io s)) as [io'|] eqn:Eo.
    + unfold ret. exists (Session.set_isEnabled true (Session.set_io io' m)), (Some theSession).
      split; [reflexivity|].
      destruct (Hall io' true) as (A1 & A2 & A3 & A4 & A5 & A6 & A7 & A8 & A9).
      repeat (split; [assumption|]).
      change (observersOf (Session.set_isEnabled true (Session.set_io io' m)) (Session.io s))
        with (observersOf m (Session.io s)).
      rewrite Eo. repeat split.
    + exists (Session.set_io X' m), None. split; [reflexivity|].
      rewrite <- (Hsame_m X'). rewrite Hen.
      destruct (Hall X' false) as (A1 & A2 & A3 & A4 & A5 & A6 & A7 & A8 & A9).
      repeat (split; [assumption|]).
      change (observersOf (Session.set_isEnabled false (Session.set_io X' m)) (Session.io s))
        with (observersOf m (Session.io s)).
      rewrite Eo. split; reflexivity.
Qed.

(** X22. A [setup] that finds steps, on a session whose index
    attributes (if any) lie below the number of steps, leaves tables
    that fit its steps, whether it returns or the constructor rejects
    an observer: no delivery that follows raises for want of an
    entry. *)
Theorem setup_fitted (s : Session.t) (o : SetupOptions) (host : Host) :
  step o <> [] ->
  map_Forall (fun _ i => (i < length (step o))%nat) (Session.dataScrollamaIndex s) ->
  exists s' r, setup o host s = (s', r) /\ fitted (length (step o)) s'.
Proof.
  intros Hne Hall.
  destruct (setup_effect s o host Hne)
    as (s' & r & Hrun & _ & Hm & Hst & Hcs & Hat & _).
  exists s', r. split; [exact Hrun|].
  split; [destruct (step o); [congruence | cbn; lia]|].
  split; [exists (step o); split; [apply Hm | reflexivity]|].
  split; [eexists; split; [exact Hst | apply length_map]|].
  split; [rewrite Hcs; eauto|].
  rewrite Hat. apply indexFrom_range; [lia | exact Hall].
Qed.

Lemma setup_fitted_witness :
  exists s' r,
    setup (exampleOptions true) examplePage Session.fresh = (s', r) /\ fitted 2 s'.
Proof.
  apply (setup_fitted Session.fresh (exampleOptions true) examplePage); [discriminate|].
  apply map_Forall_empty.
Defined.









End ObserverFacts.

(** ** [disable], [enable] and [destroy] *)

Section DisableDestroy.
Import Scrollama.
Local Open Scope Q_scope.




End DisableDestroy.

(** ** The sequencer: [setup] and the caller *)

Section SetupAndCaller.
Import Scrollama.
Local Open Scope Q_scope.



(** An offset of [0.9999999999] on a viewport 800 pixels high puts the
    trigger line [8e-8] pixels above the bottom of the viewport: the
    bottom margin of the observers above each step prints with an
    exponent, the constructor raises, and [setup] with it.  The session
    is ready but not enabled. *)
Lemma setup_raises_on_small_margin :
  let o := mkSetupOptions None None [10; 11]%nat
             (Some (aNumber (Double.round (9999999999 # 10000000000))))
             None None None None None in
  exists s' x,
    setup o examplePage Session.fresh = (s', None) /\
    Session.isReady s' = true /\ Session.isEnabled s' = false /\
    Double.add (Double.neg (Double.num (Session.vh s'))) (Double.num (Session.offsetMargin s'))
    = Some x /\
    - (1 # 10000000) < x /\ x < 0 /\ printsPlain x = false /\
    stepAboveFor s' 10%nat 0%nat = None.
Proof.
  intros o. exists (fst (setup o examplePage Session.fresh)). eexists.
  split; [vm_compute; reflexivity|].
  split; [vm_compute; reflexivity|]. split; [vm_compute; reflexivity|].
  split; [vm_compute; reflexivity|].
  repeat split; vm_compute; reflexivity.
Qed.



End SetupAndCaller.

(** ** The sequencer: the observers of a measured session *)

Section ObserversCreated.
Import Scrollama.
Local Open Scope Q_scope.




(** The constructor accepts the observers of that session. *)
Lemma updateIO_accepts_example :
  let host := mkHost 800 5000 (fun _ => Rect.mk 0 800 0 1000 1000 800)
                (fun _ => 500) (fun el => [inject_Z (Z.of_nat el) * 500]) in
  let o := mkSetupOptions (Some 100%nat) (Some 101%nat) [10; 11; 12]%nat
             (Some (aNumber (Double.round (9 # 10)))) (Some true) (Some 4)
             None None None in
  let s := fst (setup o host Session.fresh) in
  accepted s /\ snd (updateIO s) = Some tt.
Proof. split; [vm_compute; eauto | vm_compute; reflexivity]. Qed.

End ObserversCreated.


(** ** Numbers in margin strings *)

Section MarginCharacters.
Import Registry Geometry IntersectionObserver MarginText.

Lemma chars_app (a b : string) :
  list_ascii_of_string (a ++ b) = (list_ascii_of_string a ++ list_ascii_of_string b)%list.
Proof.
  induction a as [|x a IH]; [reflexivity|]. rewrite append_cons. simpl. now rewrite IH.
Qed.

Lemma substring_whole (s : string) (n : nat) :
  (String.length s <= n)%nat -> substring 0 n s = s.
Proof.
  revert n. induction s as [|x s IH]; intros n Hn.
  - now destruct n.
  - destruct n as [|n]; simpl in *; [lia|]. rewrite IH by lia. reflexivity.
Qed.

Lemma substring_split (s : string) (k n : nat) :
  (String.length s <= k + n)%nat ->
  (substring 0 k s ++ substring k n s)%string = s.
Proof.
  revert k. induction s as [|x s IH]; intros k Hk.
  - destruct k, n; reflexivity.
  - destruct k as [|k].
    + rewrite (substring_whole (String x s) n) by (simpl in *; lia).
      now destruct n.
    + cbn [substring]. rewrite append_cons. f_equal. apply IH. simpl in Hk. lia.
Qed.

Lemma dropLast_takeLast (n : nat) (s : string) :
  (dropLast n s ++ takeLast n s)%string = s.
Proof. unfold dropLast, takeLast. apply substring_split. lia. Qed.

(** Every character of a margin string that is not white space ends up
    in one of the pieces. *)
Lemma splitSpaces_covers (c : ascii) (s : string) :
  forall inRun piece,
    In c (list_ascii_of_string piece) \/
    (In c (list_ascii_of_string s) /\ isSpace c = false) ->
    exists p, In p (splitSpaces inRun piece s) /\ In c (list_ascii_of_string p).
Proof.
  induction s as [|a s IH]; intros inRun piece H.
  - exists piece. split; [now left|]. destruct H as [H | [[] _]]. exact H.
  - cbn [splitSpaces]. destruct (isSpace a) eqn:Ea.
    + assert (H' : In c (list_ascii_of_string piece) \/
                   (In c (list_ascii_of_string s) /\ isSpace c = false)).
      { destruct H as [H | [[-> | H] Hc]]; [now left | congruence | now right]. }
      destruct inRun.
      * apply IH. exact H'.
      * destruct H' as [H' | H'].
        -- exists piece. split; [now left | exact H'].
        -- destruct (IH true EmptyString (or_intror H')) as (p & Hp & Hc).
           exists p. split; [now right | exact Hc].
    + apply IH. destruct H as [H | [[-> | H] Hc]].
      * left. rewrite chars_app. apply in_or_app. now left.
      * left. rewrite chars_app. apply in_or_app. right. now left.
      * now right.
Qed.

Lemma splitDot_chars (s : string) (c : ascii) :
  In c (list_ascii_of_string s) ->
  c = "."%char \/ In c (list_ascii_of_string (fst (splitDot s))) \/
  (exists f, snd (splitDot s) = Some f /\ In c (list_ascii_of_string f)).
Proof.
  induction s as [|a s IH]; [intros []|].
  intros [-> | H]; cbn [splitDot].
  - destruct (Ascii.eqb c ".") eqn:E.
    + left. now apply Ascii.eqb_eq.
    + right. left. destruct (splitDot s). now left.
  - destruct (Ascii.eqb a ".") eqn:E.
    + right. right. exists s. split; [reflexivity | exact H].
    + destruct (IH H) as [Hd | [Hi | (f & Hf & Hc)]].
      * now left.
      * right. left. destruct (splitDot s). now right.
      * right. right. exists f. destruct (splitDot s). split; assumption.
Qed.

Lemma allDigits_chars (s : string) (c : ascii) :
  allDigits s = true -> In c (list_ascii_of_string s) -> isDigit c = true.
Proof.
  induction s as [|a s IH]; [intros _ []|].
  simpl. intros H [-> | Hc]; apply andb_true_iff in H; destruct H as [Ha Hs]; auto.
Qed.

Lemma parseNumber_chars (s : string) (v : Q) (c : ascii) :
  parseNumber s = Some v -> In c (list_ascii_of_string s) ->
  isDigit c = true \/ c = "-"%char \/ c = "."%char.
Proof.
  unfold parseNumber. intros H Hc.
  assert (Hrest : exists negative rest,
            match s with String "-" r => (true, r) | _ => (false, s) end = (negative, rest) /\
            (c = "-"%char \/ In c (list_ascii_of_string rest))).
  { destruct s as [|a r]; [destruct Hc|].
    destruct (Ascii.eqb_spec a "-") as [-> | Ha].
    - exists true, r. split; [reflexivity|]. destruct Hc as [<- | Hc]; auto.
    - exists false, (String a r). split; [|now right].
      destruct a as [[] [] [] [] [] [] [] []]; try reflexivity. congruence. }
  destruct Hrest as (negative & rest & Hm & Hr). rewrite Hm in H.
  destruct Hr as [-> | Hr]; [auto|].
  pose proof (splitDot_chars rest c Hr) as Hd.
  destruct (splitDot rest) as [i f]. cbn [fst snd] in Hd.
  destruct Hd as [-> | [Hi | (f' & -> & Hf)]]; [auto | |].
  - left. destruct f as [f'|].
    + destruct (allDigits i) eqn:Ei; [|discriminate]. now apply (allDigits_chars i).
    + destruct (allDigits i) eqn:Ei; [now apply (allDigits_chars i)|].
      rewrite andb_false_r in H. discriminate.
  - left. destruct (allDigits f') eqn:Ef; [now apply (allDigits_chars f')|].
    rewrite andb_false_r in H. discriminate.
Qed.

Lemma parseMargin_chars (margin : string) (m : Margin) (c : ascii) :
  parseMargin margin = Some m -> In c (list_ascii_of_string margin) ->
  marginChar c = true.
Proof.
  unfold parseMargin, marginChar. intros H Hc.
  assert (Hnum : isDigit c = true \/ c = "-"%char \/ c = "."%char ->
                 isSpace c || isDigit c || Ascii.eqb c "-" || Ascii.eqb c "."
                 || Ascii.eqb c "p" || Ascii.eqb c "x" || Ascii.eqb c "%" = true).
  { intros [Hd | [-> | ->]]; [|reflexivity..]. rewrite Hd. now rewrite orb_true_r. }
  destruct (String.eqb (takeLast 2 margin) "px") eqn:Epx.
  - apply String.eqb_eq in Epx.
    rewrite <- (dropLast_takeLast 2 margin), chars_app, Epx in Hc.
    apply in_app_or in Hc. destruct Hc as [Hc | [<- | [<- | []]]]; [|reflexivity..].
    destruct (parseNumber (dropLast 2 margin)) as [v|] eqn:Ev; [|discriminate].
    apply Hnum. exact (parseNumber_chars _ _ _ Ev Hc).
  - destruct (String.eqb (takeLast 1 margin) "%") eqn:Epc; [|discriminate].
    apply String.eqb_eq in Epc.
    rewrite <- (dropLast_takeLast 1 margin), chars_app, Epc in Hc.
    apply in_app_or in Hc. destruct Hc as [Hc | [<- | []]]; [|reflexivity].
    destruct (parseNumber (dropLast 1 margin)) as [v|] eqn:Ev; [|discriminate].
    apply Hnum. exact (parseNumber_chars _ _ _ Ev Hc).
Qed.

(** A string that holds a character no margin is written with is
    rejected. *)
Lemma margins_reject_character (marginString : string) (c : ascii) :
  In c (list_ascii_of_string marginString) -> marginChar c = false ->
  _parseRootMargin (Some marginString)
  = Throw "rootMargin must be specified in pixels or percent".
Proof.
  intros Hc Hbad. unfold _parseRootMargin.
  destruct marginString as [|a s]; [destruct Hc|].
  rewrite parseMargins_rejects; [reflexivity|].
  assert (Hsp : isSpace c = false).
  { unfold marginChar in Hbad. destruct (isSpace c); [discriminate | reflexivity]. }
  destruct (splitSpaces_covers c (String a s) false EmptyString) as (p & Hp & Hcp).
  { right. split; assumption. }
  exists p. split; [exact Hp|].
  destruct (parseMargin p) as [m|] eqn:Em; [|reflexivity].
  rewrite (parseMargin_chars p m c Em Hcp) in Hbad. discriminate.
Qed.

(** X28. The constructor, given a function and a root that is an
    element (or none), raises the margin error whenever the margin
    string holds a character other than white space, a digit, a sign, a
    point and the letters of [px] and [%]: in particular for every
    number written with an exponent. *)
Theorem create_rejects_margin_character (doc : Dom.Document) (f : nat)
    (options : Options) (marginString : string) (c : ascii) :
  optRootMargin options = Some marginString ->
  (forall r, optRoot options = Some r -> Dom.nodeType (Dom.node doc r) = 1%nat) ->
  In c (list_ascii_of_string marginString) -> marginChar c = false ->
  create doc (aFunction f) options
  = Throw "rootMargin must be specified in pixels or percent".
Proof.
  intros Hm Hroot Hc Hbad. unfold create.
  assert (Hr : match optRoot options with
               | Some r => negb (Nat.eqb (Dom.nodeType (Dom.node doc r)) 1)
               | None => false
               end = false).
  { destruct (optRoot options) as [r|]; [|reflexivity].
    now rewrite (Hroot r eq_refl). }
  rewrite Hr, Hm, (margins_reject_character marginString c Hc Hbad). reflexivity.
Qed.

Lemma create_rejects_margin_character_witness :
  create ExampleDocument.page (aFunction 0)
    (mkOptions None (Some "-8e-7px 0px 0px 0px"%string) unset)
  = Throw "rootMargin must be specified in pixels or percent".
Proof.
  apply (create_rejects_margin_character ExampleDocument.page 0
           (mkOptions None (Some "-8e-7px 0px 0px 0px"%string) unset)
           "-8e-7px 0px 0px 0px" "e").
  - reflexivity.
  - intros r H. discriminate H.
  - vm_compute. tauto.
  - reflexivity.
Defined.

End MarginCharacters.

Section MarginNumbers.
Import Registry Geometry IntersectionObserver JsNumber MarginText.

Lemma ten_nonzero : ~ (10 # 1 == 0)%Q.
Proof. intros H. discriminate H. Qed.

Lemma stripZeros_value (fuel : nat) :
  forall d e s e',
    stripZeros fuel d e = (s, e') -> d <> 0%N ->
    s <> 0%N /\
    (inject_Z (Z.of_N s) * (10 # 1) ^ e' == inject_Z (Z.of_N d) * (10 # 1) ^ e)%Q.
Proof.
  induction fuel as [|fuel IH]; intros d e s e' H Hd; cbn [stripZeros] in H.
  - injection H as <- <-. split; [exact Hd | reflexivity].
  - destruct ((d mod 10 =? 0)%N && negb (d =? 0)%N) eqn:E.
    + apply andb_true_iff in E. destruct E as [Em _]. apply N.eqb_eq in Em.
      pose proof (N.div_mod d 10 ltac:(lia)) as Hdm.
      destruct (IH (d / 10)%N (e + 1)%Z s e' H) as [Hs Hv]; [lia|].
      split; [exact Hs|]. rewrite Hv, (Qpower_plus _ _ _ ten_nonzero).
      assert (Hz : Z.of_N d = (Z.of_N (d / 10) * 10)%Z) by lia.
      rewrite Hz, inject_Z_mult. change ((10 # 1) ^ 1)%Q with (inject_Z 10). ring.
    + injection H as <- <-. split; [exact Hd | reflexivity].
Qed.

Lemma pretty_N_go_length (n : N) :
  forall acc, exists k : nat,
    String.length (pretty_N_go n acc) = (k + String.length acc)%nat /\
    (n = 0%N -> k = 0%nat) /\
    (n <> 0%N -> (0 < k)%nat /\ (10 ^ N.of_nat (k - 1) <= n < 10 ^ N.of_nat k)%N).
Proof.
  induction (N.lt_wf_0 n) as [n _ IH]. intros acc.
  destruct (N.eq_dec n 0%N) as [-> | Hn].
  - exists 0%nat. rewrite pretty_N_go_0. repeat split; congruence.
  - rewrite pretty_N_go_step by lia.
    destruct (IH (n / 10)%N) with (acc := String (pretty_N_char (n mod 10)%N) acc)
      as (k & Hlen & H0 & Hpos); [apply N.div_lt; lia|].
    exists (S k). split; [rewrite Hlen; simpl; lia|]. split; [congruence|].
    intros _. split; [lia|].
    pose proof (N.div_mod n 10 ltac:(lia)) as Hdm.
    pose proof (N.mod_lt n 10 ltac:(lia)) as Hm.
    replace (S k - 1)%nat with k by lia.
    rewrite Nat2N.inj_succ, N.pow_succ_r'.
    destruct (N.eq_dec (n / 10)%N 0%N) as [Hq | Hq].
    + rewrite (H0 Hq). simpl. lia.
    + destruct (Hpos Hq) as [Hk [Hlo Hhi]].
      replace (N.of_nat k) with (N.succ (N.of_nat (k - 1))) by lia.
      rewrite N.pow_succ_r'.
      replace (N.of_nat k) with (N.succ (N.of_nat (k - 1))) in Hhi by lia.
      rewrite N.pow_succ_r' in Hhi.
      clear IH Hlen H0 Hpos Hq.
      set (a := (10 ^ N.of_nat (k - 1))%N) in *. clearbody a.
      set (q := (n / 10)%N) in *. set (r := (n mod 10)%N) in *. clearbody q r. lia.
Qed.

(** The decimal numeral of a positive number has as many digits as the
    number has decimal places. *)
Lemma pretty_N_length (s : N) :
  s <> 0%N ->
  let k := String.length (pretty s) in
  (0 < k)%nat /\ (10 ^ N.of_nat (k - 1) <= s < 10 ^ N.of_nat k)%N.
Proof.
  intros Hs. cbv zeta. unfold pretty, pretty_N.
  destruct (decide (s = 0%N)) as [-> | _]; [congruence|].
  destruct (pretty_N_go_length s EmptyString) as (k & Hlen & _ & Hpos).
  rewrite Hlen. simpl String.length. rewrite Nat.add_0_r. exact (Hpos Hs).
Qed.

Lemma inject_pow10 (j : nat) :
  (inject_Z (Z.of_N (10 ^ N.of_nat j)) == (10 # 1) ^ Z.of_nat j)%Q.
Proof.
  rewrite N2Z.inj_pow, nat_N_Z. change (Z.of_N 10) with 10%Z.
  rewrite Zpower_Qpower by lia. reflexivity.
Qed.

(** The stripped mantissa [s] and exponent [e'] of a number other than
    zero, with the position [n] of the decimal point that
    [toString] computes: the magnitude lies between [10^(n-1)] and
    [10^n]. *)
Lemma decimal_view (d : N) (e : Z) :
  d <> 0%N ->
  exists s e',
    stripZeros (N.to_nat (N.size d)) d e = (s, e') /\
    (inject_Z (Z.of_N s) * (10 # 1) ^ e' == inject_Z (Z.of_N d) * (10 # 1) ^ e)%Q /\
    allDigits (pretty s) = true /\ digitsValue 0 (pretty s) = s /\
    let k := Z.of_nat (String.length (pretty s)) in
    let n := (e' + k)%Z in
    (1 <= k)%Z /\
    ((10 # 1) ^ (n - 1) <= inject_Z (Z.of_N d) * (10 # 1) ^ e)%Q /\
    (inject_Z (Z.of_N d) * (10 # 1) ^ e < (10 # 1) ^ n)%Q.
Proof.
  intros Hd.
  destruct (stripZeros (N.to_nat (N.size d)) d e) as [s e'] eqn:Es.
  destruct (stripZeros_value _ _ _ _ _ Es Hd) as [Hs Hv].
  exists s, e'. split; [reflexivity|]. split; [exact Hv|].
  destruct (pretty_N_digits s) as (Ha & _ & Hdv).
  split; [exact Ha|]. split; [exact Hdv|]. cbv zeta.
  destruct (pretty_N_length s Hs) as [Hk [Hlo Hhi]]. cbv zeta in Hk, Hlo, Hhi.
  set (K := String.length (pretty s)) in *.
  assert (Hpe : (0 < (10 # 1) ^ e')%Q) by (apply Qpower_0_lt; reflexivity).
  split; [lia|]. rewrite <- Hv. split.
  - replace (e' + Z.of_nat K - 1)%Z with (Z.of_nat (K - 1) + e')%Z by lia.
    rewrite (Qpower_plus _ _ _ ten_nonzero), <- inject_pow10.
    apply Qmult_le_compat_r; [|now apply Qlt_le_weak].
    rewrite <- Zle_Qle. lia.
  - replace (e' + Z.of_nat K)%Z with (Z.of_nat K + e')%Z by lia.
    rewrite (Qpower_plus _ _ _ ten_nonzero), <- inject_pow10.
    apply Qmult_lt_compat_r; [exact Hpe|].
    rewrite <- Zlt_Qlt. lia.
Qed.

(** A number is [plain] exactly when its decimal point lies at one of
    the positions that [toString] prints without an exponent. *)
Lemma plain_position (negative : bool) (d : N) (e : Z) (n : Z) :
  ((10 # 1) ^ (n - 1) <= inject_Z (Z.of_N d) * (10 # 1) ^ e)%Q ->
  (inject_Z (Z.of_N d) * (10 # 1) ^ e < (10 # 1) ^ n)%Q ->
  plain (Finite negative d e) = ((-6 <? n)%Z && (n <=? 21)%Z).
Proof.
  intros Hlo Hhi. unfold plain. cbv zeta.
  set (m := (inject_Z (Z.of_N d) * (10 # 1) ^ e)%Q) in *.
  assert (Hone : (1 < 10 # 1)%Q) by reflexivity.
  assert (Hone' : (1 <= 10 # 1)%Q) by discriminate.
  assert (Hm : (0 < m)%Q).
  { eapply Qlt_le_trans; [|exact Hlo]. apply Qpower_0_lt. reflexivity. }
  assert (E0 : Qeq_bool m 0 = false).
  { apply not_true_iff_false. intros H. apply Qeq_bool_iff in H. rewrite H in Hm.
    discriminate Hm. }
  rewrite E0, orb_false_l.
  assert (E6 : ((1 # 1000000) == (10 # 1) ^ (-6))%Q) by reflexivity.
  assert (E21 : (inject_Z (10 ^ 21) == (10 # 1) ^ 21)%Q) by reflexivity.
  destruct (Z.ltb_spec (-6) n) as [H6 | H6]; cbn [andb].
  - assert (Hle : Qle_bool (1 # 1000000) m = true).
    { apply Qle_bool_iff. rewrite E6. eapply Qle_trans; [|exact Hlo].
      apply Qpower_le_compat_l; [lia | exact Hone']. }
    rewrite Hle. cbn [andb]. destruct (Z.leb_spec n 21) as [H21 | H21].
    + apply negb_true_iff, not_true_iff_false. intros H. apply Qle_bool_iff in H.
      rewrite E21 in H. apply (Qlt_irrefl m). eapply Qlt_le_trans; [exact Hhi|].
      eapply Qle_trans; [|exact H]. apply Qpower_le_compat_l; [lia | exact Hone'].
    + apply negb_false_iff, Qle_bool_iff. rewrite E21.
      eapply Qle_trans; [|exact Hlo]. apply Qpower_le_compat_l; [lia | exact Hone'].
  - apply andb_false_iff. left. apply not_true_iff_false. intros H.
    apply Qle_bool_iff in H. rewrite E6 in H. apply (Qlt_irrefl m).
    eapply Qlt_le_trans; [exact Hhi|]. eapply Qle_trans; [|exact H].
    apply Qpower_le_compat_l; [lia | exact Hone'].
Qed.

Lemma plain_zero (negative : bool) (e : Z) : plain (Finite negative 0 e) = true.
Proof.
  unfold plain. cbv zeta. apply orb_true_iff. left. apply Qeq_bool_iff.
  change (inject_Z (Z.of_N 0)) with 0%Q. apply Qmult_0_l.
Qed.

Lemma in_chars_r (c : ascii) (a b : string) :
  In c (list_ascii_of_string b) -> In c (list_ascii_of_string (a ++ b)).
Proof. intros H. rewrite chars_app. apply in_or_app. now right. Qed.

(** A number that is not [plain] prints with a character no margin is
    written with: a letter of [NaN] or [Infinity], or the [e] of the
    exponent. *)
Lemma toString_exponent (x : JsNumber.t) :
  plain x = false ->
  exists c, In c (list_ascii_of_string (toString x)) /\ marginChar c = false.
Proof.
  intros Hx. destruct x as [|negative|negative d e].
  - exists "N"%char. split; [now left | reflexivity].
  - exists "I"%char. split; [|reflexivity]. destruct negative; simpl; auto.
  - destruct (N.eq_dec d 0%N) as [-> | Hd]; [now rewrite plain_zero in Hx|].
    destruct (decimal_view d e Hd) as (s & e' & Es & _ & _ & _ & Hk & Hlo & Hhi).
    cbv zeta in Hk, Hlo, Hhi.
    rewrite (plain_position negative d e _ Hlo Hhi) in Hx.
    exists "e"%char. split; [|reflexivity].
    unfold toString. rewrite (proj2 (N.eqb_neq d 0) Hd), Es. cbv beta iota zeta.
    set (k := Z.of_nat (String.length (pretty s))) in *.
    assert (E1 : ((k <=? e' + k)%Z && (e' + k <=? 21)%Z) = false).
    { apply andb_false_iff in Hx. apply andb_false_iff.
      destruct Hx as [H | H]; [left | right]; [|exact H].
      apply Z.ltb_ge in H. apply Z.leb_gt. lia. }
    assert (E2 : ((0 <? e' + k)%Z && (e' + k <=? 21)%Z) = false).
    { apply andb_false_iff in Hx. apply andb_false_iff.
      destruct Hx as [H | H]; [left | right]; [|exact H].
      apply Z.ltb_ge in H. apply Z.ltb_ge. lia. }
    assert (E3 : ((-6 <? e' + k)%Z && (e' + k <=? 0)%Z) = false).
    { apply andb_false_iff in Hx. apply andb_false_iff.
      destruct Hx as [H | H]; [left | right]; [exact H|].
      apply Z.leb_gt in H. apply Z.leb_gt. lia. }
    rewrite E1, E2, E3.
    assert (He : forall a b, In "e"%char (list_ascii_of_string (a ++ String "e" b))).
    { intros a b. apply in_chars_r. now left. }
    destruct (k =? 1)%Z, negative;
      repeat first [apply He | apply in_chars_r | right; apply He
                   | change (?a ++ "." ++ ?b)%string with (a ++ String "." b)%string ].
Qed.

Lemma concat_zeros (m : nat) :
  String.concat "" (repeat "0"%string (S m))
  = String "0" (String.concat "" (repeat "0"%string m)).
Proof. destruct m; reflexivity. Qed.

Lemma digitsValue_app (a b : string) (acc : N) :
  digitsValue acc (a ++ b) = digitsValue (digitsValue acc a) b.
Proof.
  revert acc. induction a as [|c a IH]; intros acc; [reflexivity|].
  rewrite append_cons. cbn [digitsValue]. apply IH.
Qed.

Lemma zeros_digits (z : Z) :
  allDigits (zeros z) = true /\ String.length (zeros z) = Z.to_nat z /\
  forall acc, digitsValue acc (zeros z) = (acc * 10 ^ N.of_nat (Z.to_nat z))%N.
Proof.
  unfold zeros. induction (Z.to_nat z) as [|m (Ha & Hl & Hv)].
  - repeat split. intros acc. simpl. lia.
  - rewrite concat_zeros. cbn [allDigits String.length digitsValue].
    rewrite Ha, Hl. repeat split. intros acc. rewrite Hv, Nat2N.inj_succ, N.pow_succ_r'.
    change (N_of_ascii "0" - 48)%N with 0%N. lia.
Qed.

Lemma splitDot_point (i f : string) :
  allDigits i = true -> splitDot (i ++ String "." f) = (i, Some f).
Proof.
  induction i as [|c i IH]; [reflexivity|].
  simpl. intros H. apply andb_true_iff in H. destruct H as [Hc Hi].
  destruct (Ascii.eqb c ".") eqn:E.
  - apply Ascii.eqb_eq in E. subst c. discriminate.
  - now rewrite (IH Hi).
Qed.

Lemma point_no_sign (i f : string) :
  allDigits i = true ->
  match (i ++ String "." f)%string with
  | String "-" r => (true, r)
  | _ => (false, (i ++ String "." f)%string)
  end = (false, (i ++ String "." f)%string).
Proof.
  destruct i as [|c i]; [reflexivity|]. simpl.
  intros H. apply andb_true_iff in H. destruct H as [Hc _].
  destruct c as [[] [] [] [] [] [] [] []]; try reflexivity. discriminate.
Qed.

Lemma parseNumber_point (i f : string) :
  allDigits i = true -> allDigits f = true -> f <> EmptyString ->
  parseNumber (i ++ String "." f)
  = Some (inject_Z (Z.of_N (digitsValue 0 (i ++ f)))
          / inject_Z (10 ^ Z.of_nat (String.length f)))%Q.
Proof.
  intros Hi Hf Hne. unfold parseNumber.
  rewrite (point_no_sign i f Hi), (splitDot_point i f Hi), Hi, Hf.
  destruct f; [congruence | reflexivity].
Qed.

Lemma length_substring_prefix (s : string) (n : nat) :
  (n <= String.length s)%nat -> String.length (substring 0 n s) = n.
Proof.
  revert n. induction s as [|c s IH]; intros n Hn.
  - simpl in Hn. now replace n with 0%nat by lia.
  - destruct n as [|n]; [reflexivity|]. simpl in *. rewrite IH by lia. reflexivity.
Qed.

Lemma parseMargin_px (text : string) (v : Q) :
  parseNumber text = Some v -> parseMargin (text ++ "px") = Some (mkMargin v px).
Proof.
  intros Hv. unfold parseMargin.
  pose proof (takeLast_app text "px") as Ht. pose proof (dropLast_app text "px") as Hd.
  cbn [String.length] in Ht, Hd. rewrite Ht, Hd, Hv. reflexivity.
Qed.

Lemma parseNumber_minus (text : string) (v : Q) :
  match text with String "-" r => (true, r) | _ => (false, text) end = (false, text) ->
  parseNumber text = Some v ->
  parseNumber (String "-" text) = Some (- v)%Q.
Proof.
  unfold parseNumber. intros H. rewrite H. cbv beta iota.
  destruct (splitDot text) as [i f].
  match goal with |- (if ?b then _ else _) = _ -> _ => destruct b end;
    [|discriminate].
  intros [= <-]. reflexivity.
Qed.

Lemma scaled_value (s : N) (e' : Z) (j : nat) :
  Z.of_nat j = (- e')%Z ->
  (inject_Z (Z.of_N s) / inject_Z (10 ^ Z.of_nat j)
   == inject_Z (Z.of_N s) * (10 # 1) ^ e')%Q.
Proof.
  intros Hj. rewrite Zpower_Qpower by lia. change (inject_Z 10) with (10 # 1)%Q.
  replace e' with (- Z.of_nat j)%Z by lia. rewrite Qpower_opp. reflexivity.
Qed.

Lemma point_noSpaces (i f : string) :
  allDigits i = true -> allDigits f = true -> noSpaces (i ++ String "." f) = true.
Proof.
  intros Hi Hf. rewrite noSpaces_app. cbn [noSpaces].
  now rewrite (allDigits_noSpaces i Hi), (allDigits_noSpaces f Hf).
Qed.

(** The three forms [toString] prints without an exponent spell the
    number: digits followed by zeros, digits around a point, and
    ["0."] followed by zeros and the digits. *)
Lemma plain_text (s : N) (e' : Z) :
  let ds := pretty s in
  let k := Z.of_nat (String.length ds) in
  let n := (e' + k)%Z in
  let body :=
    if (k <=? n)%Z && (n <=? 21)%Z then (ds ++ zeros (n - k))%string
    else if (0 <? n)%Z && (n <=? 21)%Z then
      (substring 0 (Z.to_nat n) ds ++ "." ++
       substring (Z.to_nat n) (Z.to_nat (k - n)) ds)%string
    else ("0." ++ zeros (- n) ++ ds)%string in
  allDigits ds = true -> digitsValue 0 ds = s -> (1 <= k)%Z -> (n <= 21)%Z ->
  exists v,
    parseNumber body = Some v /\
    match body with String "-" r => (true, r) | _ => (false, body) end = (false, body) /\
    noSpaces body = true /\
    (v == inject_Z (Z.of_N s) * (10 # 1) ^ e')%Q.
Proof.
  intros ds k n body Ha Hdv Hk Hn. subst body.
  assert (HK : (1 <= String.length ds)%nat) by (unfold k in Hk; lia).
  assert (E21 : (n <=? 21)%Z = true) by now apply Z.leb_le.
  rewrite E21, !andb_true_r.
  destruct (Z.leb_spec k n) as [H1 | H1]; [|destruct (Z.ltb_spec 0 n) as [H2 | H2]].
  - destruct (zeros_digits (n - k)) as (Hza & Hzl & Hzv).
    assert (Hall : allDigits (ds ++ zeros (n - k)) = true).
    { now rewrite allDigits_app, Ha, Hza. }
    assert (Hne : (ds ++ zeros (n - k))%string <> EmptyString).
    { intros E. apply (f_equal String.length) in E.
      rewrite string_length_app in E. simpl in E. lia. }
    eexists. split; [apply (parseNumber_digits _ Hall Hne)|].
    split; [apply (allDigits_no_sign _ Hall)|].
    split; [apply (allDigits_noSpaces _ Hall)|].
    rewrite string_app_nil_r, digitsValue_app, Hdv, Hzv.
    change (inject_Z (10 ^ Z.of_nat 0)) with 1%Q. unfold Qdiv. change (/ 1)%Q with 1%Q.
    rewrite Qmult_1_r, N2Z.inj_mul, inject_Z_mult, inject_pow10.
    replace (Z.of_nat (Z.to_nat (n - k))) with e' by lia. reflexivity.
  - set (i := substring 0 (Z.to_nat n) ds).
    set (f := substring (Z.to_nat n) (Z.to_nat (k - n)) ds).
    assert (Hif : (i ++ f)%string = ds) by (apply substring_split; lia).
    assert (Hli : String.length i = Z.to_nat n) by (apply length_substring_prefix; lia).
    assert (Hlf : String.length f = Z.to_nat (k - n)).
    { pose proof (string_length_app i f) as H. rewrite Hif in H. lia. }
    assert (Hall : allDigits i = true /\ allDigits f = true).
    { apply andb_true_iff. rewrite <- allDigits_app, Hif. exact Ha. }
    destruct Hall as [Hi Hf].
    assert (Hne : f <> EmptyString) by (intros E; rewrite E in Hlf; simpl in Hlf; lia).
    change (i ++ "." ++ f)%string with (i ++ String "." f)%string.
    eexists. split; [apply (parseNumber_point i f Hi Hf Hne)|].
    split; [apply (point_no_sign i f Hi)|].
    split; [apply (point_noSpaces i f Hi Hf)|].
    rewrite Hif, Hdv. apply scaled_value. lia.
  - destruct (zeros_digits (- n)) as (Hza & Hzl & Hzv).
    set (f := (zeros (- n) ++ ds)%string).
    assert (Hf : allDigits f = true) by (unfold f; now rewrite allDigits_app, Ha, Hza).
    assert (Hne : f <> EmptyString).
    { intros E. pose proof (string_length_app (zeros (- n)) ds) as H.
      fold f in H. rewrite E in H. simpl in H. lia. }
    change ("0." ++ f)%string with ("0" ++ String "." f)%string.
    eexists. split; [apply (parseNumber_point "0" f eq_refl Hf Hne)|].
    split; [reflexivity|].
    split; [apply (point_noSpaces "0" f eq_refl Hf)|].
    assert (Hv : digitsValue 0 ("0" ++ f) = s).
    { unfold f. change ("0" ++ zeros (- n) ++ ds)%string
        with (String "0" (zeros (- n) ++ ds)).
      cbn [digitsValue]. rewrite digitsValue_app, Hzv.
      change (N_of_ascii "0" - 48)%N with 0%N.
      replace ((0 * 10 + 0) * 10 ^ N.of_nat (Z.to_nat (- n)))%N with 0%N by lia.
      exact Hdv. }
    rewrite Hv. apply scaled_value.
    unfold f. rewrite string_length_app, Hzl. lia.
Qed.

Lemma signed_piece (negative : bool) (body : string) (v : Q) :
  match body with String "-" r => (true, r) | _ => (false, body) end = (false, body) ->
  parseNumber body = Some v -> noSpaces body = true ->
  let text := (if negative then "-" ++ body else body)%string in
  parseMargin (text ++ "px") = Some (mkMargin (if negative then - v else v)%Q px) /\
  noSpaces (text ++ "px") = true.
Proof.
  intros Hsign Hv Hsp text. subst text. destruct negative.
  - change ("-" ++ body)%string with (String "-" body). split.
    + apply parseMargin_px. now apply parseNumber_minus.
    + rewrite noSpaces_app. cbn [noSpaces]. now rewrite Hsp.
  - split; [now apply parseMargin_px | now rewrite noSpaces_app, Hsp].
Qed.

(** A [plain] number, written with the unit, is one piece, and it is
    read back as the number. *)
Lemma pixels_plain (x : JsNumber.t) :
  plain x = true ->
  exists q v,
    toQ x = Some q /\ (v == q)%Q /\
    parseMargin (pixels x) = Some (mkMargin v px) /\ noSpaces (pixels x) = true.
Proof.
  intros Hx. destruct x as [| |negative d e]; [discriminate..|].
  unfold pixels. cbn [toQ].
  destruct (N.eq_dec d 0%N) as [-> | Hd].
  - eexists. exists (0 / 1)%Q. split; [reflexivity|]. split; [|split; reflexivity].
    change (inject_Z (Z.of_N 0)) with 0%Q.
    destruct negative; [rewrite Qmult_0_l|rewrite Qmult_0_l]; reflexivity.
  - destruct (decimal_view d e Hd) as (s & e' & Es & Hv & Ha & Hdv & Hk & Hlo & Hhi).
    cbv zeta in Hk, Hlo, Hhi.
    rewrite (plain_position negative d e _ Hlo Hhi) in Hx.
    apply andb_true_iff in Hx. destruct Hx as [H6 H21].
    apply Z.ltb_lt in H6. apply Z.leb_le in H21.
    destruct (plain_text s e' Ha Hdv Hk H21) as (v & Hp & Hsign & Hsp & Hval).
    unfold toString. rewrite (proj2 (N.eqb_neq d 0) Hd), Es. cbv beta iota zeta.
    set (k := Z.of_nat (String.length (pretty s))) in *.
    assert (E3 : ((-6 <? e' + k)%Z && (e' + k <=? 0)%Z) = negb (0 <? e' + k)%Z).
    { destruct (Z.ltb_spec (-6) (e' + k)), (Z.leb_spec (e' + k) 0),
        (Z.ltb_spec 0 (e' + k)); try reflexivity; lia. }
    assert (E21 : (e' + k <=? 21)%Z = true) by now apply Z.leb_le.
    rewrite E3, E21, !andb_true_r in *.
    exists (if negative then - (inject_Z (Z.of_N d) * (10 # 1) ^ e)
            else inject_Z (Z.of_N d) * (10 # 1) ^ e)%Q,
           (if negative then - v else v)%Q.
    split; [now destruct negative|].
    split; [destruct negative; now rewrite Hval, Hv|].
    destruct (k <=? e' + k)%Z; [|destruct (0 <? e' + k)%Z]; cbn [negb andb] in *;
      match type of Hp with
      | parseNumber ?b = _ => exact (signed_piece negative b v Hsign Hp Hsp)
      end.
Qed.

Lemma pixels_nonempty (x : JsNumber.t) : pixels x <> EmptyString.
Proof. unfold pixels. destruct (toString x); discriminate. Qed.

Lemma rootMargin_pieces (marginTop marginBottom : JsNumber.t) :
  noSpaces (pixels marginTop) = true -> noSpaces (pixels marginBottom) = true ->
  splitSpaces false EmptyString (rootMargin marginTop marginBottom)
  = [pixels marginTop; "0px"%string; pixels marginBottom; "0px"%string].
Proof.
  intros Ht Hb. unfold rootMargin.
  replace (pixels marginTop ++ " 0px " ++ pixels marginBottom ++ " 0px")%string
    with (pixels marginTop ++ String " "
            ("0px" ++ String " " (pixels marginBottom ++ String " " ("0px" ++ ""))))%string
    by reflexivity.
  rewrite (splitSpaces_piece _ Ht (pixels_nonempty marginTop)).
  cbn [splitSpaces]. simpl isSpace. cbv iota. rewrite append_nil_l. f_equal.
  rewrite (splitSpaces_piece "0px" eq_refl ltac:(discriminate)).
  cbn [splitSpaces]. simpl isSpace. cbv iota. rewrite append_nil_l. f_equal.
  rewrite (splitSpaces_piece _ Hb (pixels_nonempty marginBottom)).
  cbn [splitSpaces]. simpl isSpace. cbv iota. rewrite append_nil_l. f_equal.
Qed.

(** X29. The margin string of a step observer,
    [`${marginTop}px 0px ${marginBottom}px 0px`], is accepted exactly
    when both numbers print without an exponent, that is when each is
    zero or of a magnitude from [1e-6] up to but excluding [1e21]; it
    is then read back as those two numbers of pixels with zero to the
    right and to the left.  For any other number, a smaller or larger
    one, [NaN] or an infinity, the string is rejected with the margin
    error. *)
Theorem rootMargin_accepted_when_plain (marginTop marginBottom : JsNumber.t) :
  if plain marginTop && plain marginBottom
  then exists t b vt vb,
         toQ marginTop = Some t /\ toQ marginBottom = Some b /\
         (vt == t)%Q /\ (vb == b)%Q /\
         _parseRootMargin (Some (rootMargin marginTop marginBottom))
         = Return [mkMargin vt px; mkMargin 0 px; mkMargin vb px; mkMargin 0 px]
  else _parseRootMargin (Some (rootMargin marginTop marginBottom))
       = Throw "rootMargin must be specified in pixels or percent".
Proof.
  destruct (plain marginTop) eqn:Et; [destruct (plain marginBottom) eqn:Eb|]; cbn [andb].
  - destruct (pixels_plain marginTop Et) as (t & vt & Hqt & Hvt & Hpt & Hst).
    destruct (pixels_plain marginBottom Eb) as (b & vb & Hqb & Hvb & Hpb & Hsb).
    exists t, b, vt, vb. repeat (split; [assumption|]).
    unfold _parseRootMargin.
    assert (Hs : exists a r, rootMargin marginTop marginBottom = String a r).
    { unfold rootMargin, pixels. destruct (toString marginTop); simpl; eauto. }
    destruct Hs as (a & r & Hs). rewrite Hs, <- Hs, (rootMargin_pieces _ _ Hst Hsb).
    cbn [parseMargins]. rewrite Hpt, Hpb. reflexivity.
  - destruct (toString_exponent marginBottom Eb) as (c & Hc & Hbad).
    apply (margins_reject_character _ c); [|exact Hbad].
    unfold rootMargin, pixels. apply in_chars_r, in_chars_r.
    rewrite !chars_app. apply in_or_app. left. apply in_or_app. now left.
  - destruct (toString_exponent marginTop Et) as (c & Hc & Hbad).
    apply (margins_reject_character _ c); [|exact Hbad].
    unfold rootMargin, pixels. rewrite !chars_app. apply in_or_app. left.
    apply in_or_app. now left.
Qed.

End MarginNumbers.

(** ** Margin components as the sequencer writes them *)

Section MarginParts.
Import Registry Geometry IntersectionObserver JsNumber MarginText.
Local Open Scope Q_scope.

Lemma bool_eq_iff (a b : bool) : (a = true <-> b = true) -> a = b.
Proof.
  destruct a, b; intros [H1 H2]; try reflexivity;
    [symmetry; now apply H1 | now apply H2].
Qed.

Lemma printsPlain_magnitude (q m : Q) :
  0 <= m -> q == m \/ q == - m ->
  Scrollama.printsPlain q
  = (Qeq_bool m 0
     || (Qle_bool (1 # 1000000) m && negb (Qle_bool (inject_Z (10 ^ 21)) m))).
Proof.
  intros Hm Hq. unfold Scrollama.printsPlain, Double.lt.
  assert (Hmag : Double.magnitude q == m).
  { unfold Double.magnitude.
    destruct (Q.max_spec q (- q)) as [[H E] | [H E]]; rewrite E; destruct Hq; lra. }
  assert (E1 : Qeq_bool q 0 = Qeq_bool m 0).
  { apply bool_eq_iff. rewrite !Qeq_bool_iff. destruct Hq as [-> | ->]; split; intros; lra. }
  assert (E2 : Qle_bool (1 # 1000000) (Double.magnitude q) = Qle_bool (1 # 1000000) m).
  { apply bool_eq_iff. rewrite !Qle_bool_iff. now rewrite Hmag. }
  assert (E3 : Qle_bool (inject_Z (10 ^ 21)) (Double.magnitude q)
               = Qle_bool (inject_Z (10 ^ 21)) m).
  { apply bool_eq_iff. rewrite !Qle_bool_iff. now rewrite Hmag. }
  now rewrite E1, E2, E3.
Qed.

Lemma toString_plain (negative : bool) (d : N) (e : Z) :
  d <> 0%N -> plain (Finite negative d e) = true ->
  exists body v,
    toString (Finite negative d e) = (if negative then "-" ++ body else body)%string /\
    parseNumber body = Some v /\
    match body with String "-" r => (true, r) | _ => (false, body) end = (false, body) /\
    noSpaces body = true /\
    v == inject_Z (Z.of_N d) * (10 # 1) ^ e.
Proof.
  intros Hd Hx.
  destruct (decimal_view d e Hd) as (s & e' & Es & Hv & Ha & Hdv & Hk & Hlo & Hhi).
  cbv zeta in Hk, Hlo, Hhi.
  rewrite (plain_position negative d e _ Hlo Hhi) in Hx.
  apply andb_true_iff in Hx. destruct Hx as [H6 H21].
  apply Z.ltb_lt in H6. apply Z.leb_le in H21.
  destruct (plain_text s e' Ha Hdv Hk H21) as (v & Hp & Hsign & Hsp & Hval).
  unfold toString. rewrite (proj2 (N.eqb_neq d 0) Hd), Es. cbv beta iota zeta.
  set (k := Z.of_nat (String.length (pretty s))) in *.
  assert (E3 : ((-6 <? e' + k)%Z && (e' + k <=? 0)%Z) = negb (0 <? e' + k)%Z).
  { destruct (Z.ltb_spec (-6) (e' + k)), (Z.leb_spec (e' + k) 0),
      (Z.ltb_spec 0 (e' + k)); try reflexivity; lia. }
  assert (E21 : (e' + k <=? 21)%Z = true) by now apply Z.leb_le.
  rewrite E3, E21, !andb_true_r in *.
  destruct (k <=? e' + k)%Z; [|destruct (0 <? e' + k)%Z]; cbn [negb andb] in *;
    (eexists _, v; split; [reflexivity|]; split; [exact Hp|]; split; [exact Hsign|];
     split; [exact Hsp | now rewrite Hval, Hv]).
Qed.

Lemma parseMargin_px_none (text : string) :
  parseNumber text = None -> parseMargin (text ++ "px") = None.
Proof.
  intros Hv. unfold parseMargin.
  pose proof (takeLast_app text "px") as Ht. pose proof (dropLast_app text "px") as Hd.
  cbn [String.length] in Ht, Hd. rewrite Ht, Hd, Hv. reflexivity.
Qed.

Lemma parseNumber_two_signs (s : string) : parseNumber (String "-" (String "-" s)) = None.
Proof.
  unfold parseNumber. cbn [splitDot]. change (Ascii.eqb "-" ".") with false. cbv iota.
  destruct (splitDot s) as [i [f|]]; reflexivity.
Qed.

Lemma parseMargin_bad_character (margin : string) :
  (exists c, In c (list_ascii_of_string margin) /\ marginChar c = false) ->
  parseMargin margin = None.
Proof.
  intros (c & Hin & Hbad). destruct (parseMargin margin) as [m|] eqn:E; [|reflexivity].
  rewrite (parseMargin_chars margin m c E Hin) in Hbad. discriminate.
Qed.

(** A component is read as [parsed] says; a component that is not
    read holds a character no margin holds, or is one piece that does
    not match. *)
Lemma written_parsed (negated : bool) (x : JsNumber.t) :
  match Scrollama.parsed (part negated x) with
  | Some q =>
      exists v, v == q /\ parseMargin (written negated x) = Some (mkMargin v px) /\
                noSpaces (written negated x) = true
  | None =>
      (exists c, In c (list_ascii_of_string (written negated x)) /\ marginChar c = false) \/
      (parseMargin (written negated x) = None /\ noSpaces (written negated x) = true)
  end.
Proof.
  destruct (plain x) eqn:Hx.
  2:{ assert (Hp : match toQ x with Some q => Scrollama.printsPlain q = false | None => True end).
      { destruct x as [| |negative d e]; [exact I..|]. cbn [toQ].
        rewrite (printsPlain_magnitude _ (inject_Z (Z.of_N d) * (10 # 1) ^ e)).
        - exact Hx.
        - apply Qmult_le_0_compat; [change 0 with (inject_Z 0); rewrite <- Zle_Qle; lia|].
          apply Qlt_le_weak, Qpower_0_lt. reflexivity.
        - destruct negative; [right | left]; reflexivity. }
      destruct (toString_exponent x Hx) as (c & Hc & Hbad).
      assert (Hno : Scrollama.parsed (part negated x) = None).
      { unfold Scrollama.parsed, part.
        destruct negated; (destruct (toQ x) as [q|]; [rewrite Hp|]; reflexivity). }
      rewrite Hno. left. exists c. split; [|exact Hbad].
      unfold written, pixels. destruct negated; [apply in_chars_r|];
        rewrite chars_app; apply in_or_app; now left. }
  destruct x as [| |negative d e]; [discriminate..|]. unfold part. cbn [toQ].
  set (m := inject_Z (Z.of_N d) * (10 # 1) ^ e).
  assert (Hm : 0 <= m).
  { apply Qmult_le_0_compat; [change 0 with (inject_Z 0); rewrite <- Zle_Qle; lia|].
    apply Qlt_le_weak, Qpower_0_lt. reflexivity. }
  assert (Hp : Scrollama.printsPlain (if negative then - m else m) = true).
  { rewrite (printsPlain_magnitude _ m Hm); [exact Hx|].
    destruct negative; [right | left]; reflexivity. }
  destruct (N.eq_dec d 0%N) as [Hd | Hd].
  - assert (Hz : m == 0) by (unfold m; rewrite Hd; apply Qmult_0_l).
    assert (Hs : toString (Finite negative d e) = "0"%string)
      by (unfold toString; now rewrite Hd).
    assert (Hle : Qle_bool 0 (if negative then - m else m) = true).
    { apply Qle_bool_iff. destruct negative; lra. }
    unfold written, pixels. rewrite Hs.
    destruct negated; unfold Scrollama.parsed; rewrite Hp, ?Hle; cbn [andb].
    + exists (- (0 / 1)). split; [destruct negative; rewrite Hz; reflexivity|].
      split; reflexivity.
    + exists (0 / 1). split; [destruct negative; rewrite Hz; reflexivity|].
      split; reflexivity.
  - destruct (toString_plain negative d e Hd Hx) as (body & v & Hs & Hv & Hsign & Hsp & Hval).
    fold m in Hval.
    assert (Hpos : 0 < m).
    { unfold m. apply Qmult_lt_0_compat; [|apply Qpower_0_lt; reflexivity].
      change 0 with (inject_Z 0). rewrite <- Zlt_Qlt. lia. }
    unfold written, pixels. rewrite Hs.
    destruct negated; unfold Scrollama.parsed; rewrite Hp; cbn [andb].
    + destruct negative.
      * assert (Hle : Qle_bool 0 (- m) = false).
        { destruct (Qle_bool 0 (- m)) eqn:E; [|reflexivity].
          apply Qle_bool_iff in E. lra. }
        rewrite Hle. right.
        change ("-" ++ ("-" ++ body) ++ "px")%string
          with ((String "-" (String "-" body)) ++ "px")%string.
        split; [apply parseMargin_px_none, parseNumber_two_signs|].
        rewrite noSpaces_app. cbn [noSpaces]. now rewrite Hsp.
      * assert (Hle : Qle_bool 0 m = true) by (apply Qle_bool_iff; lra).
        rewrite Hle. exists (- v). split; [now rewrite Hval|].
        apply (signed_piece true body v Hsign Hv Hsp).
    + exists (if negative then - v else v). split; [destruct negative; now rewrite Hval|].
      apply (signed_piece negative body v Hsign Hv Hsp).
Qed.

Lemma written_nonempty (negated : bool) (x : JsNumber.t) : written negated x <> EmptyString.
Proof.
  unfold written. destruct negated; [discriminate | apply pixels_nonempty].
Qed.

Lemma template_pieces (top bottom : string) :
  noSpaces top = true -> noSpaces bottom = true ->
  top <> EmptyString -> bottom <> EmptyString ->
  splitSpaces false EmptyString (template top bottom)
  = [top; "0px"%string; bottom; "0px"%string].
Proof.
  intros Ht Hb Hnt Hnb. unfold template.
  replace (top ++ " 0px " ++ bottom ++ " 0px")%string
    with (top ++ String " " ("0px" ++ String " " (bottom ++ String " " ("0px" ++ ""))))%string
    by reflexivity.
  rewrite (splitSpaces_piece _ Ht Hnt).
  cbn [splitSpaces]. simpl isSpace. cbv iota. rewrite append_nil_l. f_equal.
  rewrite (splitSpaces_piece "0px" eq_refl ltac:(discriminate)).
  cbn [splitSpaces]. simpl isSpace. cbv iota. rewrite append_nil_l. f_equal.
  rewrite (splitSpaces_piece _ Hb Hnb).
  cbn [splitSpaces]. simpl isSpace. cbv iota. rewrite append_nil_l. f_equal.
Qed.

(** X3. The margin string of an observer, [`${top} 0px ${bottom} 0px`]
    where each of the two components is a number written as [`${x}px`]
    or, after the template's own minus sign, as [`-${x}px`], is read by
    the registry as [parsed] says.  The string is accepted when each of
    the two numbers prints without an exponent (it is zero, or its
    magnitude is at least [1e-6] and below [1e21]) and, after the
    template's minus sign, without a sign of its own; the margins are
    then those numbers of pixels, negated after the minus sign, with
    zero to the right and to the left.  Otherwise the constructor
    raises the margin error: for a smaller or a larger number, [NaN] or
    an infinity, and for a negative number after the minus sign. *)
Theorem margin_string_parsed (negatedTop negatedBottom : bool)
    (marginTop marginBottom : JsNumber.t) :
  let marginString :=
    template (written negatedTop marginTop) (written negatedBottom marginBottom) in
  match Scrollama.parsed (part negatedTop marginTop),
        Scrollama.parsed (part negatedBottom marginBottom) with
  | Some t, Some b =>
      exists vt vb,
        vt == t /\ vb == b /\
        _parseRootMargin (Some marginString)
        = Return [mkMargin vt px; mkMargin 0 px; mkMargin vb px; mkMargin 0 px]
  | _, _ =>
      _parseRootMargin (Some marginString)
      = Throw "rootMargin must be specified in pixels or percent"
  end.
Proof.
  cbv zeta.
  pose proof (written_parsed negatedTop marginTop) as Ht.
  pose proof (written_parsed negatedBottom marginBottom) as Hb.
  pose proof (written_nonempty negatedTop marginTop) as Hnt.
  pose proof (written_nonempty negatedBottom marginBottom) as Hnb.
  revert Ht Hb Hnt Hnb.
  generalize (written negatedTop marginTop) (written negatedBottom marginBottom).
  generalize (Scrollama.parsed (part negatedTop marginTop))
             (Scrollama.parsed (part negatedBottom marginBottom)).
  intros pt pb top bottom Ht Hb Hnt Hnb.
  assert (Hstart : exists a r, template top bottom = String a r).
  { unfold template. destruct top; [congruence | simpl; eauto]. }
  assert (Hbad : forall c,
            In c (list_ascii_of_string top) \/ In c (list_ascii_of_string bottom) ->
            marginChar c = false ->
            _parseRootMargin (Some (template top bottom))
            = Throw "rootMargin must be specified in pixels or percent").
  { intros c Hc Hno. apply (margins_reject_character _ c); [|exact Hno].
    unfold template. destruct Hc as [Hc | Hc].
    - rewrite chars_app. apply in_or_app. now left.
    - apply in_chars_r, in_chars_r. rewrite chars_app. apply in_or_app. now left. }
  assert (Hsplit : noSpaces top = true -> noSpaces bottom = true ->
            _parseRootMargin (Some (template top bottom))
            = match parseMargins [top; "0px"%string; bottom; "0px"%string] with
              | Return margins => Return (completeShorthand margins)
              | Throw message => Throw message
              end).
  { intros H1 H2. unfold _parseRootMargin. destruct Hstart as (a & r & Hs).
    rewrite Hs, <- Hs, (template_pieces top bottom H1 H2 Hnt Hnb). reflexivity. }
  destruct pt as [t|], pb as [b|].
  - destruct Ht as (vt & Hvt & Hpt & Hst). destruct Hb as (vb & Hvb & Hpb & Hsb).
    exists vt, vb. split; [exact Hvt|]. split; [exact Hvb|].
    rewrite (Hsplit Hst Hsb). cbn [parseMargins]. rewrite Hpt, Hpb. reflexivity.
  - destruct Ht as (vt & Hvt & Hpt & Hst).
    destruct Hb as [(c & Hc & Hno) | [Hpb Hsb]]; [apply (Hbad c); auto|].
    rewrite (Hsplit Hst Hsb). cbn [parseMargins]. rewrite Hpt, Hpb. reflexivity.
  - destruct Hb as (vb & Hvb & Hpb & Hsb).
    destruct Ht as [(c & Hc & Hno) | [Hpt Hst]]; [apply (Hbad c); auto|].
    rewrite (Hsplit Hst Hsb). cbn [parseMargins]. now rewrite Hpt.
  - destruct Ht as [(c & Hc & Hno) | [Hpt Hst]]; [apply (Hbad c); auto|].
    destruct Hb as [(c & Hc & Hno) | [Hpb Hsb]]; [apply (Hbad c); auto|].
    rewrite (Hsplit Hst Hsb). cbn [parseMargins]. now rewrite Hpt.
Qed.

End MarginParts.


(** ** Enter and exit calls in turn *)

Section Alternation.
Import Scrollama Turns.

Lemma alternates_app (i : nat) (evs1 evs2 : list Event) :
  forall b,
    alternates i b (evs1 ++ evs2)
    = match alternates i b evs1 with
      | Some b' => alternates i b' evs2
      | None => None
      end.
Proof.
  induction evs1 as [|e evs1 IH]; intros b; [reflexivity|].
  destruct e; cbn [app alternates]; try apply IH;
    destruct (Nat.eqb index i), b; try reflexivity; apply IH.
Qed.

Lemma alternates_stepCalls (i : nat) (evs : list Event) :
  forall b, alternates i b (stepCalls evs) = alternates i b evs.
Proof.
  induction evs as [|e evs IH]; intros b; [reflexivity|].
  unfold stepCalls in *. destruct e; cbn [List.filter isStepCall alternates];
    try apply IH; destruct (Nat.eqb index i), b; try reflexivity; apply IH.
Qed.

#[global] Instance inTurn_preorder : PreOrder inTurn.
Proof.
  split.
  - intros s. exists []. split; [now rewrite app_nil_r | reflexivity].
  - intros a b c (e1 & Hl1 & H1) (e2 & Hl2 & H2). exists (e1 ++ e2). split.
    + now rewrite Hl2, Hl1, app_assoc.
    + intros i. now rewrite alternates_app, H1, H2.
Qed.

#[global] Instance takesTurns_preorder (n : nat) : PreOrder (takesTurns n).
Proof.
  split.
  - intros s Hs. split; [exact Hs | reflexivity].
  - intros a b c Hab Hbc Ha. destruct (Hab Ha) as [Hb Hab'].
    destruct (Hbc Hb) as [Hc Hbc']. split; [exact Hc | now transitivity b].
Qed.

(** A step that leaves the state table, the steps and the settings
    alone and logs no step call. *)
Lemma takesTurns_quiet (n : nat) (s s' : Session.t) (evs : list Event) :
  Session.stepStates s' = Session.stepStates s ->
  Session.stepEl s' = Session.stepEl s ->
  Session.dataScrollamaIndex s' = Session.dataScrollamaIndex s ->
  Session.callback s' = Session.callback s ->
  Session.triggerOnce s' = Session.triggerOnce s ->
  Session.exclude s' = Session.exclude s ->
  Session.log s' = Session.log s ++ evs -> stepCalls evs = [] ->
  takesTurns n s s'.
Proof.
  intros Hst Hel Hat Hcb Hto Hex Hlog Hcalls (Hn & (els & sts & Hwf & Hlen) & Hr & He & Hx & Ht & Hc).
  split.
  - split; [exact Hn|]. split.
    + exists els, sts. split; [|exact Hlen].
      destruct Hwf as (H1 & H2 & H3 & H4). unfold wellIndexed.
      rewrite Hel, Hst, Hat. auto.
    + rewrite Hat, Hcb, Hto, Hex. auto.
  - exists evs. split; [exact Hlog|]. intros i.
    rewrite <- alternates_stepCalls, Hcalls. unfold enteredAt. now rewrite Hst.
Qed.

Lemma runs_fst {A : Type} (m : M A) (s s' : Session.t) (a : A) :
  runs m s s' a -> fst (m s) = s'.
Proof. unfold runs. now intros ->. Qed.

Lemma steady_index (n : nat) (s : Session.t) (el : nat) :
  steady n s -> (indexOf s el < n)%nat.
Proof.
  intros (Hn & _ & Hr & _). unfold indexOf.
  destruct (Session.dataScrollamaIndex s !! el) as [i|] eqn:E; [|exact Hn].
  exact (Hr el i E).
Qed.

Lemma steady_states (n : nat) (s : Session.t) :
  steady n s -> exists sts, Session.stepStates s = Some sts /\ length sts = n.
Proof.
  intros (_ & (els & sts & (_ & Hs & _) & Hlen) & _). now exists sts.
Qed.

Lemma steady_withStep (n : nat) (s : Session.t) (sts : list StepState.t) (i : nat)
    (x : StepState.t) (evs : list Event) :
  steady n s -> Session.stepStates s = Some sts ->
  steady n (Session.set_log evs (withStep i x sts s)).
Proof.
  intros (Hn & (els & sts0 & (H1 & H2 & H3 & H4) & Hlen) & Hrest) Hs.
  assert (sts0 = sts) by congruence. subst sts0.
  split; [exact Hn|]. split; [|exact Hrest].
  exists els, (<[i := x]> sts). split; [|now rewrite length_insert].
  repeat split; cbn; auto. now rewrite length_insert.
Qed.

Lemma exit_effect (s : Session.t) (sts : list StepState.t) (el : nat)
    (ss : StepState.t) (d : Direction) :
  Session.stepStates s = Some sts -> sts !! indexOf s el = Some ss ->
  runs (notifyStepExit el d) s
    (Session.set_log (Session.log s ++ exitLog s (indexOf s el) d)
       (withStep (indexOf s el) (StepState.mk (Some d) (Some exit)) sts s)) tt.
Proof.
  intros Hs Hi. unfold notifyStepExit.
  eapply runs_bind; [reflexivity|].
  eapply runs_setStep_then; [exact Hs | exact Hi|].
  unfold exitLog, withStep, notifyStepProgress, getIndex, emit, indexOf.
  destruct (Session.progressMode s) eqn:Em, d,
    (Callbacks.callable (Callbacks.stepProgress (Session.callback s))) eqn:Ep,
    (Callbacks.callable (Callbacks.stepExit (Session.callback s))) eqn:Ee;
    unfold runs, bind, gets, when, modify, ret;
    repeat (progress (simpl; rewrite ?Em, ?Ep, ?Ee));
    rewrite <- ?app_assoc, ?app_nil_r; reflexivity.
Qed.

Lemma steady_ext (n : nat) (s s' : Session.t) (sts sts' : list StepState.t) :
  steady n s ->
  Session.stepStates s = Some sts -> Session.stepStates s' = Some sts' ->
  length sts' = length sts ->
  Session.stepEl s' = Session.stepEl s ->
  Session.dataScrollamaIndex s' = Session.dataScrollamaIndex s ->
  Session.callback s' = Session.callback s ->
  Session.triggerOnce s' = Session.triggerOnce s ->
  Session.exclude s' = Session.exclude s ->
  steady n s'.
Proof.
  intros (Hn & (els & sts0 & (H1 & H2 & H3 & H4) & Hlen) & Hrest) Hs Hs' Hl Hel Hat Hcb Hto Hex.
  assert (sts0 = sts) by congruence. subst sts0.
  split; [exact Hn|]. split.
  - exists els, sts'. split; [|congruence].
    unfold wellIndexed. rewrite Hel, Hat. repeat split; auto. congruence.
  - rewrite Hat, Hcb, Hto, Hex. exact Hrest.
Qed.

Lemma enterExclude_steady (n : nat) (s : Session.t) (i : nat) :
  steady n s -> enterExclude s i = Session.exclude s.
Proof.
  intros (_ & _ & _ & _ & _ & Ht & _). unfold enterExclude.
  now rewrite Ht, andb_false_r.
Qed.

Lemma stepCalls_enterLogAt (n : nat) (s : Session.t) (i pi : nat) (d : Direction) :
  steady n s -> stepCalls (enterLogAt s i pi d) = [CallStepEnter i d].
Proof.
  intros (_ & _ & _ & He & _ & _ & Hx). unfold enterLogAt, enterCall.
  rewrite He, Hx, stepCalls_app.
  destruct (_ && _); reflexivity.
Qed.

(** [notifyStepExit], on a steady session: the entry of the step is
    rewritten and the exit callback invoked. *)
Lemma exit_step (n : nat) (s : Session.t) (sts : list StepState.t) (el : nat)
    (d : Direction) :
  steady n s -> Session.stepStates s = Some sts ->
  exists s',
    runs (notifyStepExit el d) s s' tt /\
    steady n s' /\
    Session.dataScrollamaIndex s' = Session.dataScrollamaIndex s /\
    Session.stepEl s' = Session.stepEl s /\
    Session.preserveOrder s' = Session.preserveOrder s /\
    Session.stepStates s'
    = Some (<[indexOf s el := StepState.mk (Some d) (Some exit)]> sts) /\
    exists evs, Session.log s' = Session.log s ++ evs /\
                stepCalls evs = [CallStepExit (indexOf s el) d].
Proof.
  intros Hst Hs.
  pose proof (steady_index n s el Hst) as Hi.
  destruct (steady_states n s Hst) as (sts0 & Hs0 & Hlen).
  assert (sts0 = sts) by congruence. subst sts0.
  destruct (lookup_lt_is_Some_2 sts (indexOf s el)) as [ss Hss]; [lia|].
  eexists. split; [apply (exit_effect s sts el ss d Hs Hss)|].
  split; [now apply steady_withStep|]. repeat (split; [reflexivity|]).
  eexists. split; [reflexivity|]. apply stepCalls_exitLog. apply Hst.
Qed.

(** [notifyStepEnter] with [check = false], on a steady session. *)
Lemma enter_step (n : nat) (others : nat -> Location -> M unit) (s : Session.t)
    (sts : list StepState.t) (el : nat) (d : Direction) :
  steady n s -> Session.stepStates s = Some sts ->
  exists s',
    runs (notifyStepEnterWith others el d false) s s' tt /\
    steady n s' /\
    Session.dataScrollamaIndex s' = Session.dataScrollamaIndex s /\
    Session.stepEl s' = Session.stepEl s /\
    Session.preserveOrder s' = Session.preserveOrder s /\
    Session.stepStates s'
    = Some (<[indexOf s el := StepState.mk (Some d) (Some enter)]> sts) /\
    exists evs, Session.log s' = Session.log s ++ evs /\
                stepCalls evs = [CallStepEnter (indexOf s el) d].
Proof.
  intros Hst Hs.
  pose proof (steady_index n s el Hst) as Hi.
  destruct (steady_states n s Hst) as (sts0 & Hs0 & Hlen).
  assert (sts0 = sts) by congruence. subst sts0.
  destruct (lookup_lt_is_Some_2 sts (indexOf s el)) as [ss Hss]; [lia|].
  set (i := indexOf s el) in *.
  set (s1 := withStep i (StepState.mk (Some d) (Some enter)) sts s).
  assert (Hst1 : steady n s1).
  { apply (steady_ext n s s1 sts (<[i := StepState.mk (Some d) (Some enter)]> sts));
      try reflexivity; try assumption. now rewrite length_insert. }
  exists (Session.set_log
            (Session.log s1
             ++ enterLogAt s1 i (default 0%nat (Session.dataScrollamaIndex s1 !! el)) d)
            (Session.set_exclude (enterExclude s1 i) s1)).
  split.
  { rewrite notifyStepEnterWith_unfold.
    eapply runs_bind; [reflexivity|].
    eapply runs_setStep_then; [exact Hs | exact Hss|]. fold s1.
    eapply runs_bind; [apply runs_gets|].
    rewrite andb_false_r. cbn [andb].
    eapply runs_bind; [reflexivity|].
    eapply runs_bind; [reflexivity|].
    unfold runs. apply enterTail_effect. }
  split.
  { apply (steady_ext n s1 _ (<[i := StepState.mk (Some d) (Some enter)]> sts)
             (<[i := StepState.mk (Some d) (Some enter)]> sts));
      try reflexivity; try assumption.
    cbn. apply (enterExclude_steady n s1 i Hst1). }
  repeat (split; [reflexivity|]).
  eexists. split; [reflexivity|]. apply (stepCalls_enterLogAt n). exact Hst1.
Qed.

Lemma enteredAt_insert (s s' : Session.t) (sts : list StepState.t) (i k : nat)
    (x : StepState.t) :
  Session.stepStates s = Some sts -> Session.stepStates s' = Some (<[i := x]> sts) ->
  (i < length sts)%nat ->
  enteredAt s' k = if Nat.eqb i k then StepState.entered x else enteredAt s k.
Proof.
  intros Hs Hs' Hi. unfold enteredAt. rewrite Hs, Hs'.
  destruct (Nat.eqb_spec i k) as [-> | Hne].
  - now rewrite list_lookup_insert_eq.
  - now rewrite list_lookup_insert_ne.
Qed.

Lemma alternates_calls (k : nat) (evs : list Event) (calls : list Event) (b : bool) :
  stepCalls evs = calls -> alternates k b evs = alternates k b calls.
Proof. intros <-. symmetry. apply alternates_stepCalls. Qed.

(** One round of the loops of [notifyOthers], for step [j]: the calls
    it makes are for step [j] only, they come in turn, and they leave
    step [j] not entered. *)
Lemma notifyOther_turn (n : nat) (s : Session.t) (j : nat) (d : Direction) :
  steady n s -> (j < n)%nat ->
  exists s' evs,
    runs (notifyOther d j) s s' tt /\
    steady n s' /\
    Session.preserveOrder s' = Session.preserveOrder s /\
    Session.dataScrollamaIndex s' = Session.dataScrollamaIndex s /\
    Session.log s' = Session.log s ++ evs /\
    (forall k, k <> j ->
       enteredAt s' k = enteredAt s k /\ forall b, alternates k b evs = Some b) /\
    alternates j (enteredAt s j) evs = Some false /\
    enteredAt s' j = false.
Proof.
  intros Hst Hj.
  pose proof Hst as (_ & (els & sts & Hwf & Hlen) & _).
  pose proof Hwf as (Hels & Hsts & Hll & Hattr).
  destruct (lookup_lt_is_Some_2 sts j) as [ss Hss]; [lia|].
  destruct (lookup_lt_is_Some_2 els j) as [el Hel]; [lia|].
  assert (Hidx : indexOf s el = j) by (unfold indexOf; now rewrite (Hattr j el Hel)).
  assert (Hent : enteredAt s j = StepState.entered ss).
  { unfold enteredAt. now rewrite Hsts, Hss. }
  unfold notifyOther. fold (opposite d).
  destruct (StepState.entered ss) eqn:Eent.
  - destruct (exit_step n s sts el d Hst Hsts)
      as (s1 & Hrun & Hst1 & Hat1 & Hel1 & Hpo1 & Hs1 & evs & Hlog & Hcalls).
    rewrite Hidx in Hs1, Hcalls.
    exists s1, evs. split.
    { eapply runs_bind; [eapply runs_stepStateAt; eauto|]. rewrite Eent.
      eapply runs_bind.
      { apply runs_when_true.
        eapply runs_bind; [eapply runs_stepElAt; eauto|]. exact Hrun. }
      eapply runs_bind.
      { eapply runs_stepStateAt; [exact Hs1|]. apply list_lookup_insert_eq. lia. }
      rewrite directionIs_opposite. apply runs_when_false. }
    split; [exact Hst1|]. split; [exact Hpo1|]. split; [exact Hat1|].
    split; [exact Hlog|]. split; [|split].
    + intros k Hk. split.
      * rewrite (enteredAt_insert s s1 sts j k _ Hsts Hs1) by lia.
        destruct (Nat.eqb_spec j k); [congruence | reflexivity].
      * intros b. rewrite (alternates_calls k evs _ b Hcalls). cbn [alternates].
        destruct (Nat.eqb_spec j k); [congruence | reflexivity].
    + rewrite (alternates_calls j evs _ _ Hcalls), Hent. cbn [alternates].
      now rewrite Nat.eqb_refl.
    + rewrite (enteredAt_insert s s1 sts j j _ Hsts Hs1) by lia.
      now rewrite Nat.eqb_refl.
  - destruct (StepState.directionIs (opposite d) ss) eqn:Edir.
    + destruct (enter_step n (fun _ _ => ret tt) s sts el d Hst Hsts)
        as (s1 & Hrun1 & Hst1 & Hat1 & Hel1 & Hpo1 & Hs1 & evs1 & Hlog1 & Hcalls1).
      assert (Hidx1 : indexOf s1 el = j) by (unfold indexOf in *; now rewrite Hat1).
      destruct (exit_step n s1 _ el d Hst1 Hs1)
        as (s2 & Hrun2 & Hst2 & Hat2 & Hel2 & Hpo2 & Hs2 & evs2 & Hlog2 & Hcalls2).
      rewrite Hidx in *. rewrite Hidx1 in *.
      rewrite list_insert_insert_eq in Hs2.
      assert (Hcalls : stepCalls (evs1 ++ evs2) = [CallStepEnter j d; CallStepExit j d]).
      { now rewrite stepCalls_app, Hcalls1, Hcalls2. }
      exists s2, (evs1 ++ evs2). split.
      { eapply runs_bind; [eapply runs_stepStateAt; eauto|]. rewrite Eent.
        eapply runs_bind; [apply runs_when_false|].
        eapply runs_bind; [eapply runs_stepStateAt; eauto|]. rewrite Edir.
        apply runs_when_true.
        eapply runs_bind; [eapply runs_stepElAt; eauto|].
        eapply runs_bind; [exact Hrun1|].
        eapply runs_bind; [eapply runs_stepElAt; [rewrite Hel1; exact Hels | exact Hel]|].
        exact Hrun2. }
      split; [exact Hst2|]. split; [congruence|]. split; [congruence|].
      split; [now rewrite Hlog2, Hlog1, app_assoc|]. split; [|split].
      * intros k Hk. split.
        -- rewrite (enteredAt_insert s s2 sts j k _ Hsts Hs2) by lia.
           destruct (Nat.eqb_spec j k); [congruence | reflexivity].
        -- intros b. rewrite (alternates_calls k _ _ b Hcalls). cbn [alternates].
           destruct (Nat.eqb_spec j k); [congruence | reflexivity].
      * rewrite (alternates_calls j _ _ _ Hcalls), Hent. cbn [alternates].
        now rewrite Nat.eqb_refl.
      * rewrite (enteredAt_insert s s2 sts j j _ Hsts Hs2) by lia.
        now rewrite Nat.eqb_refl.
    + exists s, []. split.
      { eapply runs_bind; [eapply runs_stepStateAt; eauto|]. rewrite Eent.
        eapply runs_bind; [apply runs_when_false|].
        eapply runs_bind; [eapply runs_stepStateAt; eauto|]. rewrite Edir.
        apply runs_when_false. }
      split; [exact Hst|]. split; [reflexivity|]. split; [reflexivity|].
      split; [now rewrite app_nil_r|]. split; [|split].
      * intros k Hk. split; reflexivity.
      * now rewrite Hent.
      * exact Hent.
Qed.

(** The loops of [notifyOthers] over distinct steps: the calls are for
    the visited steps only, come in turn, and leave every visited step
    not entered. *)
Lemma forEach_notifyOther_turn (n : nat) (d : Direction) (js : list nat) :
  forall s,
    steady n s -> List.NoDup js -> (forall j, In j js -> (j < n)%nat) ->
    exists s' evs,
      runs (forEach js (notifyOther d)) s s' tt /\
      steady n s' /\
      Session.preserveOrder s' = Session.preserveOrder s /\
      Session.dataScrollamaIndex s' = Session.dataScrollamaIndex s /\
      Session.log s' = Session.log s ++ evs /\
      (forall k, ~ In k js ->
         enteredAt s' k = enteredAt s k /\ forall b, alternates k b evs = Some b) /\
      (forall k, In k js ->
         alternates k (enteredAt s k) evs = Some false /\ enteredAt s' k = false).
Proof.
  induction js as [|j js IH]; intros s Hst Hnd Hlt.
  - exists s, []. split; [reflexivity|]. split; [exact Hst|].
    split; [reflexivity|]. split; [reflexivity|]. split; [now rewrite app_nil_r|].
    split; [|intros k []]. intros k _. split; reflexivity.
  - apply List.NoDup_cons_iff in Hnd. destruct Hnd as [Hnotin Hnd].
    destruct (notifyOther_turn n s j d Hst)
      as (s1 & evs1 & Hrun1 & Hst1 & Hpo1 & Hat1 & Hlog1 & Hout1 & Halt1 & Hent1);
      [apply Hlt; now left|].
    destruct (IH s1 Hst1 Hnd)
      as (s2 & evs2 & Hrun2 & Hst2 & Hpo2 & Hat2 & Hlog2 & Hout2 & Hin2).
    { intros k Hk. apply Hlt. now right. }
    exists s2, (evs1 ++ evs2). split.
    { cbn [forEach]. eapply runs_bind; [exact Hrun1 | exact Hrun2]. }
    split; [exact Hst2|]. split; [congruence|]. split; [congruence|].
    split; [now rewrite Hlog2, Hlog1, app_assoc|]. split.
    + intros k Hk. cbn [In] in Hk.
      assert (Hkj : k <> j) by (intros ->; tauto).
      assert (Hkjs : ~ In k js) by tauto.
      destruct (Hout1 k Hkj) as [He1 Ha1]. destruct (Hout2 k Hkjs) as [He2 Ha2].
      split; [congruence|]. intros b. now rewrite alternates_app, Ha1, Ha2.
    + intros k [<- | Hk].
      * destruct (Hout2 j Hnotin) as [He2 Ha2].
        split; [now rewrite alternates_app, Halt1, Ha2 | congruence].
      * assert (Hkj : k <> j) by (intros ->; contradiction).
        destruct (Hout1 k Hkj) as [He1 Ha1]. destruct (Hin2 k Hk) as [Ha2 He2].
        split; [|exact He2]. now rewrite alternates_app, Ha1, <- He1, Ha2.
Qed.

(** The two guarded calls of [notifyOthers] in [notifyStepEnter], for
    the entering step [i]: whichever runs, the calls it makes are for
    steps other than [i], come in turn and leave those steps not
    entered. *)
Lemma others_turn (n : nat) (s : Session.t) (i : nat) (d : Direction) (b : bool) :
  steady n s -> (i < n)%nat ->
  exists sa s' evs js,
    runs (when (b && Direction_eqb d down) (notifyOthers i above)) s sa tt /\
    runs (when (b && Direction_eqb d up) (notifyOthers i below)) sa s' tt /\
    steady n s' /\
    Session.dataScrollamaIndex s' = Session.dataScrollamaIndex s /\
    Session.log s' = Session.log s ++ evs /\
    ~ In i js /\
    (forall k, ~ In k js ->
       enteredAt s' k = enteredAt s k /\ forall b, alternates k b evs = Some b) /\
    (forall k, In k js ->
       alternates k (enteredAt s k) evs = Some false /\ enteredAt s' k = false).
Proof.
  intros Hst Hi. destruct b.
  - destruct (steady_states n s Hst) as (sts & Hs & Hlen).
    destruct (skippedSteps_spec d i n) as (Hnd & Hrange & Hnotin).
    destruct (forEach_notifyOther_turn n d (skippedSteps d i n) s Hst Hnd)
      as (s' & evs & Hrun & Hst' & _ & Hat & Hlog & Hout & Hin).
    { intros j Hj. specialize (Hrange j Hj). destruct d; lia. }
    assert (Hothers : runs (notifyOthers i (match d with down => above | up => below end))
                        s s' tt).
    { apply (runs_notifyOthers s s' sts); [exact Hs | now rewrite Hlen]. }
    destruct d; cbn [andb Direction_eqb].
    + exists s, s', evs, (skippedSteps up i n).
      split; [apply runs_when_false|]. split; [now apply runs_when_true|]. auto 10.
    + exists s', s', evs, (skippedSteps down i n).
      split; [now apply runs_when_true|]. split; [apply runs_when_false|]. auto 10.
  - exists s, s, [], []. cbn [andb].
    split; [apply runs_when_false|]. split; [apply runs_when_false|].
    split; [exact Hst|]. split; [reflexivity|]. split; [now rewrite app_nil_r|].
    split; [intros []|]. split; [|intros k []]. intros k _. split; reflexivity.
Qed.

(** An enter for a step that is not entered comes in turn, together
    with the calls synthesized for the steps it skipped. *)
Lemma enter_turn (n : nat) (s : Session.t) (el : nat) (d : Direction) (check : bool) :
  steady n s -> enteredAt s (indexOf s el) = false ->
  exists s',
    runs (notifyStepEnter el d check) s s' tt /\
    steady n s' /\ inTurn s s' /\
    Session.dataScrollamaIndex s' = Session.dataScrollamaIndex s /\
    enteredAt s' (indexOf s el) = true.
Proof.
  intros Hst Hent.
  pose proof (steady_index n s el Hst) as Hi.
  destruct (steady_states n s Hst) as (sts & Hs & Hlen).
  destruct (lookup_lt_is_Some_2 sts (indexOf s el)) as [ss Hss]; [lia|].
  set (i := indexOf s el) in *.
  set (x := StepState.mk (Some d) (Some enter)).
  set (s1 := withStep i x sts s).
  assert (Hs1 : Session.stepStates s1 = Some (<[i := x]> sts)) by reflexivity.
  assert (Hst1 : steady n s1).
  { apply (steady_ext n s s1 sts (<[i := x]> sts)); try reflexivity; try assumption.
    now rewrite length_insert. }
  destruct (others_turn n s1 i d (Session.preserveOrder s1 && check) Hst1 Hi)
    as (sa & s2 & evs & js & Hra & Hrb & Hst2 & Hat2 & Hlog2 & Hnotin & Hout & Hin).
  assert (Hs2 : exists sts2, Session.stepStates s2 = Some sts2)
    by (destruct (steady_states n s2 Hst2) as (sts2 & H2 & _); eauto).
  destruct Hs2 as (sts2 & Hs2).
  set (tail := enterLogAt s2 i (default 0%nat (Session.dataScrollamaIndex s2 !! el)) d).
  assert (Htail : stepCalls tail = [CallStepEnter i d])
    by (apply (stepCalls_enterLogAt n); exact Hst2).
  exists (Session.set_log (Session.log s2 ++ tail)
            (Session.set_exclude (enterExclude s2 i) s2)).
  assert (Hent3 : forall k,
            enteredAt (Session.set_log (Session.log s2 ++ tail)
                         (Session.set_exclude (enterExclude s2 i) s2)) k
            = enteredAt s2 k) by reflexivity.
  assert (Hent1 : forall k, enteredAt s1 k = if Nat.eqb i k then true else enteredAt s k).
  { intros k. apply (enteredAt_insert s s1 sts i k x Hs Hs1). lia. }
  split; [|split; [|split; [|split]]].
  - unfold notifyStepEnter. rewrite notifyStepEnterWith_unfold.
    eapply runs_bind; [reflexivity|].
    eapply runs_setStep_then; [exact Hs | exact Hss|]. fold x. fold s1.
    eapply runs_bind; [apply runs_gets|].
    eapply runs_bind; [exact Hra|].
    eapply runs_bind; [exact Hrb|].
    unfold runs. apply enterTail_effect.
  - apply (steady_ext n s2 _ sts2 sts2); try reflexivity; try assumption.
    cbn. apply (enterExclude_steady n s2 i Hst2).
  - exists (evs ++ tail). split.
    + cbn. rewrite Hlog2. cbn. now rewrite app_assoc.
    + intros k. rewrite alternates_app, Hent3.
      destruct (in_dec Nat.eq_dec k js) as [Hk | Hk].
      * destruct (Hin k Hk) as [Ha He].
        assert (Hki : i <> k) by (intros ->; contradiction).
        rewrite Hent1 in Ha. rewrite (proj2 (Nat.eqb_neq i k) Hki) in Ha.
        rewrite Ha, (alternates_calls k tail _ _ Htail). cbn [alternates].
        rewrite (proj2 (Nat.eqb_neq i k) Hki). now rewrite He.
      * destruct (Hout k Hk) as [He Ha].
        rewrite Ha, (alternates_calls k tail _ _ Htail), He, Hent1. cbn [alternates].
        destruct (Nat.eqb_spec i k) as [<- | Hne]; [now rewrite Hent | reflexivity].
  - cbn. rewrite Hat2. reflexivity.
  - rewrite Hent3. destruct (Hout i Hnotin) as [He _].
    now rewrite He, Hent1, Nat.eqb_refl.
Qed.

(** An exit call for a step that is entered comes in turn. *)
Lemma exit_turn (n : nat) (s : Session.t) (el : nat) (d : Direction) :
  steady n s -> enteredAt s (indexOf s el) = true ->
  exists s',
    runs (notifyStepExit el d) s s' tt /\
    steady n s' /\ inTurn s s'.
Proof.
  intros Hst Hent.
  pose proof (steady_index n s el Hst) as Hi.
  destruct (steady_states n s Hst) as (sts & Hs & Hlen).
  destruct (exit_step n s sts el d Hst Hs)
    as (s' & Hrun & Hst' & _ & _ & _ & Hs' & evs & Hlog & Hcalls).
  exists s'. split; [exact Hrun|]. split; [exact Hst'|].
  exists evs. split; [exact Hlog|]. intros k.
  rewrite (alternates_calls k evs _ _ Hcalls).
  rewrite (enteredAt_insert s s' sts _ k _ Hs Hs') by lia. cbn [alternates].
  destruct (Nat.eqb_spec (indexOf s el) k) as [<- | Hne]; [now rewrite Hent | reflexivity].
Qed.

(** What a handler knows of the step an entry is for. *)
Lemma steady_lookup (n : nat) (s : Session.t) (target : nat) :
  steady n s ->
  exists sts ss,
    Session.stepStates s = Some sts /\
    sts !! default 0%nat (Session.dataScrollamaIndex s !! target) = Some ss /\
    enteredAt s (indexOf s target) = StepState.entered ss.
Proof.
  intros Hst. destruct (steady_states n s Hst) as (sts & Hs & Hlen).
  pose proof (steady_index n s target Hst) as Hi.
  destruct (lookup_lt_is_Some_2 sts (indexOf s target)) as [ss Hss]; [lia|].
  exists sts, ss. split; [exact Hs|]. split; [exact Hss|].
  unfold enteredAt. now rewrite Hs, Hss.
Qed.

Ltac turn_leaf s :=
  first
    [ split; [assumption | reflexivity]
    | match goal with
      | H : exists s', runs ?m s s' tt /\ _ |- _ /\ inTurn s (fst (?m s)) =>
          let s' := fresh "s'" in
          let Hrun := fresh "Hrun" in
          destruct H as (s' & Hrun & ? & ? & _);
          rewrite (runs_fst _ _ _ _ Hrun); split; assumption
      | H : exists s', runs ?m s s' tt /\ _ /\ _ |- _ /\ inTurn s (fst (?m s)) =>
          let s' := fresh "s'" in
          let Hrun := fresh "Hrun" in
          destruct H as (s' & Hrun & ? & ?);
          rewrite (runs_fst _ _ _ _ Hrun); split; assumption
      end ].

Ltac turn_crunch s :=
  repeat first
    [ turn_leaf s
    | match goal with
      | |- context [match ?x with _ => _ end] =>
          lazymatch x with
          | context [match _ with _ => _ end] => fail
          | _ => destruct x eqn:?; cbn
          end
      end ].

Lemma stepAbove_turn (n : nat) (es : list Registry.Entry) :
  preserves (takesTurns n)
    (forEach es (fun entry =>
       let isIntersecting := Registry.isIntersecting entry in
       let target := Registry.target entry in
       let bottom := Rect.bottom (Registry.boundingClientRect entry) in
       let height := Rect.height (Registry.boundingClientRect entry) in
       offsetMargin <- gets Session.offsetMargin ;;
       let bottomAdjusted := (bottom - offsetMargin)%Q in
       index <- getIndex target ;;
       ss <- lookupStepState index ;;
       isDown <- directionIs down ;;
       isUp <- directionIs up ;;
       when (Qle_bool (- ZERO_MOE) bottomAdjusted)
         (c1 <- andThen (isIntersecting && isDown) (ssNotEntered ss) ;;
          if c1 then notifyStepEnter target down true
          else
            c2 <- andThen (negb isIntersecting && isUp) (ssEntered ss) ;;
            if c2 then notifyStepExit target up
            else
              c3 <- andThen (negb isIntersecting && Qle_bool height bottomAdjusted
                             && isDown) (ssEntered ss) ;;
              when c3 (notifyStepExit target down)))).
Proof.
  apply preserves_forEach; [typeclasses eauto|]. intros entry s Hst. cbv zeta.
  destruct (steady_lookup n s (Registry.target entry) Hst) as (sts & ss & Hs & Hss & Hent).
  pose proof (enter_turn n s (Registry.target entry) down true Hst) as Henter.
  pose proof (exit_turn n s (Registry.target entry) up Hst) as Hup.
  pose proof (exit_turn n s (Registry.target entry) down Hst) as Hdown.
  rewrite Hent in Henter, Hup, Hdown.
  set (mE := notifyStepEnter (Registry.target entry) down true) in *.
  set (mU := notifyStepExit (Registry.target entry) up) in *.
  set (mD := notifyStepExit (Registry.target entry) down) in *.
  clearbody mE mU mD.
  unfold getIndex, lookupStepState, directionIs, andThen, ssNotEntered, ssEntered,
    bind, gets, defined, when, ret, throw. cbn.
  rewrite Hs. cbn. rewrite Hss. cbn.
  destruct (StepState.entered ss);
    [ specialize (Hup eq_refl); specialize (Hdown eq_refl); clear Henter
    | specialize (Henter eq_refl); clear Hup Hdown ];
    cbn; turn_crunch s.
Qed.

Lemma stepBelow_turn (n : nat) (es : list Registry.Entry) :
  preserves (takesTurns n)
    (forEach es (fun entry =>
       let isIntersecting := Registry.isIntersecting entry in
       let target := Registry.target entry in
       let bottom := Rect.bottom (Registry.boundingClientRect entry) in
       let height := Rect.height (Registry.boundingClientRect entry) in
       offsetMargin <- gets Session.offsetMargin ;;
       let bottomAdjusted := (bottom - offsetMargin)%Q in
       index <- getIndex target ;;
       ss <- lookupStepState index ;;
       isDown <- directionIs down ;;
       isUp <- directionIs up ;;
       c1 <- andThen (Qle_bool (- ZERO_MOE) bottomAdjusted
                      && Registry.Qlt_bool bottomAdjusted height
                      && isIntersecting && isUp) (ssNotEntered ss) ;;
       if c1 then notifyStepEnter target up true
       else
         c2 <- andThen (Qle_bool bottomAdjusted ZERO_MOE && negb isIntersecting
                        && isDown) (ssEntered ss) ;;
         when c2 (notifyStepExit target down))).
Proof.
  apply preserves_forEach; [typeclasses eauto|]. intros entry s Hst. cbv zeta.
  destruct (steady_lookup n s (Registry.target entry) Hst) as (sts & ss & Hs & Hss & Hent).
  pose proof (enter_turn n s (Registry.target entry) up true Hst) as Henter.
  pose proof (exit_turn n s (Registry.target entry) down Hst) as Hdown.
  rewrite Hent in Henter, Hdown.
  set (mE := notifyStepEnter (Registry.target entry) up true) in *.
  set (mD := notifyStepExit (Registry.target entry) down) in *.
  clearbody mE mD.
  unfold getIndex, lookupStepState, directionIs, andThen, ssNotEntered, ssEntered,
    bind, gets, defined, when, ret, throw. cbn.
  rewrite Hs. cbn. rewrite Hss. cbn.
  destruct (StepState.entered ss);
    [ specialize (Hdown eq_refl); clear Henter
    | specialize (Henter eq_refl); clear Hdown ];
    cbn; turn_crunch s.
Qed.

(** The fallback of the viewport handlers: an enter followed at once
    by an exit, for a step that is not entered. *)
Lemma enter_exit_turn (n : nat) (s : Session.t) (el : nat) (d : Direction) :
  steady n s -> enteredAt s (indexOf s el) = false ->
  exists s',
    runs (notifyStepEnter el d true ;; notifyStepExit el d) s s' tt /\
    steady n s' /\ inTurn s s'.
Proof.
  intros Hst Hent.
  destruct (enter_turn n s el d true Hst Hent) as (s1 & Hr1 & Hst1 & Ht1 & Hat1 & He1).
  assert (Hidx : indexOf s1 el = indexOf s el) by (unfold indexOf; now rewrite Hat1).
  destruct (exit_turn n s1 el d Hst1) as (s2 & Hr2 & Hst2 & Ht2); [now rewrite Hidx|].
  exists s2. split; [eapply runs_bind; eauto|]. split; [exact Hst2|].
  now transitivity s1.
Qed.

Lemma viewport_turn (n : nat) (d : Direction) (es : list Registry.Entry) :
  preserves (takesTurns n)
    (forEach es (fun entry =>
       let isIntersecting := Registry.isIntersecting entry in
       let target := Registry.target entry in
       index <- getIndex target ;;
       ss <- lookupStepState index ;;
       isD <- directionIs d ;;
       c1 <- andThen (isIntersecting && isD) (ssNotEntered ss) ;;
       c <- andThen c1 (ssDirectionIsNot d ss) ;;
       when c (notifyStepEnter target d true ;; notifyStepExit target d))).
Proof.
  apply preserves_forEach; [typeclasses eauto|]. intros entry s Hst. cbv zeta.
  destruct (steady_lookup n s (Registry.target entry) Hst) as (sts & ss & Hs & Hss & Hent).
  pose proof (enter_exit_turn n s (Registry.target entry) d Hst) as Hboth.
  rewrite Hent in Hboth.
  set (m := (notifyStepEnter (Registry.target entry) d true ;;
             notifyStepExit (Registry.target entry) d)) in *.
  clearbody m.
  unfold getIndex, lookupStepState, directionIs, andThen, ssNotEntered, ssDirectionIsNot,
    bind, gets, defined, when, ret, throw. cbn.
  rewrite Hs. cbn. rewrite Hss. cbn.
  destruct (StepState.entered ss); [clear Hboth | specialize (Hboth eq_refl)];
    cbn; turn_crunch s.
Qed.

Lemma takesTurns_call (n : nat) (slot : Callbacks.t -> option JsCallback) (e : Event) :
  isStepCall e = false -> preserves (takesTurns n) (guardedCall slot e).
Proof.
  intros He s. rewrite guardedCall_effect. cbn [fst].
  destruct (Callbacks.callable _); [|reflexivity].
  apply (takesTurns_quiet n s _ [e]); try reflexivity.
  unfold stepCalls. cbn. now rewrite He.
Qed.

Lemma takesTurns_silent (n : nat) (s s' : Session.t) :
  Session.stepStates s' = Session.stepStates s ->
  Session.stepEl s' = Session.stepEl s ->
  Session.dataScrollamaIndex s' = Session.dataScrollamaIndex s ->
  Session.callback s' = Session.callback s ->
  Session.triggerOnce s' = Session.triggerOnce s ->
  Session.exclude s' = Session.exclude s ->
  Session.log s' = Session.log s ->
  takesTurns n s s'.
Proof.
  intros. apply (takesTurns_quiet n s s' []); try assumption; [|reflexivity].
  now rewrite app_nil_r.
Qed.

(** Whatever an observer delivers to whichever handler, the enter and
    exit calls that follow come in turn. *)
Lemma deliver_turn (n : nat) (h : Handler) (y : Q) (es : list Registry.Entry) :
  preserves (takesTurns n) (runOp (deliver h y es)).
Proof.
  assert (Hdir : preserves (takesTurns n) (updateDirection y)).
  { apply updateDirection_keeps; [typeclasses eauto | |];
      intros; now apply takesTurns_silent. }
  assert (Hprogress : forall el p, preserves (takesTurns n) (notifyStepProgress el p)).
  { apply notifyStepProgress_keeps; [typeclasses eauto|].
    intros i p. now apply takesTurns_call. }
  assert (Hcontainer : forall p, preserves (takesTurns n) (notifyContainer p)).
  { apply notifyContainer_keeps; [typeclasses eauto | | |].
    - intros; now apply takesTurns_silent.
    - intros dir. now apply takesTurns_call.
    - intros dir. now apply takesTurns_call. }
  pose proof (stepAbove_turn n es) as Habove.
  pose proof (stepBelow_turn n es) as Hbelow.
  pose proof (fun d => viewport_turn n d es) as Hview.
  destruct h; cbn [runOp];
    unfold intersectStepAbove, intersectStepBelow, intersectViewportAbove,
      intersectViewportBelow, intersectViewport, intersectStepProgress, intersectTop,
      intersectBottom, containerCrossing, notifyContainerEnter, notifyContainerExit;
    (apply preserves_bind; [typeclasses eauto | exact Hdir | intros _]);
    first [ exact Habove | exact Hbelow | apply Hview
          | repeat first [ solve [auto] | preserve_step ] ].
Qed.

Lemma runOps_turn (n : nat) (ops : list Op) :
  Forall isDelivery ops -> forall s, takesTurns n s (runOps ops s).
Proof.
  induction 1 as [|op ops (h & y & es & ->) _ IH]; intros s; [reflexivity|].
  rewrite runOps_cons. transitivity (fst (runOp (deliver h y es) s)); [|apply IH].
  apply deliver_turn.
Qed.

(** Calls that come in turn never repeat: between two enter calls for
    a step there is an exit call for it, and between two exit calls an
    enter call. *)
Lemma alternates_entered (i : nat) (evs2 evs3 : list Event) (d2 : Direction) :
  alternates i true (evs2 ++ CallStepEnter i d2 :: evs3) <> None ->
  exists d, In (CallStepExit i d) evs2.
Proof.
  induction evs2 as [|e evs2 IH]; cbn [app alternates].
  - rewrite Nat.eqb_refl. congruence.
  - destruct e; try (intros H; destruct (IH H) as [d Hd]; exists d; now right).
    + destruct (Nat.eqb index i); [congruence|].
      intros H; destruct (IH H) as [d Hd]; exists d; now right.
    + destruct (Nat.eqb_spec index i) as [-> | Hne].
      * intros _. exists direction. now left.
      * intros H; destruct (IH H) as [d Hd]; exists d; now right.
Qed.

Lemma alternates_exited (i : nat) (evs2 evs3 : list Event) (d2 : Direction) :
  alternates i false (evs2 ++ CallStepExit i d2 :: evs3) <> None ->
  exists d, In (CallStepEnter i d) evs2.
Proof.
  induction evs2 as [|e evs2 IH]; cbn [app alternates].
  - rewrite Nat.eqb_refl. congruence.
  - destruct e; try (intros H; destruct (IH H) as [d Hd]; exists d; now right).
    + destruct (Nat.eqb_spec index i) as [-> | Hne].
      * intros _. exists direction. now left.
      * intros H; destruct (IH H) as [d Hd]; exists d; now right.
    + destruct (Nat.eqb index i); [congruence|].
      intros H; destruct (IH H) as [d Hd]; exists d; now right.
Qed.

Lemma alternates_no_repeat (i : nat) (b b' : bool) (evs : list Event) :
  alternates i b evs = Some b' ->
  (forall d1 d2 evs1 evs2 evs3,
     evs = evs1 ++ CallStepEnter i d1 :: evs2 ++ CallStepEnter i d2 :: evs3 ->
     exists d, In (CallStepExit i d) evs2) /\
  (forall d1 d2 evs1 evs2 evs3,
     evs = evs1 ++ CallStepExit i d1 :: evs2 ++ CallStepExit i d2 :: evs3 ->
     exists d, In (CallStepEnter i d) evs2).
Proof.
  intros Halt. split; intros d1 d2 evs1 evs2 evs3 ->;
    rewrite alternates_app in Halt;
    destruct (alternates i b evs1) as [b1|]; try discriminate;
    cbn [alternates] in Halt; rewrite Nat.eqb_refl in Halt;
    destruct b1; try discriminate.
  - apply (alternates_entered i evs2 evs3 d2). congruence.
  - apply (alternates_exited i evs2 evs3 d2). congruence.
Qed.

(** X30. On a session set up for distinct steps, with the enter and
    the exit callback registered, without [triggerOnce] and with no
    step excluded, whatever the observers deliver, the enter and exit
    calls of every step come in turn: an enter call is made only for a
    step that is not entered and an exit call only for one that is,
    also the calls synthesized for skipped steps, and the state table
    tells at the end which steps are entered.  So between two enter
    calls for a step there is an exit call for it, and between two
    exit calls an enter call. *)
Theorem step_calls_alternate (n : nat) (ops : list Op) (s : Session.t) :
  steady n s -> Forall isDelivery ops ->
  exists evs,
    Session.log (runOps ops s) = Session.log s ++ evs /\
    (forall i, alternates i (enteredAt s i) evs = Some (enteredAt (runOps ops s) i)) /\
    (forall i d1 d2 evs1 evs2 evs3,
       evs = evs1 ++ CallStepEnter i d1 :: evs2 ++ CallStepEnter i d2 :: evs3 ->
       exists d, In (CallStepExit i d) evs2) /\
    (forall i d1 d2 evs1 evs2 evs3,
       evs = evs1 ++ CallStepExit i d1 :: evs2 ++ CallStepExit i d2 :: evs3 ->
       exists d, In (CallStepEnter i d) evs2).
Proof.
  intros Hst Hops.
  destruct (runOps_turn n ops Hops s Hst) as (_ & evs & Hlog & Halt).
  exists evs. split; [exact Hlog|]. split; [exact Halt|].
  split; intros i; apply (alternates_no_repeat i _ _ evs (Halt i)).
Qed.

Lemma exampleSession_steady : steady 2 (exampleSession false).
Proof.
  split; [lia|].
  split; [exists [10; 11], exampleStates; split;
          [apply exampleSession_wellIndexed | reflexivity]|].
  split; [apply (bool_decide_unpack _); vm_compute; exact Logic.I|].
  repeat split; vm_compute; reflexivity.
Qed.

Lemma step_calls_alternate_witness :
  exists evs,
    Session.log (runOps [deliver hStepAbove 20 [exampleEntry 11 900 true];
                         deliver hStepBelow 10 [exampleEntry 11 400 true]]
                   (exampleSession false))
    = Session.log (exampleSession false) ++ evs /\
    (forall i,
       alternates i (enteredAt (exampleSession false) i) evs
       = Some (enteredAt
                 (runOps [deliver hStepAbove 20 [exampleEntry 11 900 true];
                          deliver hStepBelow 10 [exampleEntry 11 400 true]]
                    (exampleSession false)) i)) /\
    (forall i d1 d2 evs1 evs2 evs3,
       evs = evs1 ++ CallStepEnter i d1 :: evs2 ++ CallStepEnter i d2 :: evs3 ->
       exists d, In (CallStepExit i d) evs2) /\
    (forall i d1 d2 evs1 evs2 evs3,
       evs = evs1 ++ CallStepExit i d1 :: evs2 ++ CallStepExit i d2 :: evs3 ->
       exists d, In (CallStepEnter i d) evs2).
Proof.
  apply (step_calls_alternate 2).
  - exact exampleSession_steady.
  - repeat constructor; eexists _, _, _; reflexivity.
Defined.

End Alternation.
